(** * The local store engine of app.js (class DataLayer)

    A shallow embedding of [class DataLayer] (src/app.js, lines 23-258)
    together with the part of IndexedDB the class is written against.

    - [JSON] and [Key] are the records and the keys of the store.
    - Module [IDB] is the platform: object stores with a key path, an
      optional key generator and secondary indexes, and transactions that
      either commit all of their writes or none.
    - Module [DataLayer] follows the methods of the class one by one, in a
      state-and-rejection monad [Async] over a [World] that holds the
      connection handle, the database, the event listeners, the
      deliveries made so far and the outcomes the environment has in store
      for the next transactions.
    - [escapeHTML] (lines 9-15), the escaping of the texts the page
      shows, is embedded beside it and has its own section of properties.

    Numbers are integers ([Z]); dates, binary keys and fractional numbers
    are not modelled. The methods are run one call at a time, each to the
    end of its promise; calls in flight together, other tabs and the
    [onversionchange] handler (lines 90-93) are outside the model. The
    transaction of [recordLog], which the method does not wait for, is
    settled by the time the method dispatches its event: [idb] is the
    database as the next transaction finds it. *)

From Stdlib Require Import ZArith List String Ascii Bool Lia.
Import ListNotations.
Local Open Scope string_scope.
Local Open Scope Z_scope.
Local Open Scope list_scope.

(* ===================================================================== *)
(** ** Records and keys *)
(* ===================================================================== *)

(** A structured, JSON-serialisable value. Numbers are the integers,
    exact at every size: the numbers of JavaScript are doubles, which
    agree with them up to 2^53 in absolute value (beyond that two
    integers can be one double, and so one key), and fractions are left
    out. A string is the UTF-8 form of the JavaScript string. *)
#[warnings="-register-all"]
Inductive JSON : Type :=
| JNull
| JBool (b : bool)
| JNum (n : Z)
| JStr (s : string)
| JArr (items : list JSON)
| JObj (fields : list (string * JSON)).

(** A valid IndexedDB key: a number, a string, or an array of keys. *)
#[warnings="-register-all"]
Inductive Key : Type :=
| KNum (n : Z)
| KStr (s : string)
| KArr (ks : list Key).

(** What a rejected promise carries. [JSNull] is the JavaScript [null]. *)
Inductive Error : Type :=
| DOMException (name : string)
| TypeError (msg : string)
| JSNull.

Definition DataError := DOMException "DataError".
Definition ConstraintError := DOMException "ConstraintError".
Definition NotFoundError := DOMException "NotFoundError".
Definition ReadOnlyError := DOMException "ReadOnlyError".
Definition VersionError := DOMException "VersionError".
Definition AbortError := DOMException "AbortError".
Definition QuotaExceededError := DOMException "QuotaExceededError".

Section KeyInduction.
Variable P : Key -> Prop.
Hypothesis HNum : forall n, P (KNum n).
Hypothesis HStr : forall s, P (KStr s).
Hypothesis HArr : forall ks, Forall P ks -> P (KArr ks).

Fixpoint Key_nested_ind (k : Key) : P k :=
  match k with
  | KNum n => HNum n
  | KStr s => HStr s
  | KArr ks =>
      HArr ks ((fix all (l : list Key) : Forall P l :=
                  match l with
                  | [] => Forall_nil P
                  | x :: t => Forall_cons x (Key_nested_ind x) (all t)
                  end) ks)
  end.
End KeyInduction.

Fixpoint key_eqb (a b : Key) : bool :=
  match a, b with
  | KNum x, KNum y => Z.eqb x y
  | KStr x, KStr y => String.eqb x y
  | KArr xs, KArr ys =>
      (fix all (l1 l2 : list Key) : bool :=
         match l1, l2 with
         | [], [] => true
         | h1 :: t1, h2 :: t2 => key_eqb h1 h2 && all t1 t2
         | _, _ => false
         end) xs ys
  | _, _ => false
  end.

(** IndexedDB orders string keys by UTF-16 code unit. A string here is
    the UTF-8 form of the JavaScript string, whose byte order is the
    order of code points; the two orders differ only where a character
    of U+E000..U+FFFF (first byte 0xEE or 0xEF) meets one beyond U+FFFF
    (first byte 0xF0 and above), which is a surrogate pair in UTF-16 and
    so comes first. [code_unit_rank] moves the bytes accordingly. *)
Definition code_unit_rank (c : ascii) : N :=
  let n := N_of_ascii c in
  if (n <? 238)%N then n
  else if (n <? 240)%N then (n + 16)%N
  else (n - 2)%N.

Fixpoint code_unit_compare (x y : string) : comparison :=
  match x, y with
  | EmptyString, EmptyString => Eq
  | EmptyString, String _ _ => Lt
  | String _ _, EmptyString => Gt
  | String a x', String b y' =>
      match N.compare (code_unit_rank a) (code_unit_rank b) with
      | Eq => code_unit_compare x' y'
      | c => c
      end
  end.

(** The order of keys: numbers before strings before arrays; strings
    by code unit; arrays compare member by member, a proper prefix
    first. *)
Fixpoint key_compare (a b : Key) : comparison :=
  match a, b with
  | KNum x, KNum y => Z.compare x y
  | KNum _, _ => Lt
  | KStr _, KNum _ => Gt
  | KStr x, KStr y => code_unit_compare x y
  | KStr _, KArr _ => Lt
  | KArr xs, KArr ys =>
      (fix lex (l1 l2 : list Key) : comparison :=
         match l1, l2 with
         | [], [] => Eq
         | [], _ :: _ => Lt
         | _ :: _, [] => Gt
         | h1 :: t1, h2 :: t2 =>
             match key_compare h1 h2 with
             | Eq => lex t1 t2
             | c => c
             end
         end) xs ys
  | KArr _, _ => Gt
  end.

(** Conversion of a value to a key; [None] when the value is not a valid
    key (null, booleans, objects, arrays with such a member). *)
Fixpoint to_key (v : JSON) : option Key :=
  match v with
  | JNum n => Some (KNum n)
  | JStr s => Some (KStr s)
  | JArr items =>
      option_map KArr
        ((fix all (l : list JSON) : option (list Key) :=
            match l with
            | [] => Some []
            | x :: t =>
                match to_key x, all t with
                | Some k, Some ks => Some (k :: ks)
                | _, _ => None
                end
            end) items)
  | _ => None
  end.

(** A key as a value, e.g. inside a log payload. *)
Fixpoint key_json (k : Key) : JSON :=
  match k with
  | KNum n => JNum n
  | KStr s => JStr s
  | KArr ks => JArr (map key_json ks)
  end.

Fixpoint assoc {A : Type} (name : string) (l : list (string * A)) : option A :=
  match l with
  | [] => None
  | (n, x) :: t => if String.eqb n name then Some x else assoc name t
  end.

(** [v[name]] for an own property of a plain object. *)
Definition get_prop (name : string) (v : JSON) : option JSON :=
  match v with
  | JObj fields => assoc name fields
  | _ => None
  end.

Fixpoint set_assoc {A : Type} (name : string) (x : A) (l : list (string * A))
  : list (string * A) :=
  match l with
  | [] => [(name, x)]
  | (n, y) :: t => if String.eqb n name then (n, x) :: t else (n, y) :: set_assoc name x t
  end.

(** [v[name] = x] on a plain object; other values are left as they are. *)
Definition set_prop (name : string) (x : JSON) (v : JSON) : JSON :=
  match v with
  | JObj fields => JObj (set_assoc name x fields)
  | _ => v
  end.

(* ===================================================================== *)
(** ** The platform: IndexedDB object stores, indexes and transactions *)
(* ===================================================================== *)

Module IDB.

Record IndexSpec : Type := mkIndex {
  ix_name : string;
  ix_keyPath : string;
  ix_multiEntry : bool
}.

Record StoreSpec : Type := mkSpec {
  keyPath : string;
  autoIncrement : bool;
  indexes : list IndexSpec
}.

Record ObjectStore : Type := mkStore {
  spec : StoreSpec;
  records : list (Key * JSON);   (* ascending in the key *)
  keygen : Z                     (* the key generator's current number *)
}.

(** [db.objectStoreNames] with the store behind each name. *)
Definition Database : Type := list (string * ObjectStore).

Definition with_records (rs : list (Key * JSON)) (s : ObjectStore) : ObjectStore :=
  mkStore (spec s) rs (keygen s).

(** *** Records of one store *)

Fixpoint lookup (k : Key) (rs : list (Key * JSON)) : option JSON :=
  match rs with
  | [] => None
  | (k', v) :: t => if key_eqb k' k then Some v else lookup k t
  end.

Definition remove (k : Key) (rs : list (Key * JSON)) : list (Key * JSON) :=
  filter (fun r => negb (key_eqb (fst r) k)) rs.

Fixpoint insert (k : Key) (v : JSON) (rs : list (Key * JSON)) : list (Key * JSON) :=
  match rs with
  | [] => [(k, v)]
  | (k', v') :: t =>
      match key_compare k k' with
      | Gt => (k', v') :: insert k v t
      | _ => (k, v) :: (k', v') :: t
      end
  end.

Definition mem (k : Key) (rs : list (Key * JSON)) : bool :=
  match lookup k rs with
  | Some _ => true
  | None => false
  end.

(** Store [v] under [k], replacing the record that has this key. *)
Definition store (k : Key) (v : JSON) (rs : list (Key * JSON)) : list (Key * JSON) :=
  insert k v (remove k rs).

(** *** Key extraction *)

Inductive Extracted : Type :=
| NoKey                (* the key path leads nowhere *)
| InvalidKey           (* the value found there is not a valid key *)
| HasKey (k : Key).

Definition extract_key (path : string) (v : JSON) : Extracted :=
  match get_prop path v with
  | None => NoKey
  | Some x => match to_key x with
              | None => InvalidKey
              | Some k => HasKey k
              end
  end.

Fixpoint dedup (ks : list Key) : list Key :=
  match ks with
  | [] => []
  | k :: t => if existsb (key_eqb k) t then dedup t else k :: dedup t
  end.

Definition valid_keys (items : list JSON) : list Key :=
  flat_map (fun x => match to_key x with Some k => [k] | None => [] end) items.

(** The keys under which index [ix] lists the record [v]. A multi-entry
    index lists an array member by member, skipping members that are not
    keys; a record whose indexed field is missing or not a key is not
    listed at all. *)
Definition index_keys (ix : IndexSpec) (v : JSON) : list Key :=
  match get_prop (ix_keyPath ix) v with
  | None => []
  | Some (JArr items) =>
      if ix_multiEntry ix then dedup (valid_keys items)
      else match to_key (JArr items) with Some k => [k] | None => [] end
  | Some x => match to_key x with Some k => [k] | None => [] end
  end.

(** *** The key generator *)

Definition MAX_GENERATED : Z := 2 ^ 53.

(** An explicit numeric key moves the generator past it. *)
Definition bump (k : Key) (g : Z) : Z :=
  match k with
  | KNum n => let v := Z.min n MAX_GENERATED in if g <=? v then v + 1 else g
  | _ => g
  end.

(** *** Requests *)

Inductive Mode : Type := ReadOnly | ReadWrite.

(** What a request does when issued against the transaction's view [d]
    of the database: it throws before anything is queued, or is queued
    and then fails, or is queued and then succeeds. *)
Inductive OpResult (A : Type) : Type :=
| Throws (e : Error)
| Fails (e : Error)
| Succeeds (a : A) (d : Database).
Arguments Throws {A} e.
Arguments Fails {A} e.
Arguments Succeeds {A} a d.

Definition Op (A : Type) : Type := Mode -> Database -> OpResult A.

Fixpoint find_store (name : string) (d : Database) : option ObjectStore :=
  match d with
  | [] => None
  | (n, s) :: t => if String.eqb n name then Some s else find_store name t
  end.

Fixpoint set_store (name : string) (s : ObjectStore) (d : Database) : Database :=
  match d with
  | [] => []
  | (n, s') :: t =>
      if String.eqb n name then (n, s) :: t else (n, s') :: set_store name s t
  end.

(** The synchronous half of [put] and [add]: which key the record will
    have ([None]: a generated one), or [DataError]. Records are objects:
    in a store with a key generator a value without a key that is not an
    object is refused here, which is what the browser does for
    primitives; an array it would accept, setting the generated key on
    it as a property, which [JSON] has no value for. *)
Definition check_value (s : ObjectStore) (v : JSON) : Error + option Key :=
  match extract_key (keyPath (spec s)) v with
  | HasKey k => inr (Some k)
  | InvalidKey => inl DataError
  | NoKey =>
      if autoIncrement (spec s)
      then match v with JObj _ => inr None | _ => inl DataError end
      else inl DataError
  end.

(** The asynchronous half: storing the record. *)
Definition store_record (overwrite : bool) (key : option Key) (v : JSON)
           (s : ObjectStore) : Error + ObjectStore :=
  match key with
  | None =>
      let g := keygen s in
      if MAX_GENERATED <? g then inl ConstraintError
      else if negb overwrite && mem (KNum g) (records s)
      then inl ConstraintError
      else inr (mkStore (spec s)
                        (store (KNum g) (set_prop (keyPath (spec s)) (JNum g) v) (records s))
                        (g + 1))
  | Some k =>
      if negb overwrite && mem k (records s)
      then inl ConstraintError
      else inr (mkStore (spec s)
                        (store k v (records s))
                        (if autoIncrement (spec s) then bump k (keygen s) else keygen s))
  end.

Definition write (overwrite : bool) (name : string) (v : JSON) : Op unit :=
  fun mode d =>
    match find_store name d with
    | None => Throws NotFoundError
    | Some s =>
        match mode with
        | ReadOnly => Throws ReadOnlyError
        | ReadWrite =>
            match check_value s v with
            | inl e => Throws e
            | inr key =>
                match store_record overwrite key v s with
                | inl e => Fails e
                | inr s' => Succeeds tt (set_store name s' d)
                end
            end
        end
    end.

(** [tx.objectStore(name).put(v)] *)
Definition put : string -> JSON -> Op unit := write true.
(** [tx.objectStore(name).add(v)] *)
Definition add : string -> JSON -> Op unit := write false.

(** [tx.objectStore(name).delete(k)] *)
Definition delete (name : string) (k : Key) : Op unit :=
  fun mode d =>
    match find_store name d with
    | None => Throws NotFoundError
    | Some s =>
        match mode with
        | ReadOnly => Throws ReadOnlyError
        | ReadWrite => Succeeds tt (set_store name (with_records (remove k (records s)) s) d)
        end
    end.

(** [tx.objectStore(name).clear()]; the key generator keeps its number. *)
Definition clear (name : string) : Op unit :=
  fun mode d =>
    match find_store name d with
    | None => Throws NotFoundError
    | Some s =>
        match mode with
        | ReadOnly => Throws ReadOnlyError
        | ReadWrite => Succeeds tt (set_store name (with_records [] s) d)
        end
    end.

(** [tx.objectStore(name).get(k)]; [None] is [undefined]. *)
Definition get (name : string) (k : Key) : Op (option JSON) :=
  fun _ d =>
    match find_store name d with
    | None => Throws NotFoundError
    | Some s => Succeeds (lookup k (records s)) d
    end.

(** [tx.objectStore(name).getAll()] *)
Definition getAll (name : string) : Op (list JSON) :=
  fun _ d =>
    match find_store name d with
    | None => Throws NotFoundError
    | Some s => Succeeds (map snd (records s)) d
    end.

(** The entries of an index: (index key, primary key, record). *)
Definition index_entries (ix : IndexSpec) (rs : list (Key * JSON))
  : list (Key * Key * JSON) :=
  flat_map (fun r => map (fun ik => (ik, fst r, snd r)) (index_keys ix (snd r))) rs.

Definition entry_leb (a b : Key * Key * JSON) : bool :=
  match key_compare (fst (fst a)) (fst (fst b)) with
  | Lt => true
  | Gt => false
  | Eq => match key_compare (snd (fst a)) (snd (fst b)) with
          | Gt => false
          | _ => true
          end
  end.

Fixpoint insert_entry (e : Key * Key * JSON) (l : list (Key * Key * JSON)) :=
  match l with
  | [] => [e]
  | x :: t => if entry_leb e x then e :: x :: t else x :: insert_entry e t
  end.

Definition sort_entries (l : list (Key * Key * JSON)) : list (Key * Key * JSON) :=
  fold_right insert_entry [] l.

Definition find_index (name : string) (s : ObjectStore) : option IndexSpec :=
  find (fun ix => String.eqb (ix_name ix) name) (indexes (spec s)).

(** The records index [ix] returns for [query]: with a key, the records
    listed under it, in primary-key order; without one, every entry of
    the index, by index key and then primary key. *)
Definition index_query (ix : IndexSpec) (query : option Key) (rs : list (Key * JSON))
  : list JSON :=
  match query with
  | Some k => map snd (filter (fun r => existsb (key_eqb k) (index_keys ix (snd r))) rs)
  | None => map snd (sort_entries (index_entries ix rs))
  end.

(** [tx.objectStore(name).index(indexName).getAll(query)] *)
Definition index_getAll (name indexName : string) (query : option Key) : Op (list JSON) :=
  fun _ d =>
    match find_store name d with
    | None => Throws NotFoundError
    | Some s =>
        match find_index indexName s with
        | None => Throws NotFoundError
        | Some ix => Succeeds (index_query ix query (records s)) d
        end
    end.

(** *** Transactions *)

(** What the environment has in store for one transaction: nothing, the
    failure of its [i]-th request, or a failure to commit. *)
Inductive Fate : Type :=
| TxOk
| ReqFail (i : nat) (e : Error)
| CommitFail (e : Error).

Record Tx : Type := mkTx {
  tx_mode : Mode;
  tx_fate : Fate;
  tx_issued : nat;               (* requests run so far *)
  tx_aborted : option Error;     (* set once a request has failed *)
  tx_work : Database             (* the database as the transaction sees it *)
}.

Definition fails_now (tx : Tx) : option Error :=
  match tx_fate tx with
  | ReqFail i e => if Nat.eqb i (tx_issued tx) then Some e else None
  | _ => None
  end.

Definition abort (e : Error) (tx : Tx) : Tx :=
  mkTx (tx_mode tx) (tx_fate tx) (tx_issued tx) (Some e) (tx_work tx).

Inductive ReqResult (A : Type) : Type :=
| ReqThrow (e : Error)              (* exception at the call: nothing queued *)
| ReqError (e : Error) (tx : Tx)    (* error event; the transaction is aborted *)
| ReqSuccess (a : A) (tx : Tx).
Arguments ReqThrow {A} e.
Arguments ReqError {A} e tx.
Arguments ReqSuccess {A} a tx.

(** Issue one request in a transaction. An unhandled error event aborts
    the transaction; requests of an aborted transaction fail with
    [AbortError]. *)
Definition request {A : Type} (op : Op A) (tx : Tx) : ReqResult A :=
  match op (tx_mode tx) (tx_work tx) with
  | Throws e => ReqThrow e
  | r =>
      match tx_aborted tx with
      | Some _ => ReqError AbortError tx
      | None =>
          match fails_now tx with
          | Some e => ReqError e (abort e tx)
          | None =>
              match r with
              | Succeeds a d =>
                  ReqSuccess a (mkTx (tx_mode tx) (tx_fate tx) (S (tx_issued tx)) None d)
              | Fails e => ReqError e (abort e tx)
              | Throws e => ReqThrow e
              end
          end
      end
  end.

(** Whether the transaction, left to itself, commits. *)
Definition commits (tx : Tx) : bool :=
  match tx_aborted tx, tx_fate tx with
  | None, CommitFail _ => false
  | None, _ => true
  | Some _, _ => false
  end.

End IDB.

(* ===================================================================== *)
(** ** The engine: class DataLayer *)
(* ===================================================================== *)

Module DataLayer.
Import IDB.

Definition DB_VERSION : Z := 1.

Definition STORES : list string :=
  ["meta"; "users"; "profiles"; "chats"; "messages"; "posts"; "comments"; "likes"; "logs"].

(** An event listener, known by its identity. Listeners are observers:
    being called, they do nothing to the engine in the same turn. *)
Definition Handler : Type := nat.

(** One call of a listener: the event, the listener, and the database as
    a read issued by the listener would find it. *)
Record Delivery : Type := mkDelivery {
  ev_name : string;
  ev_handler : Handler;
  ev_seen : Database
}.

(** The seed document: collection name to records. *)
Definition SeedData : Type := list (string * list JSON).

Record World : Type := mkWorld {
  db : bool;                             (* this.db is set *)
  idb_version : Z;                       (* version of the stored database, 0: none yet *)
  idb : Database;                        (* its content, as the next transaction finds it *)
  listeners : list (string * Handler);   (* this.eventTarget *)
  delivered : list Delivery;             (* listener calls so far, oldest first *)
  now : Z;                               (* Date.now() *)
  fetched : nat;                         (* fetches of seed-db.json so far *)
  open_fate : option Error;              (* environment: the open request fails *)
  seed_json : Error + SeedData;          (* environment: what the seed fetch yields *)
  fates : list Fate                      (* environment: fates of the coming transactions *)
}.

Definition set_db (b : bool) (w : World) : World :=
  mkWorld b (idb_version w) (idb w) (listeners w) (delivered w) (now w) (fetched w)
          (open_fate w) (seed_json w) (fates w).
Definition set_idb_version (v : Z) (w : World) : World :=
  mkWorld (db w) v (idb w) (listeners w) (delivered w) (now w) (fetched w)
          (open_fate w) (seed_json w) (fates w).
Definition set_idb (d : Database) (w : World) : World :=
  mkWorld (db w) (idb_version w) d (listeners w) (delivered w) (now w) (fetched w)
          (open_fate w) (seed_json w) (fates w).
Definition set_listeners (l : list (string * Handler)) (w : World) : World :=
  mkWorld (db w) (idb_version w) (idb w) l (delivered w) (now w) (fetched w)
          (open_fate w) (seed_json w) (fates w).
Definition set_delivered (l : list Delivery) (w : World) : World :=
  mkWorld (db w) (idb_version w) (idb w) (listeners w) l (now w) (fetched w)
          (open_fate w) (seed_json w) (fates w).
Definition set_fetched (n : nat) (w : World) : World :=
  mkWorld (db w) (idb_version w) (idb w) (listeners w) (delivered w) (now w) n
          (open_fate w) (seed_json w) (fates w).
Definition set_fates (l : list Fate) (w : World) : World :=
  mkWorld (db w) (idb_version w) (idb w) (listeners w) (delivered w) (now w) (fetched w)
          (open_fate w) (seed_json w) l.

(** *** Promises *)

Inductive Outcome (A : Type) : Type :=
| Resolved (a : A)
| Rejected (e : Error).
Arguments Resolved {A} a.
Arguments Rejected {A} e.

(** An async method, run to its end: the outcome of its promise and the
    world it leaves. What was done before a rejection stays done. *)
Definition Async (A : Type) : Type := World -> Outcome A * World.

Definition ret {A : Type} (a : A) : Async A := fun w => (Resolved a, w).

Definition reject {A : Type} (e : Error) : Async A := fun w => (Rejected e, w).

Definition bind {A B : Type} (m : Async A) (k : A -> Async B) : Async B :=
  fun w =>
    match m w with
    | (Resolved a, w') => k a w'
    | (Rejected e, w') => (Rejected e, w')
    end.

Notation "x <- m ;; k" := (bind m (fun x => k))
  (at level 61, m at next level, right associativity).
Notation "m ;; k" := (bind m (fun _ => k))
  (at level 61, right associativity).

(** *** The schema, created on upgrade (open, lines 33-85) *)

Definition createObjectStore (store : string) : StoreSpec :=
  if String.eqb store "meta" then mkSpec "key" false []
  else if String.eqb store "users" then mkSpec "id" false []
  else if String.eqb store "profiles" then mkSpec "id" false []
  else if String.eqb store "chats" then
    mkSpec "id" false [mkIndex "by_participant" "participants" true]
  else if String.eqb store "messages" then
    mkSpec "id" false [mkIndex "by_chat" "chatId" false; mkIndex "by_time" "time" false]
  else if String.eqb store "posts" then
    mkSpec "id" false [mkIndex "by_author" "authorProfileId" false;
                       mkIndex "by_type" "type" false]
  else if String.eqb store "comments" then
    mkSpec "id" false [mkIndex "by_post" "postId" false]
  else if String.eqb store "likes" then
    mkSpec "id" false [mkIndex "by_post" "postId" false;
                       mkIndex "by_profile" "profileId" false]
  else if String.eqb store "logs" then
    mkSpec "id" true [mkIndex "by_time" "time" false]
  else mkSpec "id" false [].

Definition contains (store : string) (d : Database) : bool :=
  match find_store store d with
  | Some _ => true
  | None => false
  end.

Definition onupgradeneeded (d : Database) : Database :=
  fold_left
    (fun d store =>
       if contains store d then d
       else d ++ [(store, mkStore (createObjectStore store) [] 1)])
    STORES d.

(** [indexedDB.open(DB_NAME, DB_VERSION)] up to [this.db = ...]. *)
Definition connect : Async unit :=
  fun w =>
    match open_fate w with
    | Some e => (Rejected e, w)
    | None =>
        if DB_VERSION <? idb_version w then (Rejected VersionError, w)
        else if idb_version w <? DB_VERSION
        then (Resolved tt,
              set_db true (set_idb_version DB_VERSION (set_idb (onupgradeneeded (idb w)) w)))
        else (Resolved tt, set_db true w)
    end.

(** *** Transactions and requests, as the methods await them *)

Definition next_fate (w : World) : Fate := hd TxOk (fates w).

(** [db.transaction(storeNames, mode)] *)
Definition begin_tx (storeNames : list string) (mode : Mode) : Async Tx :=
  fun w =>
    if forallb (fun n => contains n (idb w)) storeNames
    then (Resolved (mkTx mode (next_fate w) 0 None (idb w)), set_fates (tl (fates w)) w)
    else (Rejected NotFoundError, w).

(** [await new Promise((resolve, reject) => { const req = ...;
    req.onsuccess = resolve; req.onerror = () => reject(req.error) })]
    for the first request of a transaction: when it throws or fails, the
    transaction ends with nothing written. *)
Definition await_request {A : Type} (op : Op A) (tx : Tx) : Async (A * Tx) :=
  fun w =>
    match request op tx with
    | ReqThrow e => (Rejected e, w)
    | ReqError e _ => (Rejected e, w)
    | ReqSuccess a tx' => (Resolved (a, tx'), w)
    end.

(** The requests of [Promise.all(xs.map(x => new Promise(... req ...)))]:
    all are issued in the same turn; the exceptions thrown on the way
    are collected, the others run in order. *)
Fixpoint request_all (ops : list (Op unit)) (tx : Tx) : list Error * Tx :=
  match ops with
  | [] => ([], tx)
  | op :: rest =>
      match request op tx with
      | ReqThrow e => let (es, tx') := request_all rest tx in (e :: es, tx')
      | ReqError _ tx' => request_all rest tx'
      | ReqSuccess _ tx' => request_all rest tx'
      end
  end.

(** A transaction nobody waits for: it commits or aborts on its own. *)
Definition settle (tx : Tx) (w : World) : World :=
  if commits tx then set_idb (tx_work tx) w else w.

Definition unattended (tx : Tx) : Async unit :=
  fun w => (Resolved tt, settle tx w).

(** [await Promise.all(...)]: rejected by the first promise to reject.
    Promises whose executor threw reject first; the method then leaves,
    and the transaction goes on without it. *)
Definition await_all (r : list Error * Tx) : Async Tx :=
  fun w =>
    match fst r with
    | e :: _ => (Rejected e, settle (snd r) w)
    | [] =>
        match tx_aborted (snd r) with
        | Some e => (Rejected e, w)
        | None => (Resolved (snd r), w)
        end
    end.

(** [await new Promise((resolve, reject) => { tx.oncomplete = resolve;
    tx.onerror = tx.onabort = () => reject(tx.error) })]. The error
    event of a failed request reaches [tx.onerror] before the abort
    sets [tx.error], which is still [null] then. *)
Definition await_complete (tx : Tx) : Async unit :=
  fun w =>
    match tx_aborted tx with
    | Some _ => (Rejected JSNull, w)
    | None =>
        match tx_fate tx with
        | CommitFail e => (Rejected e, w)
        | _ => (Resolved tt, set_idb (tx_work tx) w)
        end
    end.

(** *** Events (lines 250-257) *)

Definition listens (name : string) (l : string * Handler) : bool :=
  String.eqb (fst l) name.

(** [dispatch(name)]: every listener of [name] is called, in the order
    of registration. *)
Definition dispatch (name : string) : Async unit :=
  fun w =>
    (Resolved tt,
     set_delivered
       (delivered w ++
          map (fun l => mkDelivery name (snd l) (idb w))
              (filter (listens name) (listeners w)))
       w).

Definition same_listener (a b : string * Handler) : bool :=
  String.eqb (fst a) (fst b) && Nat.eqb (snd a) (snd b).

(** [subscribe(name, handler)]; [addEventListener] ignores a listener
    that is already registered. The handle it returns is [unsubscribe]. *)
Definition subscribe (name : string) (handler : Handler) : Async unit :=
  fun w =>
    (Resolved tt,
     if existsb (same_listener (name, handler)) (listeners w) then w
     else set_listeners (listeners w ++ [(name, handler)]) w).

Definition unsubscribe (name : string) (handler : Handler) : Async unit :=
  fun w =>
    (Resolved tt,
     set_listeners
       (filter (fun l => negb (same_listener (name, handler) l)) (listeners w)) w).

(** *** The methods *)

Definition Date_now : Async Z := fun w => (Resolved (now w), w).

(** [fetch('seed-db.json')] and [response.json()] *)
Definition fetch_seed : Async SeedData :=
  fun w =>
    match seed_json w with
    | inl e => (Rejected e, set_fetched (S (fetched w)) w)
    | inr data => (Resolved data, set_fetched (S (fetched w)) w)
    end.

(** JavaScript truthiness, for [if (!seeded)]. *)
Definition truthy (v : JSON) : bool :=
  match v with
  | JNull => false
  | JBool b => b
  | JNum n => negb (n =? 0)
  | JStr s => negb (String.eqb s "")
  | _ => true
  end.

(** A request with no handlers of its own (seed, line 123): its failure
    shows only through the transaction. *)
Definition enqueue (op : Op unit) (tx : Tx) : Async Tx :=
  fun w =>
    match request op tx with
    | ReqThrow e => (Rejected e, settle tx w)
    | ReqError _ tx' => (Resolved tx', w)
    | ReqSuccess _ tx' => (Resolved tx', w)
    end.

(** [this.db.transaction(...)]: a [TypeError] when [this.db] is [null]. *)
Definition this_db_transaction (storeNames : list string) (mode : Mode) : Async Tx :=
  fun w =>
    if db w then begin_tx storeNames mode w
    else (Rejected (TypeError "this.db is null"), w).

(** The [put] requests of seed, lines 107-121: every collection but
    [meta], [data[store] || []]. *)
Definition seed_requests (data : SeedData) : list (Op unit) :=
  flat_map
    (fun store =>
       if String.eqb store "meta" then []
       else map (IDB.put store)
                (match assoc store data with Some items => items | None => [] end))
    STORES.

Definition seeded_marker (time : Z) : JSON :=
  JObj [("key", JStr "seeded"); ("value", JBool true); ("time", JNum time)].

Module Body.
Section Methods.
(** [this.open()], as [this.transaction] calls it. *)
Variable this_open : Async unit.

(** lines 132-135 *)
Definition transaction (storeNames : list string) (mode : Mode) : Async Tx :=
  this_open ;;
  begin_tx storeNames mode.

(** lines 137-144 *)
Definition get (store : string) (key : Key) : Async (option JSON) :=
  tx <- transaction [store] ReadOnly ;;
  r <- await_request (IDB.get store key) tx ;;
  ret (fst r).

(** lines 146-156; an empty [indexName] is falsy. *)
Definition getAll (store : string) (indexName : option string) (query : option Key)
  : Async (list JSON) :=
  tx <- transaction [store] ReadOnly ;;
  r <- await_request
         (match indexName with
          | Some name =>
              if String.eqb name "" then IDB.getAll store
              else IDB.index_getAll store name query
          | None => IDB.getAll store
          end) tx ;;
  ret (fst r).

(** lines 235-248. The method returns when the [add] request has
    succeeded; nothing waits for the transaction to complete. *)
Definition recordLog (action : string) (payload : JSON) : Async unit :=
  time <- Date_now ;;
  let entry := JObj [("action", JStr action); ("payload", payload); ("time", JNum time)] in
  tx <- transaction ["logs"] ReadWrite ;;
  r <- await_request (IDB.add "logs" entry) tx ;;
  unattended (snd r) ;;
  dispatch "logs:change".

(** lines 158-173 *)
Definition put (store : string) (value : JSON) : Async JSON :=
  tx <- transaction [store] ReadWrite ;;
  r <- await_request (IDB.put store value) tx ;;
  await_complete (snd r) ;;
  recordLog "put" (JObj [("store", JStr store); ("value", value)]) ;;
  dispatch (String.append store ":change") ;;
  ret value.

(** lines 175-196 *)
Definition bulkPut (store : string) (values : list JSON) : Async (list JSON) :=
  tx <- transaction [store] ReadWrite ;;
  tx <- await_all (request_all (map (IDB.put store) values) tx) ;;
  await_complete tx ;;
  recordLog "bulkPut"
    (JObj [("store", JStr store); ("count", JNum (Z.of_nat (List.length values)))]) ;;
  dispatch (String.append store ":change") ;;
  ret values.

(** lines 198-212 *)
Definition delete (store : string) (key : Key) : Async unit :=
  tx <- transaction [store] ReadWrite ;;
  r <- await_request (IDB.delete store key) tx ;;
  await_complete (snd r) ;;
  recordLog "delete" (JObj [("store", JStr store); ("key", key_json key)]) ;;
  dispatch (String.append store ":change").

(** lines 214-233 *)
Definition clearAll : Async unit :=
  tx <- transaction STORES ReadWrite ;;
  tx <- await_all (request_all (map IDB.clear STORES) tx) ;;
  await_complete tx ;;
  recordLog "reset" (JObj [("info", JStr "database cleared")]) ;;
  dispatch "db:reset".

(** lines 102-130 *)
Definition seed : Async unit :=
  data <- fetch_seed ;;
  tx <- this_db_transaction STORES ReadWrite ;;
  tx <- await_all (request_all (seed_requests data) tx) ;;
  time <- Date_now ;;
  tx <- enqueue (IDB.put "meta" (seeded_marker time)) tx ;;
  await_complete tx ;;
  recordLog "seed" (JObj [("info", JStr "Seed database loaded")]).

End Methods.
End Body.

(** lines 29-100. [open] calls [get] and [seed], which call
    [transaction], which calls [open]: by then [this.db] is set and the
    inner call returns at line 30. [depth] bounds this nesting. *)
Fixpoint open_at (depth : nat) : Async unit :=
  fun w =>
    if db w then (Resolved tt, w)
    else
      match depth with
      | O => (Rejected (TypeError "open: nested too deep"), w)
      | S d =>
          (connect ;;
           seeded <- Body.get (open_at d) "meta" (KStr "seeded") ;;
           match seeded with
           | Some v => if truthy v then ret tt else Body.seed (open_at d)
           | None => Body.seed (open_at d)
           end) w
      end.

Definition open : Async unit := open_at 1.

Definition transaction := Body.transaction open.
Definition get := Body.get open.
Definition getAll := Body.getAll open.
Definition recordLog := Body.recordLog open.
Definition put := Body.put open.
Definition bulkPut := Body.bulkPut open.
Definition delete := Body.delete open.
Definition clearAll := Body.clearAll open.
Definition seed := Body.seed open.

End DataLayer.

(* ===================================================================== *)
(** ** Vocabulary of the contract *)
(* ===================================================================== *)

Module Contract.
Import IDB DataLayer.

(** The mutating operations of the engine. *)
Inductive Mutation : Type :=
| Put (store : string) (value : JSON)
| BulkPut (store : string) (values : list JSON)
| Delete (store : string) (key : Key)
| ClearAll
| Seed.

Definition run (m : Mutation) : Async unit :=
  match m with
  | Put store value => put store value ;; ret tt
  | BulkPut store values => bulkPut store values ;; ret tt
  | Delete store key => delete store key
  | ClearAll => clearAll
  | Seed => seed
  end.

(** What the operation hands to [recordLog]. *)
Definition action (m : Mutation) : string :=
  match m with
  | Put _ _ => "put"
  | BulkPut _ _ => "bulkPut"
  | Delete _ _ => "delete"
  | ClearAll => "reset"
  | Seed => "seed"
  end.

Definition payload (m : Mutation) : JSON :=
  match m with
  | Put store value => JObj [("store", JStr store); ("value", value)]
  | BulkPut store values =>
      JObj [("store", JStr store); ("count", JNum (Z.of_nat (List.length values)))]
  | Delete store key => JObj [("store", JStr store); ("key", key_json key)]
  | ClearAll => JObj [("info", JStr "database cleared")]
  | Seed => JObj [("info", JStr "Seed database loaded")]
  end.

(** The event the operation itself dispatches, after [recordLog]. *)
Definition own_event (m : Mutation) : option string :=
  match m with
  | Put store _ | BulkPut store _ | Delete store _ => Some (String.append store ":change")
  | ClearAll => Some "db:reset"
  | Seed => None
  end.

Definition notify (m : Mutation) : Async unit :=
  match own_event m with
  | Some name => dispatch name
  | None => ret tt
  end.

(** The operation up to the completion of its own transaction. *)
Definition data_phase (m : Mutation) : Async unit :=
  match m with
  | Put store value =>
      tx <- transaction [store] ReadWrite ;;
      r <- await_request (IDB.put store value) tx ;;
      await_complete (snd r)
  | BulkPut store values =>
      tx <- transaction [store] ReadWrite ;;
      tx <- await_all (request_all (map (IDB.put store) values) tx) ;;
      await_complete tx
  | Delete store key =>
      tx <- transaction [store] ReadWrite ;;
      r <- await_request (IDB.delete store key) tx ;;
      await_complete (snd r)
  | ClearAll =>
      tx <- transaction STORES ReadWrite ;;
      tx <- await_all (request_all (map IDB.clear STORES) tx) ;;
      await_complete tx
  | Seed =>
      data <- fetch_seed ;;
      tx <- this_db_transaction STORES ReadWrite ;;
      tx <- await_all (request_all (seed_requests data) tx) ;;
      time <- Date_now ;;
      tx <- enqueue (IDB.put "meta" (seeded_marker time)) tx ;;
      await_complete tx
  end.

(** The log entry as stored: what [recordLog] builds, with the generated
    key injected at the key path. *)
Definition log_entry (action : string) (payload : JSON) (time g : Z) : JSON :=
  JObj [("action", JStr action); ("payload", payload); ("time", JNum time); ("id", JNum g)].

(** *** Reading a database *)

Definition records_of (store : string) (d : Database) : list (Key * JSON) :=
  match find_store store d with
  | Some s => records s
  | None => []
  end.

Definition record_at (store : string) (k : Key) (d : Database) : option JSON :=
  lookup k (records_of store d).

Definition log_keygen (d : Database) : Z :=
  match find_store "logs" d with
  | Some s => keygen s
  | None => 0
  end.

(** The key a record has in a collection, by the collection's key path. *)
Definition record_key (store : string) (v : JSON) : option Key :=
  match extract_key (keyPath (createObjectStore store)) v with
  | HasKey k => Some k
  | _ => None
  end.

Definition field_key (field : string) (v : JSON) : option Key :=
  match get_prop field v with
  | Some x => to_key x
  | None => None
  end.

(** How often listener [h] was called for event [name] in [l]. *)
Definition calls (name : string) (h : Handler) (l : list Delivery) : nat :=
  List.length
    (filter (fun d => String.eqb (ev_name d) name && Nat.eqb (ev_handler d) h) l).

(** *** Well-formed worlds *)

Definition index_eqb (a b : IndexSpec) : bool :=
  String.eqb (ix_name a) (ix_name b) && String.eqb (ix_keyPath a) (ix_keyPath b)
  && Bool.eqb (ix_multiEntry a) (ix_multiEntry b).

Fixpoint indexes_eqb (l1 l2 : list IndexSpec) : bool :=
  match l1, l2 with
  | [], [] => true
  | a :: t1, b :: t2 => index_eqb a b && indexes_eqb t1 t2
  | _, _ => false
  end.

Definition spec_eqb (a b : StoreSpec) : bool :=
  String.eqb (keyPath a) (keyPath b) && Bool.eqb (autoIncrement a) (autoIncrement b)
  && indexes_eqb (indexes a) (indexes b).

(** Every collection of [STORES] exists, as [open] creates it. *)
Definition schema_ok (d : Database) : bool :=
  forallb
    (fun name =>
       match find_store name d with
       | Some s => spec_eqb (spec s) (createObjectStore name)
       | None => false
       end)
    STORES.

Fixpoint distinct (l : list (string * Handler)) : bool :=
  match l with
  | [] => true
  | x :: t => negb (existsb (same_listener x) t) && distinct t
  end.

(** The engine is open on a database with the schema of [open]. *)
Definition ready (w : World) : bool :=
  db w && schema_ok (idb w) && distinct (listeners w).

Definition below (g : Z) (k : Key) : bool :=
  match k with
  | KNum n => n <? g
  | _ => true
  end.

(** The audit log can take [n] more entries: the key generator is past
    every numeric key in [logs] and [n] short of its limit. *)
Definition log_room (n : Z) (d : Database) : bool :=
  (log_keygen d + n <=? MAX_GENERATED + 1)
  && forallb (fun r => below (log_keygen d) (fst r)) (records_of "logs" d).

(** The second transaction from now, the one of [recordLog] when the
    engine is open, commits. *)
Definition log_commits (w : World) : Prop :=
  match nth 1 (fates w) TxOk with
  | CommitFail _ => False
  | _ => True
  end.

End Contract.

(* ===================================================================== *)
(** ** Vocabulary of the proofs *)
(* ===================================================================== *)

Section Vocabulary.
Import IDB DataLayer Contract.

Definition fresh_tx (mode : Mode) (w : World) : Tx :=
  mkTx mode (next_fate w) 0 None (idb w).

Definition pop (w : World) : World := set_fates (tl (fates w)) w.

(** Two databases with the same collections and the same schema. *)
Definition same_schema (d d' : Database) : Prop :=
  forall name, option_map spec (find_store name d') = option_map spec (find_store name d).

Definition logs_after (action : string) (payload : JSON) (time : Z) (s : ObjectStore)
  : ObjectStore :=
  mkStore (spec s)
          (store (KNum (keygen s)) (log_entry action payload time (keygen s)) (records s))
          (keygen s + 1).

(** The world a successful [recordLog] leaves. *)
Definition after_log (action : string) (payload : JSON) (s : ObjectStore) (w : World)
  : World :=
  snd (dispatch "logs:change"
         (settle (mkTx ReadWrite (next_fate w) 1 None
                       (set_store "logs" (logs_after action payload (now w) s) (idb w)))
                 (pop w))).

(** The writes of [ops], one after the other, when all of them succeed. *)
Fixpoint apply_all (ops : list (Op unit)) (d : Database) : option Database :=
  match ops with
  | [] => Some d
  | op :: rest =>
      match op ReadWrite d with
      | Succeeds _ d' => apply_all rest d'
      | _ => None
      end
  end.

(** The requests an operation issues in its transaction. *)
Definition requests_of (m : Mutation) (w : World) : list (Op unit) :=
  match m with
  | Put store value => [IDB.put store value]
  | BulkPut store values => map (IDB.put store) values
  | Delete store key => [IDB.delete store key]
  | ClearAll => map IDB.clear STORES
  | Seed =>
      match seed_json w with
      | inr data => seed_requests data ++ [IDB.put "meta" (seeded_marker (now w))]
      | inl _ => []
      end
  end.

Definition prefetch (m : Mutation) (w : World) : World :=
  match m with
  | Seed => set_fetched (S (fetched w)) w
  | _ => w
  end.

(** The seed document is there when the operation needs it. *)
Definition fetchable (m : Mutation) (w : World) : Prop :=
match m with
| Seed => exists data, seed_json w = inr data
| _ => True
end.

(** The requests of the engine, by kind. *)
Inductive engine_op : Op unit -> Prop :=
| op_write ow name v : engine_op (write ow name v)
| op_delete name k : engine_op (IDB.delete name k)
| op_clear name : engine_op (IDB.clear name).

(** The deliveries of one [dispatch]. *)
Definition broadcast (name : string) (seen : Database) (ls : list (string * Handler))
  : list Delivery :=
  map (fun l => mkDelivery name (snd l) seen) (filter (listens name) ls).

(** Whether the operation's own event is "logs:change". *)
Definition on_logs (m : Mutation) : bool :=
  match m with
  | Put store _ | BulkPut store _ | Delete store _ => String.eqb store "logs"
  | ClearAll | Seed => false
  end.

(** A stored record with an explicit numeric key is out of the key
    generator's way. *)
Definition clear_of_generator (store : string) (k : Key) (d : Database) : Prop :=
  forall s n, find_store store d = Some s -> autoIncrement (spec s) = true ->
              k = KNum n -> n < keygen s \/ MAX_GENERATED < keygen s.

(** The record of a collection under key [k] is one of [candidates]. *)
Definition holds_one_of (candidates : list JSON) (store : string) (k : Key) (d : Database)
  : Prop :=
  (exists v, In v candidates /\ record_key store v = Some k /\ record_at store k d = Some v)
  /\ clear_of_generator store k d.

(** [put] requests over several collections, as [seed] and [bulkPut]
    issue them. *)
Definition put_pair (p : string * JSON) : Op unit := IDB.put (fst p) (snd p).

(** The database shows the writes of the operation. For [bulkPut], where
    one key may come several times, the key holds one of the records
    given for it. *)
Definition shows (m : Mutation) (d : Database) : Prop :=
  match m with
  | Put store value =>
      In store STORES ->
      forall k, record_key store value = Some k -> record_at store k d = Some value
  | BulkPut store values =>
      In store STORES ->
      forall v k, In v values -> record_key store v = Some k ->
                  exists v', In v' values /\ record_key store v' = Some k
                             /\ record_at store k d = Some v'
  | Delete store key => store <> "logs" -> record_at store key d = None
  | ClearAll =>
      forall store, In store STORES -> store <> "logs" -> records_of store d = []
  | Seed => exists time, record_at "meta" (KStr "seeded") d = Some (seeded_marker time)
  end.

(** The same, in the form that survives the log entry written next. *)
Definition settled (m : Mutation) (d : Database) : Prop :=
  match m with
  | Put store value =>
      In store STORES ->
      forall k, record_key store value = Some k -> holds_one_of [value] store k d
  | BulkPut store values =>
      In store STORES ->
      forall v k, In v values -> record_key store v = Some k ->
                  holds_one_of values store k d
  | _ => shows m d
  end.

(** The collection an operation is called on. *)
Definition target (m : Mutation) : option string :=
  match m with
  | Put store _ | BulkPut store _ | Delete store _ => Some store
  | ClearAll | Seed => None
  end.

(** The request is refused at the call, before it is queued. *)
Definition throws (op : Op unit) (d : Database) : bool :=
  match op ReadWrite d with
  | Throws _ => true
  | _ => false
  end.

Definition queued_of (ops : list (Op unit)) (d : Database) : nat :=
  List.length (filter (fun op => negb (throws op d)) ops).

(** The number of requests the operation gets queued in its transaction. *)
Definition queued (m : Mutation) (w : World) : nat :=
  match m with
  | Seed =>
      match seed_json w with
      | inr data =>
          if existsb (fun op => throws op (idb w)) (seed_requests data)
          then queued_of (seed_requests data) (idb w)
          else S (queued_of (seed_requests data) (idb w))
      | inl _ => 0%nat
      end
  | _ => queued_of (requests_of m w) (idb w)
  end.

(** The operation's transaction aborts: it cannot commit, or one of the
    requests queued in it fails. [e] is the failure. *)
Inductive aborts (m : Mutation) (w : World) (e : Error) : Prop :=
| abort_on_commit : next_fate w = CommitFail e -> aborts m w e
| abort_on_request i : next_fate w = ReqFail i e -> (i < queued m w)%nat -> aborts m w e.

(** Every record of the operation carries a key for its collection. *)
Definition keyed (m : Mutation) : Prop :=
  match m with
  | Put store value => In store STORES /\ record_key store value <> None
  | BulkPut store values =>
      In store STORES /\ forall v, In v values -> record_key store v <> None
  | Delete store _ => In store STORES
  | ClearAll => True
  | Seed => False
  end.

(** The failure the environment holds for a transaction. *)
Definition doom (f : Fate) (e : Error) : Prop :=
  f = CommitFail e \/ exists i, f = ReqFail i e.

(** The request succeeds on every database with the schema of [d0]. *)
Definition always_succeeds (d0 : Database) (op : Op unit) : Prop :=
  forall d, same_schema d0 d -> exists d', op ReadWrite d = Succeeds tt d'.

Definition fate_ok (f : Fate) : bool :=
  match f with
  | TxOk => true
  | _ => false
  end.

(** The environment holds no failure for the next [n] transactions. *)
Definition calm (n : nat) (w : World) : bool :=
  forallb fate_ok (firstn n (fates w)).

(** A new page over the same stored database: a new DataLayer, with no
    connection and no listeners yet. *)
Definition reload (w : World) : World := set_listeners [] (set_db false w).

(** The seed marker is in [meta]. *)
Definition seeded (d : Database) : Prop :=
  exists marker, record_at "meta" (KStr "seeded") d = Some marker /\ truthy marker = true.

(** The records the seed document gives for a collection. *)
Definition seed_of (store : string) (data : SeedData) : list JSON :=
  match assoc store data with
  | Some items => items
  | None => []
  end.

Definition seed_items (data : SeedData) : list (string * JSON) :=
  flat_map
    (fun store =>
       if String.eqb store "meta" then [] else map (pair store) (seed_of store data))
    STORES.

(** The world once the connection is set: the schema is created when the
    database is new. *)
Definition connected (w : World) : World :=
  if idb_version w <? DB_VERSION
  then set_db true (set_idb_version DB_VERSION (set_idb (onupgradeneeded (idb w)) w))
  else set_db true w.

(** A new page that can open its database: none stored yet, or one at the
    current version with the schema of [open]. *)
Definition openable (w : World) : bool :=
  negb (db w)
  && match open_fate w with None => true | Some _ => false end
  && distinct (listeners w)
  && (((idb_version w =? 0) && match idb w with [] => true | _ => false end)
      || ((idb_version w =? DB_VERSION) && schema_ok (idb w))).

End Vocabulary.

(* ===================================================================== *)
(** ** Worlds to run the engine in *)
(* ===================================================================== *)

Module Scenario.
Import IDB DataLayer Contract.

(** An open engine on a database that has just been created, with no
    failure ahead. *)
Definition opened : World :=
  mkWorld true DB_VERSION (onupgradeneeded []) [] [] 1000 0 None (inr []) [].

(** The same, with listener 7 on "logs:change" and 8 on "chats:change". *)
Definition observed : World :=
  set_listeners [("logs:change", 7%nat); ("chats:change", 8%nat)] opened.

Definition chat1 : JSON :=
  JObj [("id", JStr "c1"); ("participants", JArr [JStr "p1"; JStr "p2"])].

Definition entry1 : JSON := JObj [("id", JNum 1); ("action", JStr "note")].

Definition chat2 : JSON :=
  JObj [("id", JStr "c2"); ("participants", JArr [JStr "p1"])].

Definition entry1b : JSON := JObj [("id", JNum 1); ("action", JStr "other")].

Definition chat1b : JSON :=
  JObj [("id", JStr "c1"); ("participants", JArr [JStr "p3"])].

Definition chat3 : JSON :=
  JObj [("id", JStr "c3"); ("participants", JArr [JStr "p2"])].

(** The open engine when the environment fails the first request of the
    second transaction to come: the one of recordLog. *)
Definition log_write_fails : World :=
  set_fates [TxOk; ReqFail 0 QuotaExceededError] opened.

(** The open engine when the environment fails the second request of the
    next transaction. *)
Definition second_request_fails : World :=
  set_fates [ReqFail 1 QuotaExceededError] opened.

Definition message1 : JSON :=
  JObj [("id", JStr "m1"); ("chatId", JStr "c1"); ("time", JNum 100); ("text", JStr "hi")].

(** A new page on a browser that has no database yet; the seed document
    holds one chat and one message. *)
Definition fresh : World :=
  mkWorld false 0 [] [] [] 1000 0 None
          (inr [("chats", [chat1]); ("messages", [message1])]) [].

(** After put('messages', message1). *)
Definition one_message : World := snd (put "messages" message1 opened).

(** After put('chats', chat1) and put('chats', chat2): two log entries. *)
Definition two_puts : World :=
  snd (put "chats" chat2 (snd (put "chats" chat1 opened))).
End Scenario.

(* ===================================================================== *)
(** ** Text for the page: escapeHTML *)
(* ===================================================================== *)

(** A text is the sequence of its UTF-8 bytes. The five characters
    that [escapeHTML] replaces are ASCII and no byte of a longer UTF-8
    sequence is one of them, so the replacements are those on the UTF-16
    code units of the JavaScript string. *)

(** [s.replace(/c/g, replacement)] for a pattern that is one literal
    character and a replacement without [$] patterns. *)
Fixpoint replace_all (c : ascii) (replacement : string) (s : string) : string :=
  match s with
  | EmptyString => EmptyString
  | String x t =>
      if Ascii.eqb x c then String.append replacement (replace_all c replacement t)
      else String x (replace_all c replacement t)
  end.

(** lines 9-15. [None] is a missing argument, for which [value = '']
    stands in. *)
Definition escapeHTML (value : option string) : string :=
  let value := match value with Some s => s | None => "" end in
  replace_all "'" "&#39;"
    (replace_all "034" "&quot;"
       (replace_all ">" "&gt;"
          (replace_all "<" "&lt;"
             (replace_all "&" "&amp;" value)))).

(** The characters [escapeHTML] replaces. *)
Definition special (c : ascii) : bool :=
  existsb (Ascii.eqb c) ["&"; "<"; ">"; "034"; "'"]%char.

(** A text without any of them. *)
Definition plain (s : string) : bool :=
  forallb (fun c => negb (special c)) (list_ascii_of_string s).

(** What one character becomes. *)
Definition entity (c : ascii) : string :=
  if Ascii.eqb c "&" then "&amp;"
  else if Ascii.eqb c "<" then "&lt;"
  else if Ascii.eqb c ">" then "&gt;"
  else if Ascii.eqb c "034" then "&quot;"
  else if Ascii.eqb c "'" then "&#39;"
  else String c "".

(** The text in one pass, each character replaced by what it becomes;
    [escapeHTML_each] shows that the five passes compute this. *)
Fixpoint escape_each (s : string) : string :=
  match s with
  | EmptyString => EmptyString
  | String c t => String.append (entity c) (escape_each t)
  end.

(* ===================================================================== *)
(** ** Vocabulary of the further properties *)
(* ===================================================================== *)

Section Setting.
Import IDB DataLayer Contract.

(** What no method of the engine changes once the engine is open. *)
Definition same_setting (w w' : World) : Prop :=
  db w' = db w /\ listeners w' = listeners w /\ idb_version w' = idb_version w
  /\ open_fate w' = open_fate w /\ seed_json w' = seed_json w /\ now w' = now w.

(** The operations that only write records: put, bulkPut and seed. *)
Definition writes_only (m : Mutation) : bool :=
  match m with
  | Put _ _ | BulkPut _ _ | Seed => true
  | Delete _ _ | ClearAll => false
  end.

(** The record carries a valid key for the collection. *)
Definition keyed_for (store : string) (v : JSON) : bool :=
  match record_key store v with
  | Some _ => true
  | None => false
  end.

(** The last record of [vs] that has the key [k] in the collection:
    the one that stays when the records are written in order. *)
Fixpoint last_for (store : string) (k : Key) (vs : list JSON) : option JSON :=
  match vs with
  | [] => None
  | v :: rest =>
      match last_for store k rest with
      | Some v' => Some v'
      | None =>
          match record_key store v with
          | Some k' => if key_eqb k' k then Some v else None
          | None => None
          end
      end
  end.

(** The records [items] gives for one collection, in order. *)
Definition items_for (store : string) (items : list (string * JSON)) : list JSON :=
  map snd (filter (fun p => String.eqb (fst p) store) items).

(** One step of the upgrade (open, lines 35-84): the collection is
    created when the database does not have it. *)
Definition create_missing (d : Database) (store : string) : Database :=
  if contains store d then d
  else d ++ [(store, mkStore (createObjectStore store) [] 1)].

End Setting.

Module Cases.
Import IDB DataLayer Contract.

(** The engine with its two listeners when the write of the log entry
    is going to fail. *)
Definition observed_log_fails : World :=
  set_fates [TxOk; ReqFail 0 QuotaExceededError] Scenario.observed.

(** A new page while the database cannot be opened. *)
Definition blocked : World :=
  mkWorld false 0 [] [] [] 1000 0 (Some (DOMException "UnknownError")) (inr []) [].

(** A new page on a browser that has no database yet, when the seed
    document cannot be fetched. *)
Definition no_seed_document : World :=
  mkWorld false 0 [] [] [] 1000 0 None (inl (TypeError "Failed to fetch")) [].

(** The engine with its two listeners when the transaction of the log
    entry is not going to commit. *)
Definition observed_log_uncommitted : World :=
  set_fates [TxOk; CommitFail QuotaExceededError] Scenario.observed.

(** A page that has opened its database for the first time: the seed
    document is in, with its marker and one log entry. *)
Definition seeded_page : World := snd (open Scenario.fresh).

(** A log record as the engine itself writes it: no id. *)
Definition note : JSON :=
  JObj [("action", JStr "note"); ("payload", JNull); ("time", JNum 7)].

(** The open engine once the key generator of logs is exhausted: a log
    record with the largest id that moves the generator has been put
    (that put rejected, with its record stored). *)
Definition exhausted : World :=
  snd (put "logs" (JObj [("id", JNum MAX_GENERATED)]) Scenario.opened).

(** Another message, of the chat c2. *)
Definition message2 : JSON :=
  JObj [("id", JStr "m2"); ("chatId", JStr "c2"); ("time", JNum 101); ("text", JStr "yo")].

(** The open engine holding the chats c1 (of p1 and p2) and c2 (of p1)
    and one message of each. *)
Definition conversation : World :=
  snd (put "messages" message2
         (snd (put "messages" Scenario.message1 Scenario.two_puts))).

(** The engine holding two chats, with listener 7 on "logs:change",
    8 on "chats:change" and 9 on "db:reset". *)
Definition watched : World :=
  set_listeners [("logs:change", 7%nat); ("chats:change", 8%nat); ("db:reset", 9%nat)]
                Scenario.two_puts.

End Cases.

(** The ways a write can fail. *)
Section Failing.
Import IDB DataLayer Contract.

(** The number of a key of logs leaves room for [n] generated keys
    after it: a put with an explicit id moves the key generator of logs
    past that id. *)
Definition key_room (n : Z) (store : string) (k : Key) : Prop :=
  store = "logs" -> forall i, k = KNum i -> i + n <= MAX_GENERATED.

(** How many records of [rs] have the key [k]. *)
Definition held (k : Key) (rs : list (Key * JSON)) : nat :=
  List.length (filter (fun r => key_eqb (fst r) k) rs).

(** The first request of [ops] that fails by itself when the requests
    are run in order, those refused at the call being left out. *)
Fixpoint first_failure (ops : list (Op unit)) (d : Database) : option Error :=
  match ops with
  | [] => None
  | op :: rest =>
      match op ReadWrite d with
      | Throws _ => first_failure rest d
      | Fails e => Some e
      | Succeeds _ d' => first_failure rest d'
      end
  end.

(** None of the operation's requests is refused at the call. *)
Definition nothing_thrown (m : Mutation) (w : World) : bool :=
  negb (existsb (fun op => throws op (idb w)) (requests_of m w)).

(** The operation's own transaction aborts with the failure [e]: the
    environment makes it abort, or one of its requests fails by itself
    (the key generator of logs is exhausted). *)
Inductive transaction_aborts (m : Mutation) (w : World) (e : Error) : Prop :=
| aborted_by_environment : aborts m w e -> transaction_aborts m w e
| aborted_by_request :
    next_fate w = TxOk -> first_failure (requests_of m w) (idb w) = Some e ->
    transaction_aborts m w e.

(** The failure of the [add] request of recordLog, if it is going to
    fail: the environment fails it, or the key generator of logs is
    exhausted or gives a key that logs already holds. *)
Definition log_failure (w : World) : option Error :=
  match next_fate w with
  | ReqFail O e => Some e
  | _ =>
      if (MAX_GENERATED <? log_keygen (idb w))
         || mem (KNum (log_keygen (idb w))) (records_of "logs" (idb w))
      then Some ConstraintError
      else None
  end.

End Failing.

(* ===================================================================== *)
(** ** Facts about keys and stored records *)
(* ===================================================================== *)

Lemma key_eqb_eq (a b : Key) : key_eqb a b = true <-> a = b.
Proof.
  revert b. induction a as [n | s | ks IH] using Key_nested_ind; intros [m | t | ls]; simpl;
    try (split; intro H; discriminate H).
  - rewrite Z.eqb_eq. split; [intros -> | intros [= ->]]; reflexivity.
  - rewrite String.eqb_eq. split; [intros -> | intros [= ->]]; reflexivity.
  - revert ls. induction IH as [| x xs Hx _ IHxs]; intros [| y ys];
      try (split; [discriminate | intros [= ]]); try (split; reflexivity).
    rewrite andb_true_iff, Hx, IHxs.
    split; [intros [-> [= ->]] | intros [= -> ->]]; auto.
Qed.

Lemma key_eqb_refl (k : Key) : key_eqb k k = true.
Proof. apply key_eqb_eq. reflexivity. Qed.

Lemma key_eqb_neq (a b : Key) : key_eqb a b = false <-> a <> b.
Proof.
  rewrite <- key_eqb_eq. destruct (key_eqb a b); split; congruence.
Qed.

Lemma key_eqb_sym (a b : Key) : key_eqb a b = key_eqb b a.
Proof.
  destruct (key_eqb a b) eqn:E.
  - apply key_eqb_eq in E. subst. symmetry. apply key_eqb_refl.
  - symmetry. apply key_eqb_neq. apply key_eqb_neq in E. congruence.
Qed.

Lemma code_unit_rank_inj a b : code_unit_rank a = code_unit_rank b -> a = b.
Proof.
  unfold code_unit_rank. cbv zeta.
  pose proof (N_ascii_bounded a) as Ha. pose proof (N_ascii_bounded b) as Hb.
  destruct (N.ltb_spec (N_of_ascii a) 238), (N.ltb_spec (N_of_ascii a) 240),
    (N.ltb_spec (N_of_ascii b) 238), (N.ltb_spec (N_of_ascii b) 240);
    intros Hr; rewrite <- (ascii_N_embedding a), <- (ascii_N_embedding b); f_equal; lia.
Qed.

(** The order of string keys is an order of the strings themselves: only
    a string compares equal to a string. *)
Lemma code_unit_compare_eq x y : code_unit_compare x y = Eq <-> x = y.
Proof.
  revert y. induction x as [| a x IH]; intros [| b y]; simpl;
    try (split; [reflexivity | reflexivity]); try (split; discriminate).
  destruct (N.compare_spec (code_unit_rank a) (code_unit_rank b)) as [E | L | L].
  - apply code_unit_rank_inj in E. subst b. rewrite IH.
    split; [intros ->; reflexivity | intros [= ->]; reflexivity].
  - split; [discriminate | intros [= -> _]; lia].
  - split; [discriminate | intros [= -> _]; lia].
Qed.

(** On ASCII text the order is the order of the bytes. *)
Lemma code_unit_rank_ascii c : (N_of_ascii c < 128)%N -> code_unit_rank c = N_of_ascii c.
Proof.
  intros H. unfold code_unit_rank. cbv zeta.
  destruct (N.ltb_spec (N_of_ascii c) 238); [reflexivity | lia].
Qed.

(** U+10000, a surrogate pair in UTF-16, comes before U+E000, although
    its UTF-8 form starts with the larger byte. *)
Lemma surrogates_before_private_use :
  key_compare (KStr (String "240" (String "144" (String "128" (String "128" EmptyString)))))
              (KStr (String "238" (String "128" (String "128" EmptyString))))
  = Lt.
Proof. reflexivity. Qed.

Section Records.
Import IDB.
Implicit Types (k : Key) (v : JSON) (rs : list (Key * JSON)).

Lemma lookup_remove_same k rs : lookup k (remove k rs) = None.
Proof.
  induction rs as [| [k' v'] t IH]; simpl; [reflexivity |].
  destruct (key_eqb k' k) eqn:E; simpl; [exact IH | rewrite E; exact IH].
Qed.

Lemma lookup_remove_other k k' rs :
  k' <> k -> lookup k' (remove k rs) = lookup k' rs.
Proof.
  intros Hne. induction rs as [| [k0 v0] t IH]; simpl; [reflexivity |].
  destruct (key_eqb k0 k) eqn:E; simpl.
  - apply key_eqb_eq in E. subst k0.
    assert (key_eqb k k' = false) as -> by (apply key_eqb_neq; congruence).
    exact IH.
  - destruct (key_eqb k0 k'); [reflexivity | exact IH].
Qed.

Lemma remove_absent k rs : lookup k rs = None -> remove k rs = rs.
Proof.
  induction rs as [| [k' v'] t IH]; simpl; [reflexivity |].
  destruct (key_eqb k' k) eqn:E; [discriminate |].
  intros H. simpl. rewrite (IH H). reflexivity.
Qed.

Lemma lookup_insert_same k v rs :
  lookup k rs = None -> lookup k (insert k v rs) = Some v.
Proof.
  induction rs as [| [k' v'] t IH]; simpl.
  - rewrite key_eqb_refl. reflexivity.
  - destruct (key_eqb k' k) eqn:E; [discriminate |]. intros H.
    destruct (key_compare k k'); simpl; rewrite ?key_eqb_refl, ?E; auto.
Qed.

Lemma lookup_insert_other k k' v rs :
  k' <> k -> lookup k' (insert k v rs) = lookup k' rs.
Proof.
  intros Hne.
  assert (key_eqb k k' = false) as Hk by (apply key_eqb_neq; congruence).
  induction rs as [| [k0 v0] t IH]; simpl.
  - rewrite Hk. reflexivity.
  - destruct (key_compare k k0); simpl; rewrite ?Hk; try reflexivity.
    destruct (key_eqb k0 k'); [reflexivity | exact IH].
Qed.

Lemma length_insert k v rs : List.length (insert k v rs) = S (List.length rs).
Proof.
  induction rs as [| [k' v'] t IH]; simpl; [reflexivity |].
  destruct (key_compare k k'); simpl; rewrite ?IH; reflexivity.
Qed.

Lemma remove_insert k v rs : remove k (insert k v rs) = remove k rs.
Proof.
  induction rs as [| [k' v'] t IH]; simpl.
  - rewrite key_eqb_refl. reflexivity.
  - destruct (key_compare k k'); simpl; rewrite ?key_eqb_refl; simpl;
      try reflexivity.
    destruct (key_eqb k' k); simpl; rewrite IH; reflexivity.
Qed.

Lemma remove_remove k rs : remove k (remove k rs) = remove k rs.
Proof. apply remove_absent, lookup_remove_same. Qed.

Lemma in_insert k v rs (x : Key * JSON) :
  In x (insert k v rs) <-> x = (k, v) \/ In x rs.
Proof.
  induction rs as [| [k' v'] t IH]; simpl.
  - intuition auto.
  - destruct (key_compare k k'); simpl; rewrite ?IH; intuition auto.
Qed.

Lemma lookup_store_same k v rs : lookup k (store k v rs) = Some v.
Proof. apply lookup_insert_same, lookup_remove_same. Qed.

Lemma lookup_store_other k k' v rs :
  k' <> k -> lookup k' (store k v rs) = lookup k' rs.
Proof.
  intros H. unfold store.
  rewrite lookup_insert_other, lookup_remove_other by assumption. reflexivity.
Qed.

Lemma store_absent k v rs : lookup k rs = None -> store k v rs = insert k v rs.
Proof. intros H. unfold store. rewrite remove_absent by assumption. reflexivity. Qed.

Lemma length_store_again k v v' rs :
  List.length (store k v' (store k v rs)) = List.length (store k v rs).
Proof.
  unfold store. rewrite remove_insert, remove_remove, !length_insert. reflexivity.
Qed.

Lemma mem_false k rs : mem k rs = false <-> lookup k rs = None.
Proof. unfold mem. destruct (lookup k rs); split; congruence. Qed.

Lemma lookup_in k v rs : lookup k rs = Some v -> In (k, v) rs.
Proof.
  induction rs as [| [k' v'] t IH]; simpl; [discriminate |].
  destruct (key_eqb k' k) eqn:E.
  - apply key_eqb_eq in E. intros [= ->]. left. congruence.
  - intros H. right. auto.
Qed.
End Records.

Section Databases.
Import IDB.
Implicit Types (d : Database) (s : ObjectStore).

Lemma find_store_set_same name s s' d :
  find_store name d = Some s -> find_store name (set_store name s' d) = Some s'.
Proof.
  induction d as [| [n s0] t IH]; simpl; [discriminate |].
  destruct (String.eqb n name) eqn:E; simpl; rewrite E; auto.
Qed.

Lemma find_store_set_other name name' s' d :
  name' <> name -> find_store name' (set_store name s' d) = find_store name' d.
Proof.
  intros Hne. induction d as [| [n s0] t IH]; simpl; [reflexivity |].
  destruct (String.eqb n name) eqn:E; simpl.
  - apply String.eqb_eq in E. subst n.
    assert (String.eqb name name' = false) as -> by (apply String.eqb_neq; congruence).
    reflexivity.
  - destruct (String.eqb n name'); [reflexivity | exact IH].
Qed.

Lemma set_store_absent name s' d : find_store name d = None -> set_store name s' d = d.
Proof.
  induction d as [| [n s0] t IH]; simpl; [reflexivity |].
  destruct (String.eqb n name); [discriminate |]. intros H. rewrite IH; auto.
Qed.
End Databases.

(* ===================================================================== *)
(** ** Stepping through the methods *)
(* ===================================================================== *)

Section Stepping.
Import IDB DataLayer Contract.

Lemma bind_resolved {A B} (m : Async A) (k : A -> Async B) w b w' :
  bind m k w = (Resolved b, w') ->
  exists a w1, m w = (Resolved a, w1) /\ k a w1 = (Resolved b, w').
Proof.
  unfold bind. destruct (m w) as [[a | e] w1]; [eauto | discriminate].
Qed.

Lemma bind_step {A B} (m : Async A) (k : A -> Async B) w a w1 :
  m w = (Resolved a, w1) -> bind m k w = k a w1.
Proof. unfold bind. intros ->. reflexivity. Qed.

Lemma bind_rejected {A B} (m : Async A) (k : A -> Async B) w e w1 :
  m w = (Rejected e, w1) -> bind m k w = (Rejected e, w1).
Proof. unfold bind. intros ->. reflexivity. Qed.

Lemma bind_assoc {A B C} (m : Async A) (f : A -> Async B) (g : B -> Async C) w :
  bind (bind m f) g w = bind m (fun a => bind (f a) g) w.
Proof.
  unfold bind. destruct (m w) as [[a | e] w1]; reflexivity.
Qed.

Lemma bind_ext {A B} (m : Async A) (f g : A -> Async B) w :
  (forall a w1, f a w1 = g a w1) -> bind m f w = bind m g w.
Proof.
  intros H. unfold bind. destruct (m w) as [[a | e] w1]; [apply H | reflexivity].
Qed.

Lemma bind_ret_unit (m : Async unit) w : bind m (fun _ => ret tt) w = m w.
Proof.
  unfold bind, ret. destruct (m w) as [[[] | e] w1]; reflexivity.
Qed.

Lemma open_connected n w : db w = true -> open_at n w = (Resolved tt, w).
Proof. intros H. destruct n; simpl; rewrite H; reflexivity. Qed.

Lemma transaction_connected names mode w :
  db w = true -> transaction names mode w = begin_tx names mode w.
Proof.
  intros H. unfold transaction, Body.transaction, bind, open.
  rewrite (open_connected 1 w H). reflexivity.
Qed.

Lemma this_db_transaction_connected names mode w :
  db w = true -> this_db_transaction names mode w = begin_tx names mode w.
Proof. intros H. unfold this_db_transaction. rewrite H. reflexivity. Qed.

(** Each operation is its own transaction, then the log entry, then its
    own event. *)
Lemma run_split m w :
  run m w = (data_phase m ;; recordLog (action m) (payload m) ;; notify m) w.
Proof.
  destruct m; unfold run, data_phase, notify, own_event, action, payload,
    put, bulkPut, delete, clearAll, seed, Body.put, Body.bulkPut, Body.delete,
    Body.clearAll, Body.seed;
    fold (transaction) (recordLog);
    unfold bind, ret;
    repeat match goal with
           | |- context [match ?m ?w with _ => _ end] =>
               is_var w; destruct (m w) as [[? | ?] ?]
           end;
    repeat match goal with u : unit |- _ => destruct u end;
    reflexivity.
Qed.

(** *** The schema *)

Lemma index_eqb_eq a b : index_eqb a b = true -> a = b.
Proof.
  destruct a, b. unfold index_eqb. simpl.
  rewrite !andb_true_iff, !String.eqb_eq, Bool.eqb_true_iff.
  intros [[-> ->] ->]. reflexivity.
Qed.

Lemma indexes_eqb_eq l1 l2 : indexes_eqb l1 l2 = true -> l1 = l2.
Proof.
  revert l2. induction l1 as [| a t IH]; intros [| b t2]; simpl; try discriminate;
    [reflexivity |].
  rewrite andb_true_iff. intros [H1 H2].
  apply index_eqb_eq in H1. apply IH in H2. congruence.
Qed.

Lemma spec_eqb_eq a b : spec_eqb a b = true -> a = b.
Proof.
  destruct a, b. unfold spec_eqb. simpl.
  rewrite !andb_true_iff, String.eqb_eq, Bool.eqb_true_iff.
  intros [[-> ->] H]. apply indexes_eqb_eq in H. congruence.
Qed.

Lemma schema_find d name :
  schema_ok d = true -> In name STORES ->
  exists s, find_store name d = Some s /\ spec s = createObjectStore name.
Proof.
  unfold schema_ok. rewrite forallb_forall. intros H Hin.
  specialize (H name Hin). destruct (find_store name d) as [s |]; [| discriminate].
  exists s. split; [reflexivity | apply spec_eqb_eq; exact H].
Qed.

Lemma keyPath_created name :
  keyPath (createObjectStore name) = if String.eqb name "meta" then "key" else "id".
Proof.
  unfold createObjectStore.
  repeat match goal with
         | |- context [String.eqb name ?x] => destruct (String.eqb name x)
         end; reflexivity.
Qed.

Lemma autoIncrement_created name :
  autoIncrement (createObjectStore name) = String.eqb name "logs".
Proof.
  unfold createObjectStore.
  repeat match goal with
         | |- context [String.eqb name ?x] =>
             let E := fresh in destruct (String.eqb name x) eqn:E;
             [apply String.eqb_eq in E; subst name |]
         end; reflexivity.
Qed.

Lemma ready_db w : ready w = true -> db w = true.
Proof. unfold ready. rewrite !andb_true_iff. tauto. Qed.

Lemma ready_schema w : ready w = true -> schema_ok (idb w) = true.
Proof. unfold ready. rewrite !andb_true_iff. tauto. Qed.

Lemma ready_distinct w : ready w = true -> distinct (listeners w) = true.
Proof. unfold ready. rewrite !andb_true_iff. tauto. Qed.

Lemma same_schema_refl d : same_schema d d.
Proof. intros name. reflexivity. Qed.

Lemma same_schema_trans d1 d2 d3 :
  same_schema d1 d2 -> same_schema d2 d3 -> same_schema d1 d3.
Proof. intros H1 H2 name. rewrite H2. apply H1. Qed.

Lemma same_schema_set name s s' d :
  find_store name d = Some s -> spec s' = spec s -> same_schema d (set_store name s' d).
Proof.
  intros Hs Hspec n. destruct (String.eqb_spec n name) as [-> | Hne].
  - rewrite (find_store_set_same _ _ _ _ Hs), Hs. simpl. congruence.
  - rewrite find_store_set_other by assumption. reflexivity.
Qed.

Lemma same_schema_ok d d' : same_schema d d' -> schema_ok d = true -> schema_ok d' = true.
Proof.
  unfold schema_ok. rewrite !forallb_forall. intros Hsame H name Hin.
  specialize (H name Hin). specialize (Hsame name).
  destruct (find_store name d) as [s |]; [| discriminate].
  destruct (find_store name d') as [s' |]; [| discriminate].
  simpl in Hsame. injection Hsame as ->. exact H.
Qed.

Lemma same_schema_contains d d' name :
  same_schema d d' -> contains name d' = contains name d.
Proof.
  intros H. specialize (H name). unfold contains.
  destruct (find_store name d), (find_store name d'); simpl in H; congruence.
Qed.

Lemma store_record_spec ow key v s s' :
  store_record ow key v s = inr s' -> spec s' = spec s.
Proof.
  unfold store_record. destruct key as [k |].
  - destruct (negb ow && mem k (records s)); [discriminate |]. intros [= <-]. reflexivity.
  - destruct (MAX_GENERATED <? keygen s); [discriminate |].
    destruct (negb ow && mem (KNum (keygen s)) (records s)); [discriminate |].
    intros [= <-]. reflexivity.
Qed.

(** *** Requests *)

Lemma request_write ow name v tx s :
  find_store name (tx_work tx) = Some s -> tx_mode tx = ReadWrite ->
  tx_aborted tx = None ->
  request (write ow name v) tx =
    match check_value s v with
    | inl e => ReqThrow e
    | inr key =>
        match fails_now tx with
        | Some e => ReqError e (abort e tx)
        | None =>
            match store_record ow key v s with
            | inl e => ReqError e (abort e tx)
            | inr s' =>
                ReqSuccess tt (mkTx ReadWrite (tx_fate tx) (S (tx_issued tx)) None
                                    (set_store name s' (tx_work tx)))
            end
        end
    end.
Proof.
  intros Hs Hm Ha. unfold request, write. rewrite Hs, Hm, Ha.
  destruct (check_value s v) as [e | key]; [reflexivity |].
  destruct (store_record ow key v s) as [e | s']; destruct (fails_now tx); reflexivity.
Qed.

Lemma request_delete name k tx s :
  find_store name (tx_work tx) = Some s -> tx_mode tx = ReadWrite ->
  tx_aborted tx = None ->
  request (IDB.delete name k) tx =
    match fails_now tx with
    | Some e => ReqError e (abort e tx)
    | None =>
        ReqSuccess tt (mkTx ReadWrite (tx_fate tx) (S (tx_issued tx)) None
                            (set_store name (with_records (remove k (records s)) s)
                                       (tx_work tx)))
    end.
Proof.
  intros Hs Hm Ha. unfold request, IDB.delete. rewrite Hs, Hm, Ha.
  destruct (fails_now tx); reflexivity.
Qed.

Lemma request_clear name tx s :
  find_store name (tx_work tx) = Some s -> tx_mode tx = ReadWrite ->
  tx_aborted tx = None ->
  request (IDB.clear name) tx =
    match fails_now tx with
    | Some e => ReqError e (abort e tx)
    | None =>
        ReqSuccess tt (mkTx ReadWrite (tx_fate tx) (S (tx_issued tx)) None
                            (set_store name (with_records [] s) (tx_work tx)))
    end.
Proof.
  intros Hs Hm Ha. unfold request, IDB.clear. rewrite Hs, Hm, Ha.
  destruct (fails_now tx); reflexivity.
Qed.

Lemma begin_tx_eq names mode w :
  forallb (fun n => contains n (idb w)) names = true ->
  begin_tx names mode w = (Resolved (fresh_tx mode w), pop w).
Proof. intros H. unfold begin_tx. rewrite H. reflexivity. Qed.

Lemma schema_contains d names :
  schema_ok d = true -> incl names STORES ->
  forallb (fun n => contains n d) names = true.
Proof.
  intros H Hincl. apply forallb_forall. intros n Hn.
  destruct (schema_find d n H (Hincl n Hn)) as [s [Hs _]].
  unfold contains. rewrite Hs. reflexivity.
Qed.

(** *** recordLog *)

Lemma recordLog_eq a p w s :
  db w = true -> find_store "logs" (idb w) = Some s ->
  spec s = createObjectStore "logs" ->
  recordLog a p w =
    match fails_now (fresh_tx ReadWrite w) with
    | Some e => (Rejected e, pop w)
    | None =>
        if (MAX_GENERATED <? keygen s) || mem (KNum (keygen s)) (records s)
        then (Rejected ConstraintError, pop w)
        else (Resolved tt, after_log a p s w)
    end.
Proof.
  intros Hdb Hs Hspec.
  unfold recordLog, Body.recordLog. fold transaction.
  unfold bind at 1. unfold Date_now.
  unfold bind at 1. rewrite (transaction_connected _ _ _ Hdb).
  rewrite begin_tx_eq by (simpl; unfold contains; rewrite Hs; reflexivity).
  unfold bind at 1. unfold await_request.
  rewrite (request_write false "logs" _ (fresh_tx ReadWrite w) s Hs eq_refl eq_refl).
  unfold check_value, extract_key, store_record. rewrite Hspec. simpl.
  destruct (fails_now (fresh_tx ReadWrite w)) as [e |]; [reflexivity |].
  destruct (MAX_GENERATED <? keygen s); [reflexivity |].
  destruct (mem (KNum (keygen s)) (records s)); [reflexivity |].
  simpl. unfold bind, unattended, after_log, logs_after, log_entry. simpl.
  rewrite Hspec. reflexivity.
Qed.

(** *** Several requests in one transaction *)

Lemma request_cases {A} (op : Op A) tx :
  tx_aborted tx = None ->
  match request op tx with
  | ReqThrow e => op (tx_mode tx) (tx_work tx) = Throws e
  | ReqError e tx1 =>
      tx_aborted tx1 = Some e /\ tx_work tx1 = tx_work tx /\ tx_fate tx1 = tx_fate tx
  | ReqSuccess a tx1 =>
      op (tx_mode tx) (tx_work tx) = Succeeds a (tx_work tx1)
      /\ tx_aborted tx1 = None /\ tx_mode tx1 = tx_mode tx /\ tx_fate tx1 = tx_fate tx
      /\ tx_issued tx1 = S (tx_issued tx) /\ fails_now tx = None
  end.
Proof.
  intros Ha. unfold request. rewrite Ha.
  destruct (op (tx_mode tx) (tx_work tx)) as [e | e | a d]; [reflexivity | |];
    destruct (fails_now tx) as [e' |]; simpl; auto 10.
Qed.

Lemma request_aborted {A} (op : Op A) tx e :
  tx_aborted tx = Some e ->
  match request op tx with
  | ReqThrow _ => True
  | ReqError _ tx1 => tx1 = tx
  | ReqSuccess _ _ => False
  end.
Proof.
  intros Ha. unfold request. rewrite Ha.
  destruct (op (tx_mode tx) (tx_work tx)); auto.
Qed.

Lemma request_all_aborted ops tx e :
  tx_aborted tx = Some e -> snd (request_all ops tx) = tx.
Proof.
  intros Ha. induction ops as [| op rest IH]; simpl; [reflexivity |].
  pose proof (request_aborted op tx e Ha) as H.
  destruct (request op tx) as [e1 | e1 tx1 | a tx1].
  - destruct (request_all rest tx) as [es tx']. simpl in *. exact IH.
  - subst tx1. exact IH.
  - contradiction.
Qed.

(** Whatever happens to the requests, the transaction keeps its mode
    and its fate. *)
Lemma request_all_fate ops tx :
  tx_fate (snd (request_all ops tx)) = tx_fate tx
  /\ tx_mode (snd (request_all ops tx)) = tx_mode tx.
Proof.
  revert tx. induction ops as [| op rest IH]; intros tx; simpl; [auto |].
  unfold request.
  destruct (op (tx_mode tx) (tx_work tx)) as [e | e | a d].
  - specialize (IH tx). destruct (request_all rest tx). simpl in *. exact IH.
  - destruct (tx_aborted tx); [apply IH |].
    destruct (fails_now tx); apply (IH (abort _ tx)).
  - destruct (tx_aborted tx); [apply IH |].
    destruct (fails_now tx); [apply (IH (abort _ tx)) |].
    apply (IH (mkTx (tx_mode tx) (tx_fate tx) (S (tx_issued tx)) None d)).
Qed.

(** A property of the database that every successful request keeps is
    kept by the transaction's view of it. *)
Lemma request_all_invariant (P : Database -> Prop) ops tx :
  (forall op mode d a d', In op ops -> P d -> op mode d = Succeeds a d' -> P d') ->
  P (tx_work tx) -> P (tx_work (snd (request_all ops tx))).
Proof.
  revert tx. induction ops as [| op rest IH]; intros tx Hstep H0; simpl; [exact H0 |].
  assert (Hrest : forall op mode d a d',
             In op rest -> P d -> op mode d = Succeeds a d' -> P d')
    by (intros; eapply Hstep; eauto; right; assumption).
  unfold request.
  destruct (op (tx_mode tx) (tx_work tx)) as [e | e | a d] eqn:Eop.
  - specialize (IH tx Hrest H0). destruct (request_all rest tx). exact IH.
  - destruct (tx_aborted tx); [apply IH; assumption |].
    destruct (fails_now tx); apply (IH (abort _ tx)); assumption.
  - destruct (tx_aborted tx); [apply IH; assumption |].
    destruct (fails_now tx); [apply (IH (abort _ tx)); assumption |].
    apply (IH (mkTx _ _ _ None d)); [assumption |]. simpl.
    eapply Hstep; [left; reflexivity | exact H0 | exact Eop].
Qed.

(** When no request threw and none failed, all writes were applied. *)
Lemma request_all_success ops tx tx' :
  tx_mode tx = ReadWrite -> tx_aborted tx = None ->
  request_all ops tx = ([], tx') -> tx_aborted tx' = None ->
  apply_all ops (tx_work tx) = Some (tx_work tx')
  /\ tx_issued tx' = (tx_issued tx + List.length ops)%nat.
Proof.
  revert tx. induction ops as [| op rest IH]; intros tx Hm Ha Hrun Hok; simpl in *.
  - injection Hrun as <-. split; [reflexivity | lia].
  - pose proof (request_cases op tx Ha) as Hc.
    destruct (request op tx) as [e | e tx1 | a tx1].
    + destruct (request_all rest tx). discriminate.
    + destruct Hc as [Hab _].
      pose proof (request_all_aborted rest tx1 e Hab) as Hsame.
      rewrite Hrun in Hsame. simpl in Hsame. subst tx'. congruence.
    + destruct Hc as (Hop & Hab & Hmode & _ & Hiss & _).
      rewrite Hm in Hop. rewrite Hop.
      destruct (IH tx1) as [H1 H2]; try assumption; [congruence |].
      split; [exact H1 | lia].
Qed.

(** *** The operation's own transaction *)

Lemma begin_tx_resolved names mode w tx w' :
  begin_tx names mode w = (Resolved tx, w') -> tx = fresh_tx mode w /\ w' = pop w.
Proof.
  unfold begin_tx. destruct (forallb _ names); [| discriminate].
  intros [= <- <-]. auto.
Qed.

Lemma await_request_resolved {A} (op : Op A) tx w r w' :
  await_request op tx w = (Resolved r, w') ->
  request op tx = ReqSuccess (fst r) (snd r) /\ w' = w.
Proof.
  unfold await_request. destruct (request op tx); try discriminate.
  intros [= <- <-]. auto.
Qed.

Lemma await_all_resolved r w tx w' :
  await_all r w = (Resolved tx, w') ->
  fst r = [] /\ tx = snd r /\ tx_aborted tx = None /\ w' = w.
Proof.
  unfold await_all. destruct (fst r); [| discriminate].
  destruct (tx_aborted (snd r)) eqn:E; [discriminate |].
  intros [= <- <-]. auto.
Qed.

Lemma await_complete_resolved tx w w' :
  await_complete tx w = (Resolved tt, w') ->
  tx_aborted tx = None /\ commits tx = true /\ w' = set_idb (tx_work tx) w.
Proof.
  unfold await_complete, commits. destruct (tx_aborted tx); [discriminate |].
  destruct (tx_fate tx); try discriminate; intros [= <-]; auto.
Qed.

Lemma apply_all_app ops1 ops2 d :
  apply_all (ops1 ++ ops2) d =
    match apply_all ops1 d with
    | Some d' => apply_all ops2 d'
    | None => None
    end.
Proof.
  revert d. induction ops1 as [| op rest IH]; intros d; simpl; [reflexivity |].
  destruct (op ReadWrite d); auto.
Qed.

(** A successful operation has applied all of its requests, in one
    transaction, to the database it found. *)
Lemma data_phase_resolved m w wc :
  db w = true -> data_phase m w = (Resolved tt, wc) ->
  exists d',
    apply_all (requests_of m w) (idb w) = Some d'
    /\ wc = set_idb d' (pop (prefetch m w))
    /\ fetchable m w.
Proof.
  intros Hdb H. destruct m as [store value | store values | store key | |];
    unfold data_phase in H.
  - apply bind_resolved in H as (tx & w1 & Htx & H).
    rewrite (transaction_connected _ _ _ Hdb) in Htx.
    apply begin_tx_resolved in Htx as [-> ->].
    apply bind_resolved in H as (r & w2 & Hr & H).
    apply await_request_resolved in Hr as [Hr ->].
    apply await_complete_resolved in H as (_ & _ & ->).
    pose proof (request_cases (IDB.put store value) (fresh_tx ReadWrite w) eq_refl) as Hc.
    rewrite Hr in Hc. destruct Hc as (Hop & _). simpl in Hop.
    exists (tx_work (snd r)). simpl. rewrite Hop. destruct (fst r). auto.
  - apply bind_resolved in H as (tx & w1 & Htx & H).
    rewrite (transaction_connected _ _ _ Hdb) in Htx.
    apply begin_tx_resolved in Htx as [-> ->].
    apply bind_resolved in H as (tx & w2 & Hall & H).
    apply await_all_resolved in Hall as (Hnil & -> & Hok & ->).
    apply await_complete_resolved in H as (_ & _ & ->).
    destruct (request_all (map (IDB.put store) values) (fresh_tx ReadWrite w))
      as [es tx'] eqn:E. simpl in *. subst es.
    destruct (request_all_success _ (fresh_tx ReadWrite w) _ eq_refl eq_refl E Hok)
      as [Happ _].
    exists (tx_work tx'). auto.
  - apply bind_resolved in H as (tx & w1 & Htx & H).
    rewrite (transaction_connected _ _ _ Hdb) in Htx.
    apply begin_tx_resolved in Htx as [-> ->].
    apply bind_resolved in H as (r & w2 & Hr & H).
    apply await_request_resolved in Hr as [Hr ->].
    apply await_complete_resolved in H as (_ & _ & ->).
    pose proof (request_cases (IDB.delete store key) (fresh_tx ReadWrite w) eq_refl) as Hc.
    rewrite Hr in Hc. destruct Hc as (Hop & _). simpl in Hop.
    exists (tx_work (snd r)). simpl. rewrite Hop. destruct (fst r). auto.
  - apply bind_resolved in H as (tx & w1 & Htx & H).
    rewrite (transaction_connected _ _ _ Hdb) in Htx.
    apply begin_tx_resolved in Htx as [-> ->].
    apply bind_resolved in H as (tx & w2 & Hall & H).
    apply await_all_resolved in Hall as (Hnil & -> & Hok & ->).
    apply await_complete_resolved in H as (_ & _ & ->).
    destruct (request_all (map IDB.clear STORES) (fresh_tx ReadWrite w))
      as [es tx'] eqn:E. simpl in Hnil, Hok |- *. subst es.
    destruct (request_all_success _ (fresh_tx ReadWrite w) _ eq_refl eq_refl E Hok)
      as [Happ _].
    exists (tx_work tx'). auto.
  - apply bind_resolved in H as (data & w1 & Hdata & H).
    unfold fetch_seed in Hdata.
    destruct (seed_json w) as [e | data'] eqn:Ejson; [discriminate |].
    injection Hdata as <- <-.
    apply bind_resolved in H as (tx & w1 & Htx & H).
    rewrite this_db_transaction_connected in Htx by exact Hdb.
    apply begin_tx_resolved in Htx as [-> ->].
    apply bind_resolved in H as (tx & w2 & Hall & H).
    apply await_all_resolved in Hall as (Hnil & -> & Hok & ->).
    apply bind_resolved in H as (time & w2 & Hnow & H).
    injection Hnow as <- <-.
    apply bind_resolved in H as (tx2 & w2 & Henq & H).
    apply await_complete_resolved in H as (Hok2 & _ & ->).
    set (w0 := set_fetched (S (fetched w)) w) in *.
    destruct (request_all (seed_requests data') (fresh_tx ReadWrite w0))
      as [es tx'] eqn:E. simpl in Hnil, Hok, Henq |- *. subst es.
    destruct (request_all_success _ (fresh_tx ReadWrite w0) _ eq_refl eq_refl E Hok)
      as [Happ _].
    destruct (request_all_fate (seed_requests data') (fresh_tx ReadWrite w0)) as [_ Hmode].
    rewrite E in Hmode. simpl in Hmode.
    unfold enqueue in Henq.
    pose proof (request_cases (IDB.put "meta" (seeded_marker (now w))) tx' Hok) as Hc.
    change (now (pop w0)) with (now w) in Henq.
    destruct (request (IDB.put "meta" (seeded_marker (now w))) tx') as [e | e tx3 | a tx3];
      [discriminate | |]; injection Henq as <- <-.
    + destruct Hc as [Hab _]. congruence.
    + destruct Hc as (Hop & _). rewrite Hmode in Hop.
      exists (tx_work tx3). unfold requests_of. rewrite Ejson.
      rewrite apply_all_app. change (idb w) with (tx_work (fresh_tx ReadWrite w0)).
      rewrite Happ. simpl. rewrite Hop.
      repeat split; try reflexivity. exists data'. reflexivity.
Qed.

Lemma apply_all_invariant (P : Database -> Prop) ops d d' :
  (forall op d0 a d1, In op ops -> P d0 -> op ReadWrite d0 = Succeeds a d1 -> P d1) ->
  P d -> apply_all ops d = Some d' -> P d'.
Proof.
  revert d. induction ops as [| op rest IH]; intros d Hstep H0; simpl.
  - intros [= <-]. exact H0.
  - destruct (op ReadWrite d) as [e | e | a d1] eqn:E; try discriminate.
    apply IH.
    + intros; eapply Hstep; eauto. right. assumption.
    + eapply Hstep; [left; reflexivity | exact H0 | exact E].
Qed.

(** What a successful write leaves in its collection. *)
Lemma write_succeeds ow name v d a d' :
  write ow name v ReadWrite d = Succeeds a d' ->
  exists s key s',
    find_store name d = Some s /\ check_value s v = inr key
    /\ store_record ow key v s = inr s' /\ d' = set_store name s' d.
Proof.
  unfold write. destruct (find_store name d) as [s |] eqn:Es; [| discriminate].
  destruct (check_value s v) as [e | key] eqn:Ec; [discriminate |].
  destruct (store_record ow key v s) as [e | s'] eqn:E; [discriminate |].
  intros [= <-]. exists s, key, s'. auto.
Qed.

Lemma delete_succeeds name k d a d' :
  IDB.delete name k ReadWrite d = Succeeds a d' ->
  exists s, find_store name d = Some s
            /\ d' = set_store name (with_records (remove k (records s)) s) d.
Proof.
  unfold IDB.delete. destruct (find_store name d) as [s |] eqn:Es; [| discriminate].
  intros [= <-]. eauto.
Qed.

Lemma clear_succeeds name d a d' :
  IDB.clear name ReadWrite d = Succeeds a d' ->
  exists s, find_store name d = Some s /\ d' = set_store name (with_records [] s) d.
Proof.
  unfold IDB.clear. destruct (find_store name d) as [s |] eqn:Es; [| discriminate].
  intros [= <-]. eauto.
Qed.

Lemma requests_of_engine m w op : In op (requests_of m w) -> engine_op op.
Proof.
  destruct m as [store value | store values | store key | |]; simpl.
  - intros [<- | []]. apply (op_write true).
  - rewrite in_map_iff. intros (v & <- & _). apply (op_write true).
  - intros [<- | []]. constructor.
  - intros H. repeat destruct H as [<- | H]; try constructor. destruct H.
  - destruct (seed_json w) as [e | data]; [intros [] |].
    rewrite in_app_iff. intros [H | [<- | []]]; [| apply (op_write true)].
    unfold seed_requests in H. apply in_flat_map in H as (store & _ & H).
    destruct (String.eqb store "meta"); [destruct H |].
    apply in_map_iff in H as (v & <- & _). apply (op_write true).
Qed.

Lemma engine_op_schema op d a d' :
  engine_op op -> op ReadWrite d = Succeeds a d' -> same_schema d d'.
Proof.
  intros [ow name v | name k | name] H.
  - apply write_succeeds in H as (s & key & s' & Hs & _ & Hrec & ->).
    eapply same_schema_set; [exact Hs |]. eapply store_record_spec; eassumption.
  - apply delete_succeeds in H as (s & Hs & ->).
    eapply same_schema_set; [exact Hs | reflexivity].
  - apply clear_succeeds in H as (s & Hs & ->).
    eapply same_schema_set; [exact Hs | reflexivity].
Qed.

Lemma requests_keep_schema m w d' :
  apply_all (requests_of m w) (idb w) = Some d' -> same_schema (idb w) d'.
Proof.
  apply (apply_all_invariant (same_schema (idb w))); [| apply same_schema_refl].
  intros op d0 a d1 Hin H0 Hop.
  eapply same_schema_trans; [exact H0 |].
  eapply engine_op_schema; [eapply requests_of_engine; exact Hin | exact Hop].
Qed.

(** A successful operation, taken apart: its writes [d'], then the log
    entry on top of them, then its own event. *)
Lemma run_resolved m w w' :
  ready w = true -> run m w = (Resolved tt, w') ->
  exists d' s,
    apply_all (requests_of m w) (idb w) = Some d'
    /\ find_store "logs" d' = Some s
    /\ spec s = createObjectStore "logs"
    /\ keygen s <= MAX_GENERATED
    /\ lookup (KNum (keygen s)) (records s) = None
    /\ fails_now (fresh_tx ReadWrite (pop w)) = None
    /\ fetchable m w
    /\ w' = snd (notify m (after_log (action m) (payload m) s
                                     (set_idb d' (pop (prefetch m w))))).
Proof.
  intros Hready H. pose proof (ready_db _ Hready) as Hdb.
  rewrite run_split in H.
  apply bind_resolved in H as ([] & wc & Hdata & H).
  apply data_phase_resolved in Hdata as (d' & Happ & -> & Hfetch); [| exact Hdb].
  apply bind_resolved in H as ([] & wl & Hlog & H).
  pose proof (requests_keep_schema _ _ _ Happ) as Hsame.
  pose proof (same_schema_ok _ _ Hsame (ready_schema _ Hready)) as Hok.
  destruct (schema_find d' "logs" Hok) as (s & Hs & Hspec);
    [unfold STORES; simpl; auto 10 |].
  set (wc := set_idb d' (pop (prefetch m w))) in *.
  assert (Hdbc : db wc = true) by (destruct m; exact Hdb).
  rewrite (recordLog_eq _ _ wc s Hdbc Hs Hspec) in Hlog.
  assert (Hf : fails_now (fresh_tx ReadWrite wc) = fails_now (fresh_tx ReadWrite (pop w)))
    by (destruct m; reflexivity).
  rewrite Hf in Hlog.
  destruct (fails_now (fresh_tx ReadWrite (pop w))) as [e |]; [discriminate |].
  destruct (MAX_GENERATED <? keygen s) eqn:Emax; [discriminate |].
  destruct (mem (KNum (keygen s)) (records s)) eqn:Emem; [discriminate |].
  simpl in Hlog. injection Hlog as <-.
  exists d', s. repeat split; try assumption.
  - apply Z.ltb_ge in Emax. exact Emax.
  - apply mem_false. exact Emem.
  - fold wc. rewrite H. reflexivity.
Qed.
End Stepping.

(* ===================================================================== *)
(** ** Notifications *)
(* ===================================================================== *)

Section Notifications.
Import IDB DataLayer Contract.

Lemma string_length_append a b :
  String.length (String.append a b) = (String.length a + String.length b)%nat.
Proof. induction a as [| c a IH]; simpl; [reflexivity | rewrite IH; reflexivity]. Qed.

Lemma append_inj_l a b t : String.append a t = String.append b t -> a = b.
Proof.
  revert b. induction a as [| c a IH]; intros [| c' b] H; simpl in H.
  - reflexivity.
  - apply (f_equal String.length) in H. simpl in H.
    rewrite string_length_append in H. lia.
  - apply (f_equal String.length) in H. simpl in H.
    rewrite string_length_append in H. lia.
  - injection H as -> H. f_equal. apply IH. exact H.
Qed.

Lemma change_event_eqb a b :
  String.eqb (String.append a ":change") (String.append b ":change") = String.eqb a b.
Proof.
  destruct (String.eqb_spec a b) as [-> | Hne].
  - apply String.eqb_refl.
  - apply String.eqb_neq. intros H. apply Hne. eapply append_inj_l. exact H.
Qed.

Lemma calls_app name h l1 l2 :
  calls name h (l1 ++ l2) = (calls name h l1 + calls name h l2)%nat.
Proof. unfold calls. rewrite filter_app, length_app. reflexivity. Qed.

Lemma calls_nil name h : calls name h [] = 0%nat.
Proof. reflexivity. Qed.

Lemma calls_broadcast_other name name' h seen ls :
  String.eqb name' name = false -> calls name h (broadcast name' seen ls) = 0%nat.
Proof.
  intros Hne. unfold calls, broadcast.
  induction ls as [| [n h'] t IH]; simpl; [reflexivity |].
  unfold listens at 1. simpl. destruct (String.eqb n name'); simpl; [| exact IH].
  rewrite Hne. simpl. exact IH.
Qed.

Lemma calls_broadcast_absent name h seen ls :
  existsb (same_listener (name, h)) ls = false ->
  calls name h (broadcast name seen ls) = 0%nat.
Proof.
  unfold calls, broadcast.
  induction ls as [| [n h'] t IH]; simpl; [reflexivity |].
  unfold same_listener at 1, listens at 1. simpl.
  rewrite orb_false_iff. intros [H1 H2].
  rewrite (String.eqb_sym n name).
  destruct (String.eqb name n) eqn:En; simpl; [| apply IH; exact H2].
  rewrite String.eqb_refl. simpl in H1 |- *.
  rewrite (Nat.eqb_sym h' h), H1. simpl. apply IH. exact H2.
Qed.

Lemma calls_broadcast name h seen ls :
  distinct ls = true -> In (name, h) ls ->
  calls name h (broadcast name seen ls) = 1%nat.
Proof.
  induction ls as [| [n h'] t IH]; simpl; [intros _ [] |].
  rewrite andb_true_iff, negb_true_iff. intros [Hfresh Hd] [Heq | Hin].
  - injection Heq as -> ->.
    unfold broadcast, calls in *. simpl. unfold listens at 1. simpl.
    rewrite String.eqb_refl. simpl. rewrite String.eqb_refl, Nat.eqb_refl. simpl.
    f_equal. apply (calls_broadcast_absent name h seen t Hfresh).
  - assert (Hne : same_listener (n, h') (name, h) = false).
    { destruct (same_listener (n, h') (name, h)) eqn:E; [| reflexivity].
      unfold same_listener in E. simpl in E. apply andb_true_iff in E as [E1 E2].
      apply String.eqb_eq in E1. apply Nat.eqb_eq in E2. subst.
      assert (existsb (same_listener (name, h)) t = true) as Hc.
      { apply existsb_exists. exists (name, h). split; [exact Hin |].
        unfold same_listener. simpl. rewrite String.eqb_refl, Nat.eqb_refl. reflexivity. }
      congruence. }
    specialize (IH Hd Hin). unfold broadcast, calls in *. simpl.
    unfold listens at 1. simpl.
    unfold same_listener in Hne. simpl in Hne.
    destruct (String.eqb n name) eqn:En; simpl; [| exact IH].
    rewrite String.eqb_refl. simpl in Hne |- *. rewrite Hne. simpl. exact IH.
Qed.

Lemma dispatch_delivered name w :
  delivered (snd (dispatch name w)) = delivered w ++ broadcast name (idb w) (listeners w).
Proof. reflexivity. Qed.

(** The deliveries of a successful operation: those of [recordLog],
    then those of its own event, all seeing the same database. *)
Lemma after_log_delivered a p s w :
  delivered (after_log a p s w) =
    delivered w ++ broadcast "logs:change" (idb (after_log a p s w)) (listeners w).
Proof.
  unfold after_log, settle. simpl.
  destruct (commits _); reflexivity.
Qed.

Lemma notify_delivered m w :
  delivered (snd (notify m w)) =
    delivered w ++ match own_event m with
                   | Some name => broadcast name (idb w) (listeners w)
                   | None => []
                   end.
Proof.
  unfold notify. destruct (own_event m); simpl; [reflexivity |].
  rewrite app_nil_r. reflexivity.
Qed.

Lemma notify_idb m w : idb (snd (notify m w)) = idb w.
Proof. unfold notify. destruct (own_event m); reflexivity. Qed.

Lemma after_log_listeners a p s w : listeners (after_log a p s w) = listeners w.
Proof. unfold after_log, settle. simpl. destruct (commits _); reflexivity. Qed.
End Notifications.

Section LogsChange.
Import IDB DataLayer Contract.

Lemma own_event_logs m :
  match own_event m with
  | Some name => String.eqb name "logs:change"
  | None => false
  end = on_logs m.
Proof.
  destruct m; simpl; try reflexivity; apply (change_event_eqb _ "logs").
Qed.

(** C10. On an open engine, every successful put, bulkPut, delete,
    clearAll and seed calls each "logs:change" listener once through
    recordLog; an operation on the logs collection itself calls it a
    second time through its own "logs:change" event, so put('logs', r)
    notifies it twice. *)
Theorem logs_change_on_every_mutation m w w' h :
  ready w = true ->
  run m w = (Resolved tt, w') ->
  In ("logs:change", h) (listeners w) ->
  exists news,
    delivered w' = delivered w ++ news
    /\ calls "logs:change" h news = (if on_logs m then 2 else 1)%nat.
Proof.
  intros Hready Hrun Hin.
  destruct (run_resolved m w w' Hready Hrun) as (d' & s & _ & _ & _ & _ & _ & _ & _ & ->).
  set (wc := set_idb d' (pop (prefetch m w))).
  set (wl := after_log (action m) (payload m) s wc).
  assert (Hl : listeners wc = listeners w) by (destruct m; reflexivity).
  assert (Hd : delivered wc = delivered w) by (destruct m; reflexivity).
  exists (broadcast "logs:change" (idb wl) (listeners w)
          ++ match own_event m with
             | Some name => broadcast name (idb wl) (listeners w)
             | None => []
             end).
  pose proof (after_log_delivered (action m) (payload m) s wc) as Hwd.
  pose proof (after_log_listeners (action m) (payload m) s wc) as Hwl.
  fold wl in Hwd, Hwl. rewrite Hl in Hwd, Hwl. rewrite Hd in Hwd.
  split.
  - rewrite notify_delivered, Hwd, Hwl, app_assoc. reflexivity.
  - rewrite calls_app.
    rewrite (calls_broadcast _ _ _ _ (ready_distinct _ Hready) Hin).
    rewrite <- own_event_logs.
    destruct (own_event m) as [name |]; [| reflexivity].
    destruct (String.eqb name "logs:change") eqn:E.
    + apply String.eqb_eq in E. subst name.
      rewrite (calls_broadcast _ _ _ _ (ready_distinct _ Hready) Hin). reflexivity.
    + rewrite calls_broadcast_other by exact E. reflexivity.
Qed.

Lemma logs_change_on_every_mutation_witness :
  exists news,
    delivered (snd (run (Put "logs" Scenario.entry1) Scenario.observed))
    = delivered Scenario.observed ++ news
    /\ calls "logs:change" 7%nat news = 2%nat.
Proof.
  apply (logs_change_on_every_mutation (Put "logs" Scenario.entry1) Scenario.observed
           (snd (run (Put "logs" Scenario.entry1) Scenario.observed)) 7%nat).
  - vm_compute. reflexivity.
  - vm_compute. reflexivity.
  - simpl. auto.
Defined.
End LogsChange.

(* ===================================================================== *)
(** ** What the writes of a transaction leave in the database *)
(* ===================================================================== *)

Section Writes.
Import IDB DataLayer Contract.

Lemma record_at_set_same store s s' k d :
  find_store store d = Some s ->
  record_at store k (set_store store s' d) = lookup k (records s').
Proof.
  intros Hs. unfold record_at, records_of.
  rewrite (find_store_set_same _ _ _ _ Hs). reflexivity.
Qed.

Lemma records_of_set_other store store' s' d :
  store' <> store -> records_of store' (set_store store s' d) = records_of store' d.
Proof.
  intros Hne. unfold records_of. rewrite find_store_set_other by assumption. reflexivity.
Qed.

Lemma record_at_set_other store store' s' k d :
  store' <> store -> record_at store' k (set_store store s' d) = record_at store' k d.
Proof.
  intros Hne. unfold record_at. rewrite records_of_set_other by assumption. reflexivity.
Qed.

Lemma check_value_keyed store s v k :
  spec s = createObjectStore store -> record_key store v = Some k ->
  check_value s v = inr (Some k).
Proof.
  unfold record_key, check_value. intros ->.
  destruct (extract_key _ v); try discriminate. intros [= ->]. reflexivity.
Qed.

Lemma check_value_key store s v k :
  spec s = createObjectStore store -> check_value s v = inr (Some k) ->
  record_key store v = Some k.
Proof.
  unfold record_key, check_value. intros ->.
  destruct (extract_key _ v).
  - destruct (autoIncrement _); [destruct v |]; discriminate.
  - discriminate.
  - intros [= ->]. reflexivity.
Qed.

Lemma bump_ge k g : g <= bump k g.
Proof.
  unfold bump. destruct k as [n | |]; try lia.
  destruct (g <=? Z.min n MAX_GENERATED) eqn:E; [apply Z.leb_le in E |]; lia.
Qed.

Lemma bump_past n g : n < bump (KNum n) g \/ MAX_GENERATED < bump (KNum n) g.
Proof.
  unfold bump. destruct (g <=? Z.min n MAX_GENERATED) eqn:E;
    [apply Z.leb_le in E | apply Z.leb_gt in E]; lia.
Qed.

Lemma put_establishes candidates store v k d a d' :
  schema_ok d = true -> In store STORES ->
  In v candidates -> record_key store v = Some k ->
  IDB.put store v ReadWrite d = Succeeds a d' ->
  holds_one_of candidates store k d'.
Proof.
  intros Hok Hin Hv Hk Hput.
  apply write_succeeds in Hput as (s & key & s' & Hs & Hc & Hrec & ->).
  destruct (schema_find d store Hok Hin) as (s0 & Hs0 & Hspec).
  assert (s0 = s) by congruence. subst s0.
  rewrite (check_value_keyed store s v k Hspec Hk) in Hc. injection Hc as <-.
  simpl in Hrec. injection Hrec as <-.
  split.
  - exists v. repeat split; try assumption.
    rewrite (record_at_set_same _ _ _ _ _ Hs). simpl. apply lookup_store_same.
  - intros s1 n Hs1 Hauto ->.
    rewrite (find_store_set_same _ _ _ _ Hs) in Hs1. injection Hs1 as <-.
    simpl in *. rewrite Hauto. apply bump_past.
Qed.

Lemma write_preserves ow candidates store k store2 v2 d a d' :
  schema_ok d = true -> In store STORES ->
  (store2 = store -> record_key store v2 = Some k -> In v2 candidates) ->
  write ow store2 v2 ReadWrite d = Succeeds a d' ->
  holds_one_of candidates store k d -> holds_one_of candidates store k d'.
Proof.
  intros Hok Hin Hv2 Hput [(v & Hv & Hk & Hat) Hclear].
  apply write_succeeds in Hput as (s & key & s' & Hs & Hc & Hrec & ->).
  destruct (String.eqb_spec store2 store) as [-> | Hne].
  - destruct (schema_find d store Hok Hin) as (s0 & Hs0 & Hspec).
    assert (s0 = s) by congruence. subst s0.
    unfold record_at, records_of in Hat. rewrite Hs in Hat.
    split.
    + destruct key as [k2 |].
      * unfold store_record in Hrec.
        destruct (negb ow && mem k2 (records s)); [discriminate |].
        injection Hrec as <-.
        destruct (key_eqb k2 k) eqn:E.
        -- apply key_eqb_eq in E. subst k2.
           assert (Hk2 : record_key store v2 = Some k)
             by (eapply check_value_key; eassumption).
           exists v2. repeat split; auto.
           rewrite (record_at_set_same _ _ _ _ _ Hs). simpl. apply lookup_store_same.
        -- apply key_eqb_neq in E. exists v. repeat split; auto.
           rewrite (record_at_set_same _ _ _ _ _ Hs). simpl.
           rewrite lookup_store_other by congruence. exact Hat.
      * unfold store_record in Hrec.
        destruct (MAX_GENERATED <? keygen s) eqn:Emax; [discriminate |].
        destruct (negb ow && mem (KNum (keygen s)) (records s)); [discriminate |].
        injection Hrec as <-.
        apply Z.ltb_ge in Emax.
        exists v. repeat split; auto.
        rewrite (record_at_set_same _ _ _ _ _ Hs). simpl.
        rewrite lookup_store_other; [exact Hat |].
        intros ->.
        assert (Hauto : autoIncrement (spec s) = true).
        { unfold check_value in Hc. destruct (extract_key _ v2); try discriminate.
          destruct (autoIncrement (spec s)); [reflexivity | discriminate]. }
        destruct (Hclear s (keygen s) Hs Hauto eq_refl); lia.
    + intros s1 n Hs1 Hauto ->.
      rewrite (find_store_set_same _ _ _ _ Hs) in Hs1. injection Hs1 as <-.
      rewrite (store_record_spec _ _ _ _ _ Hrec) in Hauto.
      specialize (Hclear s n Hs Hauto eq_refl).
      assert (keygen s <= keygen s').
      { unfold store_record in Hrec. destruct key as [k2 |].
        - destruct (negb ow && mem k2 (records s)); [discriminate |].
          injection Hrec as <-. simpl. rewrite Hauto. apply bump_ge.
        - destruct (MAX_GENERATED <? keygen s); [discriminate |].
          destruct (negb ow && mem (KNum (keygen s)) (records s)); [discriminate |].
          injection Hrec as <-. simpl. lia. }
      lia.
  - split.
    + exists v. repeat split; auto.
      rewrite record_at_set_other by congruence. exact Hat.
    + intros s1 n Hs1. rewrite find_store_set_other in Hs1 by congruence.
      apply Hclear. exact Hs1.
Qed.

Lemma engine_op_ok op d a d' :
  engine_op op -> schema_ok d = true -> op ReadWrite d = Succeeds a d' ->
  schema_ok d' = true.
Proof.
  intros Hop Hok H. eapply same_schema_ok; [| exact Hok].
  eapply engine_op_schema; eassumption.
Qed.

Lemma puts_preserve candidates store k items d d' :
  schema_ok d = true -> In store STORES ->
  (forall v, In (store, v) items -> In v candidates) ->
  apply_all (map put_pair items) d = Some d' ->
  holds_one_of candidates store k d -> holds_one_of candidates store k d'.
Proof.
  intros Hok Hin Hc Happ H.
  cut (schema_ok d' = true /\ holds_one_of candidates store k d'); [tauto |].
  revert Happ.
  apply (apply_all_invariant
           (fun d0 => schema_ok d0 = true /\ holds_one_of candidates store k d0));
    [| auto].
  intros op d0 a d1 Hop [Hok0 H0] Hrun.
  apply in_map_iff in Hop as ([store2 v2] & <- & Hp).
  split.
  - eapply engine_op_ok; [apply (op_write true) | exact Hok0 | exact Hrun].
  - eapply (write_preserves true); [exact Hok0 | exact Hin | | exact Hrun | exact H0].
    simpl. intros -> _. apply Hc. exact Hp.
Qed.

Lemma puts_visible candidates store items :
  forall d d',
    schema_ok d = true -> In store STORES ->
    (forall v, In (store, v) items -> In v candidates) ->
    apply_all (map put_pair items) d = Some d' ->
    forall v k, In (store, v) items -> record_key store v = Some k ->
                holds_one_of candidates store k d'.
Proof.
  induction items as [| p rest IH]; intros d d' Hok Hin Hc Happ v k Hv Hk;
    [destruct Hv |].
  simpl in Happ.
  destruct (put_pair p ReadWrite d) as [e | e | a d1] eqn:Ep; try discriminate.
  assert (Hok1 : schema_ok d1 = true)
    by (eapply engine_op_ok; [apply (op_write true) | exact Hok | exact Ep]).
  destruct Hv as [-> | Hv].
  - eapply puts_preserve; [exact Hok1 | exact Hin | | exact Happ |].
    + intros v0 H0. apply Hc. right. exact H0.
    + eapply put_establishes; [exact Hok | exact Hin | | exact Hk | exact Ep].
      apply Hc. left. reflexivity.
  - eapply IH; [exact Hok1 | exact Hin | | exact Happ | exact Hv | exact Hk].
    intros v0 H0. apply Hc. right. exact H0.
Qed.
End Writes.

(* ===================================================================== *)
(** ** Notification after commit *)
(* ===================================================================== *)

Section AfterCommit.
Import IDB DataLayer Contract.

Lemma settled_shows m d : settled m d -> shows m d.
Proof.
  destruct m as [store value | store values | store key | |]; simpl; auto.
  - intros H Hin k Hk. destruct (H Hin k Hk) as [(v & [<- | []] & _ & Hat) _]. exact Hat.
  - intros H Hin v k Hv Hk. destruct (H Hin v k Hv Hk) as [Hex _]. exact Hex.
Qed.

Lemma apply_puts store values d :
  apply_all (map (IDB.put store) values) d
  = apply_all (map put_pair (map (pair store) values)) d.
Proof. rewrite map_map. reflexivity. Qed.

Lemma clears_empty names :
  forall d d',
    apply_all (map IDB.clear names) d = Some d' ->
    forall store, In store names -> records_of store d' = [].
Proof.
  induction names as [| n rest IH]; intros d d' Happ store Hin; [destruct Hin |].
  simpl in Happ.
  destruct (IDB.clear n ReadWrite d) as [e | e | a d1] eqn:Ec; try discriminate.
  destruct (in_dec string_dec store rest) as [Hrest | Hnot].
  - eapply IH; eassumption.
  - destruct Hin as [-> | Hin]; [| contradiction].
    apply clear_succeeds in Ec as (s & Hs & ->).
    revert Happ.
    apply (apply_all_invariant (fun d0 => records_of store d0 = [])).
    + intros op d0 a0 d2 Hop H0 Hrun.
      apply in_map_iff in Hop as (n2 & <- & Hn2).
      apply clear_succeeds in Hrun as (s2 & Hs2 & ->).
      rewrite records_of_set_other; [exact H0 |].
      intros ->. contradiction.
    + unfold records_of. rewrite (find_store_set_same _ _ _ _ Hs). reflexivity.
Qed.

Lemma seed_requests_pairs data :
  exists items,
    seed_requests data = map put_pair items
    /\ forall store v, In (store, v) items -> store <> "meta".
Proof.
  unfold seed_requests. induction STORES as [| n rest (items & Heq & Hno)]; simpl.
  - exists []. split; [reflexivity | intros ? ? []].
  - destruct (String.eqb_spec n "meta") as [-> | Hne].
    + exists items. split; [exact Heq | exact Hno].
    + exists (map (pair n) (match assoc n data with Some l => l | None => [] end) ++ items).
      split.
      * rewrite map_app, map_map, Heq. reflexivity.
      * intros store v Hin. apply in_app_iff in Hin as [Hin | Hin]; [| eauto].
        apply in_map_iff in Hin as (x & [= <- <-] & _). exact Hne.
Qed.

(** The writes of a successful operation are in the database its
    transaction committed. *)
Lemma writes_settled m w d' :
  schema_ok (idb w) = true -> fetchable m w ->
  apply_all (requests_of m w) (idb w) = Some d' -> settled m d'.
Proof.
  intros Hok Hfetch Happ.
  destruct m as [store value | store values | store key | |];
    [simpl in * | simpl in * | simpl in * | | simpl in *].
  - intros Hin k Hk.
    destruct (IDB.put store value ReadWrite (idb w)) as [e | e | a d1] eqn:Ep;
      try discriminate.
    injection Happ as <-.
    eapply put_establishes; [exact Hok | exact Hin | left; reflexivity | exact Hk | exact Ep].
  - intros Hin v k Hv Hk. rewrite apply_puts in Happ.
    eapply puts_visible; [exact Hok | exact Hin | | exact Happ | | exact Hk].
    + intros v0 H0. apply in_map_iff in H0 as (x & [= <-] & Hx). exact Hx.
    + apply in_map. exact Hv.
  - intros Hne.
    destruct (IDB.delete store key ReadWrite (idb w)) as [e | e | a d1] eqn:Ed;
      try discriminate.
    injection Happ as <-.
    apply delete_succeeds in Ed as (s & Hs & ->).
    rewrite (record_at_set_same _ _ _ _ _ Hs). simpl. apply lookup_remove_same.
  - intros store Hin _. unfold requests_of in Happ.
    eapply clears_empty; [exact Happ | exact Hin].
  - destruct Hfetch as [data Hdata]. rewrite Hdata in Happ.
    rewrite apply_all_app in Happ.
    destruct (apply_all (seed_requests data) (idb w)) as [d1 |] eqn:E1; [| discriminate].
    simpl in Happ.
    destruct (IDB.put "meta" (seeded_marker (now w)) ReadWrite d1) as [e | e | a d2] eqn:Ep;
      try discriminate.
    injection Happ as <-.
    assert (Hok1 : schema_ok d1 = true).
    { eapply same_schema_ok; [| exact Hok].
      revert E1. apply (apply_all_invariant (same_schema (idb w)));
        [| apply same_schema_refl].
      intros op d0 a0 d3 Hop H0 Hrun.
      eapply same_schema_trans; [exact H0 |].
      eapply engine_op_schema; [| exact Hrun].
      unfold seed_requests in Hop. apply in_flat_map in Hop as (n & _ & Hop).
      destruct (String.eqb n "meta"); [destruct Hop |].
      apply in_map_iff in Hop as (x & <- & _). apply (op_write true). }
    exists (now w).
    assert (Hmeta : In "meta" STORES) by (left; reflexivity).
    destruct (put_establishes [seeded_marker (now w)] "meta" (seeded_marker (now w))
                (KStr "seeded") d1 a d2 Hok1 Hmeta (or_introl eq_refl) eq_refl Ep)
      as [(v & [<- | []] & _ & Hat) _].
    exact Hat.
Qed.

Lemma log_append d s a p t :
  find_store "logs" d = Some s -> spec s = createObjectStore "logs" ->
  keygen s <= MAX_GENERATED -> lookup (KNum (keygen s)) (records s) = None ->
  IDB.add "logs" (JObj [("action", JStr a); ("payload", p); ("time", JNum t)]) ReadWrite d
  = Succeeds tt (set_store "logs" (logs_after a p t s) d).
Proof.
  intros Hs Hspec Hmax Hfree. unfold IDB.add, write. rewrite Hs.
  unfold check_value, extract_key, store_record. rewrite Hspec. simpl.
  apply Z.ltb_ge in Hmax. rewrite Hmax.
  apply mem_false in Hfree. rewrite Hfree. simpl.
  unfold logs_after, log_entry. rewrite Hspec. reflexivity.
Qed.

(** The log entry leaves the writes of the operation as they are. *)
Lemma settled_logged m d s a p t :
  schema_ok d = true ->
  find_store "logs" d = Some s -> spec s = createObjectStore "logs" ->
  keygen s <= MAX_GENERATED -> lookup (KNum (keygen s)) (records s) = None ->
  settled m d -> settled m (set_store "logs" (logs_after a p t s) d).
Proof.
  intros Hok Hs Hspec Hmax Hfree H.
  pose proof (log_append d s a p t Hs Hspec Hmax Hfree) as Hadd.
  assert (Hkeep : forall candidates store k,
             In store STORES -> holds_one_of candidates store k d ->
             holds_one_of candidates store k (set_store "logs" (logs_after a p t s) d)).
  { intros candidates store k Hin H0.
    eapply (write_preserves false); [exact Hok | exact Hin | | exact Hadd | exact H0].
    intros <-. discriminate. }
  destruct m as [store value | store values | store key | |]; simpl in H |- *.
  - intros Hin k Hk. apply Hkeep; [exact Hin | exact (H Hin k Hk)].
  - intros Hin v k Hv Hk. apply Hkeep; [exact Hin | exact (H Hin v k Hv Hk)].
  - intros Hne. rewrite record_at_set_other by exact Hne. auto.
  - intros store Hin Hne. rewrite records_of_set_other by exact Hne. apply H; assumption.
  - destruct H as [time H]. exists time.
    rewrite record_at_set_other by discriminate. exact H.
Qed.

Lemma idb_after_log a p s w :
  idb (after_log a p s w) = idb w
  \/ idb (after_log a p s w) = set_store "logs" (logs_after a p (now w) s) (idb w).
Proof.
  unfold after_log, settle. simpl. destruct (commits _); simpl; auto.
Qed.

Lemma subscribe_listed name h w :
  In (name, h) (listeners (snd (subscribe name h w))).
Proof.
  unfold subscribe. simpl.
  destruct (existsb (same_listener (name, h)) (listeners w)) eqn:E; simpl.
  - apply existsb_exists in E as ([n h'] & Hin & Heq).
    unfold same_listener in Heq. simpl in Heq.
    apply andb_true_iff in Heq as [H1 H2].
    apply String.eqb_eq in H1. apply Nat.eqb_eq in H2. subst. exact Hin.
  - apply in_app_iff. right. left. reflexivity.
Qed.

Lemma same_listener_sym a b : same_listener a b = same_listener b a.
Proof.
  unfold same_listener. rewrite (String.eqb_sym (fst a)), (Nat.eqb_sym (snd a)).
  reflexivity.
Qed.

Lemma distinct_snoc l x :
  distinct l = true -> existsb (same_listener x) l = false -> distinct (l ++ [x]) = true.
Proof.
  induction l as [| y t IH]; simpl; [reflexivity |].
  rewrite !andb_true_iff, !negb_true_iff, orb_false_iff.
  intros [Hy Ht] [Hxy Hx]. split; [| apply IH; assumption].
  rewrite existsb_app. simpl. rewrite Hy, same_listener_sym, Hxy. reflexivity.
Qed.

Lemma subscribe_ready name h w :
  ready w = true -> ready (snd (subscribe name h w)) = true.
Proof.
  unfold ready, subscribe. simpl.
  destruct (existsb (same_listener (name, h)) (listeners w)) eqn:E; [auto |].
  simpl. rewrite !andb_true_iff. intros [[H1 H2] H3].
  repeat split; auto. apply distinct_snoc; assumption.
Qed.

Lemma Forall_broadcast (P : Database -> Prop) name seen ls :
  P seen -> Forall (fun d => P (ev_seen d)) (broadcast name seen ls).
Proof.
  intros H. unfold broadcast. apply Forall_forall. intros d Hd.
  apply in_map_iff in Hd as (l & <- & _). exact H.
Qed.

(** The database every listener of a successful operation sees shows the
    operation's writes. *)
Lemma seen_shows m w d' s :
  ready w = true -> fetchable m w ->
  apply_all (requests_of m w) (idb w) = Some d' ->
  find_store "logs" d' = Some s -> spec s = createObjectStore "logs" ->
  keygen s <= MAX_GENERATED -> lookup (KNum (keygen s)) (records s) = None ->
  shows m (idb (after_log (action m) (payload m) s (set_idb d' (pop (prefetch m w))))).
Proof.
  intros Hready Hfetch Happ Hs Hspec Hmax Hfree.
  pose proof (writes_settled m w d' (ready_schema _ Hready) Hfetch Happ) as Hset.
  apply settled_shows.
  destruct (idb_after_log (action m) (payload m) s (set_idb d' (pop (prefetch m w))))
    as [-> | ->]; simpl.
  - exact Hset.
  - apply settled_logged; try assumption.
    eapply same_schema_ok; [eapply requests_keep_schema; exact Happ |].
    apply ready_schema. exact Hready.
Qed.

(** C2. After subscribing to the event of an operation (put, bulkPut or
    delete on a collection: "<collection>:change"; clearAll: "db:reset"),
    a successful call of the operation on the open engine calls every
    listener of that event only with the operation's writes already in
    the database a fresh read finds, and calls each of them exactly once
    per call (twice when the collection is logs, whose event recordLog
    dispatches as well). With put('chats', someChat) and a listener of
    "chats:change": once, with someChat stored under its key. *)
Theorem notification_after_commit m name h w0 w w' :
  ready w0 = true ->
  own_event m = Some name ->
  subscribe name h w0 = (Resolved tt, w) ->
  run m w = (Resolved tt, w') ->
  exists news,
    delivered w' = delivered w0 ++ news
    /\ Forall (fun d => shows m (ev_seen d)) news
    /\ In (name, h) (listeners w)
    /\ forall h', In (name, h') (listeners w) ->
                  calls name h' news = (if on_logs m then 2 else 1)%nat.
Proof.
  intros Hready0 Hown Hsub Hrun.
  assert (Hw : w = snd (subscribe name h w0)) by (rewrite Hsub; reflexivity).
  assert (Hready : ready w = true) by (rewrite Hw; apply subscribe_ready; exact Hready0).
  assert (Hd0 : delivered w = delivered w0).
  { rewrite Hw. unfold subscribe. simpl. destruct (existsb _ _); reflexivity. }
  destruct (run_resolved m w w' Hready Hrun)
    as (d' & s & Happ & Hs & Hspec & Hmax & Hfree & _ & Hfetch & ->).
  pose proof (seen_shows m w d' s Hready Hfetch Happ Hs Hspec Hmax Hfree) as Hshows.
  set (wc := set_idb d' (pop (prefetch m w))) in *.
  set (wl := after_log (action m) (payload m) s wc) in *.
  assert (Hl : listeners wc = listeners w) by (destruct m; reflexivity).
  assert (Hd : delivered wc = delivered w) by (destruct m; reflexivity).
  pose proof (after_log_delivered (action m) (payload m) s wc) as Hwd.
  pose proof (after_log_listeners (action m) (payload m) s wc) as Hwl.
  fold wl in Hwd, Hwl. rewrite Hl in Hwd, Hwl. rewrite Hd in Hwd.
  exists (broadcast "logs:change" (idb wl) (listeners w)
          ++ broadcast name (idb wl) (listeners w)).
  split; [| split; [| split]].
  - rewrite notify_delivered, Hown, Hwd, Hwl, Hd0, app_assoc. reflexivity.
  - apply Forall_app. split; apply Forall_broadcast; exact Hshows.
  - rewrite Hw. apply subscribe_listed.
  - intros h' Hin. rewrite calls_app.
    rewrite (calls_broadcast name h' _ _ (ready_distinct _ Hready) Hin).
    rewrite <- own_event_logs, Hown.
    destruct (String.eqb name "logs:change") eqn:E.
    + apply String.eqb_eq in E. subst name.
      rewrite (calls_broadcast _ _ _ _ (ready_distinct _ Hready) Hin). reflexivity.
    + rewrite calls_broadcast_other; [reflexivity |].
      rewrite String.eqb_sym. exact E.
Qed.

Lemma notification_after_commit_witness :
  exists news,
    delivered (snd (run (Put "chats" Scenario.chat1)
                        (snd (subscribe "chats:change" 9%nat Scenario.opened))))
    = delivered Scenario.opened ++ news
    /\ Forall (fun d => shows (Put "chats" Scenario.chat1) (ev_seen d)) news
    /\ In ("chats:change", 9%nat)
          (listeners (snd (subscribe "chats:change" 9%nat Scenario.opened)))
    /\ forall h', In ("chats:change", h')
                     (listeners (snd (subscribe "chats:change" 9%nat Scenario.opened))) ->
                  calls "chats:change" h' news = 1%nat.
Proof.
  apply (notification_after_commit (Put "chats" Scenario.chat1) "chats:change" 9%nat
           Scenario.opened).
  - vm_compute. reflexivity.
  - reflexivity.
  - reflexivity.
  - vm_compute. reflexivity.
Defined.
End AfterCommit.

(* ===================================================================== *)
(** ** The audit log *)
(* ===================================================================== *)

Section AuditLog.
Import IDB DataLayer Contract.

Lemma store_record_keygen ow key v s s' :
  store_record ow key v s = inr s' -> keygen s <= keygen s'.
Proof.
  unfold store_record. destruct key as [k |].
  - destruct (negb ow && mem k (records s)); [discriminate |].
    intros [= <-]. simpl. destruct (autoIncrement (spec s)); [apply bump_ge | lia].
  - destruct (MAX_GENERATED <? keygen s); [discriminate |].
    destruct (negb ow && mem (KNum (keygen s)) (records s)); [discriminate |].
    intros [= <-]. simpl. lia.
Qed.

Lemma log_keygen_set name s s' d :
  find_store name d = Some s -> keygen s <= keygen s' ->
  log_keygen d <= log_keygen (set_store name s' d).
Proof.
  intros Hs Hle. unfold log_keygen.
  destruct (String.eqb_spec "logs" name) as [<- | Hne].
  - rewrite (find_store_set_same _ _ _ _ Hs), Hs. exact Hle.
  - rewrite find_store_set_other by exact Hne. lia.
Qed.

Lemma engine_op_keygen op d a d' :
  engine_op op -> op ReadWrite d = Succeeds a d' -> log_keygen d <= log_keygen d'.
Proof.
  intros [ow name v | name k | name] H.
  - apply write_succeeds in H as (s & key & s' & Hs & _ & Hrec & ->).
    eapply log_keygen_set; [exact Hs |]. eapply store_record_keygen; exact Hrec.
  - apply delete_succeeds in H as (s & Hs & ->).
    eapply log_keygen_set; [exact Hs |]. simpl. lia.
  - apply clear_succeeds in H as (s & Hs & ->).
    eapply log_keygen_set; [exact Hs |]. simpl. lia.
Qed.

(** The key generator of logs never goes back. *)
Lemma requests_keygen m w d' :
  apply_all (requests_of m w) (idb w) = Some d' ->
  log_keygen (idb w) <= log_keygen d'.
Proof.
  apply (apply_all_invariant (fun d => log_keygen (idb w) <= log_keygen d)); [| lia].
  intros op d0 a d1 Hin H0 Hop.
  pose proof (engine_op_keygen op d0 a d1 (requests_of_engine _ _ _ Hin) Hop). lia.
Qed.

(** Requests on one collection leave the others alone. *)
Lemma requests_elsewhere m w d' store name :
  target m = Some store -> name <> store ->
  apply_all (requests_of m w) (idb w) = Some d' ->
  find_store name d' = find_store name (idb w).
Proof.
  intros Ht Hne.
  apply (apply_all_invariant (fun d => find_store name d = find_store name (idb w)));
    [| reflexivity].
  intros op d0 a d1 Hin H0 Hop. rewrite <- H0.
  destruct m as [st value | st values | st key | |]; simpl in Ht; try discriminate;
    injection Ht as ->; simpl in Hin.
  - destruct Hin as [<- | []].
    apply write_succeeds in Hop as (s & key & s' & _ & _ & _ & ->).
    apply find_store_set_other. exact Hne.
  - apply in_map_iff in Hin as (v & <- & _).
    apply write_succeeds in Hop as (s & key & s' & _ & _ & _ & ->).
    apply find_store_set_other. exact Hne.
  - destruct Hin as [<- | []].
    apply delete_succeeds in Hop as (s & _ & ->).
    apply find_store_set_other. exact Hne.
Qed.

Lemma clears_keep_keygen names d d' :
  apply_all (map IDB.clear names) d = Some d' -> log_keygen d' = log_keygen d.
Proof.
  apply (apply_all_invariant (fun d0 => log_keygen d0 = log_keygen d)); [| reflexivity].
  intros op d0 a d1 Hin H0 Hop. rewrite <- H0.
  apply in_map_iff in Hin as (n & <- & _).
  apply clear_succeeds in Hop as (s & Hs & ->).
  unfold log_keygen.
  destruct (String.eqb_spec "logs" n) as [<- | Hne].
  - rewrite (find_store_set_same _ _ _ _ Hs), Hs. reflexivity.
  - rewrite find_store_set_other by exact Hne. reflexivity.
Qed.

Lemma log_commits_next w :
  log_commits w ->
  commits (mkTx ReadWrite (next_fate (pop w)) 1 None (idb w)) = true.
Proof.
  unfold log_commits, next_fate, pop, commits. simpl.
  destruct (fates w) as [| f [| f' rest]]; simpl; try reflexivity.
  destruct f'; tauto.
Qed.

(** The database a successful operation leaves when the log transaction
    commits: its writes, and on top of them the log entry. *)
Lemma run_logged m w w' :
  ready w = true -> log_commits w -> run m w = (Resolved tt, w') ->
  exists d' s,
    apply_all (requests_of m w) (idb w) = Some d'
    /\ find_store "logs" d' = Some s
    /\ keygen s <= MAX_GENERATED
    /\ lookup (KNum (keygen s)) (records s) = None
    /\ idb w' = set_store "logs" (logs_after (action m) (payload m) (now w) s) d'.
Proof.
  intros Hready Hcommit Hrun.
  destruct (run_resolved m w w' Hready Hrun)
    as (d' & s & Happ & Hs & Hspec & Hmax & Hfree & _ & _ & ->).
  exists d', s. repeat split; try assumption.
  rewrite notify_idb. unfold after_log, settle.
  assert (Hnext : next_fate (set_idb d' (pop (prefetch m w))) = next_fate (pop w))
    by (destruct m; reflexivity).
  assert (Hnow : now (set_idb d' (pop (prefetch m w))) = now w)
    by (destruct m; reflexivity).
  rewrite Hnext, Hnow.
  pose proof (log_commits_next w Hcommit) as Hc.
  unfold commits in Hc |- *. simpl in Hc |- *.
  destruct (next_fate (pop w)); try discriminate; reflexivity.
Qed.

(** C3, as claimed, fails: the count of logs goes down. After two puts
    logs holds two entries; clearAll succeeds and leaves one. *)
Lemma logs_count_decreases :
  exists before after,
    fst (getAll "logs" None None Scenario.two_puts) = Resolved before
    /\ fst (clearAll Scenario.two_puts) = Resolved tt
    /\ fst (getAll "logs" None None (snd (clearAll Scenario.two_puts))) = Resolved after
    /\ (List.length after < List.length before)%nat.
Proof.
  eexists. eexists. split; [vm_compute; reflexivity |].
  split; [vm_compute; reflexivity |].
  split; [vm_compute; reflexivity |].
  simpl. lia.
Qed.

(** C3, amended. On the open engine, every successful put, bulkPut,
    delete, seed and clearAll has recordLog add one entry
    {action, payload, time, id} to logs whose id [g] comes from the key
    generator: [g] is at least the generator's number before the call and
    the generator stands at [g + 1] after it. This holds when the log
    transaction, which recordLog does not wait for, commits. For put,
    bulkPut and delete on a collection other than logs, logs is what it
    was plus this entry, so its count grows by exactly one; clearAll
    leaves logs with exactly this entry, so the count may go down. *)
Theorem one_log_entry_per_mutation m w w' :
  ready w = true -> log_commits w -> run m w = (Resolved tt, w') ->
  exists g,
    let entry := log_entry (action m) (payload m) (now w) g in
    log_keygen (idb w) <= g
    /\ log_keygen (idb w') = g + 1
    /\ record_at "logs" (KNum g) (idb w') = Some entry
    /\ (forall store, target m = Some store -> store <> "logs" ->
        g = log_keygen (idb w)
        /\ record_at "logs" (KNum g) (idb w) = None
        /\ records_of "logs" (idb w') = insert (KNum g) entry (records_of "logs" (idb w))
        /\ List.length (records_of "logs" (idb w'))
           = S (List.length (records_of "logs" (idb w))))
    /\ (m = ClearAll ->
        g = log_keygen (idb w) /\ records_of "logs" (idb w') = [(KNum g, entry)]).
Proof.
  intros Hready Hcommit Hrun.
  destruct (run_logged m w w' Hready Hcommit Hrun)
    as (d' & s & Happ & Hs & Hmax & Hfree & Hidb).
  exists (keygen s). cbv zeta.
  assert (Hg : log_keygen d' = keygen s) by (unfold log_keygen; rewrite Hs; reflexivity).
  assert (Hrecs : records_of "logs" (idb w')
                  = insert (KNum (keygen s))
                           (log_entry (action m) (payload m) (now w) (keygen s))
                           (records s)).
  { rewrite Hidb. unfold records_of. rewrite (find_store_set_same _ _ _ _ Hs).
    simpl. apply store_absent. exact Hfree. }
  split; [| split; [| split; [| split]]].
  - rewrite <- Hg. eapply requests_keygen. exact Happ.
  - rewrite Hidb. unfold log_keygen. rewrite (find_store_set_same _ _ _ _ Hs). reflexivity.
  - unfold record_at. rewrite Hrecs. apply lookup_insert_same. exact Hfree.
  - intros store Ht Hne.
    assert (Hsame : find_store "logs" d' = find_store "logs" (idb w)).
    { eapply requests_elsewhere; [exact Ht | | exact Happ]. congruence. }
    rewrite Hs in Hsame.
    assert (Hr : records_of "logs" (idb w) = records s)
      by (unfold records_of; rewrite <- Hsame; reflexivity).
    repeat split.
    + unfold log_keygen. rewrite <- Hsame. reflexivity.
    + unfold record_at. rewrite Hr. exact Hfree.
    + rewrite Hrecs, Hr. reflexivity.
    + rewrite Hrecs, Hr, length_insert. reflexivity.
  - intros ->. unfold requests_of in Happ.
    assert (Hempty : records s = []).
    { pose proof (clears_empty STORES (idb w) d' Happ "logs") as H.
      unfold records_of in H. rewrite Hs in H. apply H.
      unfold STORES. simpl. auto 10. }
    split.
    + rewrite <- Hg. apply (clears_keep_keygen STORES). exact Happ.
    + rewrite Hrecs, Hempty. reflexivity.
Qed.

Lemma one_log_entry_per_mutation_witness :
  exists g,
    let m := Put "chats" Scenario.chat1 in
    let w := Scenario.opened in
    let w' := snd (run m w) in
    let entry := log_entry (action m) (payload m) (now w) g in
    log_keygen (idb w) <= g
    /\ log_keygen (idb w') = g + 1
    /\ record_at "logs" (KNum g) (idb w') = Some entry
    /\ (forall store, target m = Some store -> store <> "logs" ->
        g = log_keygen (idb w)
        /\ record_at "logs" (KNum g) (idb w) = None
        /\ records_of "logs" (idb w') = insert (KNum g) entry (records_of "logs" (idb w))
        /\ List.length (records_of "logs" (idb w'))
           = S (List.length (records_of "logs" (idb w))))
    /\ (m = ClearAll ->
        g = log_keygen (idb w) /\ records_of "logs" (idb w') = [(KNum g, entry)]).
Proof.
  apply (one_log_entry_per_mutation (Put "chats" Scenario.chat1) Scenario.opened).
  - vm_compute. reflexivity.
  - vm_compute. exact I.
  - vm_compute. reflexivity.
Defined.
End AuditLog.

(* ===================================================================== *)
(** ** Failure of the operation's own transaction *)
(* ===================================================================== *)

Section Atomicity.
Import IDB DataLayer Contract.

Lemma throws_same_schema op d d' :
  engine_op op -> same_schema d d' -> throws op d' = throws op d.
Proof.
  intros Hop Hsame. unfold throws.
  destruct Hop as [ow name v | name k | name]; specialize (Hsame name);
    unfold write, IDB.delete, IDB.clear;
    destruct (find_store name d) as [s |], (find_store name d') as [s' |];
    simpl in Hsame; try discriminate; try reflexivity.
  injection Hsame as Hspec.
  assert (Hcheck : check_value s' v = check_value s v)
    by (unfold check_value; rewrite Hspec; reflexivity).
  rewrite Hcheck. destruct (check_value s v) as [e | key]; [reflexivity |].
  destruct (store_record ow key v s), (store_record ow key v s'); reflexivity.
Qed.

Lemma queued_of_same_schema ops d d' :
  Forall engine_op ops -> same_schema d d' -> queued_of ops d' = queued_of ops d.
Proof.
  intros Hops Hsame. unfold queued_of.
  induction Hops as [| op rest Hop _ IH]; simpl; [reflexivity |].
  rewrite (throws_same_schema op d d' Hop Hsame).
  destruct (throws op d); simpl; rewrite IH; reflexivity.
Qed.

(** A request doomed by the environment aborts the transaction once
    enough requests are queued to reach it. *)
Lemma request_all_doomed ops :
  forall tx i e,
    Forall engine_op ops ->
    tx_mode tx = ReadWrite -> tx_fate tx = ReqFail i e ->
    (tx_issued tx <= i)%nat ->
    (i - tx_issued tx < queued_of ops (tx_work tx))%nat ->
    tx_aborted (snd (request_all ops tx)) <> None.
Proof.
  induction ops as [| op rest IH]; intros tx i e Hops Hm Hf Hle Hlt.
  - unfold queued_of in Hlt. simpl in Hlt. lia.
  - inversion Hops as [| ? ? Hop Hrest]; subst.
    destruct (tx_aborted tx) as [e0 |] eqn:Ha.
    { rewrite (request_all_aborted _ tx e0 Ha). congruence. }
    simpl. pose proof (request_cases op tx Ha) as Hc.
    unfold queued_of in Hlt. simpl in Hlt. unfold throws at 1 in Hlt.
    rewrite Hm in Hc.
    destruct (request op tx) as [e1 | e1 tx1 | a tx1].
    + rewrite Hc in Hlt. simpl in Hlt.
      specialize (IH tx i e Hrest Hm Hf Hle Hlt).
      destruct (request_all rest tx). exact IH.
    + destruct Hc as [Hab _].
      rewrite (request_all_aborted _ tx1 e1 Hab). congruence.
    + destruct Hc as (Hrun & Hab & Hmode & Hfate & Hiss & Hnow).
      rewrite Hrun in Hlt. simpl in Hlt.
      assert (Hne : i <> tx_issued tx).
      { unfold fails_now in Hnow. rewrite Hf in Hnow.
        destruct (Nat.eqb_spec i (tx_issued tx)); [discriminate | assumption]. }
      apply (IH tx1 i e Hrest); try congruence; try lia.
      fold (queued_of rest (tx_work tx)) in Hlt.
      rewrite (queued_of_same_schema rest (tx_work tx) (tx_work tx1) Hrest).
      * lia.
      * eapply engine_op_schema; eassumption.
Qed.

Lemma commit_fails_never_commits ops tx e :
  tx_fate tx = CommitFail e -> commits (snd (request_all ops tx)) = false.
Proof.
  intros Hf. unfold commits.
  destruct (request_all_fate ops tx) as [-> _]. rewrite Hf.
  destruct (tx_aborted _); reflexivity.
Qed.

Lemma aborted_never_commits tx : tx_aborted tx <> None -> commits tx = false.
Proof. unfold commits. destruct (tx_aborted tx); [reflexivity | congruence]. Qed.

Lemma request_all_aborted_clean ops tx e :
  tx_aborted tx = Some e -> tx_mode tx = ReadWrite ->
  Forall (always_succeeds (tx_work tx)) ops ->
  fst (request_all ops tx) = [].
Proof.
  intros Ha Hm Hall. induction Hall as [| op rest Hop _ IH]; simpl; [reflexivity |].
  destruct (Hop (tx_work tx) (same_schema_refl _)) as [d' Hrun].
  unfold request. rewrite Hm, Hrun, Ha. exact IH.
Qed.

Lemma request_all_clean ops :
  forall tx,
    Forall engine_op ops -> Forall (always_succeeds (tx_work tx)) ops ->
    tx_mode tx = ReadWrite -> tx_aborted tx = None ->
    fst (request_all ops tx) = []
    /\ forall e, tx_aborted (snd (request_all ops tx)) = Some e ->
                 exists i, tx_fate tx = ReqFail i e.
Proof.
  induction ops as [| op rest IH]; intros tx Heng Hall Hm Ha; simpl.
  - split; [reflexivity | intros e H; congruence].
  - inversion Heng as [| ? ? Hop Hrest]; subst.
    inversion Hall as [| ? ? Hsucc Hall']; subst.
    destruct (Hsucc (tx_work tx) (same_schema_refl _)) as [d' Hrun].
    unfold request. rewrite Hm, Hrun, Ha.
    destruct (fails_now tx) as [e0 |] eqn:Ef.
    + rewrite (request_all_aborted rest (abort e0 tx) e0 eq_refl).
      assert (Hrest0 : fst (request_all rest (abort e0 tx)) = [])
        by (apply (request_all_aborted_clean rest (abort e0 tx) e0); auto).
      split; [exact Hrest0 |].
      simpl. intros e [= <-]. unfold fails_now in Ef.
      destruct (tx_fate tx) as [| i e1 |]; try discriminate.
      destruct (Nat.eqb i (tx_issued tx)); [| discriminate].
      injection Ef as ->. eauto.
    + set (tx1 := mkTx ReadWrite (tx_fate tx) (S (tx_issued tx)) None d').
      assert (Hsame : same_schema (tx_work tx) d')
        by (eapply engine_op_schema; eassumption).
      destruct (IH tx1) as [H1 H2]; try assumption; try reflexivity.
      * eapply Forall_impl; [| exact Hall'].
        intros op' Hop' d Hd. apply Hop'.
        eapply same_schema_trans; eassumption.
      * split; [exact H1 | exact H2].
Qed.

Lemma batch_never_commits ops tx e0 :
  Forall engine_op ops -> tx_mode tx = ReadWrite ->
  tx_issued tx = 0%nat -> tx_aborted tx = None ->
  (tx_fate tx = CommitFail e0
   \/ exists i, tx_fate tx = ReqFail i e0 /\ (i < queued_of ops (tx_work tx))%nat) ->
  commits (snd (request_all ops tx)) = false.
Proof.
  intros Heng Hm Hi Ha [Hf | (i & Hf & Hlt)].
  - eapply commit_fails_never_commits. exact Hf.
  - apply aborted_never_commits.
    eapply request_all_doomed; try eassumption; lia.
Qed.

(** When the transaction does not commit, waiting for its requests and
    then for its completion ends in a rejection, and nothing is written. *)
Lemma tail_rejects r w e0 :
  commits (snd r) = false -> doom (tx_fate (snd r)) e0 ->
  exists e,
    bind (await_all r) await_complete w = (Rejected e, w)
    /\ (fst r = [] ->
        (forall e1, tx_aborted (snd r) = Some e1 -> exists i, tx_fate (snd r) = ReqFail i e1) ->
        e = e0).
Proof.
  intros Hc Hdoom. unfold bind, await_all, settle. rewrite Hc.
  destruct (fst r) as [| e1 es].
  - destruct (tx_aborted (snd r)) as [e1 |] eqn:Ha.
    + exists e1. split; [reflexivity |]. intros _ H.
      destruct (H e1 eq_refl) as [i Hf].
      destruct Hdoom as [Hd | [i' Hd]]; congruence.
    + unfold await_complete. rewrite Ha.
      unfold commits in Hc. rewrite Ha in Hc.
      destruct (tx_fate (snd r)) as [| i e1 | e1] eqn:Ef; try discriminate.
      exists e1. split; [reflexivity |]. intros _ _.
      destruct Hdoom as [Hd | [i' Hd]]; congruence.
  - exists e1. split; [reflexivity |]. intros H. discriminate.
Qed.

Lemma aborts_doom m w e0 : aborts m w e0 -> doom (next_fate w) e0.
Proof. intros [H | i H _]; [left | right; exists i]; exact H. Qed.

Lemma keyed_put_succeeds store v d0 :
  schema_ok d0 = true -> In store STORES -> record_key store v <> None ->
  always_succeeds d0 (IDB.put store v).
Proof.
  intros Hok Hin Hk d Hsame.
  pose proof (same_schema_ok _ _ Hsame Hok) as Hok'.
  destruct (schema_find d store Hok' Hin) as (s & Hs & Hspec).
  destruct (record_key store v) as [k |] eqn:Ek; [| congruence].
  unfold IDB.put, write. rewrite Hs.
  rewrite (check_value_keyed store s v k Hspec Ek). simpl. eauto.
Qed.

Lemma clear_succeeds_always store d0 :
  schema_ok d0 = true -> In store STORES -> always_succeeds d0 (IDB.clear store).
Proof.
  intros Hok Hin d Hsame.
  pose proof (same_schema_ok _ _ Hsame Hok) as Hok'.
  destruct (schema_find d store Hok' Hin) as (s & Hs & _).
  unfold IDB.clear. rewrite Hs. eauto.
Qed.

Lemma batch_aborts names ops w e0 :
  Forall engine_op ops ->
  (next_fate w = CommitFail e0
   \/ exists i, next_fate w = ReqFail i e0 /\ (i < queued_of ops (idb w))%nat) ->
  exists e wc,
    (tx <- begin_tx names ReadWrite ;;
     tx <- await_all (request_all ops tx) ;;
     await_complete tx) w = (Rejected e, wc)
    /\ idb wc = idb w /\ delivered wc = delivered w /\ db wc = db w
    /\ (forallb (fun n => contains n (idb w)) names = true ->
        Forall (always_succeeds (idb w)) ops -> e = e0).
Proof.
  intros Heng Hab. unfold bind at 1. unfold begin_tx.
  destruct (forallb (fun n => contains n (idb w)) names) eqn:Ec.
  - pose proof (batch_never_commits ops (fresh_tx ReadWrite w) e0 Heng
                  eq_refl eq_refl eq_refl Hab) as Hc.
    assert (Hdoom : doom (tx_fate (snd (request_all ops (fresh_tx ReadWrite w)))) e0).
    { destruct (request_all_fate ops (fresh_tx ReadWrite w)) as [-> _].
      destruct Hab as [H | (i & H & _)]; [left | right; exists i]; exact H. }
    destruct (tail_rejects _ (set_fates (tl (fates w)) w) e0 Hc Hdoom) as (e & Hrun & He).
    exists e, (set_fates (tl (fates w)) w).
    split; [exact Hrun |]. repeat split.
    intros _ Hall.
    destruct (request_all_clean ops (fresh_tx ReadWrite w) Heng Hall eq_refl eq_refl)
      as [H1 H2].
    apply He; [exact H1 |].
    intros e1 H. destruct (request_all_fate ops (fresh_tx ReadWrite w)) as [-> _].
    apply H2. exact H.
  - exists NotFoundError, w. repeat split. intros H. discriminate.
Qed.

(** One awaited request is a batch of one. *)
Lemma single_as_batch op tx w :
  tx_aborted tx = None -> tx_work tx = idb w ->
  let single := (r <- await_request op tx ;; await_complete (snd r)) w in
  let batch := (tx' <- await_all (request_all [op] tx) ;; await_complete tx') w in
  fst single = fst batch
  /\ idb (snd single) = idb (snd batch)
  /\ delivered (snd single) = delivered (snd batch)
  /\ db (snd single) = db (snd batch).
Proof.
  intros Ha Hw. cbv zeta. unfold bind, await_request, await_all. simpl.
  pose proof (request_cases op tx Ha) as Hc.
  destruct (request op tx) as [e | e tx1 | a tx1]; simpl.
  - unfold settle. destruct (commits tx); simpl; auto.
  - destruct Hc as [-> _]. auto.
  - destruct Hc as (_ & -> & _). auto.
Qed.

Lemma single_aborts store op w e0 :
  engine_op op ->
  (next_fate w = CommitFail e0
   \/ exists i, next_fate w = ReqFail i e0 /\ (i < queued_of [op] (idb w))%nat) ->
  exists e wc,
    (tx <- begin_tx [store] ReadWrite ;;
     r <- await_request op tx ;;
     await_complete (snd r)) w = (Rejected e, wc)
    /\ idb wc = idb w /\ delivered wc = delivered w /\ db wc = db w
    /\ (contains store (idb w) = true -> always_succeeds (idb w) op -> e = e0).
Proof.
  intros Heng Hab.
  destruct (batch_aborts [store] [op] w e0 (Forall_cons _ Heng (Forall_nil _)) Hab)
    as (e & wc & Hrun & Hidb & Hdel & Hdbc & He).
  unfold bind at 1 in Hrun. unfold bind at 1. unfold begin_tx in Hrun |- *.
  cbn [forallb] in Hrun, He |- *. rewrite andb_true_r in Hrun, He |- *.
  destruct (contains store (idb w)) eqn:Ec.
  - set (w1 := set_fates (tl (fates w)) w) in *.
    fold (fresh_tx ReadWrite w) in Hrun |- *.
    destruct (single_as_batch op (fresh_tx ReadWrite w) w1 eq_refl eq_refl)
      as (Hfst & Hi & Hd & Hb).
    cbv zeta in Hfst, Hi, Hd, Hb.
    rewrite Hrun in Hfst, Hi, Hd, Hb. simpl in Hfst, Hi, Hd, Hb.
    destruct ((r <- await_request op (fresh_tx ReadWrite w);; await_complete (snd r)) w1)
      as [o wc'] eqn:E.
    simpl in Hfst, Hi, Hd, Hb. subst o.
    exists e, wc'. repeat split; try congruence.
    intros _ Hs. apply He; [reflexivity |]. constructor; [exact Hs | constructor].
  - injection Hrun as <- <-. exists NotFoundError, w. repeat split.
    intros H. discriminate.
Qed.

Lemma request_all_no_throw ops :
  forall tx,
    Forall engine_op ops -> tx_mode tx = ReadWrite ->
    existsb (fun op => throws op (tx_work tx)) ops = false ->
    fst (request_all ops tx) = [].
Proof.
  induction ops as [| op rest IH]; intros tx Heng Hm Hno; simpl; [reflexivity |].
  inversion Heng as [| ? ? Hop Hrest]; subst.
  simpl in Hno. apply orb_false_iff in Hno as [Hop0 Hno].
  unfold throws in Hop0. unfold request. rewrite Hm.
  destruct (op ReadWrite (tx_work tx)) as [e | e | a d] eqn:Erun; [discriminate | |].
  - destruct (tx_aborted tx); [apply IH; assumption |].
    destruct (fails_now tx); apply (IH (abort _ tx)); assumption.
  - destruct (tx_aborted tx); [apply IH; assumption |].
    destruct (fails_now tx); [apply (IH (abort _ tx)); assumption |].
    apply (IH (mkTx ReadWrite (tx_fate tx) (S (tx_issued tx)) None d)); try assumption;
      try reflexivity.
    simpl. rewrite <- Hno. clear -Hrest Hop Erun.
    induction Hrest as [| op2 rest2 Hop2 _ IH2]; simpl; [reflexivity |].
    rewrite IH2. f_equal. apply throws_same_schema; [exact Hop2 |].
    exact (engine_op_schema op _ _ _ Hop Erun).
Qed.

Lemma queued_of_no_throw ops d :
  existsb (fun op => throws op d) ops = false -> queued_of ops d = List.length ops.
Proof.
  unfold queued_of. induction ops as [| op rest IH]; simpl; [reflexivity |].
  rewrite orb_false_iff. intros [-> H]. simpl. rewrite IH by exact H. reflexivity.
Qed.

(** The marker request of [seed] and the wait for completion, in a
    transaction that cannot commit or whose next request fails. *)
Lemma marker_rejects op tx w :
  tx_aborted tx = None ->
  (commits tx = false
   \/ (fails_now tx <> None
       /\ exists a d, op (tx_mode tx) (tx_work tx) = Succeeds a d)) ->
  exists e, bind (enqueue op tx) await_complete w = (Rejected e, w).
Proof.
  intros Ha Hcase. unfold bind, enqueue.
  pose proof (request_cases op tx Ha) as Hc.
  destruct (request op tx) as [e | e tx1 | a tx1].
  - destruct Hcase as [Hno | (_ & a & d & Hrun)]; [| congruence].
    unfold settle. rewrite Hno. eauto.
  - destruct Hc as (Hab & _). unfold await_complete. rewrite Hab. eauto.
  - destruct Hc as (_ & Hab & _ & Hf & _ & Hnow).
    destruct Hcase as [Hno | (Hfail & _)]; [| congruence].
    unfold await_complete. rewrite Hab, Hf.
    unfold commits in Hno. rewrite Ha in Hno.
    destruct (tx_fate tx); try discriminate. eauto.
Qed.

Lemma seed_requests_engine data : Forall engine_op (seed_requests data).
Proof.
  apply Forall_forall. intros op Hin. unfold seed_requests in Hin.
  apply in_flat_map in Hin as (store & _ & Hin).
  destruct (String.eqb store "meta"); [destruct Hin |].
  apply in_map_iff in Hin as (v & <- & _). apply (op_write true).
Qed.

Lemma seed_aborts w e0 :
  ready w = true -> aborts Seed w e0 ->
  exists e wc,
    data_phase Seed w = (Rejected e, wc)
    /\ idb wc = idb w /\ delivered wc = delivered w /\ db wc = db w.
Proof.
  intros Hready Hab. pose proof (ready_db _ Hready) as Hdb.
  pose proof (ready_schema _ Hready) as Hok.
  unfold data_phase. unfold bind at 1. unfold fetch_seed.
  destruct (seed_json w) as [e | data] eqn:Ejson; [eauto 10 |].
  set (w0 := set_fetched (S (fetched w)) w).
  unfold bind at 1. rewrite this_db_transaction_connected by exact Hdb.
  rewrite begin_tx_eq by (apply schema_contains; [exact Hok | apply incl_refl]).
  set (tx0 := fresh_tx ReadWrite w0). set (w1 := pop w0).
  pose proof (seed_requests_engine data) as Heng.
  destruct (request_all (seed_requests data) tx0) as [es tx'] eqn:Er.
  assert (Hfate : tx_fate tx' = next_fate w /\ tx_mode tx' = ReadWrite).
  { destruct (request_all_fate (seed_requests data) tx0) as [H1 H2].
    rewrite Er in H1, H2. auto. }
  destruct Hfate as [Hfate Hmode].
  assert (Hidb : idb w1 = idb w) by reflexivity.
  assert (Hdel : delivered w1 = delivered w) by reflexivity.
  assert (Hdb1 : db w1 = db w) by reflexivity.
  (* the requests of the seed records *)
  assert (Hcases :
            commits tx' = false
            \/ (es = [] /\ (tx_aborted tx' = None ->
                             fails_now tx' <> None /\ same_schema (idb w) (tx_work tx')))).
  { destruct Hab as [Hf | i Hf Hlt].
    - left. pose proof (commit_fails_never_commits (seed_requests data) tx0 e0 Hf) as H.
      rewrite Er in H. exact H.
    - unfold queued in Hlt. rewrite Ejson in Hlt.
      destruct (existsb (fun op => throws op (idb w)) (seed_requests data)) eqn:Ethrow.
      + left. apply aborted_never_commits.
        pose proof (request_all_doomed (seed_requests data) tx0 i e0 Heng eq_refl Hf) as H.
        rewrite Er in H. apply H; simpl; lia.
      + right.
        pose proof (request_all_no_throw (seed_requests data) tx0 Heng eq_refl Ethrow) as H.
        rewrite Er in H. simpl in H. split; [exact H |]. subst es.
        intros Hnone.
        destruct (request_all_success _ tx0 _ eq_refl eq_refl Er Hnone) as [Happ Hiss].
        simpl in Hiss.
        rewrite (queued_of_no_throw _ _ Ethrow) in Hlt.
        destruct (Nat.eq_dec i (List.length (seed_requests data))) as [-> | Hne].
        * split.
          -- unfold fails_now. rewrite Hfate, Hf, Hiss, Nat.eqb_refl. discriminate.
          -- revert Happ. apply (apply_all_invariant (same_schema (idb w)));
               [| apply same_schema_refl].
             intros op d0 a d1 Hin H0 Hrun.
             eapply same_schema_trans; [exact H0 |].
             eapply engine_op_schema; [| exact Hrun].
             eapply Forall_forall in Heng; eassumption.
        * exfalso.
          pose proof (request_all_doomed (seed_requests data) tx0 i e0 Heng eq_refl Hf) as Hd.
          rewrite Er in Hd. apply Hd; simpl; try lia; [| exact Hnone].
          rewrite (queued_of_no_throw _ _ Ethrow). lia. }
  unfold bind at 1. unfold await_all. simpl fst. simpl snd.
  destruct es as [| e1 es].
  - destruct (tx_aborted tx') as [e1 |] eqn:Ha; [eauto 10 |].
    unfold bind at 1. unfold Date_now. cbv beta iota.
    destruct (marker_rejects (IDB.put "meta" (seeded_marker (now w1))) tx' w1 Ha)
      as [e Hrun].
    + destruct Hcases as [Hno | [_ H]]; [left; exact Hno | right].
      destruct (H eq_refl) as [Hfail Hsame]. split; [exact Hfail |].
      rewrite Hmode.
      destruct (keyed_put_succeeds "meta" (seeded_marker (now w1)) (idb w) Hok
                  (or_introl eq_refl)) with (d := tx_work tx') as [d' Hrun];
        [discriminate | exact Hsame |].
      eauto.
    + exists e, w1. split; [exact Hrun | auto].
  - destruct Hcases as [Hno | [H _]]; [| discriminate].
    unfold settle. rewrite Hno. eauto 10.
Qed.

Lemma getAll_resolved store w l w' :
  db w = true -> getAll store None None w = (Resolved l, w') ->
  l = map snd (records_of store (idb w)).
Proof.
  intros Hdb H. unfold getAll, Body.getAll in H. fold transaction in H.
  apply bind_resolved in H as (tx & w1 & Htx & H).
  rewrite (transaction_connected _ _ _ Hdb) in Htx.
  apply begin_tx_resolved in Htx as [-> ->].
  apply bind_resolved in H as (r & w2 & Hr & H).
  apply await_request_resolved in Hr as [Hr ->].
  injection H as <- <-.
  pose proof (request_cases (IDB.getAll store) (fresh_tx ReadOnly w) eq_refl) as Hc.
  rewrite Hr in Hc. destruct Hc as (Hop & _). simpl in Hop.
  unfold IDB.getAll in Hop. unfold records_of.
  destruct (find_store store (idb w)); [| discriminate]. congruence.
Qed.

Lemma data_phase_aborts m w e0 :
  ready w = true -> aborts m w e0 ->
  exists e wc,
    data_phase m w = (Rejected e, wc)
    /\ idb wc = idb w /\ delivered wc = delivered w /\ db wc = db w
    /\ (keyed m -> e = e0).
Proof.
  intros Hready Hab. pose proof (ready_db _ Hready) as Hdb.
  pose proof (ready_schema _ Hready) as Hok.
  assert (Hcond : m <> Seed ->
                  next_fate w = CommitFail e0
                  \/ exists i, next_fate w = ReqFail i e0
                               /\ (i < queued_of (requests_of m w) (idb w))%nat).
  { intros Hm. destruct Hab as [H | i H Hlt]; [left; exact H | right].
    exists i. split; [exact H |]. destruct m; try exact Hlt. congruence. }
  assert (Hcontains : forall store, In store STORES -> contains store (idb w) = true).
  { intros store Hin. destruct (schema_find _ _ Hok Hin) as (s & Hs & _).
    unfold contains. rewrite Hs. reflexivity. }
  destruct m as [store value | store values | store key | |].
  - unfold data_phase. unfold bind at 1. rewrite (transaction_connected _ _ _ Hdb).
    destruct (single_aborts store (IDB.put store value) w e0 (op_write true _ _))
      as (e & wc & Hrun & Hi & Hd & Hb & He); [apply Hcond; discriminate |].
    exists e, wc. repeat split; try assumption.
    intros [Hin Hk]. apply He; [auto |]. apply keyed_put_succeeds; assumption.
  - unfold data_phase. unfold bind at 1. rewrite (transaction_connected _ _ _ Hdb).
    destruct (batch_aborts [store] (map (IDB.put store) values) w e0)
      as (e & wc & Hrun & Hi & Hd & Hb & He).
    { apply Forall_forall. intros op Hop. apply in_map_iff in Hop as (v & <- & _).
      apply (op_write true). }
    { apply Hcond. discriminate. }
    exists e, wc. repeat split; try assumption.
    intros [Hin Hk]. apply He.
    + simpl. rewrite (Hcontains _ Hin). reflexivity.
    + apply Forall_forall. intros op Hop. apply in_map_iff in Hop as (v & <- & Hv).
      apply keyed_put_succeeds; auto.
  - unfold data_phase. unfold bind at 1. rewrite (transaction_connected _ _ _ Hdb).
    destruct (single_aborts store (IDB.delete store key) w e0 (op_delete _ _))
      as (e & wc & Hrun & Hi & Hd & Hb & He); [apply Hcond; discriminate |].
    exists e, wc. repeat split; try assumption.
    intros Hin. apply He; [auto |].
    intros d Hsame. pose proof (same_schema_ok _ _ Hsame Hok) as Hok'.
    destruct (schema_find d store Hok' Hin) as (s & Hs & _).
    unfold IDB.delete. rewrite Hs. eauto.
  - unfold data_phase. unfold bind at 1. rewrite (transaction_connected _ _ _ Hdb).
    destruct (batch_aborts STORES (map IDB.clear STORES) w e0)
      as (e & wc & Hrun & Hi & Hd & Hb & He).
    { apply Forall_forall. intros op Hop. apply in_map_iff in Hop as (n & <- & _).
      constructor. }
    { apply Hcond. discriminate. }
    exists e, wc. repeat split; try assumption.
    intros _. apply He.
    + apply schema_contains; [exact Hok | apply incl_refl].
    + apply Forall_forall. intros op Hop. apply in_map_iff in Hop as (n & <- & Hn).
      apply clear_succeeds_always; assumption.
  - destruct (seed_aborts w e0 Hready Hab) as (e & wc & Hrun & Hi & Hd & Hb).
    exists e, wc. repeat split; try assumption. intros [].
Qed.

(** C1, as claimed, fails: an I/O failure after the operation's own
    transaction has committed rejects the operation and leaves its write
    in place. With the log write failing, put('chats', chat1) rejects
    with that failure, and chat1 is in chats. *)
Lemma put_rejected_after_its_write :
  fst (getAll "chats" None None Scenario.log_write_fails) = Resolved []
  /\ fst (put "chats" Scenario.chat1 Scenario.log_write_fails)
     = Rejected QuotaExceededError
  /\ fst (getAll "chats" None None
                 (snd (put "chats" Scenario.chat1 Scenario.log_write_fails)))
     = Resolved [Scenario.chat1].
Proof. repeat split; vm_compute; reflexivity. Qed.

End Atomicity.

(* ===================================================================== *)
(** ** Operations the environment leaves alone *)
(* ===================================================================== *)

Section Calm.
Import IDB DataLayer Contract.

Lemma calm_next n w : calm (S n) w = true -> next_fate w = TxOk /\ calm n (pop w) = true.
Proof.
  unfold calm, next_fate, pop. simpl.
  destruct (fates w) as [| f rest]; simpl.
  - intros _. split; [reflexivity |]. destruct n; reflexivity.
  - rewrite andb_true_iff. intros [Hf Hrest]. destruct f; try discriminate. auto.
Qed.

Lemma calm_less n w : calm (S n) w = true -> calm n w = true.
Proof.
  unfold calm. revert n. induction (fates w) as [| f rest IH]; intros n.
  - destruct n; reflexivity.
  - destruct n; simpl; [reflexivity |].
    rewrite !andb_true_iff. intros [Hf H]. split; [exact Hf | apply IH; exact H].
Qed.

Lemma calm_log_commits w : calm 2 w = true -> log_commits w.
Proof.
  unfold calm, log_commits.
  destruct (fates w) as [| f [| f' rest]]; simpl; try exact (fun _ => I).
  rewrite !andb_true_iff. intros (_ & Hf & _). destruct f'; try discriminate. exact I.
Qed.

Lemma request_all_calm ops :
  forall tx d',
    tx_fate tx = TxOk -> tx_mode tx = ReadWrite -> tx_aborted tx = None ->
    apply_all ops (tx_work tx) = Some d' ->
    exists tx', request_all ops tx = ([], tx')
                /\ tx_aborted tx' = None /\ tx_fate tx' = TxOk /\ tx_work tx' = d'.
Proof.
  induction ops as [| op rest IH]; intros tx d' Hf Hm Ha Happ; simpl in *.
  - injection Happ as <-. exists tx. auto.
  - unfold request. rewrite Hm, Ha.
    destruct (op ReadWrite (tx_work tx)) as [e | e | a d] eqn:Erun; try discriminate.
    unfold fails_now. rewrite Hf.
    apply (IH (mkTx ReadWrite TxOk (S (tx_issued tx)) None d)); auto.
Qed.

Lemma request_calm {A} (op : Op A) tx a d :
  tx_fate tx = TxOk -> tx_aborted tx = None ->
  op (tx_mode tx) (tx_work tx) = Succeeds a d ->
  request op tx = ReqSuccess a (mkTx (tx_mode tx) TxOk (S (tx_issued tx)) None d).
Proof.
  intros Hf Ha Hrun. unfold request, fails_now. rewrite Hrun, Ha, Hf. reflexivity.
Qed.

(** With the environment calm, the operation's transaction commits all
    the writes its requests make. *)
Lemma data_phase_resolves m w d' :
  ready w = true -> next_fate w = TxOk -> fetchable m w ->
  (forall store, target m = Some store -> In store STORES) ->
  apply_all (requests_of m w) (idb w) = Some d' ->
  data_phase m w = (Resolved tt, set_idb d' (pop (prefetch m w))).
Proof.
  intros Hready Hf Hfetch Htarget Happ.
  pose proof (ready_db _ Hready) as Hdb. pose proof (ready_schema _ Hready) as Hok.
  assert (Hbatch : forall names ops w0,
             idb w0 = idb w -> next_fate w0 = TxOk -> incl names STORES ->
             apply_all ops (idb w) = Some d' ->
             (tx <- begin_tx names ReadWrite ;;
              tx <- await_all (request_all ops tx) ;;
              await_complete tx) w0 = (Resolved tt, set_idb d' (pop w0))).
  { intros names ops w0 Hi Hn Hincl Hops.
    unfold bind at 1.
    rewrite begin_tx_eq by (rewrite Hi; apply schema_contains; assumption).
    destruct (request_all_calm ops (fresh_tx ReadWrite w0) d') as (tx' & Hr & Ha & Hf' & Hw);
      try reflexivity; try assumption; [simpl; rewrite Hi; exact Hops |].
    unfold bind, await_all, await_complete. rewrite Hr. simpl.
    repeat (progress (rewrite ?Ha, ?Hf', ?Hw; simpl)).
    reflexivity. }
  assert (Hsingle : forall store op,
             In store STORES -> apply_all [op] (idb w) = Some d' ->
             (tx <- begin_tx [store] ReadWrite ;;
              r <- await_request op tx ;;
              await_complete (snd r)) w = (Resolved tt, set_idb d' (pop w))).
  { intros store op Hin Hops. simpl in Hops.
    destruct (op ReadWrite (idb w)) as [e | e | [] d] eqn:Erun; try discriminate.
    injection Hops as ->.
    unfold bind at 1.
    rewrite begin_tx_eq
      by (apply schema_contains; [exact Hok | intros n [<- | []]; exact Hin]).
    unfold bind, await_request, await_complete.
    rewrite (request_calm op (fresh_tx ReadWrite w) tt d' Hf eq_refl Erun). reflexivity. }
  destruct m as [store value | store values | store key | |]; unfold data_phase.
  - unfold bind at 1. rewrite (transaction_connected _ _ _ Hdb).
    apply Hsingle; [apply Htarget; reflexivity | exact Happ].
  - unfold bind at 1. rewrite (transaction_connected _ _ _ Hdb).
    apply Hbatch; try reflexivity; try assumption.
    intros n [<- | []]. apply Htarget. reflexivity.
  - unfold bind at 1. rewrite (transaction_connected _ _ _ Hdb).
    apply Hsingle; [apply Htarget; reflexivity | exact Happ].
  - unfold bind at 1. rewrite (transaction_connected _ _ _ Hdb).
    apply Hbatch; try reflexivity; try assumption. apply incl_refl.
  - destruct Hfetch as [data Hdata]. unfold requests_of in Happ. rewrite Hdata in Happ.
    rewrite apply_all_app in Happ.
    destruct (apply_all (seed_requests data) (idb w)) as [d1 |] eqn:E1; [| discriminate].
    simpl in Happ.
    destruct (IDB.put "meta" (seeded_marker (now w)) ReadWrite d1) as [e | e | [] d2] eqn:Ep;
      try discriminate.
    injection Happ as ->.
    unfold bind at 1. unfold fetch_seed. rewrite Hdata.
    set (w0 := set_fetched (S (fetched w)) w).
    unfold bind at 1. rewrite this_db_transaction_connected by exact Hdb.
    rewrite begin_tx_eq by (apply schema_contains; [exact Hok | apply incl_refl]).
    destruct (request_all_calm (seed_requests data) (fresh_tx ReadWrite w0) d1)
      as (tx' & Hr & Ha & Hf' & Hw); try reflexivity; try assumption.
    destruct (request_all_fate (seed_requests data) (fresh_tx ReadWrite w0)) as [_ Hmode].
    rewrite Hr in Hmode. simpl in Hmode.
    unfold bind at 1. unfold await_all. rewrite Hr. simpl fst. simpl snd. rewrite Ha.
    unfold bind at 1. unfold Date_now. cbv beta iota.
    unfold bind, enqueue, await_complete.
    change (now (pop w0)) with (now w).
    assert (Hrun : IDB.put "meta" (seeded_marker (now w)) (tx_mode tx') (tx_work tx')
                   = Succeeds tt d') by (rewrite Hmode, Hw; exact Ep).
    rewrite (request_calm _ tx' tt d' Hf' Ha Hrun). reflexivity.
Qed.

Lemma log_room_free n d s :
  0 < n -> log_room n d = true -> find_store "logs" d = Some s ->
  keygen s <= MAX_GENERATED /\ lookup (KNum (keygen s)) (records s) = None.
Proof.
  unfold log_room, log_keygen, records_of. intros Hn H Hs. rewrite Hs in H.
  apply andb_true_iff in H as [Hmax Hbelow]. apply Z.leb_le in Hmax.
  split; [lia |].
  rewrite forallb_forall in Hbelow.
  destruct (lookup (KNum (keygen s)) (records s)) as [v |] eqn:E; [| reflexivity].
  apply lookup_in in E. specialize (Hbelow _ E). simpl in Hbelow.
  apply Z.ltb_lt in Hbelow. lia.
Qed.

(** With the environment calm and room in the log, an operation whose
    requests succeed resolves: writes, log entry, event. *)
Lemma run_resolves m w d' s :
  ready w = true -> calm 2 w = true -> fetchable m w ->
  (forall store, target m = Some store -> In store STORES) ->
  apply_all (requests_of m w) (idb w) = Some d' ->
  find_store "logs" d' = Some s ->
  keygen s <= MAX_GENERATED -> lookup (KNum (keygen s)) (records s) = None ->
  run m w = (Resolved tt,
             snd (notify m (after_log (action m) (payload m) s
                                      (set_idb d' (pop (prefetch m w)))))).
Proof.
  intros Hready Hcalm Hfetch Htarget Happ Hs Hmax Hfree.
  destruct (calm_next _ _ Hcalm) as [Hf Hcalm1].
  destruct (calm_next _ _ Hcalm1) as [Hf1 _].
  rewrite run_split.
  rewrite (bind_step _ _ _ _ _ (data_phase_resolves m w d' Hready Hf Hfetch Htarget Happ)).
  set (wc := set_idb d' (pop (prefetch m w))).
  assert (Hdbc : db wc = true) by (destruct m; exact (ready_db _ Hready)).
  assert (Hspec : spec s = createObjectStore "logs").
  { pose proof (same_schema_ok _ _ (requests_keep_schema _ _ _ Happ)
                  (ready_schema _ Hready)) as Hok.
    destruct (schema_find d' "logs" Hok) as (s0 & Hs0 & Hspec);
      [unfold STORES; simpl; auto 10 |]. congruence. }
  unfold bind at 1. rewrite (recordLog_eq _ _ wc s Hdbc Hs Hspec).
  assert (Hfn : fails_now (fresh_tx ReadWrite wc) = None).
  { unfold fails_now. simpl.
    assert (next_fate wc = next_fate (pop w)) as -> by (destruct m; reflexivity).
    rewrite Hf1. reflexivity. }
  rewrite Hfn. apply Z.ltb_ge in Hmax. rewrite Hmax.
  apply mem_false in Hfree. rewrite Hfree. simpl.
  destruct (notify m (after_log (action m) (payload m) s wc)) as [[[] | e] w2] eqn:En;
    [reflexivity |].
  unfold notify in En. destruct (own_event m); discriminate.
Qed.

Lemma put_run store v w :
  put store v w =
    match run (Put store v) w with
    | (Resolved _, w') => (Resolved v, w')
    | (Rejected e, w') => (Rejected e, w')
    end.
Proof.
  unfold run, put, Body.put; fold transaction recordLog; unfold bind, ret;
    repeat match goal with
           | |- context [match ?m ?w with _ => _ end] =>
               is_var w; destruct (m w) as [[? | ?] ?]
           end; reflexivity.
Qed.

Lemma delete_run store k w : delete store k w = run (Delete store k) w.
Proof. reflexivity. Qed.

Lemma clearAll_run w : clearAll w = run ClearAll w.
Proof. reflexivity. Qed.

Lemma seed_run w : seed w = run Seed w.
Proof. reflexivity. Qed.

Lemma get_eq store k w s :
  db w = true -> find_store store (idb w) = Some s ->
  fails_now (fresh_tx ReadOnly w) = None ->
  get store k w = (Resolved (lookup k (records s)), pop w).
Proof.
  intros Hdb Hs Hf. unfold get, Body.get. fold transaction.
  unfold bind at 1. rewrite (transaction_connected _ _ _ Hdb).
  rewrite begin_tx_eq by (simpl; unfold contains; rewrite Hs; reflexivity).
  unfold bind, await_request, request. simpl. unfold IDB.get. rewrite Hs, Hf.
  reflexivity.
Qed.

Lemma getAll_eq store w s :
  db w = true -> find_store store (idb w) = Some s ->
  fails_now (fresh_tx ReadOnly w) = None ->
  getAll store None None w = (Resolved (map snd (records s)), pop w).
Proof.
  intros Hdb Hs Hf. unfold getAll, Body.getAll. fold transaction.
  unfold bind at 1. rewrite (transaction_connected _ _ _ Hdb).
  rewrite begin_tx_eq by (simpl; unfold contains; rewrite Hs; reflexivity).
  unfold bind, await_request, request. simpl. unfold IDB.getAll. rewrite Hs, Hf.
  reflexivity.
Qed.

Lemma calm_reads w : calm 1 w = true -> fails_now (fresh_tx ReadOnly w) = None.
Proof.
  intros H. destruct (calm_next _ _ H) as [Hf _].
  unfold fails_now. simpl. rewrite Hf. reflexivity.
Qed.

(** What a successful operation leaves of the world besides the
    database: the engine stays open and well-formed. *)
Lemma run_ready m w w' :
  ready w = true -> run m w = (Resolved tt, w') -> ready w' = true.
Proof.
  intros Hready Hrun.
  destruct (run_resolved m w w' Hready Hrun)
    as (d' & s & Happ & Hs & Hspec & Hmax & Hfree & _ & _ & ->).
  pose proof (same_schema_ok _ _ (requests_keep_schema _ _ _ Happ)
                (ready_schema _ Hready)) as Hok.
  set (wc := set_idb d' (pop (prefetch m w))).
  assert (Hwc : db wc = db w /\ listeners wc = listeners w) by (destruct m; auto).
  destruct Hwc as [Hdbc Hlc].
  unfold ready.
  assert (Hn : forall x, db (snd (notify m x)) = db x
                         /\ listeners (snd (notify m x)) = listeners x
                         /\ idb (snd (notify m x)) = idb x).
  { intros x. unfold notify. destruct (own_event m); auto. }
  assert (Hokl : schema_ok (idb (after_log (action m) (payload m) s wc)) = true).
  { destruct (idb_after_log (action m) (payload m) s wc) as [-> | ->]; simpl.
    - exact Hok.
    - eapply same_schema_ok; [| exact Hok].
      eapply same_schema_set; [exact Hs | reflexivity]. }
  assert (Hdbl : db (after_log (action m) (payload m) s wc) = db w).
  { unfold after_log, settle. simpl. destruct (commits _); simpl; exact Hdbc. }
  destruct (Hn (after_log (action m) (payload m) s wc)) as (-> & -> & ->).
  rewrite after_log_listeners, Hlc, Hokl, Hdbl.
  rewrite (ready_db _ Hready), (ready_distinct _ Hready). reflexivity.
Qed.
End Calm.

(* ===================================================================== *)
(** ** put, get and delete on one record *)
(* ===================================================================== *)

Section OneRecord.
Import IDB DataLayer Contract.

Lemma record_at_found store k d v :
  record_at store k d = Some v ->
  exists s, find_store store d = Some s /\ lookup k (records s) = Some v.
Proof.
  unfold record_at, records_of. destruct (find_store store d) as [s |]; [eauto |].
  discriminate.
Qed.

Lemma put_resolved store v w r w' :
  put store v w = (Resolved r, w') -> r = v /\ run (Put store v) w = (Resolved tt, w').
Proof.
  rewrite put_run. destruct (run (Put store v) w) as [[[] | e] w1]; [| discriminate].
  intros [= <- <-]. auto.
Qed.

(** The database a successful operation leaves shows its writes. *)
Lemma run_shows m w w' :
  ready w = true -> run m w = (Resolved tt, w') -> shows m (idb w').
Proof.
  intros Hready Hrun.
  destruct (run_resolved m w w' Hready Hrun)
    as (d' & s & Happ & Hs & Hspec & Hmax & Hfree & _ & Hfetch & ->).
  rewrite notify_idb. apply seen_shows; assumption.
Qed.

(** With room in the log and the environment calm, a put of a keyed
    record into a collection other than logs resolves. *)
Lemma put_resolves store v k w :
  ready w = true -> In store STORES -> store <> "logs" ->
  record_key store v = Some k -> calm 2 w = true -> log_room 1 (idb w) = true ->
  exists w', put store v w = (Resolved v, w').
Proof.
  intros Hready Hin Hne Hk Hcalm Hroom.
  pose proof (ready_schema _ Hready) as Hok.
  destruct (keyed_put_succeeds store v (idb w) Hok Hin) with (d := idb w) as [d' Hput];
    [congruence | apply same_schema_refl |].
  assert (Happ : apply_all (requests_of (Put store v) w) (idb w) = Some d')
    by (simpl; rewrite Hput; reflexivity).
  destruct (schema_find (idb w) "logs" Hok) as (s & Hs & _);
    [unfold STORES; simpl; auto 10 |].
  assert (Hs' : find_store "logs" d' = Some s).
  { rewrite <- Hs. eapply (requests_elsewhere (Put store v)); [reflexivity | | exact Happ].
    congruence. }
  destruct (log_room_free 1 (idb w) s) as [Hmax Hfree]; [lia | exact Hroom | exact Hs |].
  eexists. rewrite put_run.
  rewrite (run_resolves (Put store v) w d' s Hready Hcalm I); try assumption.
  - reflexivity.
  - intros st [= <-]. exact Hin.
Qed.

Lemma set_store_same name s d : find_store name d = Some s -> set_store name s d = d.
Proof.
  induction d as [| [n s0] t IH]; simpl; [reflexivity |].
  destruct (String.eqb n name) eqn:E.
  - intros [= ->]. reflexivity.
  - intros H. rewrite IH by exact H. reflexivity.
Qed.

Lemma delete_absent store k d s :
  find_store store d = Some s -> lookup k (records s) = None ->
  IDB.delete store k ReadWrite d = Succeeds tt d.
Proof.
  intros Hs Hl. unfold IDB.delete. rewrite Hs, (remove_absent _ _ Hl).
  unfold with_records. destruct s. simpl. rewrite set_store_same by exact Hs. reflexivity.
Qed.

(** C8. On the open engine, for a key that a collection does not hold:
    get resolves with no record, and delete resolves and adds exactly one
    "delete" entry to logs, leaving everything else as it was (with the
    environment calm and room in the log). *)
Theorem absent_key_is_no_error store k w :
  ready w = true -> In store STORES -> record_at store k (idb w) = None ->
  (calm 1 w = true -> fst (get store k w) = Resolved None)
  /\ (calm 2 w = true -> log_room 1 (idb w) = true ->
      exists w',
        delete store k w = (Resolved tt, w')
        /\ (let g := log_keygen (idb w) in
            let entry := log_entry "delete" (JObj [("store", JStr store); ("key", key_json k)])
                                   (now w) g in
            record_at "logs" (KNum g) (idb w) = None
            /\ records_of "logs" (idb w') = insert (KNum g) entry (records_of "logs" (idb w))
            /\ List.length (records_of "logs" (idb w'))
               = S (List.length (records_of "logs" (idb w))))
        /\ forall other, other <> "logs" ->
                         records_of other (idb w') = records_of other (idb w)).
Proof.
  intros Hready Hin Habsent.
  pose proof (ready_schema _ Hready) as Hok. pose proof (ready_db _ Hready) as Hdb.
  destruct (schema_find (idb w) store Hok Hin) as (s0 & Hs0 & _).
  assert (Hl : lookup k (records s0) = None).
  { unfold record_at, records_of in Habsent. rewrite Hs0 in Habsent. exact Habsent. }
  split.
  - intros Hcalm. rewrite (get_eq store k w s0 Hdb Hs0 (calm_reads _ Hcalm)).
    simpl. rewrite Hl. reflexivity.
  - intros Hcalm Hroom.
    destruct (schema_find (idb w) "logs" Hok) as (s & Hs & _);
      [unfold STORES; simpl; auto 10 |].
    destruct (log_room_free 1 (idb w) s) as [Hmax Hfree]; [lia | exact Hroom | exact Hs |].
    assert (Happ : apply_all (requests_of (Delete store k) w) (idb w) = Some (idb w))
      by (simpl; rewrite (delete_absent store k (idb w) s0 Hs0 Hl); reflexivity).
    assert (Hrun : exists w', run (Delete store k) w = (Resolved tt, w')).
    { eexists. apply (run_resolves (Delete store k) w (idb w) s Hready Hcalm I);
        try assumption. intros st [= <-]. exact Hin. }
    destruct Hrun as [w' Hrun].
    destruct (run_logged _ w w' Hready (calm_log_commits _ Hcalm) Hrun)
      as (d' & s' & Happ' & Hs' & _ & _ & Hidb).
    rewrite Happ in Happ'. injection Happ' as <-.
    assert (s' = s) by congruence. subst s'.
    exists w'. split; [rewrite delete_run; exact Hrun |].
    assert (Hg : log_keygen (idb w) = keygen s)
      by (unfold log_keygen; rewrite Hs; reflexivity).
    assert (Hr : records_of "logs" (idb w) = records s)
      by (unfold records_of; rewrite Hs; reflexivity).
    assert (Hr' : records_of "logs" (idb w')
                  = insert (KNum (keygen s))
                           (log_entry "delete"
                                      (JObj [("store", JStr store); ("key", key_json k)])
                                      (now w) (keygen s))
                           (records s)).
    { rewrite Hidb. unfold records_of. rewrite (find_store_set_same _ _ _ _ Hs).
      simpl. apply store_absent. exact Hfree. }
    cbv zeta. rewrite Hg, Hr, Hr'. split; [split; [| split] |].
    + unfold record_at. rewrite Hr. exact Hfree.
    + reflexivity.
    + apply length_insert.
    + intros other Hne. rewrite Hidb. apply records_of_set_other. exact Hne.
Qed.

Lemma absent_key_is_no_error_witness :
  (calm 1 Scenario.opened = true ->
   fst (get "likes" (KStr "l9") Scenario.opened) = Resolved None)
  /\ (calm 2 Scenario.opened = true -> log_room 1 (idb Scenario.opened) = true ->
      exists w',
        delete "likes" (KStr "l9") Scenario.opened = (Resolved tt, w')
        /\ (let g := log_keygen (idb Scenario.opened) in
            let entry := log_entry "delete"
                                   (JObj [("store", JStr "likes"); ("key", key_json (KStr "l9"))])
                                   (now Scenario.opened) g in
            record_at "logs" (KNum g) (idb Scenario.opened) = None
            /\ records_of "logs" (idb w')
               = insert (KNum g) entry (records_of "logs" (idb Scenario.opened))
            /\ List.length (records_of "logs" (idb w'))
               = S (List.length (records_of "logs" (idb Scenario.opened))))
        /\ forall other, other <> "logs" ->
                         records_of other (idb w') = records_of other (idb Scenario.opened)).
Proof.
  apply (absent_key_is_no_error "likes" (KStr "l9") Scenario.opened).
  - vm_compute. reflexivity.
  - simpl. auto 10.
  - reflexivity.
Defined.

Lemma run_fates m w w' :
  ready w = true -> run m w = (Resolved tt, w') -> fates w' = tl (tl (fates w)).
Proof.
  intros Hready Hrun.
  destruct (run_resolved m w w' Hready Hrun) as (d' & s & _ & _ & _ & _ & _ & _ & _ & ->).
  assert (Hn : forall x, fates (snd (notify m x)) = fates x)
    by (intros x; unfold notify; destruct (own_event m); reflexivity).
  rewrite Hn. unfold after_log, settle. simpl.
  destruct (commits _); destruct m; reflexivity.
Qed.

Lemma calm_skip n w w' :
  calm (S (S n)) w = true -> fates w' = tl (tl (fates w)) -> calm n w' = true.
Proof.
  intros Hcalm Hf. destruct (calm_next _ _ Hcalm) as [_ H1].
  destruct (calm_next _ _ H1) as [_ H2].
  unfold calm in *. rewrite Hf. exact H2.
Qed.

Lemma log_room_step n d d' s a p t :
  0 <= n -> log_room (n + 1) d = true ->
  find_store "logs" d = Some s -> find_store "logs" d' = Some s ->
  log_room n (set_store "logs" (logs_after a p t s) d') = true.
Proof.
  unfold log_room, log_keygen, records_of. intros Hn H Hs Hs'.
  rewrite Hs in H. rewrite (find_store_set_same _ _ _ _ Hs').
  unfold logs_after. cbn [keygen records].
  apply andb_true_iff in H as [Hmax Hbelow]. apply Z.leb_le in Hmax.
  apply andb_true_iff. split; [apply Z.leb_le; lia |].
  rewrite forallb_forall in Hbelow |- *. intros [k v] Hin. cbn [fst].
  unfold store in Hin. apply in_insert in Hin as [[= -> ->] | Hin].
  - simpl. apply Z.ltb_lt. lia.
  - unfold remove in Hin. apply filter_In in Hin as [Hin _].
    specialize (Hbelow _ Hin). simpl in Hbelow.
    destruct k as [m | |]; simpl in *; try reflexivity.
    apply Z.ltb_lt in Hbelow. apply Z.ltb_lt. lia.
Qed.

Lemma calm_less_room n n' d : n <= n' -> log_room n' d = true -> log_room n d = true.
Proof.
  unfold log_room. rewrite !andb_true_iff, !Z.leb_le. intros Hle [H1 H2].
  split; [lia | exact H2].
Qed.

(** What a put of a keyed record into a collection other than logs
    leaves, with the environment calm and room in the log. *)
Lemma put_effect store v k w :
  ready w = true -> In store STORES -> store <> "logs" ->
  record_key store v = Some k -> calm 2 w = true -> log_room 1 (idb w) = true ->
  exists w',
    put store v w = (Resolved v, w')
    /\ ready w' = true
    /\ fates w' = tl (tl (fates w))
    /\ records_of store (idb w') = IDB.store k v (records_of store (idb w))
    /\ (forall n, 0 <= n -> log_room (n + 1) (idb w) = true -> log_room n (idb w') = true).
Proof.
  intros Hready Hin Hne Hk Hcalm Hroom.
  destruct (put_resolves store v k w Hready Hin Hne Hk Hcalm Hroom) as [w' Hput].
  exists w'. split; [exact Hput |].
  apply put_resolved in Hput as [_ Hrun].
  split; [eapply run_ready; eassumption |].
  split; [eapply run_fates; eassumption |].
  destruct (run_logged _ w w' Hready (calm_log_commits _ Hcalm) Hrun)
    as (d' & s & Happ & Hs & _ & _ & Hidb).
  pose proof (ready_schema _ Hready) as Hok.
  destruct (schema_find (idb w) store Hok Hin) as (s0 & Hs0 & Hspec).
  simpl in Happ.
  destruct (IDB.put store v ReadWrite (idb w)) as [e | e | a d1] eqn:Ep; try discriminate.
  injection Happ as ->.
  apply write_succeeds in Ep as (s1 & key & s1' & Hs1 & Hc & Hrec & ->).
  assert (s1 = s0) by congruence. subst s1.
  rewrite (check_value_keyed store s0 v k Hspec Hk) in Hc. injection Hc as <-.
  simpl in Hrec. injection Hrec as <-.
  assert (Hlogs : find_store "logs" (idb w) = Some s).
  { rewrite <- Hs. symmetry. apply find_store_set_other. congruence. }
  split.
  - rewrite Hidb. rewrite records_of_set_other by exact Hne.
    unfold records_of. rewrite (find_store_set_same _ _ _ _ Hs0), Hs0. reflexivity.
  - intros n Hn Hr. rewrite Hidb. eapply log_room_step; eassumption.
Qed.

(** C6, as claimed, fails on the logs collection: the second put adds
    its own log entry, so the count of logs grows. *)
Lemma put_twice_on_logs_grows :
  let w1 := snd (put "logs" Scenario.entry1 Scenario.opened) in
  let w2 := snd (put "logs" Scenario.entry1b w1) in
  exists l1 l2,
    fst (put "logs" Scenario.entry1 Scenario.opened) = Resolved Scenario.entry1
    /\ fst (put "logs" Scenario.entry1b w1) = Resolved Scenario.entry1b
    /\ fst (getAll "logs" None None w1) = Resolved l1
    /\ fst (getAll "logs" None None w2) = Resolved l2
    /\ List.length l1 = 2%nat /\ List.length l2 = 3%nat.
Proof.
  cbv zeta. eexists. eexists.
  split; [vm_compute; reflexivity |].
  split; [vm_compute; reflexivity |].
  split; [vm_compute; reflexivity |].
  split; [vm_compute; reflexivity |].
  split; reflexivity.
Qed.

End OneRecord.

(* ===================================================================== *)
(** ** Index queries *)
(* ===================================================================== *)

Section Indexes.
Import IDB DataLayer Contract.

Lemma getAll_index_eq store name query w s ix :
  db w = true -> find_store store (idb w) = Some s ->
  find_index name s = Some ix -> name <> "" ->
  fails_now (fresh_tx ReadOnly w) = None ->
  getAll store (Some name) query w
  = (Resolved (index_query ix query (records s)), pop w).
Proof.
  intros Hdb Hs Hix Hname Hf. unfold getAll, Body.getAll. fold transaction.
  unfold bind at 1. rewrite (transaction_connected _ _ _ Hdb).
  rewrite begin_tx_eq by (simpl; unfold contains; rewrite Hs; reflexivity).
  apply String.eqb_neq in Hname. rewrite Hname.
  unfold bind, await_request, request. simpl. unfold IDB.index_getAll.
  rewrite Hs, Hix, Hf. reflexivity.
Qed.

Lemma existsb_key_eqb k ks : existsb (key_eqb k) ks = true <-> In k ks.
Proof.
  rewrite existsb_exists. split.
  - intros (x & Hin & Heq). apply key_eqb_eq in Heq. subst. exact Hin.
  - intros Hin. exists k. split; [exact Hin | apply key_eqb_refl].
Qed.

Lemma in_dedup k ks : In k (dedup ks) <-> In k ks.
Proof.
  induction ks as [| x t IH]; simpl; [tauto |].
  destruct (existsb (key_eqb x) t) eqn:E; simpl; rewrite IH.
  - apply existsb_key_eqb in E. split; [auto |]. intros [<- | H]; assumption.
  - tauto.
Qed.

(** A single-valued index lists a record under the key of its field. *)
Lemma index_keys_single ix v k :
  ix_multiEntry ix = false ->
  In k (index_keys ix v) <-> field_key (ix_keyPath ix) v = Some k.
Proof.
  intros Hm. unfold index_keys, field_key. rewrite Hm.
  destruct (get_prop (ix_keyPath ix) v) as [x |]; [| simpl; split; [tauto | discriminate]].
  assert (H : In k (match to_key x with Some k0 => [k0] | None => [] end)
              <-> to_key x = Some k).
  { destruct (to_key x) as [k0 |]; simpl.
    - split; [intros [-> | []]; reflexivity | intros [= ->]; auto].
    - split; [tauto | discriminate]. }
  destruct x; exact H.
Qed.

(** A multi-valued index lists a record under every key of its array. *)
Lemma index_keys_multi ix v items p k :
  ix_multiEntry ix = true -> get_prop (ix_keyPath ix) v = Some (JArr items) ->
  In p items -> to_key p = Some k -> In k (index_keys ix v).
Proof.
  intros Hm Hget Hp Hk. unfold index_keys. rewrite Hget, Hm.
  apply in_dedup. unfold valid_keys. apply in_flat_map.
  exists p. split; [exact Hp |]. rewrite Hk. left. reflexivity.
Qed.

Lemma index_query_key ix k rs v :
  In v (index_query ix (Some k) rs)
  <-> exists pk, In (pk, v) rs /\ In k (index_keys ix v).
Proof.
  unfold index_query. rewrite in_map_iff. split.
  - intros ([pk v'] & <- & Hin). apply filter_In in Hin as [Hin Hk].
    simpl in *. exists pk. split; [exact Hin | apply existsb_key_eqb; exact Hk].
  - intros (pk & Hin & Hk). exists (pk, v). split; [reflexivity |].
    apply filter_In. split; [exact Hin | apply existsb_key_eqb; exact Hk].
Qed.

(** C5. On the open engine with the read left alone:
    getAll('messages', 'by_chat', C) returns exactly the stored messages
    whose chatId is the key C; and a stored chat whose participants
    array has a member with key P is among the results of
    getAll('chats', 'by_participant', P). *)
Theorem index_queries_are_exact w :
  ready w = true -> calm 1 w = true ->
  (forall C,
      exists l,
        fst (getAll "messages" (Some "by_chat") (Some C) w) = Resolved l
        /\ forall m, In m l <->
                     (exists k, In (k, m) (records_of "messages" (idb w)))
                     /\ field_key "chatId" m = Some C)
  /\ (forall chat k members p P,
        In (k, chat) (records_of "chats" (idb w)) ->
        get_prop "participants" chat = Some (JArr members) ->
        In p members -> to_key p = Some P ->
        exists l,
          fst (getAll "chats" (Some "by_participant") (Some P) w) = Resolved l
          /\ In chat l).
Proof.
  intros Hready Hcalm.
  pose proof (ready_db _ Hready) as Hdb. pose proof (ready_schema _ Hready) as Hok.
  pose proof (calm_reads _ Hcalm) as Hf.
  split.
  - intros C.
    destruct (schema_find (idb w) "messages" Hok) as (s & Hs & Hspec);
      [unfold STORES; simpl; auto 10 |].
    assert (Hix : find_index "by_chat" s = Some (mkIndex "by_chat" "chatId" false))
      by (unfold find_index; rewrite Hspec; reflexivity).
    exists (index_query (mkIndex "by_chat" "chatId" false) (Some C) (records s)).
    split.
    + rewrite (getAll_index_eq _ _ _ _ _ _ Hdb Hs Hix); [reflexivity | discriminate | exact Hf].
    + intros m. rewrite index_query_key.
      unfold records_of. rewrite Hs.
      pose proof (index_keys_single (mkIndex "by_chat" "chatId" false) m C eq_refl) as Hk.
      simpl in Hk.
      split; [intros (pk & H1 & H2) | intros ((pk & H1) & H2)].
      * split; [eauto | apply Hk; exact H2].
      * exists pk. split; [exact H1 | apply Hk; exact H2].
  - intros chat k members p P Hin Hget Hp HP.
    destruct (schema_find (idb w) "chats" Hok) as (s & Hs & Hspec);
      [unfold STORES; simpl; auto 10 |].
    assert (Hix : find_index "by_participant" s
                  = Some (mkIndex "by_participant" "participants" true))
      by (unfold find_index; rewrite Hspec; reflexivity).
    exists (index_query (mkIndex "by_participant" "participants" true) (Some P) (records s)).
    split.
    + rewrite (getAll_index_eq _ _ _ _ _ _ Hdb Hs Hix); [reflexivity | discriminate | exact Hf].
    + apply index_query_key. exists k. unfold records_of in Hin. rewrite Hs in Hin.
      split; [exact Hin |].
      eapply index_keys_multi; [reflexivity | exact Hget | exact Hp | exact HP].
Qed.

Lemma index_queries_are_exact_witness :
  (forall C,
      exists l,
        fst (getAll "messages" (Some "by_chat") (Some C) Cases.conversation) = Resolved l
        /\ forall m, In m l <->
                     (exists k, In (k, m) (records_of "messages" (idb Cases.conversation)))
                     /\ field_key "chatId" m = Some C)
  /\ (exists l,
        fst (getAll "chats" (Some "by_participant") (Some (KStr "p1")) Cases.conversation)
        = Resolved l
        /\ In Scenario.chat1 l)
  /\ (exists l,
        fst (getAll "chats" (Some "by_participant") (Some (KStr "p2")) Cases.conversation)
        = Resolved l
        /\ In Scenario.chat1 l)
  /\ map snd (records_of "messages" (idb Cases.conversation))
     = [Scenario.message1; Cases.message2]
  /\ fst (getAll "messages" (Some "by_chat") (Some (KStr "c1")) Cases.conversation)
     = Resolved [Scenario.message1]
  /\ fst (getAll "messages" (Some "by_chat") (Some (KStr "c3")) Cases.conversation)
     = Resolved []
  /\ fst (getAll "chats" (Some "by_participant") (Some (KStr "p1")) Cases.conversation)
     = Resolved [Scenario.chat1; Scenario.chat2]
  /\ fst (getAll "chats" (Some "by_participant") (Some (KStr "p2")) Cases.conversation)
     = Resolved [Scenario.chat1].
Proof.
  assert (Hready : ready Cases.conversation = true) by (vm_compute; reflexivity).
  assert (Hcalm : calm 1 Cases.conversation = true) by (vm_compute; reflexivity).
  assert (Hheld : In (KStr "c1", Scenario.chat1)
                     (records_of "chats" (idb Cases.conversation)))
    by (vm_compute; left; reflexivity).
  destruct (index_queries_are_exact Cases.conversation Hready Hcalm) as [Hchat Hpart].
  split; [exact Hchat |].
  split.
  { apply (Hpart Scenario.chat1 (KStr "c1") [JStr "p1"; JStr "p2"] (JStr "p1") (KStr "p1"));
      [exact Hheld | reflexivity | left; reflexivity | reflexivity]. }
  split.
  { apply (Hpart Scenario.chat1 (KStr "c1") [JStr "p1"; JStr "p2"] (JStr "p2") (KStr "p2"));
      [exact Hheld | reflexivity | right; left; reflexivity | reflexivity]. }
  repeat split; vm_compute; reflexivity.
Defined.
End Indexes.

(* ===================================================================== *)
(** ** clearAll *)
(* ===================================================================== *)

Section Reset.
Import IDB DataLayer Contract.

Lemma broadcast_names name seen ls :
  Forall (fun d => ev_name d = name) (broadcast name seen ls).
Proof.
  unfold broadcast. apply Forall_forall. intros d Hd.
  apply in_map_iff in Hd as (l & <- & _). reflexivity.
Qed.

(** Whatever its outcome, [recordLog] touches no collection but logs. *)
Lemma recordLog_elsewhere a p w o w' store :
  ready w = true -> recordLog a p w = (o, w') -> store <> "logs" ->
  records_of store (idb w') = records_of store (idb w).
Proof.
  intros Hready Hrun Hne.
  destruct (schema_find (idb w) "logs" (ready_schema _ Hready)) as (s & Hs & Hspec);
    [unfold STORES; simpl; auto 10 |].
  rewrite (recordLog_eq a p w s (ready_db _ Hready) Hs Hspec) in Hrun.
  destruct (fails_now (fresh_tx ReadWrite w)); [injection Hrun as <- <-; reflexivity |].
  destruct ((MAX_GENERATED <? keygen s) || mem (KNum (keygen s)) (records s));
    injection Hrun as <- <-; [reflexivity |].
  destruct (idb_after_log a p s w) as [-> | ->]; [reflexivity |].
  apply records_of_set_other. exact Hne.
Qed.

Lemma clearAll_rejected_early w e wc :
  ready w = true -> data_phase ClearAll w = (Rejected e, wc) -> idb wc = idb w.
Proof.
  intros Hready Hrun. pose proof (ready_schema _ Hready) as Hok.
  unfold data_phase in Hrun. unfold bind at 1 in Hrun.
  rewrite (transaction_connected _ _ _ (ready_db _ Hready)) in Hrun.
  rewrite begin_tx_eq in Hrun by (apply schema_contains; [exact Hok | apply incl_refl]).
  destruct (request_all_clean (map IDB.clear STORES) (fresh_tx ReadWrite w)) as [Hnil _];
    try reflexivity.
  { apply Forall_forall. intros op Hop. apply in_map_iff in Hop as (n & <- & _).
    constructor. }
  { apply Forall_forall. intros op Hop. apply in_map_iff in Hop as (n & <- & Hn).
    apply clear_succeeds_always; assumption. }
  destruct (request_all (map IDB.clear STORES) (fresh_tx ReadWrite w)) as [es tx'].
  simpl in Hnil. subst es.
  unfold bind, await_all, await_complete in Hrun. simpl in Hrun.
  destruct (tx_aborted tx') eqn:Ea; [injection Hrun as <- <-; reflexivity |].
  cbv beta iota in Hrun. rewrite ?Ea in Hrun.
  destruct (tx_fate tx'); try discriminate.
  injection Hrun as <- <-. reflexivity.
Qed.

(** C4. On the open engine, clearAll empties the collections all
    together or not at all: whatever its outcome, either the database is
    as it was or every collection but logs is empty. When it resolves
    (and the log transaction commits), getAll returns the empty sequence
    for every collection except logs, which holds exactly the one reset
    entry that clearAll logged; two transactions were used, one for all
    the collections and one for the log entry; and the listener calls it
    made are those of "db:reset", each listener once, and those that
    recordLog makes for its entry in logs, "logs:change": there is no
    "<collection>:change" for the collections that were emptied. *)
Theorem clearAll_resets w :
  ready w = true ->
  (forall o w',
      clearAll w = (o, w') ->
      idb w' = idb w
      \/ forall store, In store STORES -> store <> "logs" ->
                       records_of store (idb w') = [])
  /\ (forall w',
        log_commits w -> clearAll w = (Resolved tt, w') ->
        let entry := log_entry "reset" (JObj [("info", JStr "database cleared")])
                               (now w) (log_keygen (idb w)) in
        (forall store, In store STORES -> store <> "logs" ->
                       records_of store (idb w') = []
                       /\ (calm 1 w' = true ->
                           fst (getAll store None None w') = Resolved []))
        /\ records_of "logs" (idb w') = [(KNum (log_keygen (idb w)), entry)]
        /\ (calm 1 w' = true -> fst (getAll "logs" None None w') = Resolved [entry])
        /\ fates w' = tl (tl (fates w))
        /\ exists news,
            delivered w' = delivered w ++ news
            /\ Forall (fun d => ev_name d = "logs:change" \/ ev_name d = "db:reset") news
            /\ forall name h, name = "logs:change" \/ name = "db:reset" ->
                              In (name, h) (listeners w) -> calls name h news = 1%nat).
Proof.
  intros Hready. split.
  - intros o w' Hrun. rewrite clearAll_run, run_split in Hrun.
    unfold bind at 1 in Hrun.
    destruct (data_phase ClearAll w) as [[[] | e] wc] eqn:Ed.
    + right. intros store Hin Hne.
      destruct (data_phase_resolved _ _ _ (ready_db _ Hready) Ed) as (d' & Happ & -> & _).
      assert (Hreadyc : ready (set_idb d' (pop (prefetch ClearAll w))) = true).
      { unfold ready. simpl.
        rewrite (ready_db _ Hready), (ready_distinct _ Hready).
        rewrite (same_schema_ok _ _ (requests_keep_schema _ _ _ Happ)
                   (ready_schema _ Hready)). reflexivity. }
      unfold bind at 1 in Hrun.
      destruct (recordLog (action ClearAll) (payload ClearAll)
                          (set_idb d' (pop (prefetch ClearAll w)))) as [[[] | e] wl] eqn:El.
      * simpl in Hrun. injection Hrun as <- <-. simpl.
        rewrite (recordLog_elsewhere _ _ _ _ _ store Hreadyc El Hne). simpl.
        eapply clears_empty; [exact Happ | exact Hin].
      * injection Hrun as <- <-.
        rewrite (recordLog_elsewhere _ _ _ _ _ store Hreadyc El Hne). simpl.
        eapply clears_empty; [exact Happ | exact Hin].
    + left. injection Hrun as <- <-. eapply clearAll_rejected_early; eassumption.
  - intros w' Hcommit Hrun. cbv zeta. rewrite clearAll_run in Hrun.
    pose proof (run_ready _ _ _ Hready Hrun) as Hready'.
    pose proof (ready_schema _ Hready') as Hok'.
    destruct (one_log_entry_per_mutation ClearAll w w' Hready Hcommit Hrun)
      as (g & _ & _ & _ & _ & Hclear).
    destruct (Hclear eq_refl) as [-> Hlogs]. simpl in Hlogs.
    split; [| split; [| split; [| split]]].
    + intros store Hin Hne.
      assert (Hempty : records_of store (idb w') = [])
        by (apply (run_shows ClearAll w w' Hready Hrun store Hin Hne)).
      split; [exact Hempty |]. intros Hcalm.
      destruct (schema_find (idb w') store Hok' Hin) as (s & Hs & _).
      rewrite (getAll_eq store w' s (ready_db _ Hready') Hs (calm_reads _ Hcalm)).
      unfold records_of in Hempty. rewrite Hs in Hempty. rewrite Hempty. reflexivity.
    + exact Hlogs.
    + intros Hcalm.
      destruct (schema_find (idb w') "logs" Hok') as (s & Hs & _);
        [unfold STORES; simpl; auto 10 |].
      rewrite (getAll_eq "logs" w' s (ready_db _ Hready') Hs (calm_reads _ Hcalm)).
      unfold records_of in Hlogs. rewrite Hs in Hlogs. rewrite Hlogs. reflexivity.
    + eapply run_fates; eassumption.
    + destruct (run_resolved ClearAll w w' Hready Hrun)
        as (d' & s & _ & _ & _ & _ & _ & _ & _ & ->).
      set (wc := set_idb d' (pop (prefetch ClearAll w))).
      set (wl := after_log (action ClearAll) (payload ClearAll) s wc).
      pose proof (after_log_delivered (action ClearAll) (payload ClearAll) s wc) as Hwd.
      pose proof (after_log_listeners (action ClearAll) (payload ClearAll) s wc) as Hwl.
      fold wl in Hwd, Hwl.
      change (listeners wc) with (listeners w) in Hwd, Hwl.
      change (delivered wc) with (delivered w) in Hwd.
      exists (broadcast "logs:change" (idb wl) (listeners w)
              ++ broadcast "db:reset" (idb wl) (listeners w)).
      split; [| split].
      * rewrite notify_delivered. simpl own_event. rewrite Hwd, Hwl, app_assoc. reflexivity.
      * apply Forall_app. split.
        -- eapply Forall_impl; [| apply broadcast_names]. intros d Hd. left. exact Hd.
        -- eapply Forall_impl; [| apply broadcast_names]. intros d Hd. right. exact Hd.
      * intros name h [-> | ->] Hin; rewrite calls_app.
        -- rewrite (calls_broadcast _ _ _ _ (ready_distinct _ Hready) Hin).
           rewrite calls_broadcast_other by reflexivity. reflexivity.
        -- rewrite (calls_broadcast "db:reset" _ _ _ (ready_distinct _ Hready) Hin).
           rewrite calls_broadcast_other by reflexivity. reflexivity.
Qed.

Lemma clearAll_resets_witness :
  (forall o w',
      clearAll Cases.watched = (o, w') ->
      idb w' = idb Cases.watched
      \/ forall store, In store STORES -> store <> "logs" ->
                       records_of store (idb w') = [])
  /\ map snd (records_of "chats" (idb Cases.watched)) = [Scenario.chat1; Scenario.chat2]
  /\ List.length (records_of "logs" (idb Cases.watched)) = 2%nat
  /\ fst (clearAll Cases.watched) = Resolved tt
  /\ (forall store, In store STORES -> store <> "logs" ->
         records_of store (idb (snd (clearAll Cases.watched))) = []
         /\ (calm 1 (snd (clearAll Cases.watched)) = true ->
             fst (getAll store None None (snd (clearAll Cases.watched))) = Resolved []))
  /\ records_of "logs" (idb (snd (clearAll Cases.watched)))
     = [(KNum 3, log_entry "reset" (JObj [("info", JStr "database cleared")]) 1000 3)]
  /\ (calm 1 (snd (clearAll Cases.watched)) = true ->
      fst (getAll "logs" None None (snd (clearAll Cases.watched)))
      = Resolved [log_entry "reset" (JObj [("info", JStr "database cleared")]) 1000 3])
  /\ fates (snd (clearAll Cases.watched)) = tl (tl (fates Cases.watched))
  /\ (exists news,
        delivered (snd (clearAll Cases.watched)) = delivered Cases.watched ++ news
        /\ Forall (fun d => ev_name d = "logs:change" \/ ev_name d = "db:reset") news
        /\ forall name h, name = "logs:change" \/ name = "db:reset" ->
                          In (name, h) (listeners Cases.watched) ->
                          calls name h news = 1%nat)
  /\ map (fun d => (ev_name d, ev_handler d)) (delivered (snd (clearAll Cases.watched)))
     = [("logs:change", 7%nat); ("db:reset", 9%nat)].
Proof.
  assert (Hready : ready Cases.watched = true) by (vm_compute; reflexivity).
  assert (Hcommit : log_commits Cases.watched) by (vm_compute; exact I).
  assert (Hrun : clearAll Cases.watched = (Resolved tt, snd (clearAll Cases.watched)))
    by (vm_compute; reflexivity).
  destruct (clearAll_resets Cases.watched Hready) as [Hall Hdone].
  pose proof (Hdone _ Hcommit Hrun) as (Hempty & Hlogs & Hget & Hfates & Hnews).
  split; [exact Hall |].
  split; [vm_compute; reflexivity |].
  split; [vm_compute; reflexivity |].
  split; [vm_compute; reflexivity |].
  split; [exact Hempty |].
  split; [exact Hlogs |].
  split; [exact Hget |].
  split; [exact Hfates |].
  split; [exact Hnews |].
  vm_compute. reflexivity.
Defined.
End Reset.

(* ===================================================================== *)
(** ** open and seed *)
(* ===================================================================== *)

Section Opening.
Import IDB DataLayer Contract.

Lemma bind_assoc_tx {B} opener names mode (k : Tx -> Async B) w :
  bind (Body.transaction opener names mode) k w
  = bind opener (fun _ => bind (begin_tx names mode) k) w.
Proof. unfold Body.transaction. apply bind_assoc. Qed.

(** Once the connection is set, a nested [open] returns at once, whatever
    its depth. *)
Lemma transaction_opener n names mode w :
  db w = true -> Body.transaction (open_at n) names mode w = begin_tx names mode w.
Proof.
  intros Hdb. unfold Body.transaction, bind. rewrite (open_connected n w Hdb). reflexivity.
Qed.

Lemma get_with opener store k w :
  opener w = (Resolved tt, w) ->
  Body.get opener store k w
  = (tx <- begin_tx [store] ReadOnly ;;
     r <- await_request (IDB.get store k) tx ;;
     ret (fst r)) w.
Proof.
  intros H. unfold Body.get, Body.transaction.
  rewrite bind_assoc. unfold bind at 1. rewrite H. reflexivity.
Qed.

Lemma get_opener n store k w :
  db w = true -> Body.get (open_at n) store k w = get store k w.
Proof.
  intros Hdb. unfold get.
  rewrite (get_with (open_at n)), (get_with open); try reflexivity;
    apply open_connected; exact Hdb.
Qed.

Lemma recordLog_with opener a p w :
  opener w = (Resolved tt, w) ->
  Body.recordLog opener a p w
  = (tx <- begin_tx ["logs"] ReadWrite ;;
     r <- await_request
            (IDB.add "logs" (JObj [("action", JStr a); ("payload", p);
                                   ("time", JNum (now w))])) tx ;;
     unattended (snd r) ;;
     dispatch "logs:change") w.
Proof.
  intros H. unfold Body.recordLog, Body.transaction.
  unfold bind at 1. unfold Date_now. cbv beta iota.
  rewrite bind_assoc. unfold bind at 1. rewrite H. reflexivity.
Qed.

Lemma recordLog_opener n a p w :
  db w = true -> Body.recordLog (open_at n) a p w = recordLog a p w.
Proof.
  intros Hdb. unfold recordLog.
  rewrite (recordLog_with (open_at n)), (recordLog_with open); try reflexivity;
    apply open_connected; exact Hdb.
Qed.

Lemma get_db store k w o w1 : db w = true -> get store k w = (o, w1) -> db w1 = true.
Proof.
  intros Hdb H. unfold get, Body.get in H. fold transaction in H.
  unfold bind at 1 in H. rewrite (transaction_connected _ _ _ Hdb) in H.
  unfold begin_tx in H. destruct (forallb _ [store]); [| injection H as <- <-; exact Hdb].
  unfold bind, await_request, ret in H.
  destruct (request (IDB.get store k) _); injection H as <- <-; exact Hdb.
Qed.

Lemma seed_split n w :
  Body.seed (open_at n) w
  = (data_phase Seed ;; Body.recordLog (open_at n) (action Seed) (payload Seed)) w.
Proof.
  unfold Body.seed, data_phase, action, payload, bind;
    repeat match goal with
           | |- context [match ?m ?w with _ => _ end] =>
               is_var w; destruct (m w) as [[? | ?] ?]
           end; reflexivity.
Qed.

Lemma seed_opener n w : db w = true -> Body.seed (open_at n) w = seed w.
Proof.
  intros Hdb. unfold seed. rewrite (seed_split n), (seed_split 1).
  unfold bind. destruct (data_phase Seed w) as [[[] | e] wc] eqn:Ed; [| reflexivity].
  destruct (data_phase_resolved _ _ _ Hdb Ed) as (d' & _ & -> & _).
  rewrite (recordLog_opener n) by exact Hdb. reflexivity.
Qed.

Lemma open_at_S d w :
  open_at (S d) w =
    if db w then (Resolved tt, w)
    else (connect ;;
          seeded <- Body.get (open_at d) "meta" (KStr "seeded") ;;
          match seeded with
          | Some v => if truthy v then ret tt else Body.seed (open_at d)
          | None => Body.seed (open_at d)
          end) w.
Proof. reflexivity. Qed.

Lemma openable_facts w :
  openable w = true ->
  db w = false /\ open_fate w = None /\ idb_version w <= DB_VERSION
  /\ ready (connected w) = true.
Proof.
  unfold openable. rewrite !andb_true_iff, negb_true_iff.
  intros [[[Hdb Hopen] Hdist] Hcase].
  destruct (open_fate w); [discriminate |].
  apply orb_true_iff in Hcase as [Hnew | Hold].
  - apply andb_true_iff in Hnew as [Hv Hempty]. apply Z.eqb_eq in Hv.
    destruct (idb w) eqn:Ei; [| discriminate].
    repeat split; auto; [unfold DB_VERSION; lia |].
    unfold connected, ready. rewrite Hv, Ei. simpl. rewrite Hdist. reflexivity.
  - apply andb_true_iff in Hold as [Hv Hok]. apply Z.eqb_eq in Hv.
    repeat split; auto; [lia |].
    unfold connected, ready. rewrite Hv. simpl. rewrite Hok, Hdist. reflexivity.
Qed.

Lemma open_eq w :
  db w = false -> open_fate w = None -> idb_version w <= DB_VERSION ->
  open w =
    match get "meta" (KStr "seeded") (connected w) with
    | (Resolved (Some v), w1) => if truthy v then (Resolved tt, w1) else seed w1
    | (Resolved None, w1) => seed w1
    | (Rejected e, w1) => (Rejected e, w1)
    end.
Proof.
  intros Hdb Hopen Hv. unfold open. rewrite open_at_S, Hdb.
  assert (Hc : connect w = (Resolved tt, connected w)).
  { unfold connect, connected. rewrite Hopen.
    destruct (DB_VERSION <? idb_version w) eqn:E; [apply Z.ltb_lt in E; lia |].
    destruct (idb_version w <? DB_VERSION); reflexivity. }
  unfold bind at 1. rewrite Hc.
  assert (Hdbc : db (connected w) = true)
    by (unfold connected; destruct (idb_version w <? DB_VERSION); reflexivity).
  unfold bind. rewrite (get_opener 0) by exact Hdbc.
  destruct (get "meta" (KStr "seeded") (connected w)) as [[[v |] | e] w1] eqn:Eg;
    try reflexivity.
  - destruct (truthy v); [reflexivity |]. apply seed_opener.
    eapply get_db; [| exact Eg]. exact Hdbc.
  - apply seed_opener. eapply get_db; [| exact Eg]. exact Hdbc.
Qed.

(** A read changes nothing but the environment's list of fates, and
    returns the record the database holds. *)
Lemma get_result store k w o w1 :
  db w = true -> get store k w = (o, w1) ->
  (w1 = w \/ w1 = pop w)
  /\ forall r, o = Resolved r -> r = record_at store k (idb w).
Proof.
  intros Hdb H. unfold get, Body.get in H. fold transaction in H.
  unfold bind at 1 in H. rewrite (transaction_connected _ _ _ Hdb) in H.
  unfold begin_tx in H.
  destruct (forallb _ [store]); [| injection H as <- <-; split; [auto | discriminate]].
  unfold bind, await_request, ret in H.
  pose proof (request_cases (IDB.get store k) (fresh_tx ReadOnly w) eq_refl) as Hc.
  destruct (request (IDB.get store k) _) as [e | e tx1 | a tx1];
    injection H as <- <-; (split; [auto |]); try discriminate.
  intros r [= <-]. destruct Hc as (Hop & _). simpl in Hop.
  unfold IDB.get in Hop. unfold record_at, records_of.
  destruct (find_store store (idb w)); [| discriminate]. congruence.
Qed.

Lemma seed_requests_items data : seed_requests data = map put_pair (seed_items data).
Proof.
  unfold seed_requests, seed_items, seed_of.
  induction STORES as [| n rest IH]; simpl; [reflexivity |].
  rewrite map_app, <- IH. f_equal.
  destruct (String.eqb n "meta"); [reflexivity |]. rewrite map_map. reflexivity.
Qed.

Lemma in_seed_items data store v :
  In (store, v) (seed_items data)
  <-> In store STORES /\ store <> "meta" /\ In v (seed_of store data).
Proof.
  unfold seed_items. rewrite in_flat_map. split.
  - intros (n & Hn & Hin). destruct (String.eqb_spec n "meta") as [-> | Hne];
      [destruct Hin |].
    apply in_map_iff in Hin as (x & [= <- <-] & Hx). auto.
  - intros (Hin & Hne & Hv). exists store. split; [exact Hin |].
    apply String.eqb_neq in Hne. rewrite Hne. apply in_map. exact Hv.
Qed.

(** The log entry leaves a stored record where it is. *)
Lemma holds_logged candidates store k d s a p t :
  schema_ok d = true -> In store STORES ->
  find_store "logs" d = Some s -> spec s = createObjectStore "logs" ->
  keygen s <= MAX_GENERATED -> lookup (KNum (keygen s)) (records s) = None ->
  holds_one_of candidates store k d ->
  holds_one_of candidates store k (set_store "logs" (logs_after a p t s) d).
Proof.
  intros Hok Hin Hs Hspec Hmax Hfree H.
  eapply (write_preserves false);
    [exact Hok | exact Hin | | exact (log_append d s a p t Hs Hspec Hmax Hfree) | exact H].
  intros <-. discriminate.
Qed.

(** What the transaction of [seed] writes: for every collection but
    meta, the records of the seed document; in meta, the marker and
    nothing else. *)
Lemma seed_writes data time d d' :
  schema_ok d = true ->
  apply_all (seed_requests data ++ [IDB.put "meta" (seeded_marker time)]) d = Some d' ->
  records_of "meta" d' = IDB.store (KStr "seeded") (seeded_marker time) (records_of "meta" d)
  /\ forall store item k,
      In store STORES -> store <> "meta" ->
      In item (seed_of store data) -> record_key store item = Some k ->
      holds_one_of (seed_of store data) store k d'.
Proof.
  intros Hok Happ. rewrite apply_all_app in Happ.
  destruct (apply_all (seed_requests data) d) as [d1 |] eqn:E1; [| discriminate].
  simpl in Happ.
  destruct (IDB.put "meta" (seeded_marker time) ReadWrite d1) as [e | e | a d2] eqn:Ep;
    try discriminate.
  injection Happ as <-.
  assert (Hinv : schema_ok d1 = true /\ find_store "meta" d1 = find_store "meta" d).
  { revert E1. rewrite seed_requests_items.
    apply (apply_all_invariant
             (fun d0 => schema_ok d0 = true /\ find_store "meta" d0 = find_store "meta" d));
      [| auto].
    intros op d0 a0 d3 Hop [Hok0 Hm0] Hrun.
    apply in_map_iff in Hop as ([st v] & <- & Hp).
    apply in_seed_items in Hp as (_ & Hne & _).
    split; [eapply engine_op_ok; [apply (op_write true) | exact Hok0 | exact Hrun] |].
    rewrite <- Hm0. unfold put_pair in Hrun. simpl in Hrun.
    apply write_succeeds in Hrun as (s & key & s' & _ & _ & _ & ->).
    apply find_store_set_other. congruence. }
  destruct Hinv as [Hok1 Hmeta]. split.
  - pose proof Ep as Ep'.
    apply write_succeeds in Ep' as (s & key & s' & Hs & Hc & Hrec & ->).
    destruct (schema_find d1 "meta" Hok1) as (s0 & Hs0 & Hspec); [left; reflexivity |].
    assert (s0 = s) by congruence. subst s0.
    rewrite (check_value_keyed "meta" s (seeded_marker time) (KStr "seeded") Hspec eq_refl)
      in Hc.
    injection Hc as <-. simpl in Hrec. injection Hrec as <-.
    unfold records_of. rewrite (find_store_set_same _ _ _ _ Hs), <- Hmeta, Hs. reflexivity.
  - intros store item k Hin Hne Hitem Hk.
    eapply (write_preserves true); [exact Hok1 | exact Hin | | exact Ep |].
    + intros Heq. congruence.
    + rewrite seed_requests_items in E1.
      eapply puts_visible; [exact Hok | exact Hin | | exact E1 | | exact Hk].
      * intros v Hv. apply in_seed_items in Hv as (_ & _ & Hv). exact Hv.
      * apply in_seed_items. auto.
Qed.

(** The same, after the whole of a successful [seed]. *)
Lemma seed_resolved w w' :
  ready w = true -> seed w = (Resolved tt, w') ->
  exists data,
    seed_json w = inr data
    /\ records_of "meta" (idb w')
       = IDB.store (KStr "seeded") (seeded_marker (now w)) (records_of "meta" (idb w))
    /\ forall store item k,
        In store STORES -> store <> "meta" ->
        In item (seed_of store data) -> record_key store item = Some k ->
        holds_one_of (seed_of store data) store k (idb w').
Proof.
  intros Hready Hrun. rewrite seed_run in Hrun.
  destruct (run_resolved Seed w w' Hready Hrun)
    as (d' & s & Happ & Hs & Hspec & Hmax & Hfree & _ & [data Hdata] & ->).
  exists data. split; [exact Hdata |].
  pose proof (same_schema_ok _ _ (requests_keep_schema _ _ _ Happ)
                (ready_schema _ Hready)) as Hok'.
  unfold requests_of in Happ. rewrite Hdata in Happ.
  destruct (seed_writes data (now w) (idb w) d' (ready_schema _ Hready) Happ)
    as [Hmeta Hitems].
  rewrite notify_idb.
  destruct (idb_after_log (action Seed) (payload Seed) s (set_idb d' (pop (prefetch Seed w))))
    as [-> | ->]; simpl.
  - split; [exact Hmeta | exact Hitems].
  - split.
    + rewrite records_of_set_other by discriminate. exact Hmeta.
    + intros store item k Hin Hne Hitem Hk.
      apply holds_logged; try assumption. eapply Hitems; eassumption.
Qed.

Lemma run_env m w w' :
  ready w = true -> run m w = (Resolved tt, w') ->
  idb_version w' = idb_version w /\ open_fate w' = open_fate w.
Proof.
  intros Hready Hrun.
  destruct (run_resolved m w w' Hready Hrun) as (d' & s & _ & _ & _ & _ & _ & _ & _ & ->).
  assert (Hn : forall x, idb_version (snd (notify m x)) = idb_version x
                         /\ open_fate (snd (notify m x)) = open_fate x)
    by (intros x; unfold notify; destruct (own_event m); auto).
  destruct (Hn (after_log (action m) (payload m) s (set_idb d' (pop (prefetch m w)))))
    as [-> ->].
  unfold after_log, settle. simpl. destruct (commits _); destruct m; auto.
Qed.

Lemma connected_env w :
  idb_version w <= DB_VERSION ->
  idb_version (connected w) = DB_VERSION /\ open_fate (connected w) = open_fate w
  /\ fetched (connected w) = fetched w /\ delivered (connected w) = delivered w.
Proof.
  intros Hv. unfold connected.
  destruct (idb_version w <? DB_VERSION) eqn:E; simpl; [auto |].
  apply Z.ltb_ge in E. repeat split. lia.
Qed.

Lemma ready_pop w : ready (pop w) = ready w.
Proof. reflexivity. Qed.

(** With the marker in [meta], [open] neither fetches nor writes. *)
Lemma open_seeded w o w' :
  openable w = true -> seeded (idb (connected w)) -> open w = (o, w') ->
  fetched w' = fetched w /\ idb w' = idb (connected w) /\ delivered w' = delivered w.
Proof.
  intros Hopen (marker & Hat & Htruthy) Hrun.
  destruct (openable_facts w Hopen) as (Hdb & Hfate & Hv & Hready).
  destruct (connected_env w Hv) as (_ & _ & Hf & Hd).
  rewrite (open_eq w Hdb Hfate Hv) in Hrun.
  destruct (get "meta" (KStr "seeded") (connected w)) as [o1 w1] eqn:Eg.
  destruct (get_result _ _ _ _ _ (ready_db _ Hready) Eg) as [Hw1 Hres].
  assert (Hsame : fetched w1 = fetched w /\ idb w1 = idb (connected w)
                  /\ delivered w1 = delivered w)
    by (destruct Hw1 as [-> | ->]; simpl; auto).
  destruct o1 as [[v |] | e].
  - specialize (Hres _ eq_refl). rewrite Hat in Hres. injection Hres as ->.
    rewrite Htruthy in Hrun. injection Hrun as <- <-. exact Hsame.
  - specialize (Hres _ eq_refl). congruence.
  - injection Hrun as <- <-. exact Hsame.
Qed.

(** A new page whose [open] resolved is open on a seeded database. *)
Lemma open_resolved w w1 :
  openable w = true -> open w = (Resolved tt, w1) ->
  ready w1 = true /\ seeded (idb w1)
  /\ idb_version w1 = DB_VERSION /\ open_fate w1 = None.
Proof.
  intros Hopen Hrun.
  destruct (openable_facts w Hopen) as (Hdb & Hfate & Hv & Hready).
  destruct (connected_env w Hv) as (Hver & Hof & _ & _).
  rewrite (open_eq w Hdb Hfate Hv) in Hrun.
  destruct (get "meta" (KStr "seeded") (connected w)) as [o1 w0] eqn:Eg.
  destruct (get_result _ _ _ _ _ (ready_db _ Hready) Eg) as [Hw0 Hres].
  assert (Hw : ready w0 = true /\ idb w0 = idb (connected w)
               /\ idb_version w0 = DB_VERSION /\ open_fate w0 = None).
  { destruct Hw0 as [-> | ->]; simpl; rewrite ?ready_pop; repeat split; congruence. }
  destruct Hw as (Hready0 & Hidb0 & Hver0 & Hof0).
  assert (Hseed : forall w2, seed w0 = (Resolved tt, w2) ->
                             ready w2 = true /\ seeded (idb w2)
                             /\ idb_version w2 = DB_VERSION /\ open_fate w2 = None).
  { intros w2 Hs.
    destruct (seed_resolved w0 w2 Hready0 Hs) as (data & _ & Hmeta & _).
    rewrite seed_run in Hs.
    destruct (run_env Seed w0 w2 Hready0 Hs) as [Hv2 Ho2].
    split; [eapply run_ready; eassumption |].
    split; [| split; congruence].
    exists (seeded_marker (now w0)). split; [| reflexivity].
    unfold record_at. rewrite Hmeta. apply lookup_store_same. }
  destruct o1 as [[v |] | e]; [| apply Hseed; exact Hrun | discriminate].
  destruct (truthy v) eqn:Et; [| apply Hseed; exact Hrun].
  injection Hrun as <-. repeat split; try assumption.
  exists v. split; [| exact Et]. rewrite Hidb0. symmetry. apply Hres. reflexivity.
Qed.

Lemma reload_openable w :
  ready w = true -> idb_version w = DB_VERSION -> open_fate w = None ->
  openable (reload w) = true /\ connected (reload w) = set_db true (reload w).
Proof.
  intros Hready Hv Hof. unfold openable, reload, connected. simpl.
  rewrite Hof, Hv, (ready_schema _ Hready). auto.
Qed.

(** C7. [open] on an engine that has its connection returns at once and
    changes nothing. On a new page, when the seeded marker is in meta,
    [open] does not seed: it fetches nothing and writes nothing. When
    [open] has resolved on a new page, the marker is there, so neither a
    second [open] on this page nor an [open] after a reload seeds again.
    A [seed] that resolves has written, in one transaction, the records
    of the seed document into every collection except meta (a key given
    twice holds one of the records given for it) and the marker
    {key: "seeded", value: true, time} into meta, and nothing else into
    meta; the log entry took the second transaction. When that
    transaction of [seed] aborts, nothing of the seed is in the
    database. *)
Theorem open_idempotent_seed_once w :
  (db w = true -> open w = (Resolved tt, w))
  /\ (openable w = true ->
      (forall o w',
          seeded (idb (connected w)) -> open w = (o, w') ->
          fetched w' = fetched w /\ idb w' = idb (connected w))
      /\ (forall w1,
            open w = (Resolved tt, w1) ->
            seeded (idb w1)
            /\ open w1 = (Resolved tt, w1)
            /\ forall o w2,
                open (reload w1) = (o, w2) ->
                fetched w2 = fetched w1 /\ idb w2 = idb w1))
  /\ (ready w = true ->
      (forall w',
          seed w = (Resolved tt, w') ->
          exists data,
            seed_json w = inr data
            /\ record_at "meta" (KStr "seeded") (idb w') = Some (seeded_marker (now w))
            /\ records_of "meta" (idb w')
               = IDB.store (KStr "seeded") (seeded_marker (now w)) (records_of "meta" (idb w))
            /\ (forall store item k,
                  In store STORES -> store <> "meta" ->
                  In item (seed_of store data) -> record_key store item = Some k ->
                  exists item',
                    In item' (seed_of store data)
                    /\ record_key store item' = Some k
                    /\ record_at store k (idb w') = Some item')
            /\ fates w' = tl (tl (fates w)))
      /\ (forall e0,
            aborts Seed w e0 ->
            exists e w', seed w = (Rejected e, w') /\ idb w' = idb w)).
Proof.
  split; [apply (open_connected 1) |]. split.
  - intros Hopen. split.
    + intros o w' Hseeded Hrun.
      destruct (open_seeded w o w' Hopen Hseeded Hrun) as (H1 & H2 & _). auto.
    + intros w1 Hrun.
      destruct (open_resolved w w1 Hopen Hrun) as (Hready1 & Hseeded1 & Hv1 & Hof1).
      split; [exact Hseeded1 |].
      split; [apply (open_connected 1); apply ready_db; exact Hready1 |].
      intros o w2 Hrun2.
      destruct (reload_openable w1 Hready1 Hv1 Hof1) as [Hopen2 Hconn].
      destruct (open_seeded (reload w1) o w2 Hopen2) as (H1 & H2 & _);
        [rewrite Hconn; exact Hseeded1 | exact Hrun2 |].
      rewrite Hconn in H2. auto.
  - intros Hready. split.
    + intros w' Hrun.
      destruct (seed_resolved w w' Hready Hrun) as (data & Hdata & Hmeta & Hitems).
      exists data. split; [exact Hdata |].
      split; [unfold record_at; rewrite Hmeta; apply lookup_store_same |].
      split; [exact Hmeta |].
      split; [| rewrite seed_run in Hrun; eapply run_fates; eassumption].
      intros store item k Hin Hne Hitem Hk.
      destruct (Hitems store item k Hin Hne Hitem Hk) as [Hex _]. exact Hex.
    + intros e0 Hab.
      destruct (data_phase_aborts Seed w e0 Hready Hab) as (e & wc & Hrun & Hi & _).
      exists e, wc. split; [| exact Hi].
      rewrite seed_run, run_split. apply bind_rejected. exact Hrun.
Qed.

Lemma open_idempotent_seed_once_witness :
  let w1 := snd (open Scenario.fresh) in
  seeded (idb w1)
  /\ open w1 = (Resolved tt, w1)
  /\ forall o w2,
      open (reload w1) = (o, w2) -> fetched w2 = fetched w1 /\ idb w2 = idb w1.
Proof.
  apply (proj2 (proj1 (proj2 (open_idempotent_seed_once Scenario.fresh)) eq_refl)
               (snd (open Scenario.fresh))).
  vm_compute. reflexivity.
Defined.
End Opening.

(* ===================================================================== *)
(** ** escapeHTML *)
(* ===================================================================== *)

Section Escaping.

Lemma append_assoc (a b c : string) :
  String.append (String.append a b) c = String.append a (String.append b c).
Proof. induction a as [| x a IH]; simpl; [reflexivity | rewrite IH; reflexivity]. Qed.

Lemma append_nil_r (a : string) : String.append a "" = a.
Proof. induction a as [| x a IH]; simpl; [reflexivity | rewrite IH; reflexivity]. Qed.

Lemma replace_all_app c r a b :
  replace_all c r (String.append a b)
  = String.append (replace_all c r a) (replace_all c r b).
Proof.
  induction a as [| x a IH]; simpl; [reflexivity |].
  rewrite IH. destruct (Ascii.eqb x c); simpl; [rewrite append_assoc |]; reflexivity.
Qed.

Lemma entity_cases c :
  (c = "&"%char /\ entity c = "&amp;")
  \/ (c = "<"%char /\ entity c = "&lt;")
  \/ (c = ">"%char /\ entity c = "&gt;")
  \/ (c = "034"%char /\ entity c = "&quot;")
  \/ (c = "'"%char /\ entity c = "&#39;")
  \/ (special c = false /\ entity c = String c "").
Proof.
  unfold entity, special. simpl.
  destruct (Ascii.eqb c "&") eqn:E1; [apply Ascii.eqb_eq in E1; auto |].
  destruct (Ascii.eqb c "<") eqn:E2; [apply Ascii.eqb_eq in E2; auto |].
  destruct (Ascii.eqb c ">") eqn:E3; [apply Ascii.eqb_eq in E3; auto 6 |].
  destruct (Ascii.eqb c "034") eqn:E4; [apply Ascii.eqb_eq in E4; auto 6 |].
  destruct (Ascii.eqb c "'") eqn:E5; [apply Ascii.eqb_eq in E5; auto 7 |].
  auto 8.
Qed.

(** The five passes of [escapeHTML] act as one pass over the characters:
    no replacement touches what an earlier one has written. *)
Lemma escapeHTML_each s : escapeHTML (Some s) = escape_each s.
Proof.
  unfold escapeHTML. induction s as [| c t IH]; [reflexivity |].
  cbn [escape_each]. rewrite <- IH.
  destruct (entity_cases c) as [[-> ->] | [[-> ->] | [[-> ->] | [[-> ->] | [[-> ->] | [Hc ->]]]]]];
    try reflexivity.
  unfold special in Hc. simpl in Hc.
  repeat (apply orb_false_iff in Hc; destruct Hc as [? Hc]).
  cbn [replace_all].
  repeat match goal with
         | H : Ascii.eqb c ?x = false |- _ => rewrite H; clear H; cbn [replace_all]
         end.
  reflexivity.
Qed.

Lemma escape_each_app a b :
  escape_each (String.append a b) = String.append (escape_each a) (escape_each b).
Proof.
  induction a as [| c a IH]; simpl; [reflexivity |].
  rewrite IH, append_assoc. reflexivity.
Qed.

Lemma escape_each_plain s : plain s = true -> escape_each s = s.
Proof.
  unfold plain. induction s as [| c t IH]; simpl; [reflexivity |].
  intros H. apply andb_true_iff in H. destruct H as [Hc Ht].
  apply negb_true_iff in Hc.
  destruct (entity_cases c) as [[-> _] | [[-> _] | [[-> _] | [[-> _] | [[-> _] | [_ ->]]]]]];
    try discriminate Hc.
  simpl. rewrite (IH Ht). reflexivity.
Qed.

Lemma length_append (a b : string) :
  String.length (String.append a b) = (String.length a + String.length b)%nat.
Proof. induction a as [| x a IH]; simpl; [reflexivity | rewrite IH; reflexivity]. Qed.

Lemma length_escape_each s : (String.length s <= String.length (escape_each s))%nat.
Proof.
  induction s as [| c t IH]; simpl; [lia |].
  rewrite length_append.
  destruct (entity_cases c) as [[_ ->] | [[_ ->] | [[_ ->] | [[_ ->] | [[_ ->] | [_ ->]]]]]];
    simpl; lia.
Qed.

Lemma length_escape_special s :
  plain s = false -> (String.length s < String.length (escape_each s))%nat.
Proof.
  unfold plain. induction s as [| c t IH]; simpl; [discriminate |].
  intros H. rewrite length_append.
  pose proof (length_escape_each t) as Ht.
  destruct (entity_cases c) as [[_ ->] | [[_ ->] | [[_ ->] | [[_ ->] | [[_ ->] | [Hc ->]]]]]];
    simpl; try lia.
  rewrite Hc in H. simpl in H. specialize (IH H). lia.
Qed.

Lemma escape_each_inj a : forall b, escape_each a = escape_each b -> a = b.
Proof.
  induction a as [| c a IH]; intros [| c' b] H.
  - reflexivity.
  - exfalso. simpl in H.
    destruct (entity_cases c') as [[_ E] | [[_ E] | [[_ E] | [[_ E] | [[_ E] | [_ E]]]]]];
      rewrite E in H; discriminate H.
  - exfalso. simpl in H.
    destruct (entity_cases c) as [[_ E] | [[_ E] | [[_ E] | [[_ E] | [[_ E] | [_ E]]]]]];
      rewrite E in H; discriminate H.
  - cbn [escape_each] in H.
    destruct (entity_cases c) as [[-> E] | [[-> E] | [[-> E] | [[-> E] | [[-> E] | [Hc E]]]]]];
      destruct (entity_cases c') as [[-> E'] | [[-> E'] | [[-> E'] | [[-> E'] | [[-> E'] | [Hc' E']]]]]];
      try rewrite E in H; try rewrite E' in H; simpl in H;
      try discriminate H;
      try (injection H as H; f_equal; apply IH; exact H);
      try (injection H as <- H; discriminate Hc');
      try (injection H as -> H; discriminate Hc).
    injection H as -> H. f_equal. apply IH. exact H.
Qed.

Lemma in_append c a b :
  In c (list_ascii_of_string (String.append a b))
  <-> In c (list_ascii_of_string a) \/ In c (list_ascii_of_string b).
Proof.
  induction a as [| x a IH]; simpl; [tauto |]. rewrite IH. tauto.
Qed.

(** X1. escapeHTML goes through its text piece by piece: escaping a
    concatenation is concatenating the escaped parts. *)
Theorem escapeHTML_append a b :
  escapeHTML (Some (String.append a b))
  = String.append (escapeHTML (Some a)) (escapeHTML (Some b)).
Proof. rewrite !escapeHTML_each. apply escape_each_app. Qed.

(** X2. The text escapeHTML returns has no "<", no ">" and no quote,
    double or single, whatever it was given. *)
Theorem escapeHTML_output_is_safe value c :
  In c ["<"; ">"; "034"; "'"]%char ->
  ~ In c (list_ascii_of_string (escapeHTML value)).
Proof.
  intros Hc. destruct value as [s |]; [| intros []].
  rewrite escapeHTML_each. induction s as [| x t IH]; simpl; [tauto |].
  rewrite in_append. intros [Hx | Ht]; [| exact (IH Ht)].
  assert (Hsp : special c = true).
  { simpl in Hc. unfold special. simpl.
    destruct Hc as [<- | [<- | [<- | [<- | []]]]]; reflexivity. }
  destruct (entity_cases x) as [[_ E] | [[_ E] | [[_ E] | [[_ E] | [[_ E] | [Hpl E]]]]]];
    rewrite E in Hx; simpl in Hx, Hc;
    try (destruct Hc as [<- | [<- | [<- | [<- | []]]]];
         repeat (destruct Hx as [Hx | Hx]; [discriminate Hx |]); exact Hx).
  destruct Hx as [<- | []]. congruence.
Qed.

Lemma escapeHTML_output_is_safe_witness :
  escapeHTML (Some "<b title='x'>") = "&lt;b title=&#39;x&#39;&gt;"
  /\ ~ In "<"%char (list_ascii_of_string (escapeHTML (Some "<b title='x'>"))).
Proof.
  split; [reflexivity |].
  apply (escapeHTML_output_is_safe (Some "<b title='x'>") "<"%char).
  simpl. tauto.
Defined.

(** X3. escapeHTML loses nothing: two different texts have different
    escaped texts. *)
Theorem escapeHTML_keeps_texts_apart a b :
  a <> b -> escapeHTML (Some a) <> escapeHTML (Some b).
Proof.
  intros Hne H. apply Hne. rewrite !escapeHTML_each in H. apply escape_each_inj. exact H.
Qed.

Lemma escapeHTML_keeps_texts_apart_witness :
  "<" <> "&lt;" /\ escapeHTML (Some "<") <> escapeHTML (Some "&lt;").
Proof.
  split; [discriminate |].
  apply (escapeHTML_keeps_texts_apart "<" "&lt;"). discriminate.
Defined.

(** X4. escapeHTML leaves a text as it is exactly when the text has none
    of the five characters it replaces; so escaping a text twice gives
    the same as escaping it once only for such a text: otherwise the "&"
    of the first pass is escaped again. *)
Theorem escapeHTML_twice s :
  (escapeHTML (Some s) = s <-> plain s = true)
  /\ (escapeHTML (Some (escapeHTML (Some s))) = escapeHTML (Some s) <-> plain s = true).
Proof.
  assert (H1 : escapeHTML (Some s) = s <-> plain s = true).
  { rewrite escapeHTML_each. split.
    - intros H. destruct (plain s) eqn:E; [reflexivity |].
      pose proof (length_escape_special s E) as Hlen. rewrite H in Hlen. lia.
    - apply escape_each_plain. }
  split; [exact H1 |]. split.
  - intros H. apply H1. rewrite !escapeHTML_each in *. apply escape_each_inj. exact H.
  - intros H. apply H1 in H. rewrite H. exact H.
Qed.

End Escaping.

(* ===================================================================== *)
(** ** What the engine keeps, however an operation ends *)
(* ===================================================================== *)

Section Keeping.
Import IDB DataLayer Contract.

Lemma same_setting_refl w : same_setting w w.
Proof. repeat split. Qed.

Lemma same_setting_trans w1 w2 w3 :
  same_setting w1 w2 -> same_setting w2 w3 -> same_setting w1 w3.
Proof.
  unfold same_setting. intros (A1 & A2 & A3 & A4 & A5 & A6) (B1 & B2 & B3 & B4 & B5 & B6).
  repeat split; congruence.
Qed.

Lemma same_setting_pop w : same_setting w (pop w).
Proof. repeat split. Qed.

Lemma same_setting_idb d w : same_setting w (set_idb d w).
Proof. repeat split. Qed.

Lemma same_setting_settle tx w : same_setting w (settle tx w).
Proof. unfold settle. destruct (commits tx); repeat split. Qed.

Lemma engine_op_readonly op d a d' :
  engine_op op -> op ReadOnly d = Succeeds a d' -> False.
Proof.
  intros [ow name v | name k | name]; unfold write, IDB.delete, clear;
    destruct (find_store name d); discriminate.
Qed.

(** A request that succeeds has run its operation on the transaction's
    view of the database. *)
Lemma request_success {A} (op : Op A) tx a tx1 :
  request op tx = ReqSuccess a tx1 ->
  op (tx_mode tx) (tx_work tx) = Succeeds a (tx_work tx1)
  /\ tx_aborted tx1 = None /\ tx_mode tx1 = tx_mode tx /\ tx_fate tx1 = tx_fate tx.
Proof.
  unfold request.
  destruct (op (tx_mode tx) (tx_work tx)) as [e | e | a0 d]; [discriminate | |];
    destruct (tx_aborted tx); try discriminate;
    destruct (fails_now tx); try discriminate.
  intros [= <- <-]. auto.
Qed.

Lemma request_all_keeps (P : Database -> Prop) ops tx :
  tx_mode tx = ReadWrite ->
  (forall op d a d', In op ops -> P d -> op ReadWrite d = Succeeds a d' -> P d') ->
  P (tx_work tx) -> P (tx_work (snd (request_all ops tx))).
Proof.
  revert tx. induction ops as [| op rest IH]; intros tx Hmode Hops HP; simpl; [exact HP |].
  destruct (request op tx) as [e | e tx1 | a tx1] eqn:R.
  - destruct (request_all rest tx) as [es tx'] eqn:E. simpl.
    change tx' with (snd (es, tx')). rewrite <- E.
    apply IH; auto. intros; eapply Hops; eauto. right; assumption.
  - assert (tx_work tx1 = tx_work tx /\ tx_mode tx1 = tx_mode tx) as [Hw Hm].
    { unfold request in R.
      destruct (op (tx_mode tx) (tx_work tx)); try discriminate;
        destruct (tx_aborted tx); try (injection R as <- <-; auto);
        destruct (fails_now tx); try discriminate; injection R as <- <-; auto. }
    apply IH; [congruence | intros; eapply Hops; eauto; right; assumption | rewrite Hw; exact HP].
  - apply request_success in R. destruct R as (Hop & _ & Hm & _).
    rewrite Hmode in Hop.
    apply IH; [congruence | intros; eapply Hops; eauto; right; assumption |].
    eapply Hops; eauto. left; reflexivity.
Qed.

Lemma await_all_keeps r w o w' :
  await_all r w = (o, w') ->
  (w' = w \/ w' = set_idb (tx_work (snd r)) w)
  /\ forall tx, o = Resolved tx -> tx = snd r /\ tx_aborted tx = None.
Proof.
  unfold await_all, settle. destruct (fst r) as [| e es].
  - destruct (tx_aborted (snd r)) eqn:E; intros [= <- <-]; split; auto;
      intros tx [= <-]; auto.
  - destruct (commits (snd r)); intros [= <- <-]; split; auto; intros tx [= ].
Qed.

Lemma await_complete_keeps tx w o w' :
  await_complete tx w = (o, w') -> w' = w \/ w' = set_idb (tx_work tx) w.
Proof.
  unfold await_complete. destruct (tx_aborted tx); [intros [= <- <-]; auto |].
  destruct (tx_fate tx); intros [= <- <-]; auto.
Qed.

Lemma enqueue_keeps op tx w o w' :
  enqueue op tx w = (o, w') ->
  (w' = w \/ w' = set_idb (tx_work tx) w)
  /\ forall tx1, o = Resolved tx1 ->
       w' = w /\ (tx_work tx1 = tx_work tx
                  \/ op (tx_mode tx) (tx_work tx) = Succeeds tt (tx_work tx1)).
Proof.
  unfold enqueue, settle. destruct (request op tx) as [e | e tx1 | [] tx1] eqn:R.
  - destruct (commits tx); intros [= <- <-]; split; auto; intros ? [= ].
  - intros [= <- <-]. split; auto. intros ? [= <-]. split; auto. left.
    unfold request in R.
    destruct (op (tx_mode tx) (tx_work tx)); try discriminate;
      destruct (tx_aborted tx); try (injection R as <- <-; auto);
      destruct (fails_now tx); try discriminate; injection R as <- <-; auto.
  - intros [= <- <-]. split; auto. intros ? [= <-]. split; auto. right.
    apply request_success in R. tauto.
Qed.

Lemma begin_tx_keeps names mode w o w' :
  begin_tx names mode w = (o, w') ->
  (w' = w \/ w' = pop w) /\ forall tx, o = Resolved tx -> tx = fresh_tx mode w /\ w' = pop w.
Proof.
  unfold begin_tx. destruct (forallb _ names); intros [= <- <-]; split; auto;
    intros tx [= <-]; auto.
Qed.

(** A batch of requests and the wait for the transaction, as bulkPut and
    clearAll run them. *)
Lemma batch_keeps (P : Database -> Prop) names ops w o wc :
  db w = true -> P (idb w) ->
  (forall op d a d', In op ops -> P d -> op ReadWrite d = Succeeds a d' -> P d') ->
  (tx <- transaction names ReadWrite ;;
   tx <- await_all (request_all ops tx) ;;
   await_complete tx) w = (o, wc) ->
  same_setting w wc /\ P (idb wc) /\ delivered wc = delivered w.
Proof.
  intros Hdb HP Hops. unfold bind. rewrite transaction_connected by exact Hdb.
  destruct (begin_tx names ReadWrite w) as [[tx | e] w1] eqn:B;
    apply begin_tx_keeps in B; destruct B as [Hw1 Htx].
  2:{ intros [= <- <-]. destruct Hw1 as [-> | ->]; repeat split; exact HP. }
  destruct (Htx tx eq_refl) as [-> ->]. clear Htx Hw1.
  pose proof (request_all_keeps P ops (fresh_tx ReadWrite w) eq_refl Hops HP) as HP'.
  destruct (await_all (request_all ops (fresh_tx ReadWrite w)) (pop w)) as [[tx | e] w2] eqn:A;
    apply await_all_keeps in A; destruct A as [Hw2 Htx].
  2:{ intros [= <- <-]. destruct Hw2 as [-> | ->]; repeat split; auto. }
  destruct (Htx tx eq_refl) as [-> _].
  intros C. apply await_complete_keeps in C.
  destruct Hw2 as [-> | ->]; destruct C as [-> | ->]; repeat split; auto.
Qed.

(** One request and the wait for the transaction, as put and delete run
    them. *)
Lemma single_keeps (P : Database -> Prop) store (op : Op unit) w o wc :
  db w = true -> P (idb w) ->
  (forall d a d', P d -> op ReadWrite d = Succeeds a d' -> P d') ->
  (tx <- transaction [store] ReadWrite ;;
   r <- await_request op tx ;;
   await_complete (snd r)) w = (o, wc) ->
  same_setting w wc /\ P (idb wc) /\ delivered wc = delivered w.
Proof.
  intros Hdb HP Hop. unfold bind. rewrite transaction_connected by exact Hdb.
  destruct (begin_tx [store] ReadWrite w) as [[tx | e] w1] eqn:B;
    apply begin_tx_keeps in B; destruct B as [Hw1 Htx].
  2:{ intros [= <- <-]. destruct Hw1 as [-> | ->]; repeat split; exact HP. }
  destruct (Htx tx eq_refl) as [-> ->]. clear Htx Hw1.
  unfold await_request.
  destruct (request op (fresh_tx ReadWrite w)) as [e | e tx1 | [] tx1] eqn:R;
    try (intros [= <- <-]; repeat split; exact HP).
  apply request_success in R. destruct R as (R & _).
  intros C. apply await_complete_keeps in C. simpl in C.
  destruct C as [-> | ->]; repeat split; auto.
  simpl. eapply Hop; eauto.
Qed.

Lemma data_phase_keeps (P : Database -> Prop) m w o wc :
  db w = true -> P (idb w) ->
  (forall op d a d', In op (requests_of m w) -> P d -> op ReadWrite d = Succeeds a d' -> P d') ->
  data_phase m w = (o, wc) ->
  same_setting w wc /\ P (idb wc) /\ delivered wc = delivered w.
Proof.
  intros Hdb HP Hops. destruct m as [store v | store vs | store k | |]; cbn [data_phase].
  - apply single_keeps; auto. intros; eapply Hops; eauto. left; reflexivity.
  - apply batch_keeps; auto.
  - apply single_keeps; auto. intros; eapply Hops; eauto. left; reflexivity.
  - apply batch_keeps; auto.
  - unfold bind at 1. unfold fetch_seed.
    cbn [requests_of] in Hops.
    destruct (seed_json w) as [e | data] eqn:J.
    { intros [= <- <-]. repeat split; auto. }
    set (w0 := set_fetched (S (fetched w)) w).
    assert (S0 : same_setting w w0) by (repeat split; auto).
    unfold bind at 1. unfold this_db_transaction.
    change (db w0) with (db w). rewrite Hdb.
    destruct (begin_tx STORES ReadWrite w0) as [[tx | e] w1] eqn:B;
      apply begin_tx_keeps in B; destruct B as [Hw1 Htx].
    2:{ intros [= <- <-]. destruct Hw1 as [-> | ->]; repeat split; exact HP. }
    destruct (Htx tx eq_refl) as [-> ->]. clear Htx Hw1.
    assert (HP' : P (tx_work (snd (request_all (seed_requests data) (fresh_tx ReadWrite w0))))).
    { apply request_all_keeps; auto.
      intros; eapply Hops; eauto. apply in_or_app; left; assumption. }
    unfold bind at 1.
    destruct (await_all (request_all (seed_requests data) (fresh_tx ReadWrite w0)) (pop w0))
      as [[tx | e] w2] eqn:A; apply await_all_keeps in A; destruct A as [Hw2 Htx].
    2:{ intros [= <- <-]. destruct Hw2 as [-> | ->]; repeat split; auto. }
    destruct (Htx tx eq_refl) as [-> _]. clear Htx.
    set (tx2 := snd (request_all (seed_requests data) (fresh_tx ReadWrite w0))) in *.
    assert (Hmode : tx_mode tx2 = ReadWrite)
      by (apply (request_all_fate (seed_requests data) (fresh_tx ReadWrite w0))).
    unfold bind at 1. unfold Date_now.
    assert (Hnow : now w2 = now w) by (destruct Hw2 as [-> | ->]; reflexivity).
    rewrite Hnow.
    unfold bind.
    destruct (enqueue (IDB.put "meta" (seeded_marker (now w))) tx2 w2) as [[tx3 | e] w3] eqn:Q;
      apply enqueue_keeps in Q; destruct Q as [Hw3 Htx].
    2:{ intros [= <- <-].
        destruct Hw2 as [-> | ->]; destruct Hw3 as [-> | ->]; repeat split; auto. }
    destruct (Htx tx3 eq_refl) as [-> Hwork]. clear Htx Hw3.
    assert (HP3 : P (tx_work tx3)).
    { destruct Hwork as [-> | Hwork]; [exact HP' |].
      rewrite Hmode in Hwork. eapply Hops; eauto.
      apply in_or_app; right; left; reflexivity. }
    intros C. apply await_complete_keeps in C.
    destruct Hw2 as [-> | ->]; destruct C as [-> | ->]; repeat split; auto.
Qed.

Lemma recordLog_keeps (P : Database -> Prop) a p w o w' :
  db w = true -> P (idb w) ->
  (forall v d x d', P d -> IDB.add "logs" v ReadWrite d = Succeeds x d' -> P d') ->
  recordLog a p w = (o, w') ->
  same_setting w w' /\ P (idb w')
  /\ match o with
     | Resolved _ =>
         delivered w' = delivered w ++ broadcast "logs:change" (idb w') (listeners w)
     | Rejected _ => delivered w' = delivered w
     end.
Proof.
  intros Hdb HP Hadd. unfold recordLog, Body.recordLog.
  unfold bind at 1. unfold Date_now.
  unfold bind at 1. fold transaction. rewrite transaction_connected by exact Hdb.
  destruct (begin_tx ["logs"] ReadWrite w) as [[tx | e] w1] eqn:B;
    apply begin_tx_keeps in B; destruct B as [Hw1 Htx].
  2:{ intros [= <- <-]. destruct Hw1 as [-> | ->]; repeat split; exact HP. }
  destruct (Htx tx eq_refl) as [-> ->]. clear Htx Hw1.
  unfold bind at 1. unfold await_request.
  match goal with
  | |- context [request ?op (fresh_tx ReadWrite w)] =>
      destruct (request op (fresh_tx ReadWrite w)) as [e | e tx1 | [] tx1] eqn:R
  end; try (intros [= <- <-]; repeat split; exact HP).
  apply request_success in R. destruct R as (R & _). simpl in R.
  unfold bind, unattended, dispatch, settle. cbn [snd].
  destruct (commits tx1); intros [= <- <-]; cbn; repeat split; eauto.
Qed.

Lemma notify_keeps m w :
  same_setting w (snd (notify m w)) /\ idb (snd (notify m w)) = idb w
  /\ fst (notify m w) = Resolved tt
  /\ exists news, delivered (snd (notify m w)) = delivered w ++ news.
Proof.
  unfold notify. destruct (own_event m); cbn.
  - repeat split; eauto.
  - repeat split. exists []. symmetry. apply app_nil_r.
Qed.

(** Whatever holds of the database and is kept by the requests of an
    operation and by the write of a log entry still holds when the
    operation has ended, however it ended. Listeners are called only by
    an operation that resolves. *)
Lemma run_keeps (P : Database -> Prop) m w o w' :
  db w = true -> P (idb w) ->
  (forall op d a d', In op (requests_of m w) -> P d -> op ReadWrite d = Succeeds a d' -> P d') ->
  (forall v d x d', P d -> IDB.add "logs" v ReadWrite d = Succeeds x d' -> P d') ->
  run m w = (o, w') ->
  same_setting w w' /\ P (idb w')
  /\ match o with
     | Resolved _ => exists news, delivered w' = delivered w ++ news
     | Rejected _ => delivered w' = delivered w
     end.
Proof.
  intros Hdb HP Hops Hadd. rewrite run_split. unfold bind at 1.
  destruct (data_phase m w) as [[[] | e] w1] eqn:D;
    apply (data_phase_keeps P) in D; auto; destruct D as (S1 & P1 & D1).
  2:{ intros [= <- <-]. auto. }
  unfold bind.
  assert (Hdb1 : db w1 = true) by (destruct S1 as (-> & _); exact Hdb).
  destruct (recordLog (action m) (payload m) w1) as [[[] | e] w2] eqn:L;
    apply (recordLog_keeps P) in L; auto; destruct L as (S2 & P2 & D2).
  2:{ intros [= <- <-]. split; [eapply same_setting_trans; eauto |].
      split; [exact P2 | congruence]. }
  destruct (notify_keeps m w2) as (S3 & I3 & O3 & news & D3).
  destruct (notify m w2) as [o3 w3]. cbn in *. subst o3.
  intros [= <- <-]. split; [| split].
  - eapply same_setting_trans; [| exact S3]. eapply same_setting_trans; eauto.
  - rewrite I3. exact P2.
  - rewrite D3, D2, D1, <- app_assoc. eauto.
Qed.

End Keeping.

Section AnyOutcome.
Import IDB DataLayer Contract.

Lemma add_is_engine_op v : engine_op (IDB.add "logs" v).
Proof. apply op_write. Qed.

(** X5. After an operation of the engine, whether it resolved or
    rejected, the engine is still open on a database with the schema of
    [open], with the listeners it had. *)
Theorem engine_stays_ready m w o w' :
  ready w = true -> run m w = (o, w') ->
  ready w' = true /\ listeners w' = listeners w /\ idb_version w' = idb_version w.
Proof.
  intros Hready Hrun.
  destruct (run_keeps (same_schema (idb w)) m w o w') as ((Hdb & Hl & Hv & _) & HP & _);
    try assumption.
  - apply ready_db. exact Hready.
  - apply same_schema_refl.
  - intros op d a d' Hin HP Hop. eapply same_schema_trans; [exact HP |].
    eapply engine_op_schema; [| exact Hop]. eapply requests_of_engine; eauto.
  - intros v d x d' HP Hop. eapply same_schema_trans; [exact HP |].
    eapply engine_op_schema; [| exact Hop]. apply add_is_engine_op.
  - repeat split; try assumption.
    unfold ready. rewrite Hdb, Hl.
    rewrite (ready_db w Hready), (ready_distinct w Hready).
    rewrite (same_schema_ok (idb w) (idb w') HP (ready_schema w Hready)). reflexivity.
Qed.

Lemma engine_stays_ready_witness :
  let r := run (Put "chats" Scenario.chat1) Scenario.log_write_fails in
  fst r = Rejected QuotaExceededError
  /\ ready (snd r) = true
  /\ listeners (snd r) = listeners Scenario.log_write_fails
  /\ idb_version (snd r) = idb_version Scenario.log_write_fails.
Proof.
  split; [vm_compute; reflexivity |].
  apply (engine_stays_ready (Put "chats" Scenario.chat1) Scenario.log_write_fails
           (fst (run (Put "chats" Scenario.chat1) Scenario.log_write_fails))).
  - vm_compute. reflexivity.
  - vm_compute. reflexivity.
Defined.



(** X7. An operation that rejects has called no listener. *)
Theorem rejected_operation_notifies_nobody m w e w' :
  db w = true -> run m w = (Rejected e, w') -> delivered w' = delivered w.
Proof.
  intros Hdb Hrun.
  destruct (run_keeps (fun _ => True) m w (Rejected e) w') as (_ & _ & Hd); auto.
Qed.

Lemma rejected_operation_notifies_nobody_witness :
  let w := Cases.observed_log_fails in
  let r := run (Put "chats" Scenario.chat1) w in
  fst r = Rejected QuotaExceededError
  /\ record_at "chats" (KStr "c1") (idb (snd r)) = Some Scenario.chat1
  /\ delivered (snd r) = delivered w.
Proof.
  split; [vm_compute; reflexivity |].
  split; [vm_compute; reflexivity |].
  apply (rejected_operation_notifies_nobody (Put "chats" Scenario.chat1)
           Cases.observed_log_fails QuotaExceededError).
  - vm_compute. reflexivity.
  - vm_compute. reflexivity.
Defined.

Lemma target_requests m store w op :
  target m = Some store -> In op (requests_of m w) ->
  (exists v, op = IDB.put store v) \/ (exists k, op = IDB.delete store k).
Proof.
  destruct m as [st v | st vs | st k | |]; simpl; try discriminate; intros [= ->].
  - intros [<- | []]. left. eauto.
  - intros Hin. apply in_map_iff in Hin. destruct Hin as (v & <- & _). left. eauto.
  - intros [<- | []]. right. eauto.
Qed.

(** X8. put, bulkPut and delete on one collection leave every other
    collection except logs as it was, whether they resolve or reject. *)
Theorem other_collections_untouched m store other w o w' :
  db w = true -> target m = Some store -> other <> store -> other <> "logs" ->
  run m w = (o, w') -> records_of other (idb w') = records_of other (idb w).
Proof.
  intros Hdb Ht Hne Hlogs Hrun.
  destruct (run_keeps (fun d => find_store other d = find_store other (idb w)) m w o w')
    as (_ & HP & _); try assumption.
  - reflexivity.
  - intros op d a d' Hin HP Hop. rewrite <- HP.
    destruct (target_requests m store w op Ht Hin) as [[v ->] | [k ->]].
    + apply write_succeeds in Hop. destruct Hop as (s & key & s' & _ & _ & _ & ->).
      apply find_store_set_other. exact Hne.
    + apply delete_succeeds in Hop. destruct Hop as (s & _ & ->).
      apply find_store_set_other. exact Hne.
  - intros v d x d' HP Hop. rewrite <- HP.
    apply write_succeeds in Hop. destruct Hop as (s & key & s' & _ & _ & _ & ->).
    apply find_store_set_other. exact Hlogs.
  - unfold records_of. rewrite HP. reflexivity.
Qed.

Lemma other_collections_untouched_witness :
  let w := Scenario.one_message in
  let r := run (Delete "chats" (KStr "c1")) w in
  records_of "messages" (idb (snd r)) = records_of "messages" (idb w).
Proof.
  apply (other_collections_untouched (Delete "chats" (KStr "c1")) "chats" "messages"
           Scenario.one_message
           (fst (run (Delete "chats" (KStr "c1")) Scenario.one_message))).
  - vm_compute. reflexivity.
  - reflexivity.
  - discriminate.
  - discriminate.
  - vm_compute. reflexivity.
Defined.

Lemma writes_only_requests m w op :
  writes_only m = true -> In op (requests_of m w) -> exists name v, op = IDB.put name v.
Proof.
  destruct m as [st v | st vs | st k | |]; simpl; try discriminate; intros _.
  - intros [<- | []]. eauto.
  - intros Hin. apply in_map_iff in Hin. destruct Hin as (v & <- & _). eauto.
  - destruct (seed_json w) as [e | data]; [intros [] |].
    intros Hin. apply in_app_or in Hin. destruct Hin as [Hin | [<- | []]]; [| eauto].
    unfold seed_requests in Hin. apply in_flat_map in Hin.
    destruct Hin as (st & _ & Hin). destruct (String.eqb st "meta"); [destruct Hin |].
    apply in_map_iff in Hin. destruct Hin as (v & <- & _). eauto.
Qed.

Lemma write_keeps_records ow name v d a d' store k :
  write ow name v ReadWrite d = Succeeds a d' ->
  record_at store k d <> None -> record_at store k d' <> None.
Proof.
  intros Hop Hk. apply write_succeeds in Hop.
  destruct Hop as (s & key & s' & Hs & _ & Hrec & ->).
  destruct (String.eqb store name) eqn:E.
  - apply String.eqb_eq in E. subst store.
    rewrite (record_at_set_same name s s' k d Hs).
    unfold record_at, records_of in Hk. rewrite Hs in Hk.
    unfold store_record in Hrec.
    destruct key as [k0 |].
    + destruct (negb ow && mem k0 (records s)); [discriminate |].
      injection Hrec as <-. cbn [records].
      destruct (key_eqb k0 k) eqn:Ek.
      * apply key_eqb_eq in Ek. subst k0. rewrite lookup_store_same. discriminate.
      * apply key_eqb_neq in Ek. rewrite lookup_store_other by congruence. exact Hk.
    + destruct (MAX_GENERATED <? keygen s); [discriminate |].
      destruct (negb ow && mem (KNum (keygen s)) (records s)); [discriminate |].
      injection Hrec as <-. cbn [records].
      destruct (key_eqb (KNum (keygen s)) k) eqn:Ek.
      * apply key_eqb_eq in Ek. subst k. rewrite lookup_store_same. discriminate.
      * apply key_eqb_neq in Ek. rewrite lookup_store_other by congruence. exact Hk.
  - apply String.eqb_neq in E. rewrite record_at_set_other by exact E. exact Hk.
Qed.

(** X9. put, bulkPut and seed remove no record: a key that holds a
    record before the operation holds one after it, however the
    operation ends. *)
Theorem writes_remove_nothing m store k w o w' :
  db w = true -> writes_only m = true -> run m w = (o, w') ->
  record_at store k (idb w) <> None -> record_at store k (idb w') <> None.
Proof.
  intros Hdb Hm Hrun Hk.
  destruct (run_keeps (fun d => record_at store k d <> None) m w o w') as (_ & HP & _);
    try assumption.
  - intros op d a d' Hin HP Hop.
    destruct (writes_only_requests m w op Hm Hin) as (name & v & ->).
    eapply write_keeps_records; eauto.
  - intros v d x d' HP Hop. eapply write_keeps_records; eauto.
Qed.

Lemma writes_remove_nothing_witness :
  let w := Scenario.two_puts in
  let r := run (BulkPut "chats" [Scenario.chat1b; JNull]) w in
  fst r = Rejected DataError
  /\ record_at "chats" (KStr "c2") (idb w) <> None
  /\ record_at "chats" (KStr "c2") (idb (snd r)) <> None.
Proof.
  split; [vm_compute; reflexivity |].
  split; [vm_compute; discriminate |].
  apply (writes_remove_nothing (BulkPut "chats" [Scenario.chat1b; JNull]) "chats" (KStr "c2")
           Scenario.two_puts
           (fst (run (BulkPut "chats" [Scenario.chat1b; JNull]) Scenario.two_puts))).
  - vm_compute. reflexivity.
  - reflexivity.
  - vm_compute. reflexivity.
  - vm_compute. discriminate.
Defined.

End AnyOutcome.

(* ===================================================================== *)
(** ** Reads and unknown names *)
(* ===================================================================== *)

Section Reading.
Import IDB DataLayer Contract.

Lemma getAll_result store ix q w o w1 :
  db w = true -> getAll store ix q w = (o, w1) -> w1 = w \/ w1 = pop w.
Proof.
  intros Hdb H. unfold getAll, Body.getAll in H. fold transaction in H.
  unfold bind at 1 in H. rewrite (transaction_connected _ _ _ Hdb) in H.
  unfold begin_tx in H.
  destruct (forallb _ [store]); [| injection H as <- <-; auto].
  unfold bind, await_request, ret in H.
  match type of H with
  | context [request ?op ?tx] => destruct (request op tx) as [e | e tx1 | a tx1]
  end; injection H as <- <-; auto.
Qed.

(** X10. On the open engine, get and getAll change nothing: whether they
    resolve or reject, the database, the listeners and the calls made to
    them are as before. *)
Theorem reads_change_nothing store w :
  db w = true ->
  (forall k o w', get store k w = (o, w') ->
     idb w' = idb w /\ delivered w' = delivered w /\ listeners w' = listeners w
     /\ db w' = true)
  /\ (forall ix q o w', getAll store ix q w = (o, w') ->
        idb w' = idb w /\ delivered w' = delivered w /\ listeners w' = listeners w
        /\ db w' = true).
Proof.
  intros Hdb. split.
  - intros k o w' H. apply get_result in H; [| exact Hdb].
    destruct H as [[-> | ->] _]; repeat split; exact Hdb.
  - intros ix q o w' H. apply getAll_result in H; [| exact Hdb].
    destruct H as [-> | ->]; repeat split; exact Hdb.
Qed.

Lemma reads_change_nothing_witness :
  let w := Scenario.two_puts in
  (forall k o w', get "chats" k w = (o, w') ->
     idb w' = idb w /\ delivered w' = delivered w /\ listeners w' = listeners w
     /\ db w' = true)
  /\ (forall ix q o w', getAll "chats" ix q w = (o, w') ->
        idb w' = idb w /\ delivered w' = delivered w /\ listeners w' = listeners w
        /\ db w' = true).
Proof.
  apply (reads_change_nothing "chats" Scenario.two_puts). vm_compute. reflexivity.
Defined.

Lemma begin_tx_unknown store mode w :
  find_store store (idb w) = None -> begin_tx [store] mode w = (Rejected NotFoundError, w).
Proof.
  intros H. unfold begin_tx. simpl. unfold contains. rewrite H. reflexivity.
Qed.

(** X11. On the open engine, every method called on a collection the
    database does not have rejects with NotFoundError and leaves
    everything as it was: nothing is written, logged or notified. *)
Theorem unknown_collection_is_rejected store w :
  db w = true -> find_store store (idb w) = None ->
  (forall k, get store k w = (Rejected NotFoundError, w))
  /\ (forall ix q, getAll store ix q w = (Rejected NotFoundError, w))
  /\ (forall v, put store v w = (Rejected NotFoundError, w))
  /\ (forall vs, bulkPut store vs w = (Rejected NotFoundError, w))
  /\ (forall k, delete store k w = (Rejected NotFoundError, w)).
Proof.
  intros Hdb Hs.
  assert (T : forall mode, transaction [store] mode w = (Rejected NotFoundError, w)).
  { intros mode. rewrite transaction_connected by exact Hdb.
    apply begin_tx_unknown. exact Hs. }
  repeat split; intros.
  - unfold get, Body.get. fold transaction. unfold bind at 1. rewrite T. reflexivity.
  - unfold getAll, Body.getAll. fold transaction. unfold bind at 1. rewrite T. reflexivity.
  - unfold put, Body.put. fold transaction. unfold bind at 1. rewrite T. reflexivity.
  - unfold bulkPut, Body.bulkPut. fold transaction. unfold bind at 1. rewrite T. reflexivity.
  - unfold delete, Body.delete. fold transaction. unfold bind at 1. rewrite T. reflexivity.
Qed.

Lemma unknown_collection_is_rejected_witness :
  let w := Scenario.two_puts in
  (forall k, get "drafts" k w = (Rejected NotFoundError, w))
  /\ (forall ix q, getAll "drafts" ix q w = (Rejected NotFoundError, w))
  /\ (forall v, put "drafts" v w = (Rejected NotFoundError, w))
  /\ (forall vs, bulkPut "drafts" vs w = (Rejected NotFoundError, w))
  /\ (forall k, delete "drafts" k w = (Rejected NotFoundError, w)).
Proof.
  apply (unknown_collection_is_rejected "drafts" Scenario.two_puts).
  - vm_compute. reflexivity.
  - vm_compute. reflexivity.
Defined.

(** X12. getAll through an index the collection does not have rejects
    with NotFoundError; an empty index name is no index name, and the
    whole collection is returned. *)
Theorem unknown_index_is_rejected store name query w s :
  db w = true -> find_store store (idb w) = Some s ->
  find_index name s = None -> name <> "" ->
  (exists w', getAll store (Some name) query w = (Rejected NotFoundError, w')
              /\ idb w' = idb w /\ delivered w' = delivered w)
  /\ getAll store (Some "") query w = getAll store None None w.
Proof.
  intros Hdb Hs Hix Hname. split.
  - exists (pop w). split; [| split; reflexivity].
    unfold getAll, Body.getAll. fold transaction.
    unfold bind at 1. rewrite (transaction_connected _ _ _ Hdb).
    rewrite begin_tx_eq by (simpl; unfold contains; rewrite Hs; reflexivity).
    apply String.eqb_neq in Hname. rewrite Hname.
    unfold bind, await_request, request. simpl. unfold IDB.index_getAll.
    rewrite Hs, Hix. reflexivity.
  - reflexivity.
Qed.

Lemma unknown_index_is_rejected_witness :
  let w := Scenario.two_puts in
  (exists w', getAll "chats" (Some "by_author") None w = (Rejected NotFoundError, w')
              /\ idb w' = idb w /\ delivered w' = delivered w)
  /\ getAll "chats" (Some "") None w = getAll "chats" None None w.
Proof.
  apply (unknown_index_is_rejected "chats" "by_author" None Scenario.two_puts
           (mkStore (createObjectStore "chats")
                    (records_of "chats" (idb Scenario.two_puts)) 1)).
  - vm_compute. reflexivity.
  - vm_compute. reflexivity.
  - vm_compute. reflexivity.
  - discriminate.
Defined.

End Reading.

(* ===================================================================== *)
(** ** Records without a key *)
(* ===================================================================== *)

Section Refusals.
Import IDB DataLayer Contract.

Lemma check_value_unkeyed store s v :
  spec s = createObjectStore store -> store <> "logs" -> record_key store v = None ->
  check_value s v = inl DataError.
Proof.
  intros Hspec Hlogs Hk. unfold check_value, record_key in *. rewrite Hspec.
  destruct (extract_key (keyPath (createObjectStore store)) v); try reflexivity;
    [| discriminate].
  rewrite autoIncrement_created. apply String.eqb_neq in Hlogs. rewrite Hlogs. reflexivity.
Qed.

(** X13. put of a record that has no valid key at the key path of its
    collection rejects with DataError before anything is written: the
    database is as it was, with no log entry, and no listener is called. *)
Theorem put_without_key_is_rejected store v w :
  ready w = true -> In store STORES -> store <> "logs" -> record_key store v = None ->
  exists w', put store v w = (Rejected DataError, w')
             /\ idb w' = idb w /\ delivered w' = delivered w.
Proof.
  intros Hready Hin Hlogs Hk.
  destruct (schema_find _ _ (ready_schema w Hready) Hin) as (s & Hs & Hspec).
  exists (pop w). split; [| split; reflexivity].
  unfold put, Body.put. fold transaction.
  unfold bind at 1. rewrite (transaction_connected _ _ _ (ready_db w Hready)).
  rewrite begin_tx_eq by (simpl; unfold contains; rewrite Hs; reflexivity).
  unfold bind at 1. unfold await_request, request. simpl.
  unfold IDB.put, write. rewrite Hs.
  rewrite (check_value_unkeyed store s v Hspec Hlogs Hk). reflexivity.
Qed.

Lemma put_without_key_is_rejected_witness :
  let w := Scenario.observed in
  exists w', put "chats" (JObj [("title", JStr "no id")]) w = (Rejected DataError, w')
             /\ idb w' = idb w /\ delivered w' = delivered w.
Proof.
  apply (put_without_key_is_rejected "chats" (JObj [("title", JStr "no id")])
           Scenario.observed).
  - vm_compute. reflexivity.
  - vm_compute. tauto.
  - discriminate.
  - vm_compute. reflexivity.
Defined.

(** The requests of bulkPut when nothing fails but the records without
    a key: those are refused at the call, the others are written. *)
Lemma request_all_skips store vs :
  forall tx,
    In store STORES -> store <> "logs" -> schema_ok (tx_work tx) = true ->
    tx_fate tx = TxOk -> tx_mode tx = ReadWrite -> tx_aborted tx = None ->
    exists tx',
      request_all (map (IDB.put store) vs) tx
      = (map (fun _ => DataError) (filter (fun v => negb (keyed_for store v)) vs), tx')
      /\ tx_aborted tx' = None /\ tx_fate tx' = TxOk
      /\ apply_all (map (IDB.put store) (filter (keyed_for store) vs)) (tx_work tx)
         = Some (tx_work tx').
Proof.
  induction vs as [| v rest IH]; intros tx Hin Hlogs Hok Hf Hm Ha.
  - exists tx. simpl. auto.
  - cbn [map filter request_all].
    destruct (record_key store v) as [k |] eqn:Ek;
      [assert (Ekf : keyed_for store v = true) by (unfold keyed_for; rewrite Ek; reflexivity)
      | assert (Ekf : keyed_for store v = false) by (unfold keyed_for; rewrite Ek; reflexivity)];
      rewrite Ekf; cbn [negb map].
    + assert (Hk : record_key store v <> None) by congruence.
      destruct (keyed_put_succeeds store v (tx_work tx) Hok Hin Hk (tx_work tx)
                  (same_schema_refl _)) as (d' & Hput).
      rewrite (request_calm (IDB.put store v) tx tt d' Hf Ha) by (rewrite Hm; exact Hput).
      destruct (IH (mkTx (tx_mode tx) TxOk (S (tx_issued tx)) None d')) as (tx' & R & A & F & W);
        auto.
      { eapply engine_op_ok; [apply (op_write true) | exact Hok | exact Hput]. }
      exists tx'. rewrite R. repeat split; auto.
      cbn [map apply_all]. rewrite Hput. exact W.
    + destruct (schema_find _ _ Hok Hin) as (s & Hs & Hspec).
      assert (Hthrow : IDB.put store v ReadWrite (tx_work tx) = Throws DataError).
      { unfold IDB.put, write. rewrite Hs.
        rewrite (check_value_unkeyed store s v Hspec Hlogs Ek). reflexivity. }
      unfold request at 1. rewrite Hm, Hthrow.
      destruct (IH tx) as (tx' & R & A & F & W); auto.
      exists tx'. rewrite R. repeat split; auto.
Qed.

(** X14. bulkPut into a collection other than logs with a record that
    has no valid key rejects with DataError, and yet, when nothing else
    fails, the records that do have a key are committed: each of their
    keys holds one of the records given for it. No log entry is written
    and no listener is called. *)
Theorem bulkPut_commits_around_a_bad_record store vs bad w :
  ready w = true -> In store STORES -> store <> "logs" -> next_fate w = TxOk ->
  In bad vs -> record_key store bad = None ->
  exists w',
    bulkPut store vs w = (Rejected DataError, w')
    /\ (forall v k, In v vs -> record_key store v = Some k ->
          exists v', In v' vs /\ record_key store v' = Some k
                     /\ record_at store k (idb w') = Some v')
    /\ records_of "logs" (idb w') = records_of "logs" (idb w)
    /\ delivered w' = delivered w.
Proof.
  intros Hready Hin Hlogs Hfate Hbad Hkey.
  pose proof (ready_schema w Hready) as Hok.
  destruct (request_all_skips store vs (fresh_tx ReadWrite w)) as (tx' & R & A & F & W);
    auto.
  cbn [tx_work fresh_tx] in W.
  exists (set_idb (tx_work tx') (pop w)).
  split; [| split; [| split]].
  - unfold bulkPut, Body.bulkPut. fold transaction.
    unfold bind at 1. rewrite (transaction_connected _ _ _ (ready_db w Hready)).
    rewrite begin_tx_eq by (apply schema_contains; [exact Hok |];
                            intros x [<- | []]; exact Hin).
    unfold bind at 1. rewrite R. unfold await_all. cbn [fst snd].
    destruct (filter (fun v => negb (keyed_for store v)) vs) as [| b bs] eqn:Ef.
    + exfalso.
      assert (Hb : In bad (filter (fun v => negb (keyed_for store v)) vs)).
      { apply filter_In. split; [exact Hbad |]. unfold keyed_for. rewrite Hkey. reflexivity. }
      rewrite Ef in Hb. destruct Hb.
    + cbn [map]. unfold settle, commits. rewrite A, F. reflexivity.
  - intros v k Hv Hk. cbn [idb set_idb].
    rewrite apply_puts in W.
    assert (Hc : forall v0, In (store, v0) (map (pair store) (filter (keyed_for store) vs)) ->
                            In v0 vs).
    { intros v0 H0. apply in_map_iff in H0. destruct H0 as (x & [= <-] & Hx).
      apply filter_In in Hx. tauto. }
    assert (Hitem : In (store, v) (map (pair store) (filter (keyed_for store) vs))).
    { apply in_map. apply filter_In. split; [exact Hv |].
      unfold keyed_for. rewrite Hk. reflexivity. }
    destruct (puts_visible vs store _ (idb w) (tx_work tx') Hok Hin Hc W v k Hitem Hk)
      as [(v' & Hv' & Hk' & Hat) _].
    eauto.
  - cbn [idb set_idb].
    assert (Hfind : find_store "logs" (tx_work tx') = find_store "logs" (idb w)).
    { apply (apply_all_invariant
               (fun d => find_store "logs" d = find_store "logs" (idb w))
               _ _ _ ) with (3 := W); [| reflexivity].
      intros op d0 a d1 Hop HP Hrun. apply in_map_iff in Hop.
      destruct Hop as (x & <- & _).
      apply write_succeeds in Hrun. destruct Hrun as (s & key & s' & _ & _ & _ & ->).
      rewrite find_store_set_other; [exact HP | congruence]. }
    unfold records_of. rewrite Hfind. reflexivity.
  - reflexivity.
Qed.

Lemma bulkPut_commits_around_a_bad_record_witness :
  let w := Scenario.observed in
  let vs := [Scenario.chat1; JObj [("title", JStr "no id")]; Scenario.chat2] in
  exists w',
    bulkPut "chats" vs w = (Rejected DataError, w')
    /\ (forall v k, In v vs -> record_key "chats" v = Some k ->
          exists v', In v' vs /\ record_key "chats" v' = Some k
                     /\ record_at "chats" k (idb w') = Some v')
    /\ records_of "logs" (idb w') = records_of "logs" (idb w)
    /\ delivered w' = delivered w.
Proof.
  apply (bulkPut_commits_around_a_bad_record "chats"
           [Scenario.chat1; JObj [("title", JStr "no id")]; Scenario.chat2]
           (JObj [("title", JStr "no id")]) Scenario.observed).
  - vm_compute. reflexivity.
  - vm_compute. tauto.
  - discriminate.
  - reflexivity.
  - simpl. tauto.
  - vm_compute. reflexivity.
Defined.

End Refusals.

(* ===================================================================== *)
(** ** An engine that is not open *)
(* ===================================================================== *)

Section Closed.
Import IDB DataLayer Contract.

Lemma open_fails e w : db w = false -> open_fate w = Some e -> open w = (Rejected e, w).
Proof.
  intros Hdb Hf. unfold open. simpl. rewrite Hdb.
  unfold bind at 1. unfold connect. rewrite Hf. reflexivity.
Qed.

(** X15. While the database cannot be opened, open rejects with the
    failure of the open request and every method rejects with it too;
    the engine keeps no trace of the attempt. *)
Theorem failed_open_rejects_every_call e w :
  db w = false -> open_fate w = Some e ->
  open w = (Rejected e, w)
  /\ (forall store k, get store k w = (Rejected e, w))
  /\ (forall store ix q, getAll store ix q w = (Rejected e, w))
  /\ (forall store v, put store v w = (Rejected e, w))
  /\ (forall store vs, bulkPut store vs w = (Rejected e, w))
  /\ (forall store k, delete store k w = (Rejected e, w))
  /\ clearAll w = (Rejected e, w).
Proof.
  intros Hdb Hf. pose proof (open_fails e w Hdb Hf) as Ho.
  assert (T : forall names mode, transaction names mode w = (Rejected e, w)).
  { intros. unfold transaction, Body.transaction, bind. rewrite Ho. reflexivity. }
  split; [exact Ho |].
  repeat split; intros.
  - unfold get, Body.get. fold transaction. unfold bind at 1. rewrite T. reflexivity.
  - unfold getAll, Body.getAll. fold transaction. unfold bind at 1. rewrite T. reflexivity.
  - unfold put, Body.put. fold transaction. unfold bind at 1. rewrite T. reflexivity.
  - unfold bulkPut, Body.bulkPut. fold transaction. unfold bind at 1. rewrite T. reflexivity.
  - unfold delete, Body.delete. fold transaction. unfold bind at 1. rewrite T. reflexivity.
  - unfold clearAll, Body.clearAll. fold transaction. unfold bind at 1. rewrite T. reflexivity.
Qed.

(** X16. seed does not open the engine: called before open it fetches
    the seed document and then rejects, with a TypeError when the
    document was fetched, and writes nothing. *)
Theorem seed_needs_an_open_engine w :
  db w = false ->
  exists e w',
    seed w = (Rejected e, w')
    /\ idb w' = idb w /\ db w' = false /\ fetched w' = S (fetched w)
    /\ match seed_json w with
       | inr _ => exists msg, e = TypeError msg
       | inl e0 => e = e0
       end.
Proof.
  intros Hdb. unfold seed, Body.seed. unfold bind at 1. unfold fetch_seed.
  destruct (seed_json w) as [e0 | data].
  - exists e0, (set_fetched (S (fetched w)) w). repeat split. exact Hdb.
  - unfold bind at 1. unfold this_db_transaction. cbn [db set_fetched]. rewrite Hdb.
    eexists _, _. split; [reflexivity |]. repeat split; eauto.
Qed.

Lemma failed_open_rejects_every_call_witness :
  let e := DOMException "UnknownError" in
  let w := Cases.blocked in
  open w = (Rejected e, w)
  /\ (forall store k, get store k w = (Rejected e, w))
  /\ (forall store ix q, getAll store ix q w = (Rejected e, w))
  /\ (forall store v, put store v w = (Rejected e, w))
  /\ (forall store vs, bulkPut store vs w = (Rejected e, w))
  /\ (forall store k, delete store k w = (Rejected e, w))
  /\ clearAll w = (Rejected e, w).
Proof.
  apply (failed_open_rejects_every_call (DOMException "UnknownError") Cases.blocked);
    reflexivity.
Defined.

Lemma seed_needs_an_open_engine_witness :
  let w := Scenario.fresh in
  exists e w',
    seed w = (Rejected e, w')
    /\ idb w' = idb w /\ db w' = false /\ fetched w' = S (fetched w)
    /\ match seed_json w with
       | inr _ => exists msg, e = TypeError msg
       | inl e0 => e = e0
       end.
Proof. apply (seed_needs_an_open_engine Scenario.fresh). reflexivity. Defined.

Lemma connected_marker k w :
  openable w = true ->
  record_at "meta" k (idb w) = None -> record_at "meta" k (idb (connected w)) = None.
Proof.
  unfold openable. rewrite !andb_true_iff. intros [_ Hcase] Hk.
  apply orb_true_iff in Hcase as [Hnew | Hold].
  - apply andb_true_iff in Hnew as [Hv Hempty]. apply Z.eqb_eq in Hv.
    destruct (idb w) eqn:Ei; [| discriminate].
    unfold connected. rewrite Hv, Ei. reflexivity.
  - apply andb_true_iff in Hold as [Hv _]. apply Z.eqb_eq in Hv.
    unfold connected. rewrite Hv. exact Hk.
Qed.

Lemma connected_fates w : fates (connected w) = fates w /\ seed_json (connected w) = seed_json w.
Proof. unfold connected. destruct (idb_version w <? DB_VERSION); auto. Qed.

(** X17. When the seed document cannot be fetched, the first open of a
    database without the seed marker rejects with the failure of the
    fetch, but the connection stays: the next open on the same page
    resolves at once, on a database that is still not seeded, without
    fetching again. *)
Theorem failed_seed_is_not_retried e w :
  openable w = true -> next_fate w = TxOk -> seed_json w = inl e ->
  record_at "meta" (KStr "seeded") (idb w) = None ->
  exists w1,
    open w = (Rejected e, w1)
    /\ ready w1 = true
    /\ fetched w1 = S (fetched w)
    /\ record_at "meta" (KStr "seeded") (idb w1) = None
    /\ open w1 = (Resolved tt, w1).
Proof.
  intros Hopen Hfate Hseed Hmarker.
  destruct (openable_facts w Hopen) as (Hdb & Hof & Hv & Hready).
  destruct (connected_env w Hv) as (_ & _ & Hf & _).
  destruct (connected_fates w) as [Hfates Hjson].
  pose proof (connected_marker _ w Hopen Hmarker) as Hm.
  destruct (schema_find _ "meta" (ready_schema _ Hready)) as (s & Hs & _);
    [vm_compute; tauto |].
  rewrite (open_eq w Hdb Hof Hv).
  rewrite (get_eq "meta" (KStr "seeded") (connected w) s (ready_db _ Hready) Hs).
  2:{ unfold fails_now, fresh_tx, next_fate. cbn [tx_fate]. rewrite Hfates.
      unfold next_fate in Hfate. rewrite Hfate. reflexivity. }
  unfold record_at, records_of in Hm. rewrite Hs in Hm. rewrite Hm.
  unfold seed, Body.seed. unfold bind at 1. unfold fetch_seed.
  change (seed_json (pop (connected w))) with (seed_json (connected w)).
  rewrite Hjson, Hseed.
  eexists. split; [reflexivity |].
  split; [exact Hready |].
  split; [cbn; rewrite Hf; reflexivity |].
  split.
  - cbn. unfold record_at, records_of. rewrite Hs. exact Hm.
  - apply open_connected. cbn. apply ready_db. exact Hready.
Qed.

Lemma failed_seed_is_not_retried_witness :
  let w := Cases.no_seed_document in
  exists w1,
    open w = (Rejected (TypeError "Failed to fetch"), w1)
    /\ ready w1 = true
    /\ fetched w1 = S (fetched w)
    /\ record_at "meta" (KStr "seeded") (idb w1) = None
    /\ open w1 = (Resolved tt, w1).
Proof.
  apply (failed_seed_is_not_retried (TypeError "Failed to fetch") Cases.no_seed_document);
    reflexivity.
Defined.

End Closed.

(* ===================================================================== *)
(** ** Writes into logs *)
(* ===================================================================== *)

Section LogWrites.
Import IDB DataLayer Contract.

Lemma next_fate_pop w : next_fate (pop w) = nth 1 (fates w) TxOk.
Proof. unfold next_fate, pop. simpl. destruct (fates w) as [| f [| g t]]; reflexivity. Qed.

Lemma stores_logs : In "logs" STORES.
Proof. unfold STORES. simpl. auto 10. Qed.

(** X18. The transaction of the log entry is not waited for: when it
    fails to commit, the put of a record that carries its key into a
    collection other than logs still resolves, with its record stored,
    and calls the listeners of "logs:change", each once, but logs has no
    new entry. *)
Theorem lost_log_entry_goes_unnoticed store v k e w :
  ready w = true -> In store STORES -> store <> "logs" -> record_key store v = Some k ->
  next_fate w = TxOk -> nth 1 (fates w) TxOk = CommitFail e ->
  log_room 1 (idb w) = true ->
  exists w',
    put store v w = (Resolved v, w')
    /\ record_at store k (idb w') = Some v
    /\ records_of "logs" (idb w') = records_of "logs" (idb w)
    /\ forall h, In ("logs:change", h) (listeners w) ->
                 calls "logs:change" h (delivered w')
                 = S (calls "logs:change" h (delivered w)).
Proof.
  intros Hready Hin Hne Hk Hfate Hlog Hroom.
  pose proof (ready_schema w Hready) as Hok.
  assert (Hkey : record_key store v <> None) by congruence.
  destruct (keyed_put_succeeds store v (idb w) Hok Hin Hkey (idb w) (same_schema_refl _))
    as (d' & Hput).
  assert (Happ : apply_all (requests_of (Put store v) w) (idb w) = Some d')
    by (simpl; rewrite Hput; reflexivity).
  assert (Hdata : data_phase (Put store v) w = (Resolved tt, set_idb d' (pop w))).
  { apply (data_phase_resolves (Put store v) w d' Hready Hfate I); [| exact Happ].
    intros st [= <-]. exact Hin. }
  destruct (schema_find _ _ Hok stores_logs) as (s & Hs & Hspec).
  pose proof Hput as Hw. apply write_succeeds in Hw.
  destruct Hw as (s0 & key & s1 & Hs0 & Hc & Hrec & ->).
  assert (Hs' : find_store "logs" (set_store store s1 (idb w)) = Some s).
  { rewrite find_store_set_other by congruence. exact Hs. }
  destruct (log_room_free 1 (idb w) s) as [Hmax Hfree]; [lia | exact Hroom | exact Hs |].
  set (wc := set_idb (set_store store s1 (idb w)) (pop w)) in *.
  assert (Hrun : run (Put store v) w
                 = (Resolved tt,
                    snd (dispatch (String.append store ":change")
                           (snd (dispatch "logs:change" (pop wc)))))).
  { rewrite run_split. rewrite (bind_step _ _ _ _ _ Hdata).
    unfold bind at 1.
    rewrite (recordLog_eq _ _ wc s (ready_db _ Hready) Hs' Hspec).
    assert (Hnext : next_fate wc = CommitFail e)
      by (change (next_fate wc) with (next_fate (pop w)); rewrite next_fate_pop; exact Hlog).
    unfold fails_now. cbn [tx_fate fresh_tx]. rewrite Hnext.
    apply Z.ltb_ge in Hmax. rewrite Hmax.
    apply mem_false in Hfree. rewrite Hfree. cbn [orb].
    unfold after_log, settle, commits. cbn [tx_aborted tx_fate]. rewrite Hnext.
    reflexivity. }
  exists (snd (dispatch (String.append store ":change")
                 (snd (dispatch "logs:change" (pop wc))))).
  split; [rewrite put_run, Hrun; reflexivity |].
  cbn [dispatch snd idb set_delivered pop set_fates].
  split; [| split].
  - subst wc. cbn [idb set_idb].
    rewrite (record_at_set_same store s0 s1 k (idb w) Hs0).
    destruct (schema_find _ _ Hok Hin) as (s0' & Hs0' & Hspec0).
    assert (s0' = s0) by congruence. subst s0'.
    rewrite (check_value_keyed store s0 v k Hspec0 Hk) in Hc. injection Hc as <-.
    simpl in Hrec. injection Hrec as <-. cbn [records]. apply lookup_store_same.
  - subst wc. cbn [idb set_idb]. apply records_of_set_other. congruence.
  - intros h Hh. cbn [delivered set_delivered listeners].
    change (map (fun l => mkDelivery ?n (snd l) ?d) (filter (listens ?n) ?ls))
      with (broadcast n d ls).
    rewrite !calls_app.
    rewrite (calls_broadcast "logs:change" h _ _ (ready_distinct w Hready) Hh).
    rewrite calls_broadcast_other.
    + change (delivered (pop wc)) with (delivered w). lia.
    + change "logs:change" with (String.append "logs" ":change").
      rewrite change_event_eqb. apply String.eqb_neq. exact Hne.
Qed.

Lemma lost_log_entry_goes_unnoticed_witness :
  let w := Cases.observed_log_uncommitted in
  exists w',
    put "chats" Scenario.chat1 w = (Resolved Scenario.chat1, w')
    /\ record_at "chats" (KStr "c1") (idb w') = Some Scenario.chat1
    /\ records_of "logs" (idb w') = records_of "logs" (idb w)
    /\ forall h, In ("logs:change", h) (listeners w) ->
                 calls "logs:change" h (delivered w')
                 = S (calls "logs:change" h (delivered w)).
Proof.
  apply (lost_log_entry_goes_unnoticed "chats" Scenario.chat1 (KStr "c1")
           QuotaExceededError Cases.observed_log_uncommitted).
  - vm_compute. reflexivity.
  - vm_compute. tauto.
  - discriminate.
  - vm_compute. reflexivity.
  - reflexivity.
  - reflexivity.
  - vm_compute. reflexivity.
Defined.

Lemma log_room_above n d s k :
  log_room n d = true -> find_store "logs" d = Some s -> keygen s <= k ->
  lookup (KNum k) (records s) = None.
Proof.
  unfold log_room, records_of. intros H Hs Hk. rewrite Hs in H.
  apply andb_true_iff in H as [_ Hbelow].
  rewrite forallb_forall in Hbelow.
  destruct (lookup (KNum k) (records s)) as [v |] eqn:E; [| reflexivity].
  apply lookup_in in E. specialize (Hbelow _ E). simpl in Hbelow.
  unfold log_keygen in Hbelow. rewrite Hs in Hbelow.
  apply Z.ltb_lt in Hbelow. lia.
Qed.

(** X19. put into logs of a record without an id: the key generator
    gives the key, and the record is stored with that id added, while
    put returns the record as it was given, without the id. The log
    entry of this put gets the next key. *)
Theorem put_into_logs_generates_the_key fields w :
  ready w = true -> calm 2 w = true -> log_room 2 (idb w) = true ->
  assoc "id" fields = None ->
  exists w',
    put "logs" (JObj fields) w = (Resolved (JObj fields), w')
    /\ record_at "logs" (KNum (log_keygen (idb w))) (idb w')
       = Some (JObj (set_assoc "id" (JNum (log_keygen (idb w))) fields))
    /\ record_at "logs" (KNum (log_keygen (idb w) + 1)) (idb w')
       = Some (log_entry "put" (payload (Put "logs" (JObj fields))) (now w)
                         (log_keygen (idb w) + 1)).
Proof.
  intros Hready Hcalm Hroom Hid.
  pose proof (ready_schema w Hready) as Hok.
  destruct (schema_find _ _ Hok stores_logs) as (s & Hs & Hspec).
  assert (Hg : log_keygen (idb w) = keygen s) by (unfold log_keygen; rewrite Hs; reflexivity).
  assert (Hmax : keygen s + 2 <= MAX_GENERATED + 1).
  { unfold log_room in Hroom. apply andb_true_iff in Hroom as [H _].
    apply Z.leb_le in H. lia. }
  set (g := keygen s) in *.
  set (s1 := mkStore (spec s)
                     (IDB.store (KNum g) (set_prop "id" (JNum g) (JObj fields)) (records s))
                     (g + 1)).
  assert (Hput : IDB.put "logs" (JObj fields) ReadWrite (idb w)
                 = Succeeds tt (set_store "logs" s1 (idb w))).
  { unfold IDB.put, write. rewrite Hs.
    unfold check_value, extract_key. rewrite Hspec.
    change (keyPath (createObjectStore "logs")) with "id".
    change (autoIncrement (createObjectStore "logs")) with true.
    cbn [get_prop]. rewrite Hid.
    unfold store_record. fold g.
    assert (Hlt : (MAX_GENERATED <? g) = false) by (apply Z.ltb_ge; lia).
    rewrite Hlt. cbn [negb andb]. subst s1. rewrite Hspec. reflexivity. }
  set (d' := set_store "logs" s1 (idb w)) in *.
  assert (Hs1 : find_store "logs" d' = Some s1) by (apply (find_store_set_same _ s); exact Hs).
  assert (Hfree1 : lookup (KNum (keygen s1)) (records s1) = None).
  { subst s1. cbn [keygen records]. rewrite lookup_store_other by (intros [= H]; lia).
    apply (log_room_above 2 (idb w) s); [exact Hroom | exact Hs | fold g; lia]. }
  assert (Hrun := run_resolves (Put "logs" (JObj fields)) w d' s1 Hready Hcalm I).
  cbn [requests_of apply_all] in Hrun. rewrite Hput in Hrun.
  specialize (Hrun (fun st (H : Some "logs" = Some st) =>
                      match H in _ = o return match o with Some x => In x STORES | None => True end
                      with eq_refl => stores_logs end)
                   eq_refl Hs1).
  assert (Hmax1 : keygen s1 <= MAX_GENERATED) by (subst s1; cbn [keygen]; lia).
  specialize (Hrun Hmax1 Hfree1).
  eexists. split; [rewrite put_run, Hrun; reflexivity |].
  rewrite notify_idb. unfold after_log, settle, commits.
  destruct (calm_next _ _ Hcalm) as [_ Hcalm1].
  destruct (calm_next _ _ Hcalm1) as [Hf1 _].
  cbn [tx_aborted tx_fate prefetch]. 
  change (next_fate (set_idb d' (pop w))) with (next_fate (pop w)). rewrite Hf1.
  cbn [dispatch snd idb set_delivered set_idb pop set_fates tx_work].
  rewrite Hg. fold g.
  rewrite !(record_at_set_same "logs" s1 _ _ d' Hs1).
  unfold logs_after. cbn [records keygen s1].
  split.
  - rewrite lookup_store_other by (intros [= H]; lia).
    apply lookup_store_same.
  - apply lookup_store_same.
Qed.

Lemma put_into_logs_generates_the_key_witness :
  let w := Scenario.two_puts in
  let fields := [("action", JStr "note")] in
  exists w',
    put "logs" (JObj fields) w = (Resolved (JObj fields), w')
    /\ record_at "logs" (KNum (log_keygen (idb w))) (idb w')
       = Some (JObj (set_assoc "id" (JNum (log_keygen (idb w))) fields))
    /\ record_at "logs" (KNum (log_keygen (idb w) + 1)) (idb w')
       = Some (log_entry "put" (payload (Put "logs" (JObj fields))) (now w)
                         (log_keygen (idb w) + 1)).
Proof.
  apply (put_into_logs_generates_the_key [("action", JStr "note")] Scenario.two_puts).
  - vm_compute. reflexivity.
  - vm_compute. reflexivity.
  - vm_compute. reflexivity.
  - reflexivity.
Defined.

End LogWrites.

(* ===================================================================== *)
(** ** subscribe and its handle *)
(* ===================================================================== *)

Section Subscriptions.
Import IDB DataLayer Contract.

Lemma same_listener_eq a b : same_listener a b = true <-> a = b.
Proof.
  destruct a as [n h], b as [n' h']. unfold same_listener. simpl.
  rewrite andb_true_iff, String.eqb_eq, Nat.eqb_eq.
  split; [intros [-> ->]; reflexivity | intros [= -> ->]; auto].
Qed.

Lemma existsb_same_listener x l : existsb (same_listener x) l = true <-> In x l.
Proof.
  rewrite existsb_exists. split.
  - intros (y & Hin & Heq). apply same_listener_eq in Heq. subst. exact Hin.
  - intros Hin. exists x. split; [exact Hin | apply same_listener_eq; reflexivity].
Qed.

Lemma removed_listener x l :
  existsb (same_listener x) (filter (fun y => negb (same_listener x y)) l) = false.
Proof.
  induction l as [| y t IH]; simpl; [reflexivity |].
  destruct (same_listener x y) eqn:E; simpl; [exact IH |].
  rewrite E. exact IH.
Qed.

Lemma filter_all {A} (f : A -> bool) l :
  (forall x, In x l -> f x = true) -> filter f l = l.
Proof.
  induction l as [| y t IH]; simpl; intros H; [reflexivity |].
  rewrite (H y) by (left; reflexivity). f_equal. apply IH. intros x Hx. apply H. right. exact Hx.
Qed.

(** X20. Subscribing a handler that is already subscribed to the event
    changes nothing: the handler is still called once per dispatch. *)
Theorem subscribe_twice_is_once name h w :
  distinct (listeners w) = true ->
  subscribe name h (snd (subscribe name h w)) = (Resolved tt, snd (subscribe name h w))
  /\ distinct (listeners (snd (subscribe name h w))) = true
  /\ calls name h (delivered (snd (dispatch name (snd (subscribe name h w)))))
     = S (calls name h (delivered w)).
Proof.
  intros Hd.
  pose proof (subscribe_listed name h w) as Hin.
  assert (Hd1 : distinct (listeners (snd (subscribe name h w))) = true).
  { unfold subscribe. cbn [snd].
    destruct (existsb (same_listener (name, h)) (listeners w)) eqn:E; [exact Hd |].
    cbn [listeners set_listeners]. apply distinct_snoc; assumption. }
  split; [| split; [exact Hd1 |]].
  - unfold subscribe at 1.
    apply existsb_same_listener in Hin. rewrite Hin. reflexivity.
  - rewrite dispatch_delivered, calls_app.
    fold (broadcast name (idb (snd (subscribe name h w))) (listeners (snd (subscribe name h w)))).
    rewrite (calls_broadcast name h _ _ Hd1 Hin).
    assert (delivered (snd (subscribe name h w)) = delivered w) as ->.
    { unfold subscribe. cbn [snd]. destruct (existsb _ _); reflexivity. }
    lia.
Qed.

Lemma subscribe_twice_is_once_witness :
  let w := Scenario.observed in
  subscribe "logs:change" 7%nat (snd (subscribe "logs:change" 7%nat w))
  = (Resolved tt, snd (subscribe "logs:change" 7%nat w))
  /\ distinct (listeners (snd (subscribe "logs:change" 7%nat w))) = true
  /\ calls "logs:change" 7%nat
           (delivered (snd (dispatch "logs:change" (snd (subscribe "logs:change" 7%nat w)))))
     = S (calls "logs:change" 7%nat (delivered w)).
Proof.
  apply (subscribe_twice_is_once "logs:change" 7%nat Scenario.observed). reflexivity.
Defined.

(** X21. The handle that subscribe returns takes the handler off the
    event: a dispatch after it does not call the handler, the other
    listeners stay, and when the handler was not subscribed before, the
    engine is as it was before the subscription. *)
Theorem unsubscribe_stops_the_calls name h w :
  calls name h (delivered (snd (dispatch name (snd (unsubscribe name h w)))))
  = calls name h (delivered w)
  /\ (forall l, l <> (name, h) ->
        (In l (listeners (snd (unsubscribe name h w))) <-> In l (listeners w)))
  /\ (existsb (same_listener (name, h)) (listeners w) = false ->
      snd (unsubscribe name h (snd (subscribe name h w))) = w).
Proof.
  split; [| split].
  - rewrite dispatch_delivered, calls_app.
    fold (broadcast name (idb (snd (unsubscribe name h w)))
                    (listeners (snd (unsubscribe name h w)))).
    rewrite calls_broadcast_absent;
      [change (delivered (snd (unsubscribe name h w))) with (delivered w); lia |].
    unfold unsubscribe. cbn [snd listeners set_listeners]. apply removed_listener.
  - intros l Hl. unfold unsubscribe. cbn [snd listeners set_listeners].
    rewrite filter_In. split; [tauto |]. intros Hin. split; [exact Hin |].
    apply negb_true_iff. destruct (same_listener (name, h) l) eqn:E; [| reflexivity].
    apply same_listener_eq in E. congruence.
  - intros Hnew. unfold subscribe, unsubscribe. rewrite Hnew.
    cbn [snd listeners set_listeners]. rewrite filter_app. cbn [filter].
    assert (same_listener (name, h) (name, h) = true) as -> by (apply same_listener_eq; reflexivity).
    cbn [negb]. rewrite app_nil_r.
    rewrite filter_all.
    + destruct w; reflexivity.
    + intros x Hx. apply negb_true_iff.
      destruct (same_listener (name, h) x) eqn:E; [| reflexivity].
      apply same_listener_eq in E. subst x.
      apply existsb_same_listener in Hx. congruence.
Qed.

End Subscriptions.

(* ===================================================================== *)
(** ** bulkPut, record by record *)
(* ===================================================================== *)

Section Batches.
Import IDB DataLayer Contract.

Lemma apply_all_defined d0 ops :
  Forall engine_op ops -> Forall (always_succeeds d0) ops ->
  forall d, same_schema d0 d -> exists d', apply_all ops d = Some d'.
Proof.
  induction ops as [| op rest IH]; intros Heng Hall d Hsame; simpl; [eauto |].
  inversion Heng as [| ? ? He Hes]; subst. inversion Hall as [| ? ? Ha Has]; subst.
  destruct (Ha d Hsame) as (d1 & Hop). rewrite Hop.
  apply IH; auto.
  eapply same_schema_trans; [exact Hsame |]. eapply engine_op_schema; eauto.
Qed.

(** A put into a collection without a key generator stores the record
    under the key it carries. *)
Lemma put_record_at store v d a d' :
  schema_ok d = true -> In store STORES -> store <> "logs" ->
  IDB.put store v ReadWrite d = Succeeds a d' ->
  exists k, record_key store v = Some k
            /\ forall k', record_at store k' d'
                          = if key_eqb k k' then Some v else record_at store k' d.
Proof.
  intros Hok Hin Hlogs Hput.
  destruct (schema_find _ _ Hok Hin) as (s & Hs & Hspec).
  apply write_succeeds in Hput. destruct Hput as (s0 & key & s1 & Hs0 & Hc & Hrec & ->).
  assert (s0 = s) by congruence. subst s0.
  destruct key as [k |].
  - exists k. split; [eapply check_value_key; eauto |].
    intros k'. rewrite (record_at_set_same store s s1 k' d Hs).
    simpl in Hrec. injection Hrec as <-. cbn [records].
    unfold record_at, records_of. rewrite Hs.
    destruct (key_eqb k k') eqn:E.
    + apply key_eqb_eq in E. subst. apply lookup_store_same.
    + apply key_eqb_neq in E. apply lookup_store_other. congruence.
  - exfalso. unfold check_value in Hc. rewrite Hspec in Hc.
    rewrite autoIncrement_created in Hc.
    apply String.eqb_neq in Hlogs. rewrite Hlogs in Hc.
    destruct (extract_key _ v); discriminate.
Qed.

Lemma last_for_app store k a b :
  last_for store k (a ++ b)
  = match last_for store k b with
    | Some v => Some v
    | None => last_for store k a
    end.
Proof.
  induction a as [| v a IH]; simpl.
  - destruct (last_for store k b); reflexivity.
  - rewrite IH. destruct (last_for store k b); reflexivity.
Qed.

(** Puts into several collections, one after the other: a key of a
    collection without a key generator ends with the last record given
    for it, and a key that no record has keeps what it held. *)
Lemma puts_last store k items :
  forall d d',
    schema_ok d = true -> In store STORES -> store <> "logs" ->
    apply_all (map put_pair items) d = Some d' ->
    record_at store k d'
    = match last_for store k (items_for store items) with
      | Some v => Some v
      | None => record_at store k d
      end.
Proof.
  induction items as [| [st v] rest IH]; intros d d' Hok Hin Hlogs Happ.
  - simpl in Happ. injection Happ as <-. reflexivity.
  - simpl in Happ. unfold put_pair at 1 in Happ. cbn [fst snd] in Happ.
    destruct (IDB.put st v ReadWrite d) as [e | e | a d1] eqn:Ep; try discriminate.
    assert (Hok1 : schema_ok d1 = true)
      by (eapply engine_op_ok; [apply (op_write true) | exact Hok | exact Ep]).
    rewrite (IH d1 d' Hok1 Hin Hlogs Happ).
    unfold items_for. cbn [filter fst].
    destruct (String.eqb_spec st store) as [-> | Hne].
    + cbn [map snd last_for]. fold (items_for store rest).
      destruct (last_for store k (items_for store rest)); [reflexivity |].
      destruct (put_record_at store v d a d1 Hok Hin Hlogs Ep) as (k0 & Hk0 & Hat).
      rewrite Hk0, Hat. destruct (key_eqb k0 k); reflexivity.
    + fold (items_for store rest).
      destruct (last_for store k (items_for store rest)); [reflexivity |].
      apply write_succeeds in Ep. destruct Ep as (s0 & key & s1 & _ & _ & _ & ->).
      apply record_at_set_other. congruence.
Qed.

Lemma items_for_same store vs : items_for store (map (pair store) vs) = vs.
Proof.
  unfold items_for. induction vs as [| v t IH]; simpl; [reflexivity |].
  rewrite String.eqb_refl. simpl. rewrite IH. reflexivity.
Qed.

Lemma bulkPut_run store vs w :
  bulkPut store vs w =
    match run (BulkPut store vs) w with
    | (Resolved _, w') => (Resolved vs, w')
    | (Rejected e, w') => (Rejected e, w')
    end.
Proof.
  unfold run, bulkPut, Body.bulkPut; fold transaction recordLog; unfold bind, ret;
    repeat match goal with
           | |- context [match ?m ?w with _ => _ end] =>
               is_var w; destruct (m w) as [[? | ?] ?]
           end; reflexivity.
Qed.

(** An operation whose requests succeed and leave logs alone, with the
    environment calm and room in the log: it resolves, and the database
    is what the requests left plus the log entry. *)
Lemma run_effect m w d' :
  ready w = true -> calm 2 w = true -> log_room 1 (idb w) = true -> fetchable m w ->
  (forall st, target m = Some st -> In st STORES) ->
  apply_all (requests_of m w) (idb w) = Some d' ->
  find_store "logs" d' = find_store "logs" (idb w) ->
  exists w' s,
    run m w = (Resolved tt, w')
    /\ find_store "logs" (idb w) = Some s
    /\ keygen s <= MAX_GENERATED
    /\ lookup (KNum (keygen s)) (records s) = None
    /\ idb w' = set_store "logs" (logs_after (action m) (payload m) (now w) s) d'
    /\ ready w' = true
    /\ fates w' = tl (tl (fates w)).
Proof.
  intros Hready Hcalm Hroom Hfetch Htarget Happ Hlogs.
  pose proof (ready_schema _ Hready) as Hok.
  destruct (schema_find (idb w) "logs" Hok stores_logs) as (s & Hs & _).
  destruct (log_room_free 1 (idb w) s) as [Hmax Hfree]; [lia | exact Hroom | exact Hs |].
  assert (Hs' : find_store "logs" d' = Some s) by congruence.
  pose proof (run_resolves m w d' s Hready Hcalm Hfetch Htarget Happ Hs' Hmax Hfree) as Hrun.
  eexists _, s. split; [exact Hrun |].
  split; [exact Hs |]. split; [exact Hmax |]. split; [exact Hfree |].
  destruct (run_logged m w _ Hready (calm_log_commits _ Hcalm) Hrun)
    as (d2 & s2 & Happ2 & Hs2 & _ & _ & Hidb).
  assert (d2 = d') by congruence. subst d2.
  assert (s2 = s) by congruence. subst s2.
  split; [exact Hidb |].
  split; [eapply run_ready; eassumption | eapply run_fates; eassumption].
Qed.

Lemma logs_after_records a p t s :
  lookup (KNum (keygen s)) (records s) = None ->
  lookup (KNum (keygen s)) (records (logs_after a p t s))
  = Some (log_entry a p t (keygen s))
  /\ List.length (records (logs_after a p t s)) = S (List.length (records s)).
Proof.
  intros Hfree. unfold logs_after. cbn [records]. split.
  - apply lookup_store_same.
  - rewrite store_absent by exact Hfree. apply length_insert.
Qed.

(** X22. bulkPut into a collection other than logs, of records that all
    carry a key, writes them in the order given: a key ends with the
    last record given for it, and keys that no record has keep what they
    held. It writes one log entry, with the number of records, also when
    there are none. *)
Theorem bulkPut_last_record_wins store vs w :
  ready w = true -> In store STORES -> store <> "logs" ->
  (forall v, In v vs -> record_key store v <> None) ->
  calm 2 w = true -> log_room 1 (idb w) = true ->
  exists w',
    bulkPut store vs w = (Resolved vs, w')
    /\ (forall k, record_at store k (idb w')
                  = match last_for store k vs with
                    | Some v => Some v
                    | None => record_at store k (idb w)
                    end)
    /\ record_at "logs" (KNum (log_keygen (idb w))) (idb w')
       = Some (log_entry "bulkPut"
                 (JObj [("store", JStr store);
                        ("count", JNum (Z.of_nat (List.length vs)))])
                 (now w) (log_keygen (idb w)))
    /\ List.length (records_of "logs" (idb w'))
       = S (List.length (records_of "logs" (idb w))).
Proof.
  intros Hready Hin Hne Hkeyed Hcalm Hroom.
  pose proof (ready_schema _ Hready) as Hok.
  destruct (apply_all_defined (idb w) (map (IDB.put store) vs)) with (d := idb w)
    as (d' & Happ).
  { apply Forall_forall. intros op Hop. apply in_map_iff in Hop.
    destruct Hop as (v & <- & _). apply (op_write true). }
  { apply Forall_forall. intros op Hop. apply in_map_iff in Hop.
    destruct Hop as (v & <- & Hv). apply keyed_put_succeeds; auto. }
  { apply same_schema_refl. }
  assert (Hlogs : find_store "logs" d' = find_store "logs" (idb w)).
  { eapply (requests_elsewhere (BulkPut store vs)); [reflexivity | | exact Happ].
    congruence. }
  destruct (run_effect (BulkPut store vs) w d' Hready Hcalm Hroom I) as
    (w' & s & Hrun & Hs & Hmax & Hfree & Hidb & _); auto.
  { intros st [= <-]. exact Hin. }
  exists w'. split; [rewrite bulkPut_run, Hrun; reflexivity |].
  assert (Hs' : find_store "logs" d' = Some s) by congruence.
  assert (Hg : log_keygen (idb w) = keygen s) by (unfold log_keygen; rewrite Hs; reflexivity).
  destruct (logs_after_records "bulkPut" (payload (BulkPut store vs)) (now w) s Hfree)
    as [Hentry Hlen].
  rewrite Hidb. split; [| split].
  - intros k. rewrite record_at_set_other by exact Hne.
    cbn [requests_of] in Happ. rewrite apply_puts in Happ.
    rewrite (puts_last store k _ (idb w) d' Hok Hin Hne Happ).
    rewrite items_for_same. reflexivity.
  - rewrite (record_at_set_same "logs" s _ _ d' Hs'). rewrite Hg. exact Hentry.
  - unfold records_of. rewrite (find_store_set_same _ _ _ _ Hs'), Hs. exact Hlen.
Qed.

Lemma bulkPut_last_record_wins_witness :
  let w := Scenario.two_puts in
  let vs := [Scenario.chat1b; Scenario.chat3; Scenario.chat1] in
  exists w',
    bulkPut "chats" vs w = (Resolved vs, w')
    /\ (forall k, record_at "chats" k (idb w')
                  = match last_for "chats" k vs with
                    | Some v => Some v
                    | None => record_at "chats" k (idb w)
                    end)
    /\ record_at "logs" (KNum (log_keygen (idb w))) (idb w')
       = Some (log_entry "bulkPut"
                 (JObj [("store", JStr "chats");
                        ("count", JNum (Z.of_nat (List.length vs)))])
                 (now w) (log_keygen (idb w)))
    /\ List.length (records_of "logs" (idb w'))
       = S (List.length (records_of "logs" (idb w))).
Proof.
  apply (bulkPut_last_record_wins "chats"
           [Scenario.chat1b; Scenario.chat3; Scenario.chat1] Scenario.two_puts).
  - vm_compute. reflexivity.
  - vm_compute. tauto.
  - discriminate.
  - intros v [<- | [<- | [<- | []]]]; vm_compute; discriminate.
  - vm_compute. reflexivity.
  - vm_compute. reflexivity.
Defined.

End Batches.

(* ===================================================================== *)
(** ** delete *)
(* ===================================================================== *)

Section Deleting.
Import IDB DataLayer Contract.

(** What a delete in a collection other than logs leaves, with the
    environment calm and room in the log. *)
Lemma delete_effect store k w :
  ready w = true -> In store STORES -> store <> "logs" ->
  calm 2 w = true -> log_room 1 (idb w) = true ->
  exists w',
    delete store k w = (Resolved tt, w')
    /\ ready w' = true
    /\ fates w' = tl (tl (fates w))
    /\ records_of store (idb w') = remove k (records_of store (idb w)).
Proof.
  intros Hready Hin Hne Hcalm Hroom.
  pose proof (ready_schema _ Hready) as Hok.
  destruct (schema_find _ _ Hok Hin) as (s0 & Hs0 & _).
  set (d' := set_store store (with_records (remove k (records s0)) s0) (idb w)).
  assert (Hdel : IDB.delete store k ReadWrite (idb w) = Succeeds tt d')
    by (unfold IDB.delete; rewrite Hs0; reflexivity).
  assert (Happ : apply_all (requests_of (Delete store k) w) (idb w) = Some d')
    by (simpl; rewrite Hdel; reflexivity).
  assert (Hlogs : find_store "logs" d' = find_store "logs" (idb w))
    by (apply find_store_set_other; congruence).
  destruct (run_effect (Delete store k) w d' Hready Hcalm Hroom I) as
    (w' & s & Hrun & Hs & _ & _ & Hidb & Hready' & Hfates); auto.
  { intros st [= <-]. exact Hin. }
  exists w'. split; [rewrite delete_run; exact Hrun |].
  split; [exact Hready' |]. split; [exact Hfates |].
  rewrite Hidb. rewrite records_of_set_other by exact Hne.
  unfold records_of, d'. rewrite (find_store_set_same _ _ _ _ Hs0), Hs0. reflexivity.
Qed.

(** X23. delete on a collection other than logs removes the record of
    the key and nothing else: the key holds no record afterwards, and
    every other key of the collection holds what it held. *)
Theorem delete_removes_one_record store k w :
  ready w = true -> In store STORES -> store <> "logs" ->
  calm 2 w = true -> log_room 1 (idb w) = true ->
  exists w',
    delete store k w = (Resolved tt, w')
    /\ record_at store k (idb w') = None
    /\ forall k', k' <> k -> record_at store k' (idb w') = record_at store k' (idb w).
Proof.
  intros Hready Hin Hne Hcalm Hroom.
  destruct (delete_effect store k w Hready Hin Hne Hcalm Hroom)
    as (w' & Hdel & _ & _ & Hrec).
  exists w'. split; [exact Hdel |]. unfold record_at. rewrite Hrec. split.
  - apply lookup_remove_same.
  - intros k' Hk'. apply lookup_remove_other. exact Hk'.
Qed.

Lemma delete_removes_one_record_witness :
  let w := Scenario.two_puts in
  exists w',
    delete "chats" (KStr "c1") w = (Resolved tt, w')
    /\ record_at "chats" (KStr "c1") (idb w') = None
    /\ forall k', k' <> KStr "c1" ->
                  record_at "chats" k' (idb w') = record_at "chats" k' (idb w).
Proof.
  apply (delete_removes_one_record "chats" (KStr "c1") Scenario.two_puts).
  - vm_compute. reflexivity.
  - vm_compute. tauto.
  - discriminate.
  - vm_compute. reflexivity.
  - vm_compute. reflexivity.
Defined.

(** X24. In a collection other than logs, put of a record that carries
    its key and then delete of that key, for a key the collection did
    not hold, leave the collection exactly as it was. *)
Theorem put_then_delete_restores store v k w :
  ready w = true -> In store STORES -> store <> "logs" ->
  record_key store v = Some k -> record_at store k (idb w) = None ->
  calm 4 w = true -> log_room 2 (idb w) = true ->
  exists w1 w2,
    put store v w = (Resolved v, w1)
    /\ delete store k w1 = (Resolved tt, w2)
    /\ records_of store (idb w2) = records_of store (idb w).
Proof.
  intros Hready Hin Hne Hk Habsent Hcalm Hroom.
  assert (Hcalm2 : calm 2 w = true) by (apply calm_less, calm_less; exact Hcalm).
  assert (Hroom1 : log_room 1 (idb w) = true)
    by (apply (calm_less_room 1 2); [lia | exact Hroom]).
  destruct (put_effect store v k w Hready Hin Hne Hk Hcalm2 Hroom1)
    as (w1 & Hput & Hready1 & Hfates1 & Hrec1 & Hroom').
  assert (Hcalm1 : calm 2 w1 = true) by (eapply calm_skip; eassumption).
  assert (Hroom1' : log_room 1 (idb w1) = true) by (apply Hroom'; [lia | exact Hroom]).
  destruct (delete_effect store k w1 Hready1 Hin Hne Hcalm1 Hroom1')
    as (w2 & Hdel & _ & _ & Hrec2).
  exists w1, w2. split; [exact Hput |]. split; [exact Hdel |].
  rewrite Hrec2, Hrec1. unfold IDB.store.
  rewrite remove_insert, remove_remove. apply remove_absent. exact Habsent.
Qed.

Lemma put_then_delete_restores_witness :
  let w := Scenario.two_puts in
  exists w1 w2,
    put "chats" Scenario.chat3 w = (Resolved Scenario.chat3, w1)
    /\ delete "chats" (KStr "c3") w1 = (Resolved tt, w2)
    /\ records_of "chats" (idb w2) = records_of "chats" (idb w).
Proof.
  apply (put_then_delete_restores "chats" Scenario.chat3 (KStr "c3") Scenario.two_puts).
  - vm_compute. reflexivity.
  - vm_compute. tauto.
  - discriminate.
  - vm_compute. reflexivity.
  - vm_compute. reflexivity.
  - vm_compute. reflexivity.
  - vm_compute. reflexivity.
Defined.

End Deleting.

(* ===================================================================== *)
(** ** seed, reset and the first open *)
(* ===================================================================== *)

Section Resetting.
Import IDB DataLayer Contract.

Lemma items_for_app store a b :
  items_for store (a ++ b) = items_for store a ++ items_for store b.
Proof. unfold items_for. rewrite filter_app, map_app. reflexivity. Qed.

Lemma items_for_block store st l :
  items_for store (map (pair st) l) = if String.eqb st store then l else [].
Proof.
  unfold items_for. induction l as [| v t IH]; simpl.
  - destruct (String.eqb st store); reflexivity.
  - destruct (String.eqb st store) eqn:E; simpl; [rewrite IH; reflexivity | exact IH].
Qed.

Lemma items_for_seed data store :
  In store STORES -> store <> "meta" ->
  items_for store (seed_items data) = seed_of store data.
Proof.
  intros Hin Hmeta. unfold seed_items, STORES. cbn [flat_map].
  repeat match goal with
         | |- context [String.eqb ?a "meta"] =>
             let b := eval vm_compute in (String.eqb a "meta") in
             change (String.eqb a "meta") with b; cbv iota
         end.
  rewrite !items_for_app, !items_for_block.
  unfold STORES in Hin. simpl in Hin.
  repeat (destruct Hin as [<- | Hin]; [try congruence; simpl; rewrite ?app_nil_r; reflexivity |]).
  destruct Hin.
Qed.

Lemma marker_key t : record_key "meta" (seeded_marker t) = Some (KStr "seeded").
Proof. reflexivity. Qed.

Lemma stores_meta : In "meta" STORES.
Proof. unfold STORES. simpl. auto. Qed.

(** What seed leaves, with the environment calm, room in the log and a
    seed document whose records all carry a key and which has none for
    logs. *)
Lemma seed_effect data w :
  ready w = true -> calm 2 w = true -> log_room 1 (idb w) = true ->
  seed_json w = inr data -> seed_of "logs" data = [] ->
  (forall store v, In store STORES -> store <> "meta" ->
                   In v (seed_of store data) -> record_key store v <> None) ->
  exists w2 s,
    seed w = (Resolved tt, w2)
    /\ find_store "logs" (idb w) = Some s
    /\ (forall store k, In store STORES -> store <> "meta" -> store <> "logs" ->
          record_at store k (idb w2)
          = match last_for store k (seed_of store data) with
            | Some v => Some v
            | None => record_at store k (idb w)
            end)
    /\ records_of "meta" (idb w2)
       = IDB.store (KStr "seeded") (seeded_marker (now w)) (records_of "meta" (idb w))
    /\ records_of "logs" (idb w2)
       = records (logs_after "seed" (JObj [("info", JStr "Seed database loaded")])
                             (now w) s)
    /\ ready w2 = true
    /\ fetched w2 = S (fetched w).
Proof.
  intros Hready Hcalm Hroom Hjson Hnologs Hkeyed.
  pose proof (ready_schema _ Hready) as Hok.
  assert (Hreq : requests_of Seed w
                 = map put_pair (seed_items data)
                     ++ [IDB.put "meta" (seeded_marker (now w))]).
  { cbn [requests_of]. rewrite Hjson, seed_requests_items. reflexivity. }
  destruct (apply_all_defined (idb w) (requests_of Seed w)) with (d := idb w)
    as (d2 & Happ2).
  { apply Forall_forall. intros op Hop. eapply requests_of_engine. exact Hop. }
  { apply Forall_forall. intros op Hop. rewrite Hreq in Hop.
    apply in_app_or in Hop. destruct Hop as [Hop | [<- | []]].
    - apply in_map_iff in Hop. destruct Hop as ([st v] & <- & Hitem).
      apply in_seed_items in Hitem. destruct Hitem as (Hst & Hmeta & Hv).
      unfold put_pair. cbn [fst snd]. apply keyed_put_succeeds; auto.
    - apply keyed_put_succeeds; [exact Hok | exact stores_meta |].
      rewrite marker_key. discriminate. }
  { apply same_schema_refl. }
  assert (Hlogs2 : find_store "logs" d2 = find_store "logs" (idb w)).
  { apply (apply_all_invariant
             (fun d => find_store "logs" d = find_store "logs" (idb w))
             _ _ _) with (3 := Happ2); [| reflexivity].
    intros op d0 a d3 Hop HP Hrun. rewrite Hreq in Hop.
    apply in_app_or in Hop. destruct Hop as [Hop | [<- | []]].
    - apply in_map_iff in Hop. destruct Hop as ([st v] & <- & Hitem).
      apply in_seed_items in Hitem. destruct Hitem as (Hst & Hmeta & Hv).
      unfold put_pair in Hrun. cbn [fst snd] in Hrun.
      apply write_succeeds in Hrun. destruct Hrun as (s & key & s' & _ & _ & _ & ->).
      rewrite find_store_set_other; [exact HP |].
      intros <-. rewrite Hnologs in Hv. destruct Hv.
    - apply write_succeeds in Hrun. destruct Hrun as (s & key & s' & _ & _ & _ & ->).
      rewrite find_store_set_other; [exact HP | discriminate]. }
  destruct (run_effect Seed w d2 Hready Hcalm Hroom) as
    (w2 & s2 & Hrun2 & Hs2 & _ & _ & Hidb2 & Hready2 & _); auto.
  { exists data. exact Hjson. }
  { intros st [= ]. }
  cbn [action payload] in Hidb2.
  exists w2, s2.
  split; [rewrite seed_run; exact Hrun2 |].
  split; [exact Hs2 |].
  assert (Hfull : apply_all (seed_requests data ++ [IDB.put "meta" (seeded_marker (now w))])
                            (idb w) = Some d2).
  { rewrite seed_requests_items, <- Hreq. exact Happ2. }
  rewrite Hreq, apply_all_app in Happ2.
  destruct (apply_all (map put_pair (seed_items data)) (idb w)) as [d2' |] eqn:Hitems;
    [| discriminate].
  cbn [apply_all] in Happ2.
  destruct (IDB.put "meta" (seeded_marker (now w)) ReadWrite d2') as [e | e | a d3] eqn:Hm;
    try discriminate.
  injection Happ2 as ->.
  split; [| split; [| split; [| split]]].
  - intros store k Hin Hmeta Hne.
    rewrite Hidb2, record_at_set_other by exact Hne.
    pose proof Hm as Hm'. apply write_succeeds in Hm'.
    destruct Hm' as (s & key & s' & _ & _ & _ & ->).
    rewrite record_at_set_other by exact Hmeta.
    rewrite (puts_last store k _ (idb w) d2' Hok Hin Hne Hitems).
    rewrite (items_for_seed data store Hin Hmeta). reflexivity.
  - rewrite Hidb2, records_of_set_other by discriminate.
    destruct (seed_writes data (now w) (idb w) d2 Hok Hfull) as [Hmetarec _].
    exact Hmetarec.
  - unfold records_of. rewrite Hidb2.
    assert (Hl : find_store "logs" d2 = Some s2) by congruence.
    rewrite (find_store_set_same _ _ _ _ Hl). reflexivity.
  - exact Hready2.
  - destruct (run_resolved Seed w w2 Hready Hrun2)
      as (d4 & s4 & _ & _ & _ & _ & _ & _ & _ & ->).
    unfold notify, after_log, settle. cbn [own_event ret snd].
    destruct (commits _); reflexivity.
Qed.

(** X25. With a seed document whose records all carry a key and which
    has no records for logs, seed does not empty the database first: in
    every collection but meta and logs the seed records take their keys
    (the last one given for a key wins) and every other key keeps the
    record it held; meta gets the marker and logs one "seed" entry, under
    the key its generator gives. *)
Theorem seed_merges_into_the_database data w :
  ready w = true -> calm 2 w = true -> log_room 1 (idb w) = true ->
  seed_json w = inr data -> seed_of "logs" data = [] ->
  (forall store v, In store STORES -> store <> "meta" ->
                   In v (seed_of store data) -> record_key store v <> None) ->
  exists w',
    seed w = (Resolved tt, w')
    /\ (forall store k, In store STORES -> store <> "meta" -> store <> "logs" ->
          record_at store k (idb w')
          = match last_for store k (seed_of store data) with
            | Some v => Some v
            | None => record_at store k (idb w)
            end)
    /\ record_at "meta" (KStr "seeded") (idb w') = Some (seeded_marker (now w))
    /\ record_at "logs" (KNum (log_keygen (idb w))) (idb w')
       = Some (log_entry "seed" (JObj [("info", JStr "Seed database loaded")]) (now w)
                         (log_keygen (idb w))).
Proof.
  intros Hready Hcalm Hroom Hjson Hnologs Hkeyed.
  destruct (seed_effect data w Hready Hcalm Hroom Hjson Hnologs Hkeyed)
    as (w2 & s & Hseed & Hs & Hrec & Hmeta & Hlogs & _).
  exists w2. split; [exact Hseed |]. split; [exact Hrec |].
  unfold record_at. rewrite Hmeta, Hlogs. split; [apply lookup_store_same |].
  unfold log_keygen. rewrite Hs. unfold logs_after. cbn [records]. apply lookup_store_same.
Qed.

(** X26. The reset of the developer panel, clearAll and then seed: with
    the environment calm, room in the log and a seed document whose
    records all carry a key and which has no records for logs, both
    resolve, and the database holds exactly the seed: in every
    collection but meta and logs each key holds the last seed record
    given for it and no other key holds anything, meta holds the marker
    alone, and logs holds the "reset" entry and the "seed" entry. *)
Theorem reset_leaves_exactly_the_seed data w :
  ready w = true -> calm 4 w = true -> log_room 2 (idb w) = true ->
  seed_json w = inr data -> seed_of "logs" data = [] ->
  (forall store v, In store STORES -> store <> "meta" ->
                   In v (seed_of store data) -> record_key store v <> None) ->
  exists w1 w2,
    clearAll w = (Resolved tt, w1)
    /\ seed w1 = (Resolved tt, w2)
    /\ (forall store k, In store STORES -> store <> "meta" -> store <> "logs" ->
          record_at store k (idb w2) = last_for store k (seed_of store data))
    /\ records_of "meta" (idb w2) = [(KStr "seeded", seeded_marker (now w))]
    /\ records_of "logs" (idb w2)
       = [(KNum (log_keygen (idb w)),
           log_entry "reset" (JObj [("info", JStr "database cleared")]) (now w)
                     (log_keygen (idb w)));
          (KNum (log_keygen (idb w) + 1),
           log_entry "seed" (JObj [("info", JStr "Seed database loaded")]) (now w)
                     (log_keygen (idb w) + 1))].
Proof.
  intros Hready Hcalm Hroom Hjson Hnologs Hkeyed.
  pose proof (ready_schema _ Hready) as Hok.
  assert (Hcalm2 : calm 2 w = true)
    by (apply calm_less, calm_less; exact Hcalm).
  destruct (apply_all_defined (idb w) (map IDB.clear STORES)) with (d := idb w)
    as (d1 & Happ1).
  { apply Forall_forall. intros op Hop. apply in_map_iff in Hop.
    destruct Hop as (n & <- & _). apply op_clear. }
  { apply Forall_forall. intros op Hop. apply in_map_iff in Hop.
    destruct Hop as (n & <- & Hn). apply clear_succeeds_always; assumption. }
  { apply same_schema_refl. }
  pose proof (clears_empty STORES (idb w) d1 Happ1) as Hempty.
  pose proof (clears_keep_keygen STORES (idb w) d1 Happ1) as Hgen.
  assert (Hok1 : schema_ok d1 = true).
  { apply (same_schema_ok (idb w)); [| exact Hok].
    apply (requests_keep_schema ClearAll w). exact Happ1. }
  destruct (schema_find d1 "logs" Hok1 stores_logs) as (s1 & Hs1 & Hspec1).
  assert (Hrec1 : records s1 = []).
  { pose proof (Hempty "logs" stores_logs) as H. unfold records_of in H.
    rewrite Hs1 in H. exact H. }
  assert (Hg1 : keygen s1 = log_keygen (idb w)).
  { unfold log_keygen in Hgen at 1. rewrite Hs1 in Hgen. exact Hgen. }
  assert (Hmax : log_keygen (idb w) + 2 <= MAX_GENERATED + 1).
  { unfold log_room in Hroom. apply andb_true_iff in Hroom as [H _].
    apply Z.leb_le in H. exact H. }
  assert (Hrun1 : exists w1, run ClearAll w = (Resolved tt, w1)).
  { eexists. apply (run_resolves ClearAll w d1 s1 Hready Hcalm2 I); auto.
    - intros st [= ].
    - lia.
    - rewrite Hrec1. reflexivity. }
  destruct Hrun1 as (w1 & Hrun1).
  destruct (run_logged ClearAll w w1 Hready (calm_log_commits _ Hcalm2) Hrun1)
    as (d1' & s1' & Happ1' & Hs1' & _ & _ & Hidb1).
  assert (d1' = d1) by (cbn [requests_of] in Happ1'; congruence). subst d1'.
  assert (s1' = s1) by congruence. subst s1'.
  cbn [action payload] in Hidb1.
  pose proof (run_ready _ _ _ Hready Hrun1) as Hready1.
  pose proof (run_fates _ _ _ Hready Hrun1) as Hfates1.
  destruct (run_keeps (fun _ => True) ClearAll w (Resolved tt) w1)
    as ((_ & _ & _ & _ & Hjson1 & Hnow1) & _); auto.
  { apply ready_db. exact Hready. }
  assert (Hcalm1 : calm 2 w1 = true) by (eapply calm_skip; eassumption).
  set (l1 := logs_after "reset" (JObj [("info", JStr "database cleared")]) (now w) s1) in *.
  assert (Hl1 : records l1
                = [(KNum (log_keygen (idb w)),
                    log_entry "reset" (JObj [("info", JStr "database cleared")]) (now w)
                              (log_keygen (idb w)))]
                /\ keygen l1 = log_keygen (idb w) + 1).
  { subst l1. unfold logs_after. cbn [records keygen]. rewrite Hrec1, Hg1. auto. }
  destruct Hl1 as [Hl1r Hl1g].
  assert (Hfind1 : find_store "logs" (idb w1) = Some l1)
    by (rewrite Hidb1; apply (find_store_set_same _ s1); exact Hs1).
  assert (Hroom1 : log_room 1 (idb w1) = true).
  { unfold log_room, log_keygen, records_of. rewrite Hfind1, Hl1r, Hl1g.
    apply andb_true_iff. split; [apply Z.leb_le; lia |].
    simpl. rewrite andb_true_r. apply Z.ltb_lt. lia. }
  assert (Hcleared : forall store, In store STORES -> store <> "logs" ->
                                   records_of store (idb w1) = []).
  { intros store Hin Hne. rewrite Hidb1, records_of_set_other by exact Hne.
    apply Hempty. exact Hin. }
  rewrite <- Hjson1 in Hjson.
  destruct (seed_effect data w1 Hready1 Hcalm1 Hroom1 Hjson Hnologs Hkeyed)
    as (w2 & s2 & Hseed & Hs2 & Hrec & Hmeta & Hlogs & _).
  assert (s2 = l1) by congruence. subst s2.
  exists w1, w2.
  split; [rewrite clearAll_run; exact Hrun1 |].
  split; [exact Hseed |].
  split; [| split].
  - intros store k Hin Hm Hne. rewrite (Hrec store k Hin Hm Hne).
    destruct (last_for store k (seed_of store data)); [reflexivity |].
    unfold record_at. rewrite (Hcleared store Hin Hne). reflexivity.
  - rewrite Hmeta, (Hcleared "meta" stores_meta) by discriminate.
    rewrite Hnow1. reflexivity.
  - rewrite Hlogs, Hnow1. unfold logs_after. cbn [records]. rewrite Hl1r, Hl1g.
    unfold IDB.store, remove. cbn [filter fst key_eqb].
    assert (Hneq : (log_keygen (idb w) =? log_keygen (idb w) + 1) = false)
      by (apply Z.eqb_neq; lia).
    rewrite Hneq. cbn [negb insert key_compare].
    assert (Hgt : (log_keygen (idb w) + 1 ?= log_keygen (idb w)) = Gt)
      by (apply Z.compare_gt_iff; lia).
    rewrite Hgt. reflexivity.
Qed.

Ltac seed_records_keyed :=
  let store := fresh "store" in
  let v := fresh "v" in
  let Hin := fresh "Hin" in
  let Hv := fresh "Hv" in
  intros store v Hin _ Hv; unfold STORES in Hin; simpl in Hin;
  repeat (destruct Hin as [<- | Hin];
          [vm_compute in Hv;
           repeat (destruct Hv as [<- | Hv]; [vm_compute; discriminate |]);
           destruct Hv |]);
  destruct Hin.

Lemma seed_merges_into_the_database_witness :
  let w := snd (put "chats" Scenario.chat2 Cases.seeded_page) in
  let data := [("chats", [Scenario.chat1]); ("messages", [Scenario.message1])] in
  exists w',
    seed w = (Resolved tt, w')
    /\ (forall store k, In store STORES -> store <> "meta" -> store <> "logs" ->
          record_at store k (idb w')
          = match last_for store k (seed_of store data) with
            | Some v => Some v
            | None => record_at store k (idb w)
            end)
    /\ record_at "meta" (KStr "seeded") (idb w') = Some (seeded_marker (now w))
    /\ record_at "logs" (KNum (log_keygen (idb w))) (idb w')
       = Some (log_entry "seed" (JObj [("info", JStr "Seed database loaded")]) (now w)
                         (log_keygen (idb w))).
Proof.
  apply (seed_merges_into_the_database
           [("chats", [Scenario.chat1]); ("messages", [Scenario.message1])]
           (snd (put "chats" Scenario.chat2 Cases.seeded_page))).
  - vm_compute. reflexivity.
  - vm_compute. reflexivity.
  - vm_compute. reflexivity.
  - vm_compute. reflexivity.
  - vm_compute. reflexivity.
  - seed_records_keyed.
Defined.

Lemma reset_leaves_exactly_the_seed_witness :
  let w := snd (put "chats" Scenario.chat2 Cases.seeded_page) in
  let data := [("chats", [Scenario.chat1]); ("messages", [Scenario.message1])] in
  exists w1 w2,
    clearAll w = (Resolved tt, w1)
    /\ seed w1 = (Resolved tt, w2)
    /\ (forall store k, In store STORES -> store <> "meta" -> store <> "logs" ->
          record_at store k (idb w2) = last_for store k (seed_of store data))
    /\ records_of "meta" (idb w2) = [(KStr "seeded", seeded_marker (now w))]
    /\ records_of "logs" (idb w2)
       = [(KNum (log_keygen (idb w)),
           log_entry "reset" (JObj [("info", JStr "database cleared")]) (now w)
                     (log_keygen (idb w)));
          (KNum (log_keygen (idb w) + 1),
           log_entry "seed" (JObj [("info", JStr "Seed database loaded")]) (now w)
                     (log_keygen (idb w) + 1))].
Proof.
  apply (reset_leaves_exactly_the_seed
           [("chats", [Scenario.chat1]); ("messages", [Scenario.message1])]
           (snd (put "chats" Scenario.chat2 Cases.seeded_page))).
  - vm_compute. reflexivity.
  - vm_compute. reflexivity.
  - vm_compute. reflexivity.
  - vm_compute. reflexivity.
  - vm_compute. reflexivity.
  - seed_records_keyed.
Defined.

Lemma records_of_empty store d :
  Forall (fun p => records (snd p) = []) d -> records_of store d = [].
Proof.
  unfold records_of. induction 1 as [| [n s] t Hs _ IH]; simpl; [reflexivity |].
  destruct (String.eqb n store); [exact Hs | exact IH].
Qed.

Lemma created_empty store : records_of store (onupgradeneeded []) = [].
Proof. apply records_of_empty. vm_compute. repeat constructor. Qed.

(** X27. The first open on a browser that has no database yet, with the
    environment calm and a seed document whose records all carry a key
    and which has no records for logs: it resolves, having created the
    collections and fetched the seed document once, and the database
    holds exactly the seed: each key the last seed record given for it,
    the marker alone in meta, and one "seed" entry in logs, with id 1. *)
Theorem first_open_creates_and_seeds data w :
  openable w = true -> idb_version w = 0 -> calm 3 w = true ->
  seed_json w = inr data -> seed_of "logs" data = [] ->
  (forall store v, In store STORES -> store <> "meta" ->
                   In v (seed_of store data) -> record_key store v <> None) ->
  exists w1,
    open w = (Resolved tt, w1)
    /\ ready w1 = true
    /\ fetched w1 = S (fetched w)
    /\ (forall store k, In store STORES -> store <> "meta" -> store <> "logs" ->
          record_at store k (idb w1) = last_for store k (seed_of store data))
    /\ records_of "meta" (idb w1) = [(KStr "seeded", seeded_marker (now w))]
    /\ records_of "logs" (idb w1)
       = [(KNum 1,
           log_entry "seed" (JObj [("info", JStr "Seed database loaded")]) (now w) 1)].
Proof.
  intros Hopen Hv0 Hcalm Hjson Hnologs Hkeyed.
  destruct (openable_facts w Hopen) as (Hdb & Hof & Hv & Hready).
  destruct (connected_env w Hv) as (_ & _ & Hf & _).
  destruct (connected_fates w) as [Hfates Hjsonc].
  assert (Hidb : idb (connected w) = onupgradeneeded []).
  { unfold openable in Hopen. rewrite !andb_true_iff in Hopen.
    destruct Hopen as [_ Hcase]. apply orb_true_iff in Hcase as [Hnew | Hold].
    - apply andb_true_iff in Hnew as [_ Hempty].
      destruct (idb w) eqn:Ei; [| discriminate].
      unfold connected. rewrite Hv0, Ei. reflexivity.
    - apply andb_true_iff in Hold as [Hold _]. apply Z.eqb_eq in Hold.
      rewrite Hv0 in Hold. discriminate. }
  assert (Hnow : now (connected w) = now w)
    by (unfold connected; destruct (idb_version w <? DB_VERSION); reflexivity).
  destruct (schema_find _ "meta" (ready_schema _ Hready) stores_meta) as (sm & Hsm & _).
  assert (Hmeta0 : records sm = []).
  { pose proof (created_empty "meta") as H. rewrite <- Hidb in H.
    unfold records_of in H. rewrite Hsm in H. exact H. }
  set (wc := pop (connected w)).
  assert (Hcalmc : calm 3 (connected w) = true) by (unfold calm; rewrite Hfates; exact Hcalm).
  destruct (calm_next _ _ Hcalmc) as [Hnext Hcalm2].
  rewrite (open_eq w Hdb Hof Hv).
  rewrite (get_eq "meta" (KStr "seeded") (connected w) sm (ready_db _ Hready) Hsm).
  2:{ unfold fails_now, fresh_tx. cbn [tx_fate]. rewrite Hnext. reflexivity. }
  rewrite Hmeta0. cbn [lookup]. fold wc.
  assert (Hroomc : log_room 1 (idb wc) = true)
    by (change (idb wc) with (idb (connected w)); rewrite Hidb; vm_compute; reflexivity).
  assert (Hjsonw : seed_json wc = inr data)
    by (change (seed_json wc) with (seed_json (connected w)); congruence).
  destruct (seed_effect data wc Hready Hcalm2 Hroomc Hjsonw Hnologs Hkeyed)
    as (w2 & s & Hseed & Hs & Hrec & Hmeta & Hlogs & Hready2 & Hfetched).
  exists w2. split; [exact Hseed |]. split; [exact Hready2 |].
  split; [rewrite Hfetched; change (fetched wc) with (fetched (connected w)); congruence |].
  change (idb wc) with (idb (connected w)) in *.
  change (now wc) with (now (connected w)) in *.
  rewrite Hidb in Hrec, Hmeta, Hs. rewrite Hnow in Hmeta, Hlogs.
  split; [| split].
  - intros store k Hin Hm Hne. rewrite (Hrec store k Hin Hm Hne).
    destruct (last_for store k (seed_of store data)); [reflexivity |].
    unfold record_at. rewrite created_empty. reflexivity.
  - rewrite Hmeta, created_empty. reflexivity.
  - rewrite Hlogs. vm_compute in Hs. injection Hs as <-. reflexivity.
Qed.

Lemma first_open_creates_and_seeds_witness :
  let w := Scenario.fresh in
  let data := [("chats", [Scenario.chat1]); ("messages", [Scenario.message1])] in
  exists w1,
    open w = (Resolved tt, w1)
    /\ ready w1 = true
    /\ fetched w1 = S (fetched w)
    /\ (forall store k, In store STORES -> store <> "meta" -> store <> "logs" ->
          record_at store k (idb w1) = last_for store k (seed_of store data))
    /\ records_of "meta" (idb w1) = [(KStr "seeded", seeded_marker (now w))]
    /\ records_of "logs" (idb w1)
       = [(KNum 1,
           log_entry "seed" (JObj [("info", JStr "Seed database loaded")]) (now w) 1)].
Proof.
  apply (first_open_creates_and_seeds
           [("chats", [Scenario.chat1]); ("messages", [Scenario.message1])]
           Scenario.fresh).
  - vm_compute. reflexivity.
  - reflexivity.
  - vm_compute. reflexivity.
  - vm_compute. reflexivity.
  - vm_compute. reflexivity.
  - seed_records_keyed.
Defined.

End Resetting.

(* ===================================================================== *)
(** ** The upgrade of open *)
(* ===================================================================== *)

Section Upgrading.
Import IDB DataLayer Contract.

Lemma find_store_app name d1 d2 :
  find_store name (d1 ++ d2)
  = match find_store name d1 with
    | Some s => Some s
    | None => find_store name d2
    end.
Proof.
  induction d1 as [| [n s] t IH]; simpl; [reflexivity |].
  destruct (String.eqb n name); [reflexivity | exact IH].
Qed.

Lemma create_missing_keeps d store name s :
  find_store name d = Some s -> find_store name (create_missing d store) = Some s.
Proof.
  intros H. unfold create_missing. destruct (contains store d); [exact H |].
  rewrite find_store_app, H. reflexivity.
Qed.

Lemma create_missing_creates d store :
  find_store store d = None ->
  find_store store (create_missing d store)
  = Some (mkStore (createObjectStore store) [] 1).
Proof.
  intros H. unfold create_missing, contains. rewrite H.
  rewrite find_store_app, H. simpl. rewrite String.eqb_refl. reflexivity.
Qed.

Lemma create_missing_other d store name :
  name <> store -> find_store name (create_missing d store) = find_store name d.
Proof.
  intros Hne. unfold create_missing. destruct (contains store d); [reflexivity |].
  rewrite find_store_app. destruct (find_store name d); [reflexivity |].
  simpl. destruct (String.eqb_spec store name); [congruence | reflexivity].
Qed.

Lemma upgrade_fold names :
  forall d name,
    match find_store name d with
    | Some s => find_store name (fold_left create_missing names d) = Some s
    | None =>
        find_store name (fold_left create_missing names d)
        = if existsb (String.eqb name) names
          then Some (mkStore (createObjectStore name) [] 1)
          else None
    end.
Proof.
  induction names as [| n rest IH]; intros d name; simpl.
  - destruct (find_store name d); reflexivity.
  - destruct (find_store name d) as [s |] eqn:E.
    + specialize (IH (create_missing d n) name).
      rewrite (create_missing_keeps d n name s E) in IH. exact IH.
    + specialize (IH (create_missing d n) name).
      destruct (String.eqb_spec name n) as [-> | Hne].
      * rewrite (create_missing_creates d n E) in IH. exact IH.
      * rewrite (create_missing_other d n name Hne), E in IH. exact IH.
Qed.

(** X28. The upgrade of open creates the collections that are missing
    and leaves the others alone: a collection the database has keeps its
    records, its key generator and its indexes; one of STORES that it
    does not have is created empty, with the key path and the indexes of
    its name; nothing else is created. *)
Theorem upgrade_creates_only_what_is_missing d name :
  match find_store name d with
  | Some s => find_store name (onupgradeneeded d) = Some s
  | None =>
      find_store name (onupgradeneeded d)
      = if existsb (String.eqb name) STORES
        then Some (mkStore (createObjectStore name) [] 1)
        else None
  end.
Proof. exact (upgrade_fold STORES d name). Qed.

End Upgrading.

(* ===================================================================== *)
(** ** put, in every collection *)
(* ===================================================================== *)

Section KeyedPut.
Import IDB DataLayer Contract.

Lemma bump_le k g n :
  g <= n -> (forall i, k = KNum i -> i + 1 <= n) -> n <= MAX_GENERATED -> bump k g <= n.
Proof.
  intros Hg Hk Hn. destruct k as [i | |]; unfold bump; try exact Hg.
  specialize (Hk i eq_refl). cbv zeta.
  pose proof (Z.le_min_l i MAX_GENERATED) as Hmin.
  destruct (g <=? Z.min i MAX_GENERATED); [| exact Hg].
  revert Hmin. generalize (Z.min i MAX_GENERATED). intros z Hz. lia.
Qed.

Lemma bump_apart k g : bump k g <= MAX_GENERATED -> k <> KNum (bump k g).
Proof.
  intros Hmax. destruct k as [i | |]; try discriminate.
  pose proof (bump_past i g) as Hp. revert Hmax Hp.
  generalize (bump (KNum i) g). intros b Hmax Hp [= H]. lia.
Qed.

Lemma below_weaken g g' k : g <= g' -> below g k = true -> below g' k = true.
Proof.
  intros Hle. destruct k as [i | |]; unfold below; auto.
  rewrite !Z.ltb_lt. lia.
Qed.

Lemma in_store k v rs x : In x (store k v rs) -> x = (k, v) \/ In x rs.
Proof.
  unfold store. intros H. apply in_insert in H. destruct H as [H | H]; [auto |].
  unfold remove in H. apply filter_In in H. tauto.
Qed.

(** What a put of a keyed record leaves, in any collection, with the
    environment calm and room in the log: [d1] is the database after
    the put's own transaction, [g] the id of the log entry. *)
Lemma put_keyed_effect store v k w :
  ready w = true -> In store STORES -> record_key store v = Some k ->
  calm 2 w = true -> log_room 1 (idb w) = true -> key_room 1 store k ->
  exists w' d1 g,
    put store v w = (Resolved v, w')
    /\ ready w' = true
    /\ fates w' = tl (tl (fates w))
    /\ now w' = now w
    /\ records_of store d1 = IDB.store k v (records_of store (idb w))
    /\ (forall other, other <> store -> records_of other d1 = records_of other (idb w))
    /\ g = (if String.eqb store "logs" then bump k (log_keygen (idb w))
            else log_keygen (idb w))
    /\ (store = "logs" -> below g k = true)
    /\ lookup (KNum g) (records_of "logs" d1) = None
    /\ records_of "logs" (idb w')
       = IDB.store (KNum g)
           (log_entry "put" (JObj [("store", JStr store); ("value", v)]) (now w) g)
           (records_of "logs" d1)
    /\ (forall other, other <> "logs" -> records_of other (idb w') = records_of other d1)
    /\ log_keygen (idb w') = g + 1
    /\ (forall n, 0 <= n -> log_room (n + 1) (idb w) = true -> key_room (n + 1) store k ->
                  log_room n (idb w') = true).
Proof.
  intros Hready Hin Hk Hcalm Hroom Hkey.
  pose proof (ready_schema _ Hready) as Hok.
  destruct (schema_find _ _ Hok Hin) as (s0 & Hs0 & Hspec0).
  destruct (schema_find _ _ Hok stores_logs) as (sl & Hsl & Hspecl).
  set (g0 := keygen s0).
  set (s1 := mkStore (spec s0) (IDB.store k v (records s0))
                     (if autoIncrement (spec s0) then bump k (keygen s0) else keygen s0)).
  set (d1 := set_store store s1 (idb w)).
  assert (Hput : IDB.put store v ReadWrite (idb w) = Succeeds tt d1).
  { unfold IDB.put, write. rewrite Hs0, (check_value_keyed store s0 v k Hspec0 Hk).
    reflexivity. }
  assert (Happ : apply_all (requests_of (Put store v) w) (idb w) = Some d1)
    by (simpl; rewrite Hput; reflexivity).
  assert (Hrecs : records_of store d1 = IDB.store k v (records_of store (idb w))).
  { unfold records_of, d1. rewrite (find_store_set_same _ _ _ _ Hs0), Hs0. reflexivity. }
  assert (Hothers : forall other, other <> store ->
                                  records_of other d1 = records_of other (idb w)).
  { intros other Hne. unfold d1. apply records_of_set_other. exact Hne. }
  assert (Hg0 : log_keygen (idb w) = keygen sl) by (unfold log_keygen; rewrite Hsl; reflexivity).
  assert (Hroom0 : keygen sl + 1 <= MAX_GENERATED + 1
                   /\ forall r, In r (records sl) -> below (keygen sl) (fst r) = true).
  { unfold log_room, records_of in Hroom. rewrite Hg0, Hsl in Hroom.
    apply andb_true_iff in Hroom as [H1 H2]. apply Z.leb_le in H1.
    rewrite forallb_forall in H2. auto. }
  destruct Hroom0 as [Hmax0 Hbelow0].
  (* the logs collection after the put's own transaction *)
  assert (Hlogs1 : exists s1l,
             find_store "logs" d1 = Some s1l
             /\ keygen s1l = (if String.eqb store "logs" then bump k (keygen sl)
                              else keygen sl)
             /\ keygen s1l <= MAX_GENERATED
             /\ (store = "logs" -> below (keygen s1l) k = true)
             /\ (forall r, In r (records s1l) -> below (keygen s1l) (fst r) = true)
             /\ (forall n, 0 <= n -> log_room (n + 1) (idb w) = true ->
                           key_room (n + 1) store k -> keygen s1l + n <= MAX_GENERATED)).
  { destruct (String.eqb_spec store "logs") as [-> | Hne].
    - assert (s0 = sl) by congruence. subst s0.
      exists s1. unfold d1. rewrite (find_store_set_same _ _ _ _ Hsl).
      assert (Hauto : autoIncrement (spec sl) = true) by (rewrite Hspecl; reflexivity).
      assert (Hgen : keygen s1 = bump k (keygen sl))
        by (unfold s1; cbn [keygen]; rewrite Hauto; reflexivity).
      assert (Hle : bump k (keygen sl) <= MAX_GENERATED).
      { apply bump_le; [lia | | lia]. intros i Hi. exact (Hkey eq_refl i Hi). }
      assert (Hbk : below (bump k (keygen sl)) k = true).
      { destruct k as [i | |]; unfold below; try reflexivity.
        apply Z.ltb_lt. pose proof (bump_past i (keygen sl)) as Hp.
        revert Hle Hp. generalize (bump (KNum i) (keygen sl)). intros b Hle Hp. lia. }
      split; [reflexivity |]. rewrite Hgen.
      split; [reflexivity |]. split; [exact Hle |].
      split; [intros _; exact Hbk |].
      split.
      + intros r Hr. unfold s1 in Hr. cbn [records] in Hr.
        apply in_store in Hr. destruct Hr as [-> | Hr].
        * exact Hbk.
        * apply (below_weaken (keygen sl)); [apply bump_ge | apply Hbelow0; exact Hr].
      + intros n Hn Hr Hkr.
        assert (bump k (keygen sl) <= MAX_GENERATED - n); [| lia].
        apply bump_le.
        * unfold log_room in Hr. rewrite Hg0 in Hr.
          apply andb_true_iff in Hr as [H1 _]. apply Z.leb_le in H1. lia.
        * intros i Hi. specialize (Hkr eq_refl i Hi). lia.
        * lia.
    - exists sl. unfold d1. rewrite find_store_set_other by congruence.
      split; [exact Hsl |]. split; [reflexivity |]. split; [lia |].
      split; [intros E; contradiction |]. split; [exact Hbelow0 |].
      intros n Hn Hr _. unfold log_room in Hr. rewrite Hg0 in Hr.
      apply andb_true_iff in Hr as [H1 _]. apply Z.leb_le in H1. lia. }
  destruct Hlogs1 as (s1l & Hs1l & Hgen1 & Hmax1 & Hapart & Hbelow1 & Hrooms).
  assert (Hfree1 : lookup (KNum (keygen s1l)) (records s1l) = None).
  { destruct (lookup (KNum (keygen s1l)) (records s1l)) as [x |] eqn:E; [| reflexivity].
    apply lookup_in in E. specialize (Hbelow1 _ E). simpl in Hbelow1.
    apply Z.ltb_lt in Hbelow1. lia. }
  assert (Hrun : exists w', run (Put store v) w = (Resolved tt, w')).
  { eexists. apply (run_resolves (Put store v) w d1 s1l Hready Hcalm I); auto.
    intros st [= <-]. exact Hin. }
  destruct Hrun as (w' & Hrun).
  destruct (run_logged (Put store v) w w' Hready (calm_log_commits _ Hcalm) Hrun)
    as (d2 & s2 & Happ2 & Hs2 & _ & _ & Hidb).
  assert (d2 = d1) by congruence. subst d2.
  assert (s2 = s1l) by congruence. subst s2.
  cbn [action payload] in Hidb.
  destruct (run_keeps (fun _ => True) (Put store v) w (Resolved tt) w')
    as ((_ & _ & _ & _ & _ & Hnow) & _); auto.
  { apply ready_db. exact Hready. }
  assert (Hgd : log_keygen d1 = keygen s1l) by (unfold log_keygen; rewrite Hs1l; reflexivity).
  assert (Hrl : records_of "logs" d1 = records s1l)
    by (unfold records_of; rewrite Hs1l; reflexivity).
  exists w', d1, (keygen s1l).
  split; [rewrite put_run, Hrun; reflexivity |].
  split; [eapply run_ready; eassumption |].
  split; [eapply run_fates; eassumption |].
  split; [exact Hnow |].
  split; [exact Hrecs |]. split; [exact Hothers |].
  split; [rewrite Hg0; exact Hgen1 |].
  split; [exact Hapart |].
  split; [rewrite Hrl; exact Hfree1 |].
  split.
  { rewrite Hidb. unfold records_of at 1. rewrite (find_store_set_same _ _ _ _ Hs1l).
    rewrite Hrl. reflexivity. }
  split.
  { intros other Hne. rewrite Hidb. apply records_of_set_other. exact Hne. }
  split.
  { rewrite Hidb. unfold log_keygen. rewrite (find_store_set_same _ _ _ _ Hs1l).
    reflexivity. }
  intros n Hn Hr Hkr. unfold log_room, log_keygen, records_of. rewrite Hidb.
  rewrite (find_store_set_same _ _ _ _ Hs1l). unfold logs_after. cbn [keygen records].
  apply andb_true_iff. split.
  - apply Z.leb_le. specialize (Hrooms n Hn Hr Hkr). lia.
  - apply forallb_forall. intros r Hin'. apply in_store in Hin'.
    destruct Hin' as [-> | Hin'].
    + simpl. apply Z.ltb_lt. lia.
    + apply (below_weaken (keygen s1l)); [lia | apply Hbelow1; exact Hin'].
Qed.

Lemma held_insert k k' v rs :
  held k (insert k' v rs) = ((if key_eqb k' k then 1 else 0) + held k rs)%nat.
Proof.
  unfold held. induction rs as [| [k0 v0] t IH]; simpl.
  - destruct (key_eqb k' k); reflexivity.
  - destruct (key_compare k' k0); simpl;
      destruct (key_eqb k' k), (key_eqb k0 k); simpl; try rewrite IH;
      try reflexivity; simpl; lia.
Qed.

Lemma held_remove_same k rs : held k (remove k rs) = 0%nat.
Proof.
  unfold held, remove. induction rs as [| [k0 v0] t IH]; simpl; [reflexivity |].
  destruct (key_eqb k0 k) eqn:E; simpl; [exact IH | rewrite E; exact IH].
Qed.

Lemma held_remove_other k k' rs : k' <> k -> held k (remove k' rs) = held k rs.
Proof.
  intros Hne. unfold held, remove. induction rs as [| [k0 v0] t IH]; simpl; [reflexivity |].
  destruct (key_eqb k0 k') eqn:E; simpl.
  - apply key_eqb_eq in E. subst k0.
    assert (key_eqb k' k = false) as -> by (apply key_eqb_neq; exact Hne). exact IH.
  - destruct (key_eqb k0 k); simpl; rewrite IH; reflexivity.
Qed.

Lemma length_remove k rs : (List.length (remove k rs) + held k rs = List.length rs)%nat.
Proof.
  unfold held, remove. induction rs as [| [k0 v0] t IH]; simpl; [reflexivity |].
  destruct (key_eqb k0 k); simpl; lia.
Qed.

Lemma held_store_same k v rs : held k (store k v rs) = 1%nat.
Proof.
  unfold store. rewrite held_insert, held_remove_same, key_eqb_refl. reflexivity.
Qed.

Lemma held_store_other k k' v rs : k' <> k -> held k (store k' v rs) = held k rs.
Proof.
  intros Hne. unfold store. rewrite held_insert, held_remove_other by exact Hne.
  assert (key_eqb k' k = false) as -> by (apply key_eqb_neq; exact Hne). reflexivity.
Qed.

Lemma length_store_held k v rs :
  held k rs = 1%nat -> List.length (store k v rs) = List.length rs.
Proof.
  intros H. unfold store. rewrite length_insert.
  pose proof (length_remove k rs). lia.
Qed.

Lemma bump_below k g : below g k = true -> bump k g = g.
Proof.
  destruct k as [i | |]; unfold below, bump; try reflexivity.
  intros H. apply Z.ltb_lt in H. cbv zeta.
  pose proof (Z.le_min_l i MAX_GENERATED) as Hmin. revert Hmin.
  generalize (Z.min i MAX_GENERATED). intros z Hz.
  destruct (g <=? z) eqn:E; [apply Z.leb_le in E; lia | reflexivity].
Qed.

Lemma below_apart g k : below g k = true -> k <> KNum g.
Proof. intros H ->. unfold below in H. apply Z.ltb_lt in H. lia. Qed.

Lemma key_room_less n n' store k : n <= n' -> key_room n' store k -> key_room n store k.
Proof. intros Hle H E i Hi. specialize (H E i Hi). lia. Qed.

End KeyedPut.

Section Twice.
Import IDB DataLayer Contract.

(** C6, amended. On the open engine, in every collection, logs
    included: two puts of records with the same key leave the second
    record under that key, whole. In a collection other than logs every
    other key is as after the first put and getAll returns as many
    records after the second put as after the first. In logs the second
    put adds its own log entry: every key but that of the record and
    that of the entry is as after the first put, and getAll returns
    exactly one record more, the entry. (With the environment calm, so
    that the log transactions commit, room in the log, and, in logs, an
    id that leaves room for two generated keys after it.) *)
Theorem put_twice_overwrites store v1 v2 k w :
  ready w = true -> In store STORES ->
  record_key store v1 = Some k -> record_key store v2 = Some k ->
  calm 5 w = true -> log_room 2 (idb w) = true -> key_room 2 store k ->
  exists w1 w2 l1 l2,
    put store v1 w = (Resolved v1, w1)
    /\ put store v2 w1 = (Resolved v2, w2)
    /\ fst (get store k w2) = Resolved (Some v2)
    /\ (forall k', k' <> k ->
                   (store = "logs" -> k' <> KNum (log_keygen (idb w1))) ->
                   record_at store k' (idb w2) = record_at store k' (idb w1))
    /\ fst (getAll store None None w1) = Resolved l1
    /\ fst (getAll store None None w2) = Resolved l2
    /\ In v2 l2
    /\ (store <> "logs" -> List.length l2 = List.length l1)
    /\ (store = "logs" ->
        List.length l2 = S (List.length l1)
        /\ record_at "logs" (KNum (log_keygen (idb w1))) (idb w2)
           = Some (log_entry "put" (JObj [("store", JStr "logs"); ("value", v2)])
                             (now w) (log_keygen (idb w1)))).
Proof.
  intros Hready Hin Hk1 Hk2 Hcalm Hroom Hkey.
  assert (Hcalm4 : calm 4 w = true) by (apply calm_less; exact Hcalm).
  assert (Hcalm3 : calm 3 w = true) by (apply calm_less; exact Hcalm4).
  assert (Hcalm2 : calm 2 w = true) by (apply calm_less; exact Hcalm3).
  assert (Hroom1 : log_room 1 (idb w) = true)
    by (apply (calm_less_room 1 2); [lia | exact Hroom]).
  assert (Hkey1 : key_room 1 store k) by (apply (key_room_less 1 2); [lia | exact Hkey]).
  destruct (put_keyed_effect store v1 k w Hready Hin Hk1 Hcalm2 Hroom1 Hkey1)
    as (w1 & d1 & g1 & Hput1 & Hready1 & Hf1 & Hnow1 & Hrec1 & _ & _ & Hbelow1 & Hfree1
        & Hlogs1 & Held1 & Hgen1 & Hrooms1).
  assert (Hc1 : calm 2 w1 = true) by (eapply (calm_skip 2 w); eassumption).
  assert (Hroom1' : log_room 1 (idb w1) = true) by (apply (Hrooms1 1); [lia | auto | auto]).
  destruct (put_keyed_effect store v2 k w1 Hready1 Hin Hk2 Hc1 Hroom1' Hkey1)
    as (w2 & d2 & g2 & Hput2 & Hready2 & Hf2 & _ & Hrec2 & _ & Hg2 & Hbelow2 & Hfree2
        & Hlogs2 & Held2 & _ & _).
  assert (Hg2' : g2 = log_keygen (idb w1)).
  { rewrite Hg2. destruct (String.eqb_spec store "logs") as [E | E]; [| reflexivity].
    apply bump_below. rewrite Hgen1.
    apply (below_weaken g1); [lia | apply Hbelow1; exact E]. }
  rewrite Hnow1 in Hlogs2. rewrite Hg2' in *.
  pose proof (ready_schema _ Hready1) as Hok1. pose proof (ready_schema _ Hready2) as Hok2.
  destruct (schema_find (idb w1) store Hok1 Hin) as (s1 & Hs1 & _).
  destruct (schema_find (idb w2) store Hok2 Hin) as (s2 & Hs2 & _).
  assert (Hr1 : records_of store (idb w1) = records s1)
    by (unfold records_of; rewrite Hs1; reflexivity).
  assert (Hr2 : records_of store (idb w2) = records s2)
    by (unfold records_of; rewrite Hs2; reflexivity).
  assert (Hread1 : calm 1 w1 = true) by (apply calm_less; exact Hc1).
  assert (Hread2 : calm 1 w2 = true).
  { eapply (calm_skip 1 w1); [| exact Hf2]. eapply (calm_skip 3 w); eassumption. }
  (* the collection after the second put *)
  set (G := log_keygen (idb w1)) in *.
  set (e2 := log_entry "put" (JObj [("store", JStr store); ("value", v2)]) (now w) G) in *.
  assert (Hfinal : records_of store (idb w2)
                   = if String.eqb store "logs"
                     then IDB.store (KNum G) e2 (IDB.store k v2 (records_of store (idb w1)))
                     else IDB.store k v2 (records_of store (idb w1))).
  { destruct (String.eqb_spec store "logs") as [E | E].
    - subst store. rewrite Hlogs2, Hrec2. reflexivity.
    - rewrite (Held2 store E), Hrec2. reflexivity. }
  assert (Hkg : store = "logs" -> k <> KNum G).
  { intros E. apply below_apart. apply Hbelow2. exact E. }
  assert (Hat : record_at store k (idb w2) = Some v2).
  { unfold record_at. rewrite Hfinal. destruct (String.eqb_spec store "logs") as [E | E].
    - rewrite lookup_store_other by (apply Hkg; exact E). apply lookup_store_same.
    - apply lookup_store_same. }
  exists w1, w2, (map snd (records s1)), (map snd (records s2)).
  split; [exact Hput1 |]. split; [exact Hput2 |].
  split; [| split; [| split; [| split; [| split; [| split]]]]].
  - rewrite (get_eq store k w2 s2 (ready_db _ Hready2) Hs2 (calm_reads _ Hread2)).
    simpl. unfold record_at in Hat. rewrite Hr2 in Hat. rewrite Hat. reflexivity.
  - intros k' Hk' Hlog. unfold record_at. rewrite Hfinal.
    destruct (String.eqb_spec store "logs") as [E | E].
    + rewrite lookup_store_other by (apply Hlog; exact E).
      apply lookup_store_other. exact Hk'.
    + apply lookup_store_other. exact Hk'.
  - rewrite (getAll_eq store w1 s1 (ready_db _ Hready1) Hs1 (calm_reads _ Hread1)).
    reflexivity.
  - rewrite (getAll_eq store w2 s2 (ready_db _ Hready2) Hs2 (calm_reads _ Hread2)).
    reflexivity.
  - apply in_map_iff. exists (k, v2). split; [reflexivity |].
    apply lookup_in. unfold record_at in Hat. rewrite Hr2 in Hat. exact Hat.
  - intros E. rewrite !length_map, <- Hr2, <- Hr1, Hfinal.
    apply String.eqb_neq in E. rewrite E.
    apply length_store_held.
    apply String.eqb_neq in E. rewrite (Held1 store E), Hrec1. apply held_store_same.
  - intros E. subst store. split.
    + rewrite !length_map, <- Hr2, <- Hr1, Hfinal. cbn [String.eqb Ascii.eqb Bool.eqb].
      rewrite store_absent.
      * rewrite length_insert. f_equal. apply length_store_held.
        rewrite Hlogs1, held_store_other, Hrec1; [apply held_store_same |].
        intros Heq. apply (below_apart g1 k); [apply Hbelow1; reflexivity | auto].
      * rewrite <- Hrec2. exact Hfree2.
    + unfold record_at. rewrite Hfinal. cbn [String.eqb Ascii.eqb Bool.eqb].
      apply lookup_store_same.
Qed.

End Twice.

Section TwiceWitness.
Import IDB DataLayer Contract.

Lemma put_twice_overwrites_witness :
  (exists w1 w2 l1 l2,
      put "chats" Scenario.chat1 Scenario.opened = (Resolved Scenario.chat1, w1)
      /\ put "chats" Scenario.chat1b w1 = (Resolved Scenario.chat1b, w2)
      /\ fst (get "chats" (KStr "c1") w2) = Resolved (Some Scenario.chat1b)
      /\ (forall k', k' <> KStr "c1" ->
                     ("chats" = "logs" -> k' <> KNum (log_keygen (idb w1))) ->
                     record_at "chats" k' (idb w2) = record_at "chats" k' (idb w1))
      /\ fst (getAll "chats" None None w1) = Resolved l1
      /\ fst (getAll "chats" None None w2) = Resolved l2
      /\ In Scenario.chat1b l2
      /\ ("chats" <> "logs" -> List.length l2 = List.length l1)
      /\ ("chats" = "logs" ->
          List.length l2 = S (List.length l1)
          /\ record_at "logs" (KNum (log_keygen (idb w1))) (idb w2)
             = Some (log_entry "put"
                       (JObj [("store", JStr "logs"); ("value", Scenario.chat1b)])
                       (now Scenario.opened) (log_keygen (idb w1)))))
  /\ (exists w1 w2 l1 l2,
        put "logs" Scenario.entry1 Scenario.opened = (Resolved Scenario.entry1, w1)
        /\ put "logs" Scenario.entry1b w1 = (Resolved Scenario.entry1b, w2)
        /\ fst (get "logs" (KNum 1) w2) = Resolved (Some Scenario.entry1b)
        /\ (forall k', k' <> KNum 1 ->
                       ("logs" = "logs" -> k' <> KNum (log_keygen (idb w1))) ->
                       record_at "logs" k' (idb w2) = record_at "logs" k' (idb w1))
        /\ fst (getAll "logs" None None w1) = Resolved l1
        /\ fst (getAll "logs" None None w2) = Resolved l2
        /\ In Scenario.entry1b l2
        /\ ("logs" <> "logs" -> List.length l2 = List.length l1)
        /\ ("logs" = "logs" ->
            List.length l2 = S (List.length l1)
            /\ record_at "logs" (KNum (log_keygen (idb w1))) (idb w2)
               = Some (log_entry "put"
                         (JObj [("store", JStr "logs"); ("value", Scenario.entry1b)])
                         (now Scenario.opened) (log_keygen (idb w1))))).
Proof.
  split.
  - apply (put_twice_overwrites "chats" Scenario.chat1 Scenario.chat1b (KStr "c1")
             Scenario.opened).
    + vm_compute. reflexivity.
    + simpl. auto.
    + reflexivity.
    + reflexivity.
    + reflexivity.
    + vm_compute. reflexivity.
    + intros E. discriminate E.
  - apply (put_twice_overwrites "logs" Scenario.entry1 Scenario.entry1b (KNum 1)
             Scenario.opened).
    + vm_compute. reflexivity.
    + simpl. auto 10.
    + reflexivity.
    + reflexivity.
    + reflexivity.
    + vm_compute. reflexivity.
    + intros _ i [= <-]. vm_compute. discriminate.
Defined.

End TwiceWitness.

Section RoundTrip.
Import IDB DataLayer Contract.

Lemma set_assoc_length {A} name (x : A) l :
  assoc name l = None -> List.length (set_assoc name x l) = S (List.length l).
Proof.
  induction l as [| [n y] t IH]; simpl; [reflexivity |].
  destruct (String.eqb n name); [discriminate |]. intros H. simpl. rewrite IH by exact H.
  reflexivity.
Qed.

Lemma set_assoc_adds {A} name (x : A) l : assoc name l = None -> set_assoc name x l <> l.
Proof.
  intros H E. apply (f_equal (@List.length _)) in E.
  rewrite set_assoc_length in E by exact H. lia.
Qed.

(** What a put into logs of a record without an id leaves, with the
    environment calm and room in the log. *)
Lemma put_unkeyed_log_effect fields w :
  ready w = true -> calm 2 w = true -> log_room 2 (idb w) = true ->
  assoc "id" fields = None ->
  exists w',
    put "logs" (JObj fields) w = (Resolved (JObj fields), w')
    /\ ready w' = true
    /\ fates w' = tl (tl (fates w))
    /\ record_at "logs" (KNum (log_keygen (idb w))) (idb w')
       = Some (JObj (set_assoc "id" (JNum (log_keygen (idb w))) fields)).
Proof.
  intros Hready Hcalm Hroom Hid.
  pose proof (ready_schema w Hready) as Hok.
  destruct (schema_find _ _ Hok stores_logs) as (s & Hs & Hspec).
  assert (Hg : log_keygen (idb w) = keygen s) by (unfold log_keygen; rewrite Hs; reflexivity).
  assert (Hmax : keygen s + 2 <= MAX_GENERATED + 1).
  { unfold log_room in Hroom. apply andb_true_iff in Hroom as [H _].
    apply Z.leb_le in H. lia. }
  set (g := keygen s) in *.
  set (s1 := mkStore (spec s)
                     (IDB.store (KNum g) (set_prop "id" (JNum g) (JObj fields)) (records s))
                     (g + 1)).
  assert (Hput : IDB.put "logs" (JObj fields) ReadWrite (idb w)
                 = Succeeds tt (set_store "logs" s1 (idb w))).
  { unfold IDB.put, write. rewrite Hs.
    unfold check_value, extract_key. rewrite Hspec.
    change (keyPath (createObjectStore "logs")) with "id".
    change (autoIncrement (createObjectStore "logs")) with true.
    cbn [get_prop]. rewrite Hid.
    unfold store_record. fold g.
    assert (Hlt : (MAX_GENERATED <? g) = false) by (apply Z.ltb_ge; lia).
    rewrite Hlt. cbn [negb andb]. subst s1. rewrite Hspec. reflexivity. }
  set (d' := set_store "logs" s1 (idb w)) in *.
  assert (Hs1 : find_store "logs" d' = Some s1) by (apply (find_store_set_same _ s); exact Hs).
  assert (Hfree1 : lookup (KNum (keygen s1)) (records s1) = None).
  { subst s1. cbn [keygen records]. rewrite lookup_store_other by (intros [= H]; lia).
    apply (log_room_above 2 (idb w) s); [exact Hroom | exact Hs | fold g; lia]. }
  assert (Hmax1 : keygen s1 <= MAX_GENERATED) by (subst s1; cbn [keygen]; lia).
  assert (Hrun : exists w', run (Put "logs" (JObj fields)) w = (Resolved tt, w')).
  { eexists. apply (run_resolves (Put "logs" (JObj fields)) w d' s1 Hready Hcalm I); auto.
    - intros st [= <-]. exact stores_logs.
    - cbn [requests_of apply_all]. rewrite Hput. reflexivity. }
  destruct Hrun as (w' & Hrun).
  destruct (run_logged _ w w' Hready (calm_log_commits _ Hcalm) Hrun)
    as (d2 & s2 & Happ2 & Hs2 & _ & _ & Hidb).
  cbn [requests_of apply_all] in Happ2. rewrite Hput in Happ2.
  injection Happ2 as <-. assert (s2 = s1) by congruence. subst s2.
  exists w'. split; [rewrite put_run, Hrun; reflexivity |].
  split; [eapply run_ready; eassumption |].
  split; [eapply run_fates; eassumption |].
  rewrite Hidb, Hg. fold g.
  rewrite (record_at_set_same "logs" s1 _ _ d' Hs1).
  unfold logs_after. cbn [records keygen s1].
  rewrite lookup_store_other by (intros [= H]; lia).
  apply lookup_store_same.
Qed.

(** C9, as claimed, fails for a record of logs without an id, the shape
    of the entries the engine itself writes: the key is generated, and
    what put stores is the record with the id added, not the record; put
    returns the record as given, which is not the stored one. *)
Lemma put_returns_what_is_not_stored :
  fst (put "logs" Cases.note Scenario.opened) = Resolved Cases.note
  /\ fst (getAll "logs" None None (snd (put "logs" Cases.note Scenario.opened)))
     = Resolved [JObj [("action", JStr "note"); ("payload", JNull); ("time", JNum 7);
                       ("id", JNum 1)];
                 log_entry "put" (JObj [("store", JStr "logs"); ("value", Cases.note)])
                           1000 2]
  /\ fst (get "logs" (KNum 1) (snd (put "logs" Cases.note Scenario.opened)))
     = Resolved (Some (JObj [("action", JStr "note"); ("payload", JNull); ("time", JNum 7);
                             ("id", JNum 1)])).
Proof. repeat split; vm_compute; reflexivity. Qed.

(** C9, amended. On the open engine, for a record r that carries a key
    for its collection (any collection, logs with an explicit id
    included), a put that resolves returns r, and r itself is what the
    collection holds under that key: a get of the key that follows
    returns r; with the environment calm and room in the log the put
    does resolve. For a record of logs without an id the key is
    generated: put resolves and returns the record as given, but the
    record stored, which get returns for the generated key, is the
    record with the id added, and so another one. *)
Theorem put_get_roundtrip w :
  ready w = true ->
  (forall store r k,
      In store STORES -> record_key store r = Some k ->
      (forall v w',
          put store r w = (Resolved v, w') ->
          v = r
          /\ record_at store k (idb w') = Some r
          /\ (calm 1 w' = true -> fst (get store k w') = Resolved (Some r)))
      /\ (calm 2 w = true -> log_room 1 (idb w) = true -> key_room 1 store k ->
          exists w', put store r w = (Resolved r, w')))
  /\ (forall fields,
        assoc "id" fields = None ->
        calm 3 w = true -> log_room 2 (idb w) = true ->
        exists w',
          put "logs" (JObj fields) w = (Resolved (JObj fields), w')
          /\ fst (get "logs" (KNum (log_keygen (idb w))) w')
             = Resolved (Some (JObj (set_assoc "id" (JNum (log_keygen (idb w))) fields)))
          /\ JObj (set_assoc "id" (JNum (log_keygen (idb w))) fields) <> JObj fields).
Proof.
  intros Hready. split.
  - intros store r k Hin Hk. split.
    + intros v w' Hput. apply put_resolved in Hput as [-> Hrun].
      pose proof (run_shows _ _ _ Hready Hrun Hin k Hk) as Hat.
      repeat split; [exact Hat |].
      intros Hcalm. destruct (record_at_found _ _ _ _ Hat) as (s & Hs & Hl).
      rewrite (get_eq store k w' s); [simpl; congruence | | exact Hs |].
      * apply ready_db. eapply run_ready; eassumption.
      * apply calm_reads. exact Hcalm.
    + intros Hcalm Hroom Hkey.
      destruct (put_keyed_effect store r k w Hready Hin Hk Hcalm Hroom Hkey)
        as (w' & _ & _ & Hput & _).
      exists w'. exact Hput.
  - intros fields Hid Hcalm Hroom.
    assert (Hcalm2 : calm 2 w = true) by (apply calm_less; exact Hcalm).
    destruct (put_unkeyed_log_effect fields w Hready Hcalm2 Hroom Hid)
      as (w' & Hput & Hready' & Hfates & Hat).
    exists w'. split; [exact Hput |]. split.
    + destruct (record_at_found _ _ _ _ Hat) as (s & Hs & Hl).
      rewrite (get_eq "logs" _ w' s (ready_db _ Hready') Hs); [simpl; congruence |].
      apply calm_reads. eapply (calm_skip 1 w); eassumption.
    + intros [= E]. exact (set_assoc_adds _ _ _ Hid E).
Qed.

Lemma put_get_roundtrip_witness :
  (forall v w',
      put "chats" Scenario.chat1 Scenario.opened = (Resolved v, w') ->
      v = Scenario.chat1
      /\ record_at "chats" (KStr "c1") (idb w') = Some Scenario.chat1
      /\ (calm 1 w' = true ->
          fst (get "chats" (KStr "c1") w') = Resolved (Some Scenario.chat1)))
  /\ (exists w', put "chats" Scenario.chat1 Scenario.opened = (Resolved Scenario.chat1, w'))
  /\ (exists w', put "logs" Scenario.entry1 Scenario.opened = (Resolved Scenario.entry1, w'))
  /\ (exists w',
        put "logs" Cases.note Scenario.opened = (Resolved Cases.note, w')
        /\ fst (get "logs" (KNum (log_keygen (idb Scenario.opened))) w')
           = Resolved (Some (JObj (set_assoc "id" (JNum (log_keygen (idb Scenario.opened)))
                                             [("action", JStr "note"); ("payload", JNull);
                                              ("time", JNum 7)])))
        /\ JObj (set_assoc "id" (JNum (log_keygen (idb Scenario.opened)))
                           [("action", JStr "note"); ("payload", JNull); ("time", JNum 7)])
           <> Cases.note).
Proof.
  assert (Hready : ready Scenario.opened = true) by (vm_compute; reflexivity).
  assert (Hcalm : forall n, calm n Scenario.opened = true)
    by (intros n; unfold calm; simpl; rewrite firstn_nil; reflexivity).
  assert (Hroom : forall n, (n =? 1) || (n =? 2) = true ->
                            log_room n (idb Scenario.opened) = true).
  { intros n H. apply orb_true_iff in H.
    destruct H as [H | H]; apply Z.eqb_eq in H; subst n; vm_compute; reflexivity. }
  pose proof (put_get_roundtrip Scenario.opened Hready) as [Hkeyed Hunkeyed].
  split; [| split; [| split]].
  - apply (proj1 (Hkeyed "chats" Scenario.chat1 (KStr "c1")
                         ltac:(simpl; auto) eq_refl)).
  - apply (proj2 (Hkeyed "chats" Scenario.chat1 (KStr "c1")
                         ltac:(simpl; auto) eq_refl)).
    + apply Hcalm.
    + apply Hroom. reflexivity.
    + intros E. discriminate E.
  - apply (proj2 (Hkeyed "logs" Scenario.entry1 (KNum 1)
                         ltac:(simpl; auto 10) eq_refl)).
    + apply Hcalm.
    + apply Hroom. reflexivity.
    + intros _ i [= <-]. vm_compute. discriminate.
  - apply (Hunkeyed [("action", JStr "note"); ("payload", JNull); ("time", JNum 7)]).
    + reflexivity.
    + apply Hcalm.
    + apply Hroom. reflexivity.
Defined.

End RoundTrip.

(* ===================================================================== *)
(** ** When the transaction of a write aborts, in every way it can *)
(* ===================================================================== *)

Section OwnTransaction.
Import IDB DataLayer Contract.

Lemma request_all_fails ops e0 :
  forall tx,
    tx_fate tx = TxOk -> tx_mode tx = ReadWrite -> tx_aborted tx = None ->
    first_failure ops (tx_work tx) = Some e0 ->
    tx_aborted (snd (request_all ops tx)) = Some e0.
Proof.
  induction ops as [| op rest IH]; intros tx Hf Hm Ha Hfirst; [discriminate |].
  cbn [first_failure request_all] in *. unfold request. rewrite Hm, Ha.
  destruct (op ReadWrite (tx_work tx)) as [e | e | a d] eqn:Eop.
  - destruct (request_all rest tx) as [es tx'] eqn:Er. cbn [snd].
    change tx' with (snd (es, tx')). rewrite <- Er. apply IH; assumption.
  - injection Hfirst as ->. unfold fails_now. rewrite Hf.
    rewrite (request_all_aborted rest (abort e0 tx) e0 eq_refl). reflexivity.
  - unfold fails_now. rewrite Hf. apply IH; auto.
Qed.

Lemma await_all_fails r w e0 :
  tx_aborted (snd r) = Some e0 ->
  exists e, await_all r w = (Rejected e, w) /\ (fst r = [] -> e = e0).
Proof.
  intros Ha. unfold await_all, settle.
  rewrite (aborted_never_commits (snd r)) by congruence. rewrite Ha.
  destruct (fst r) as [| e1 es].
  - exists e0. auto.
  - exists e1. split; [reflexivity | discriminate].
Qed.

Lemma first_failure_unknown store vs d :
  find_store store d = None -> first_failure (map (IDB.put store) vs) d = None.
Proof.
  intros H. induction vs as [| v t IH]; [reflexivity |].
  cbn [map first_failure]. unfold IDB.put at 1, write. rewrite H. exact IH.
Qed.

Lemma first_failure_clears names d : first_failure (map IDB.clear names) d = None.
Proof.
  revert d. induction names as [| n t IH]; intros d; [reflexivity |].
  cbn [map first_failure]. unfold IDB.clear at 1.
  destruct (find_store n d); [apply IH | apply IH].
Qed.

Lemma first_failure_defined ops d d' : apply_all ops d = Some d' -> first_failure ops d = None.
Proof.
  revert d. induction ops as [| op rest IH]; intros d; [reflexivity |].
  cbn [apply_all first_failure]. destruct (op ReadWrite d); try discriminate. apply IH.
Qed.

Lemma first_failure_last ops op e :
  Forall engine_op ops ->
  forall d,
    (forall d' e', same_schema d d' -> op ReadWrite d' <> Fails e') ->
    first_failure (ops ++ [op]) d = Some e -> first_failure ops d = Some e.
Proof.
  induction 1 as [| o rest Ho _ IH]; intros d Hop Hfirst.
  - cbn [app first_failure] in Hfirst.
    destruct (op ReadWrite d) eqn:E; try discriminate.
    exfalso. injection Hfirst as ->. eapply Hop; [apply same_schema_refl | exact E].
  - cbn [app first_failure] in *.
    destruct (o ReadWrite d) as [e1 | e1 | a d1] eqn:E; auto.
    apply IH; [| exact Hfirst].
    intros d' e' Hsame. apply Hop.
    eapply same_schema_trans; [| exact Hsame]. eapply engine_op_schema; eauto.
Qed.

(** The operation's own transaction when one of its requests fails by
    itself: the operation rejects and nothing is written. *)
Lemma data_phase_fails m w e0 :
  ready w = true -> next_fate w = TxOk ->
  first_failure (requests_of m w) (idb w) = Some e0 ->
  exists e wc,
    data_phase m w = (Rejected e, wc)
    /\ idb wc = idb w /\ delivered wc = delivered w /\ db wc = db w
    /\ (nothing_thrown m w = true -> e = e0).
Proof.
  intros Hready Hfate Hfirst. pose proof (ready_db _ Hready) as Hdb.
  pose proof (ready_schema _ Hready) as Hok.
  assert (Hfresh : forall w0, next_fate w0 = TxOk ->
                              tx_fate (fresh_tx ReadWrite w0) = TxOk)
    by (intros w0 H; exact H).
  destruct m as [store v | store vs | store k | |]; cbn [requests_of] in Hfirst.
  - cbn [first_failure] in Hfirst.
    destruct (IDB.put store v ReadWrite (idb w)) as [e | e | a d] eqn:Eop; try discriminate.
    injection Hfirst as ->.
    assert (Hc : contains store (idb w) = true).
    { unfold contains. unfold IDB.put, write in Eop.
      destruct (find_store store (idb w)); [reflexivity | discriminate]. }
    exists e0, (pop w). split; [| auto].
    unfold data_phase. unfold bind at 1. rewrite (transaction_connected _ _ _ Hdb).
    rewrite begin_tx_eq by (cbn [forallb]; rewrite Hc; reflexivity).
    unfold bind at 1. unfold await_request, request. cbn [tx_mode tx_work tx_aborted fresh_tx].
    rewrite Eop. unfold fails_now.
    change (tx_fate (fresh_tx ReadWrite w)) with (next_fate w). rewrite Hfate.
    reflexivity.
  - destruct (find_store store (idb w)) as [s |] eqn:Es;
      [| rewrite (first_failure_unknown store vs _ Es) in Hfirst; discriminate].
    pose proof (request_all_fails _ e0 (fresh_tx ReadWrite w) Hfate eq_refl eq_refl Hfirst)
      as Hab.
    destruct (await_all_fails (request_all (map (IDB.put store) vs) (fresh_tx ReadWrite w))
                (pop w) e0 Hab) as (e & Hrun & He).
    exists e, (pop w). split; [| repeat split].
    + unfold data_phase. unfold bind at 1. rewrite (transaction_connected _ _ _ Hdb).
      rewrite begin_tx_eq by (cbn [forallb]; unfold contains; rewrite Es; reflexivity).
      unfold bind at 1. rewrite Hrun. reflexivity.
    + intros Hn. apply He. unfold nothing_thrown in Hn. apply negb_true_iff in Hn.
      apply request_all_no_throw; [| reflexivity | exact Hn].
      apply Forall_forall. intros op Hop. apply in_map_iff in Hop.
      destruct Hop as (x & <- & _). apply (op_write true).
  - exfalso. cbn [first_failure] in Hfirst. unfold IDB.delete in Hfirst.
    destruct (find_store store (idb w)); discriminate.
  - rewrite first_failure_clears in Hfirst. discriminate.
  - destruct (seed_json w) as [e | data] eqn:Ejson; [discriminate |].
    pose proof (seed_requests_engine data) as Heng.
    apply first_failure_last in Hfirst; [| exact Heng |].
    2:{ intros d' e' Hsame Hop.
        assert (Hk : record_key "meta" (seeded_marker (now w)) <> None) by discriminate.
        destruct (keyed_put_succeeds "meta" (seeded_marker (now w)) (idb w) Hok
                    stores_meta Hk d' Hsame) as (d2 & Hd2).
        congruence. }
    set (w0 := set_fetched (S (fetched w)) w).
    pose proof (request_all_fails _ e0 (fresh_tx ReadWrite w0) Hfate eq_refl eq_refl Hfirst)
      as Hab.
    destruct (await_all_fails (request_all (seed_requests data) (fresh_tx ReadWrite w0))
                (pop w0) e0 Hab) as (e & Hrun & He).
    exists e, (pop w0). split; [| repeat split].
    + unfold data_phase. unfold bind at 1. unfold fetch_seed. rewrite Ejson. fold w0.
      unfold bind at 1. rewrite this_db_transaction_connected by exact Hdb.
      rewrite begin_tx_eq by (apply schema_contains; [exact Hok | apply incl_refl]).
      unfold bind at 1. rewrite Hrun. reflexivity.
    + intros Hn. apply He. unfold nothing_thrown in Hn. apply negb_true_iff in Hn.
      cbn [requests_of] in Hn. rewrite Ejson, existsb_app in Hn.
      apply orb_false_iff in Hn. destruct Hn as [Hn _].
      apply request_all_no_throw; [exact Heng | reflexivity | exact Hn].
Qed.

Lemma keyed_never_fails m w :
  ready w = true -> keyed m -> first_failure (requests_of m w) (idb w) = None.
Proof.
  intros Hready Hkeyed. pose proof (ready_schema _ Hready) as Hok.
  destruct m as [store v | store vs | store k | |]; cbn [requests_of keyed] in *.
  - destruct Hkeyed as [Hin Hk].
    destruct (keyed_put_succeeds store v (idb w) Hok Hin Hk (idb w) (same_schema_refl _))
      as (d' & Hput).
    cbn [first_failure]. rewrite Hput. reflexivity.
  - destruct Hkeyed as [Hin Hk].
    destruct (apply_all_defined (idb w) (map (IDB.put store) vs)) with (d := idb w)
      as (d' & Happ).
    + apply Forall_forall. intros op Hop. apply in_map_iff in Hop.
      destruct Hop as (v & <- & _). apply (op_write true).
    + apply Forall_forall. intros op Hop. apply in_map_iff in Hop.
      destruct Hop as (v & <- & Hv). apply keyed_put_succeeds; auto.
    + apply same_schema_refl.
    + eapply first_failure_defined. exact Happ.
  - cbn [first_failure]. unfold IDB.delete. destruct (find_store store (idb w)); reflexivity.
  - apply first_failure_clears.
  - destruct Hkeyed.
Qed.

Lemma log_failure_rejects a p w s e0 :
  db w = true -> find_store "logs" (idb w) = Some s -> spec s = createObjectStore "logs" ->
  log_failure w = Some e0 -> recordLog a p w = (Rejected e0, pop w).
Proof.
  intros Hdb Hs Hspec Hfail. rewrite (recordLog_eq a p w s Hdb Hs Hspec).
  unfold log_failure, log_keygen, records_of in Hfail. rewrite Hs in Hfail.
  unfold fails_now. change (tx_fate (fresh_tx ReadWrite w)) with (next_fate w).
  change (tx_issued (fresh_tx ReadWrite w)) with 0%nat.
  destruct (next_fate w) as [| [| i] e | e].
  - destruct ((MAX_GENERATED <? keygen s) || mem (KNum (keygen s)) (records s));
      [congruence | discriminate].
  - cbn [Nat.eqb]. congruence.
  - cbn [Nat.eqb].
    destruct ((MAX_GENERATED <? keygen s) || mem (KNum (keygen s)) (records s));
      [congruence | discriminate].
  - destruct ((MAX_GENERATED <? keygen s) || mem (KNum (keygen s)) (records s));
      [congruence | discriminate].
Qed.

(** C1, amended. On the open engine, when the own transaction of a put,
    bulkPut, delete, clearAll or seed aborts (the environment keeps it
    from committing or fails one of the requests queued in it, or one of
    its requests fails by itself), the operation rejects, the database
    is as it was, with no log entry, and no listener is called; a getAll
    that follows returns what the collection held before. The rejection
    carries the failure that aborted the transaction when the records
    of a put, bulkPut, delete or clearAll all carry a key, and also when
    a request failed by itself and none was refused at the call. When
    the own transaction has committed and the write of the log entry
    then fails, the operation rejects with that failure and no listener
    is called, but the database keeps what the transaction committed:
    it is what the requests of the operation made of it. *)
Theorem aborted_transaction_changes_nothing m w :
  ready w = true ->
  (forall e0,
      transaction_aborts m w e0 ->
      exists e w',
        run m w = (Rejected e, w')
        /\ idb w' = idb w
        /\ delivered w' = delivered w
        /\ (keyed m -> e = e0)
        /\ (next_fate w = TxOk -> nothing_thrown m w = true -> e = e0)
        /\ (forall store l w2,
              getAll store None None w' = (Resolved l, w2) ->
              l = map snd (records_of store (idb w))))
  /\ (forall wc e0,
        data_phase m w = (Resolved tt, wc) -> log_failure wc = Some e0 ->
        exists w' d',
          run m w = (Rejected e0, w')
          /\ apply_all (requests_of m w) (idb w) = Some d'
          /\ idb w' = d'
          /\ delivered w' = delivered w).
Proof.
  intros Hready. split.
  - intros e0 Hab.
    assert (Hdata : exists e wc,
               data_phase m w = (Rejected e, wc)
               /\ idb wc = idb w /\ delivered wc = delivered w /\ db wc = db w
               /\ (keyed m -> e = e0)
               /\ (next_fate w = TxOk -> nothing_thrown m w = true -> e = e0)).
    { destruct Hab as [Henv | Hfate Hfirst].
      - destruct (data_phase_aborts m w e0 Hready Henv) as (e & wc & Hrun & Hi & Hd & Hb & He).
        exists e, wc. repeat split; try assumption.
        intros Hfate _. exfalso.
        destruct (aborts_doom m w e0 Henv) as [H | [i H]]; congruence.
      - destruct (data_phase_fails m w e0 Hready Hfate Hfirst)
          as (e & wc & Hrun & Hi & Hd & Hb & He).
        exists e, wc. repeat split; try assumption.
        + intros Hkeyed. rewrite (keyed_never_fails m w Hready Hkeyed) in Hfirst.
          discriminate.
        + intros _. exact He. }
    destruct Hdata as (e & wc & Hrun & Hi & Hd & Hb & He & He').
    exists e, wc. rewrite run_split.
    rewrite (bind_rejected _ _ _ _ _ Hrun).
    repeat split; try assumption.
    intros store l w2 Hget. rewrite <- Hi.
    eapply getAll_resolved; [| exact Hget].
    rewrite Hb. apply ready_db. exact Hready.
  - intros wc e0 Hdata Hfail.
    destruct (data_phase_keeps (same_schema (idb w)) m w (Resolved tt) wc)
      as ((Hdb & _) & Hsame & Hdel); auto.
    { apply ready_db. exact Hready. }
    { apply same_schema_refl. }
    { intros op d a d' Hin HP Hop. eapply same_schema_trans; [exact HP |].
      eapply engine_op_schema; [| exact Hop]. eapply requests_of_engine; eauto. }
    pose proof (same_schema_ok _ _ Hsame (ready_schema _ Hready)) as Hok.
    destruct (schema_find _ _ Hok stores_logs) as (s & Hs & Hspec).
    assert (Hdbc : db wc = true) by (rewrite Hdb; apply ready_db; exact Hready).
    destruct (data_phase_resolved m w wc (ready_db _ Hready) Hdata) as (d' & Happ & Hwc & _).
    exists (pop wc), d'.
    split; [| split; [exact Happ | split; [rewrite Hwc; reflexivity | exact Hdel]]].
    rewrite run_split. rewrite (bind_step _ _ _ _ _ Hdata).
    unfold bind at 1.
    rewrite (log_failure_rejects _ _ wc s e0 Hdbc Hs Hspec Hfail). reflexivity.
Qed.

Lemma aborted_transaction_changes_nothing_witness :
  (let m := BulkPut "chats" [Scenario.chat1; Scenario.chat2; Scenario.chat3] in
   let w := Scenario.second_request_fails in
   exists e w',
     run m w = (Rejected e, w')
     /\ idb w' = idb w
     /\ delivered w' = delivered w
     /\ (keyed m -> e = QuotaExceededError)
     /\ (next_fate w = TxOk -> nothing_thrown m w = true -> e = QuotaExceededError)
     /\ (forall store l w2,
           getAll store None None w' = (Resolved l, w2) ->
           l = map snd (records_of store (idb w))))
  /\ (let m := Put "logs" Cases.note in
      let w := Cases.exhausted in
      exists e w',
        run m w = (Rejected e, w')
        /\ idb w' = idb w
        /\ delivered w' = delivered w
        /\ (keyed m -> e = ConstraintError)
        /\ (next_fate w = TxOk -> nothing_thrown m w = true -> e = ConstraintError)
        /\ (forall store l w2,
              getAll store None None w' = (Resolved l, w2) ->
              l = map snd (records_of store (idb w))))
  /\ (let m := Put "chats" Scenario.chat1 in
      let w := Scenario.log_write_fails in
      exists w' d',
        run m w = (Rejected QuotaExceededError, w')
        /\ apply_all (requests_of m w) (idb w) = Some d'
        /\ idb w' = d'
        /\ delivered w' = delivered w).
Proof.
  split; [| split].
  - apply (proj1 (aborted_transaction_changes_nothing
                    (BulkPut "chats" [Scenario.chat1; Scenario.chat2; Scenario.chat3])
                    Scenario.second_request_fails ltac:(vm_compute; reflexivity))
                 QuotaExceededError).
    apply aborted_by_environment.
    apply (abort_on_request _ _ _ 1%nat); [reflexivity | vm_compute; lia].
  - apply (proj1 (aborted_transaction_changes_nothing
                    (Put "logs" Cases.note) Cases.exhausted
                    ltac:(vm_compute; reflexivity))
                 ConstraintError).
    apply aborted_by_request; vm_compute; reflexivity.
  - apply (proj2 (aborted_transaction_changes_nothing
                    (Put "chats" Scenario.chat1) Scenario.log_write_fails
                    ltac:(vm_compute; reflexivity))
                 (snd (data_phase (Put "chats" Scenario.chat1) Scenario.log_write_fails))
                 QuotaExceededError).
    + vm_compute. reflexivity.
    + vm_compute. reflexivity.
Defined.

End OwnTransaction.
